(** * EZ File Manager: the filesystem-traversal engine

    A shallow embedding of the parts of the file manager that list
    directories and archives, run copy/move batches with progress and
    compute folder sizes lazily:

    - [get-directory-contents] and [handleArchiveBrowsing] (main process),
    - the [batch-file-operation] handler (main process),
    - [trimCache], [scheduleVisibleFolderSizes], [enqueueFolderSize] and
      [drainFolderSizeQueue] (renderer),
    - the handlers for one item ([copy-item], [move-item], [delete-item],
      [create-folder], [create-file], [get-item-info]) and the renderer's
      functions for paths, quick access, tags, selection, tabs and the order
      of the rendered items.

    Conventions.  JavaScript strings are modelled as [string] (sequences of
    bytes, UTF-8): the only characters the code inspects are the ASCII
    characters [/], [\] and [D], whose bytes never occur inside a multi-byte
    sequence, so splitting, prefix tests and slicing agree with the UTF-16
    view.  Numbers that hold byte counts and timestamps are modelled as exact
    integers ([Z], [N]): they are far below 2^53, where doubles hold every
    integer.  A percentage is the rational ([Q]) that the double holds which
    the runtime computes for it; the quotient and the product it comes from
    are rounded, by the runtime's division and multiplication. *)

From Stdlib Require Import ZArith QArith Qminmax Strings.Ascii Strings.String.
From Stdlib Require Import Sorting.Sorted Sorting.Permutation Structures.OrdersEx.
From stdpp Require Import base option list gmap strings sorting.

Local Open Scope Z_scope.

(** ** Values of the host runtime *)

(** The result of [Date.prototype.getTime()]: an integral number of
    milliseconds, or [NaN] for an invalid date.  [NotANumber] also stands for
    a stored value that is not a number at all ([null], [undefined]): like
    [NaN] it is strictly equal to no time value. *)
Inductive JsTime :=
  | Millis (ms : Z)
  | NotANumber.

(** [a === b] on time values. *)
Definition strict_eq (a b : JsTime) : bool :=
  match a, b with
  | Millis x, Millis y => Z.eqb x y
  | _, _ => false
  end.

(** What an error object carries: [error.code] and [error.message]. *)
Record JsError := mkError { code : string; message : string }.

(** Functions of Node's [path] module and of the JavaScript runtime that the
    code calls and the repository does not define. *)
Class Host := {
  path_dirname : string → string;
  path_basename : string → string;
  path_join : string → string → string;
  path_extname : string → string;
  toLowerCase : string → string;
  (** [a.localeCompare(b, undefined, { sensitivity: "base" })] *)
  localeCompare : string → string → Z;
  (** [parseInt(s, 10)], [None] for [NaN] *)
  parseInt10 : string → option Z;
  (** [new Date(s).getTime()] *)
  date_of_string : string → JsTime;
  (** [a / b] and [a * b] on numbers, which are doubles: the double that
      the runtime computes, given as the rational it holds, for finite
      operands and a finite result *)
  double_div : Q → Q → Q;
  double_mul : Q → Q → Q;
}.

(** ASCII case folding, used to say what [sensitivity: "base"] ignores. *)
Definition ascii_lower (c : ascii) : ascii :=
  let n := nat_of_ascii c in
  if (Nat.leb 65 n && Nat.leb n 90)%bool then ascii_of_nat (n + 32) else c.

Fixpoint fold_case (s : string) : string :=
  match s with
  | EmptyString => EmptyString
  | String c s' => String (ascii_lower c) (fold_case s')
  end.

(** A consistent comparator in the sense of [Array.prototype.sort], and one
    that does not see letter case. *)
Class Collation `{Host} : Prop := {
  localeCompare_total a b : localeCompare a b ≤ 0 ∨ localeCompare b a ≤ 0;
  localeCompare_trans a b c :
    localeCompare a b ≤ 0 → localeCompare b c ≤ 0 → localeCompare a c ≤ 0;
  localeCompare_case a b :
    localeCompare a b = localeCompare (fold_case a) (fold_case b);
}.

(** What rounding to the nearest double keeps: the order of the results,
    and a zero. *)
Class Rounding `{Host} : Prop := {
  double_div_le a b c : (0 < c → a <= b → double_div a c <= double_div b c)%Q;
  double_mul_le a b c : (0 <= c → a <= b → double_mul a c <= double_mul b c)%Q;
  double_div_zero c : (0 < c → double_div 0 c == 0)%Q;
  double_mul_zero c : (double_mul 0 c == 0)%Q;
}.

(** ** String primitives *)

(** [s.replace(/\\/g, '/')] *)
Fixpoint replace_backslashes (s : string) : string :=
  match s with
  | EmptyString => EmptyString
  | String c s' =>
      String (if Ascii.eqb c "\" then "/"%char else c) (replace_backslashes s')
  end.

(** [s.slice(n)] for [0 ≤ n] *)
Fixpoint slice_from (n : nat) (s : string) : string :=
  match n, s with
  | O, _ => s
  | S n', String _ s' => slice_from n' s'
  | S _, EmptyString => EmptyString
  end.

(** [s.split(sep)] for a one-character separator: never empty. *)
Fixpoint split_on (sep : ascii) (s : string) : list string :=
  match s with
  | EmptyString => [EmptyString]
  | String c s' =>
      if Ascii.eqb c sep then EmptyString :: split_on sep s'
      else match split_on sep s' with
           | seg :: segs => String c seg :: segs
           | [] => [String c EmptyString]
           end
  end.

(** [s.includes(c)] for a one-character needle. *)
Fixpoint includes_char (c : ascii) (s : string) : bool :=
  match s with
  | EmptyString => false
  | String c' s' => (Ascii.eqb c' c || includes_char c s')%bool
  end.

(** Truthiness of a possibly missing string property. *)
Definition truthy (o : option string) : bool :=
  match o with
  | Some s => negb (String.eqb s "")
  | None => false
  end.

(** ** Directory entries *)

Record Stats := mkStats {
  st_isFile : bool;
  st_isDirectory : bool;
  st_size : N;
  st_mtime : JsTime;
  st_birthtime : JsTime;
}.

Record Dirent := mkDirent {
  de_name : string;
  de_isDirectory : bool;
  de_isFile : bool;
  de_isSymbolicLink : bool;
}.

(** One element of [contents].  [isDirectory] and [isFile] hold the
    truthiness of the JavaScript values, which is all any reader of the
    object tests. *)
Record DirItem := mkItem {
  name : string;
  path : string;
  isDirectory : bool;
  isFile : bool;
  isSymlink : bool;
  linkTarget : option string;
  size : option Z;
  modified : option JsTime;
  created : option JsTime;
  extension : option string;
}.

(** ** Sorting a listing *)

(** [Array.prototype.sort] is stable; with a consistent comparator its
    result is the one stable sorted arrangement, computed here by insertion
    from the right. *)
Fixpoint insert_sorted {A} (cmp : A → A → Z) (x : A) (l : list A) : list A :=
  match l with
  | [] => [x]
  | y :: l' => if Z.leb (cmp x y) 0 then x :: l else y :: insert_sorted cmp x l'
  end.

Fixpoint array_sort {A} (cmp : A → A → Z) (l : list A) : list A :=
  match l with
  | [] => []
  | x :: l' => insert_sorted cmp x (array_sort cmp l')
  end.

(** The comparator passed to [contents.sort] in both listing paths. *)
Definition compareItems `{Host} (a b : DirItem) : Z :=
  if (isDirectory a && negb (isDirectory b))%bool then -1
  else if (negb (isDirectory a) && isDirectory b)%bool then 1
  else localeCompare (name a) (name b).

Definition sortContents `{Host} (contents : list DirItem) : list DirItem :=
  array_sort compareItems contents.

(** ** What the listing code reads from the outside *)

(** One block of the archive tool's [-slt] output, as the [Key = Value]
    lines of the block that the line pattern of the parser matched (a word,
    [ = ], the rest of the line), in order. *)
Definition Block := list (string * string).

(** The file system and the archive tool as one listing request sees them. *)
Class FsView := {
  view_stat : string → JsError + Stats;
  (** [fs.readdir(p, { withFileTypes: true })] *)
  view_readdir : string → JsError + list Dirent;
  view_readlink : string → JsError + string;
  (** the [7z l -slt] command on an archive; the flag selects the
      decompress-and-list-as-tar pipeline *)
  view_list_archive : bool → string → JsError + list Block;
}.

(** ** Listing the inside of an archive *)

Inductive Listing :=
  | ListOk (contents : list DirItem) (listedPath : string) (isArchive : bool)
  | ListErr (error : string).

Inductive Walk :=
  | WalkFound (archivePath internalPath : string)
  | WalkIsDirectory
  | WalkNotFound.

(** [string_ends_with suffix s] *)
Definition string_ends_with (suffix s : string) : bool :=
  String.prefix (String.rev suffix) (String.rev s).

(** [/\.(tar\.(gz|xz|bz2)|tgz|txz|tbz2)$/i.test(archivePath)] *)
Definition isCompressedTar (archivePath : string) : bool :=
  let p := fold_case archivePath in
  existsb (λ suffix, string_ends_with suffix p)
    [".tar.gz"; ".tar.xz"; ".tar.bz2"; ".tgz"; ".txz"; ".tbz2"].

(** The object built from one block: a later line overwrites an earlier one
    with the same key. *)
Definition entryOfBlock (block : Block) : gmap string string :=
  foldl (λ entry kv, <[kv.1 := kv.2]> entry) ∅ block.

Section Archive.
Context `{Host} `{FsView}.

(** The [while (depth < 20)] loop of [handleArchiveBrowsing]; [budget] is
    [20 - depth]. *)
Fixpoint walkUp (budget : nat) (archivePath internalPath : string) : Walk :=
  match budget with
  | O => WalkNotFound
  | S budget' =>
      match view_stat archivePath with
      | inr stats =>
          if st_isFile stats then WalkFound archivePath internalPath
          else if st_isDirectory stats then WalkIsDirectory
          else walkUp budget' archivePath internalPath
      | inl _ =>
          let parent := path_dirname archivePath in
          if String.eqb parent archivePath then WalkNotFound
          else
            let base := path_basename archivePath in
            walkUp budget' parent
              (if String.eqb internalPath "" then base
               else path_join base internalPath)
      end
  end.

(** The body of [for (const block of blocks)]: the state is [contents] and
    [seen]. *)
Definition archiveStep (fullPath normalizedInternal : string)
    (acc : list DirItem * gset string) (block : Block)
    : list DirItem * gset string :=
  let entry := entryOfBlock block in
  if negb (truthy (entry !! "Path")) then acc
  else
    let entryPath := replace_backslashes (default "" (entry !! "Path")) in
    if (negb (String.eqb normalizedInternal "")
        && negb (String.prefix (normalizedInternal +:+ "/") entryPath))%bool
    then acc
    else
      let relative :=
        if String.eqb normalizedInternal "" then entryPath
        else slice_from (String.length normalizedInternal + 1) entryPath in
      if String.eqb relative "" then acc
      else
        let parts := split_on "/" relative in
        let name := hd "" parts in
        if bool_decide (name ∈ acc.2) then acc
        else
          let isDirectChild := Nat.eqb (length parts) 1 in
          let isDir :=
            (negb isDirectChild
             || (truthy (entry !! "Attributes")
                 && includes_char "D" (default "" (entry !! "Attributes"))))%bool in
          (acc.1 ++ [ {| name := name;
                         path := path_join fullPath name;
                         isDirectory := isDir;
                         isFile := negb isDir;
                         isSymlink := false;
                         linkTarget := None;
                         size := if isDir then Some 0
                                 else parseInt10
                                        (if truthy (entry !! "Size")
                                         then default "" (entry !! "Size")
                                         else "0");
                         modified := if truthy (entry !! "Modified")
                                     then Some (date_of_string
                                                  (default "" (entry !! "Modified")))
                                     else None;
                         created := None;
                         extension := if isDir then None
                                      else Some (toLowerCase (path_extname name)) |} ],
           {[ name ]} ∪ acc.2).

Definition archiveContents (fullPath internalPath : string)
    (blocks : list Block) : list DirItem :=
  (foldl (archiveStep fullPath (replace_backslashes internalPath)) ([], ∅) blocks).1.

Definition handleArchiveBrowsing (fullPath : string) : Listing :=
  match walkUp 20 fullPath "" with
  | WalkIsDirectory => ListErr "Not a directory"
  | WalkNotFound => ListErr "Path not found"
  | WalkFound archivePath internalPath =>
      match view_list_archive (isCompressedTar archivePath) archivePath with
      | inl err =>
          ListErr ("Failed to read archive (7z required): " +:+ message err)
      | inr blocks =>
          ListOk (sortContents (archiveContents fullPath internalPath blocks))
                 fullPath true
      end
  end.

(** ** Listing a real directory *)

(** The object built for one directory entry; an entry that cannot be
    examined keeps empty metadata. *)
Definition describeItem (dirPath : string) (item : Dirent) : DirItem :=
  let fullPath := path_join dirPath (de_name item) in
  let stats := match view_stat fullPath with
               | inr st => Some st
               | inl _ => None
               end in
  let target := match stats with
                | Some _ =>
                    if de_isSymbolicLink item then
                      match view_readlink fullPath with
                      | inr t => Some t
                      | inl _ => None
                      end
                    else None
                | None => None
                end in
  {| name := de_name item;
     path := fullPath;
     isDirectory := de_isDirectory item;
     isFile := de_isFile item;
     isSymlink := de_isSymbolicLink item;
     linkTarget := target;
     size := Some (from_option (λ st, Z.of_N (st_size st)) 0 stats);
     modified := st_mtime <$> stats;
     created := st_birthtime <$> stats;
     extension := if de_isFile item
                  then Some (toLowerCase (path_extname (de_name item)))
                  else None |}.

Definition getDirectoryContents (dirPath : string) : Listing :=
  match view_readdir dirPath with
  | inr items =>
      ListOk (sortContents (map (describeItem dirPath) items)) dirPath false
  | inl error =>
      if (String.eqb (code error) "ENOTDIR" || String.eqb (code error) "ENOENT")%bool
      then handleArchiveBrowsing dirPath
      else ListErr (message error)
  end.
End Archive.

(** ** The transfer engine *)

Record TransferItem := mkTransfer { source : string; dest : string }.

(** A call to [fs.promises], as recorded in the order of issue. *)
Inductive FsCall :=
  | CallStat (p : string)
  | CallReaddir (p : string)
  | CallMkdir (p : string)
  | CallCopyFile (src dst : string)
  | CallRename (src dst : string)
  | CallRm (p : string).

(** The file-system operations of the batch handler.  Each one takes the
    world as it is when the call is made and gives back its result, or the
    error it rejects with, and the world afterwards. *)
Class FileSystem (World : Type) := {
  fs_stat : string → World → (JsError + Stats) * World;
  fs_readdir : string → World → (JsError + list string) * World;
  (** [fs.mkdir(p, { recursive: true })] *)
  fs_mkdir : string → World → (JsError + unit) * World;
  fs_copyFile : string → string → World → (JsError + unit) * World;
  fs_rename : string → string → World → (JsError + unit) * World;
  (** [fs.rm(p, { recursive: true, force: true })] *)
  fs_rm : string → World → (JsError + unit) * World;
}.

(** The variables of one invocation of the handler, the world, and three
    records of what it did, oldest first: the percentages sent on
    [file-operation-progress], the file-system calls, and, for the proofs
    only, the value that [processedBytes] had at each send. *)
Record Batch (World : Type) := mkBatch {
  world : World;
  totalBytes : N;
  processedBytes : N;
  totalFiles : N;
  processedFiles : N;
  itemSizes : gmap string N;
  progress : list Q;
  calls : list FsCall;
  sentAt : list N;
}.
Arguments mkBatch {World}.
Arguments world {World}.
Arguments totalBytes {World}.
Arguments processedBytes {World}.
Arguments totalFiles {World}.
Arguments processedFiles {World}.
Arguments itemSizes {World}.
Arguments progress {World}.
Arguments calls {World}.
Arguments sentAt {World}.

(** How a piece of the handler ends: with a value, with a thrown error, or
    not within the recursion depth the model was given. *)
Inductive Outcome (A : Type) :=
  | Returned (a : A)
  | Thrown (e : JsError)
  | Unfinished.
Arguments Returned {A}.
Arguments Thrown {A}.
Arguments Unfinished {A}.

Definition Run (World A : Type) : Type := Batch World → Outcome A * Batch World.

Global Instance run_ret {World} : MRet (Run World) :=
  λ A a b, (Returned a, b).

Global Instance run_bind {World} : MBind (Run World) :=
  λ A B k m b,
    match m b with
    | (Returned a, b') => k a b'
    | (Thrown e, b') => (Thrown e, b')
    | (Unfinished, b') => (Unfinished, b')
    end.

(** [try { body } catch (e) { handler }] *)
Definition try_catch {World A} (body : Run World A) (handler : JsError → Run World A)
    : Run World A :=
  λ b,
    match body b with
    | (Thrown e, b') => handler e b'
    | r => r
    end.

Definition unfinished {World A} : Run World A := λ b, (Unfinished, b).

(** [for (const x of xs) await body(x)] *)
Fixpoint for_each {World A} (xs : list A) (body : A → Run World unit) : Run World unit :=
  match xs with
  | [] => mret tt
  | x :: xs' => body x ;; for_each xs' body
  end.

(** [Math.min(100, (processedBytes / totalBytes) * 100)] *)
Definition percent `{Host} (processed total : N) : Q :=
  Qmin 100 (double_mul (double_div (inject_Z (Z.of_N processed))
                          (inject_Z (Z.of_N total)))
              100).

Inductive BatchResult :=
  | BatchSuccess
  | BatchFailure (error : string).

Section Transfer.
Context `{Host} {World : Type} `{FileSystem World}.

(** Issue one file-system call. *)
Definition call {A} (c : FsCall) (op : World → (JsError + A) * World) : Run World A :=
  λ b,
    let b' := mkBatch (op (world b)).2 (totalBytes b) (processedBytes b)
                      (totalFiles b) (processedFiles b) (itemSizes b)
                      (progress b) (calls b ++ [c]) (sentAt b) in
    match (op (world b)).1 with
    | inr a => (Returned a, b')
    | inl e => (Thrown e, b')
    end.

(** The [else] branch of [scan]: count one file for [rootItemPath]. *)
Definition countFile (rootItemPath : string) (sz : N) : Run World unit :=
  λ b,
    (Returned tt,
     mkBatch (world b) (totalBytes b + sz) (processedBytes b)
             (totalFiles b + 1) (processedFiles b)
             (<[rootItemPath := (default 0 (itemSizes b !! rootItemPath) + sz)%N]>
                (itemSizes b))
             (progress b) (calls b) (sentAt b)).

Fixpoint scan (depth : nat) (p rootItemPath : string) : Run World unit :=
  match depth with
  | O => unfinished
  | S depth' =>
      try_catch
        (stats ← call (CallStat p) (fs_stat p);
         if st_isDirectory stats then
           children ← call (CallReaddir p) (fs_readdir p);
           for_each children (λ c, scan depth' (path_join p c) rootItemPath)
         else countFile rootItemPath (st_size stats))
        (λ _, mret tt)
  end.

(** [if (totalBytes === 0) totalBytes = 1] *)
Definition avoidDivisionByZero : Run World unit :=
  λ b,
    (Returned tt,
     mkBatch (world b) (if N.eqb (totalBytes b) 0 then 1%N else totalBytes b)
             (processedBytes b) (totalFiles b) (processedFiles b) (itemSizes b)
             (progress b) (calls b) (sentAt b)).

(** [event.sender.send("file-operation-progress", percent)]; the window
    outlives the batch, so that the send itself does not throw. *)
Definition reportProgress : Run World unit :=
  λ b,
    (Returned tt,
     mkBatch (world b) (totalBytes b) (processedBytes b) (totalFiles b)
             (processedFiles b) (itemSizes b)
             (progress b ++ [percent (processedBytes b) (totalBytes b)])
             (calls b) (sentAt b ++ [processedBytes b])).

(** [processedBytes += stats.size; processedFiles++] *)
Definition countCopied (sz : N) : Run World unit :=
  λ b,
    (Returned tt,
     mkBatch (world b) (totalBytes b) (processedBytes b + sz) (totalFiles b)
             (processedFiles b + 1) (itemSizes b) (progress b) (calls b)
             (sentAt b)).

Fixpoint copyRecursive (depth : nat) (src dst : string) : Run World unit :=
  match depth with
  | O => unfinished
  | S depth' =>
      stats ← call (CallStat src) (fs_stat src);
      if st_isDirectory stats then
        call (CallMkdir dst) (fs_mkdir dst);;
        children ← call (CallReaddir src) (fs_readdir src);
        for_each children
          (λ child, copyRecursive depth' (path_join src child) (path_join dst child))
      else
        call (CallCopyFile src dst) (fs_copyFile src dst);;
        countCopied (st_size stats);;
        reportProgress
  end.

(** [const size = itemSizes.get(item.source) || 0; processedBytes += size] *)
Definition creditItem (src : string) : Run World unit :=
  λ b,
    (Returned tt,
     mkBatch (world b) (totalBytes b)
             (processedBytes b + default 0%N (itemSizes b !! src))
             (totalFiles b) (processedFiles b) (itemSizes b) (progress b) (calls b)
             (sentAt b)).

(** The body of the execution loop for one item. *)
Definition processItem (depth : nat) (operation : string) (item : TransferItem)
    : Run World unit :=
  if String.eqb operation "copy" then
    copyRecursive depth (source item) (dest item)
  else
    try_catch
      (call (CallRename (source item) (dest item))
            (fs_rename (source item) (dest item));;
       creditItem (source item);;
       reportProgress)
      (λ _,
         copyRecursive depth (source item) (dest item);;
         call (CallRm (source item)) (fs_rm (source item))).

Definition scanPhase (depth : nat) (items : list TransferItem) : Run World unit :=
  for_each items (λ item, scan depth (source item) (source item)).

Definition executionPhase (depth : nat) (items : list TransferItem)
    (operation : string) : Run World BatchResult :=
  try_catch
    (for_each items (processItem depth operation);; mret BatchSuccess)
    (λ error, mret (BatchFailure (message error))).

Definition batchFileOperation (depth : nat) (items : list TransferItem)
    (operation : string) : Run World BatchResult :=
  scanPhase depth items;;
  avoidDivisionByZero;;
  executionPhase depth items operation.

(** The handler's variables at entry. *)
Definition freshBatch (w : World) : Batch World :=
  mkBatch w 0 0 0 0 ∅ [] [] [].
End Transfer.

(** ** A JavaScript [Map] with string keys

    Iteration follows the order in which the keys were first inserted, so a
    map is the list of its entries in that order; [set] on a present key
    keeps the key's place. *)
Definition JsMap (V : Type) : Type := list (string * V).

Fixpoint map_get {V} (k : string) (m : JsMap V) : option V :=
  match m with
  | [] => None
  | (k', v) :: m' => if String.eqb k' k then Some v else map_get k m'
  end.

Fixpoint map_set {V} (k : string) (v : V) (m : JsMap V) : JsMap V :=
  match m with
  | [] => [(k, v)]
  | (k', v') :: m' =>
      if String.eqb k' k then (k', v) :: m' else (k', v') :: map_set k v m'
  end.

Fixpoint map_delete {V} (k : string) (m : JsMap V) : JsMap V :=
  match m with
  | [] => []
  | (k', v') :: m' =>
      if String.eqb k' k then map_delete k m' else (k', v') :: map_delete k m'
  end.

Definition map_keys {V} (m : JsMap V) : list string := m.*1.

Definition map_size {V} (m : JsMap V) : nat := length m.

(** What every [Map] satisfies: no key occurs twice. *)
Definition map_wf {V} (m : JsMap V) : Prop := NoDup (map_keys m).

(** ** Cache trimming *)

Definition trimCache {V} (cache : JsMap V) (maxEntries : nat) : JsMap V :=
  if Nat.leb (map_size cache) maxEntries then cache
  else
    let entriesToRemove := (map_size cache - maxEntries)%nat in
    let keys := map_keys cache in
    foldl (λ c k, map_delete k c) cache (take entriesToRemove keys).

(** ** The folder-size scheduler *)

Definition FOLDER_SIZE_CONCURRENCY : Z := 3.
Definition FOLDER_SIZE_CACHE_TTL_MS : Z := 5 * 60 * 1000.
Definition MAX_FOLDER_SIZE_CACHE_ENTRIES : nat := 500.

(** A cache value.  The scheduler writes [{ size, mtime }]; [ts] is the
    property the row renderer reads, which only an entry read back from
    storage can carry. *)
Record CacheEntry := mkEntry {
  ce_size : Z;
  ce_mtime : JsTime;
  ce_ts : option Z;
}.

(** The renderer's variables that the scheduler touches, the wall clock, and
    two records of what happened: the [getItemInfo] requests that were
    started and have not settled, each named by a number that stands for its
    promise, and the sizes written to size cells, oldest first. *)
Record Scheduler := mkScheduler {
  folderSizeCache : JsMap CacheEntry;
  folderSizeInFlight : gmap string nat;
  folderSizeQueue : list string;
  folderSizeActive : Z;
  currentItems : list DirItem;
  clock : Z;
  computations : list (nat * string);
  nextPromise : nat;
  displayed : list (string * option Z);
}.

Definition with_cache (c : JsMap CacheEntry) (s : Scheduler) : Scheduler :=
  mkScheduler c (folderSizeInFlight s) (folderSizeQueue s) (folderSizeActive s)
              (currentItems s) (clock s) (computations s) (nextPromise s) (displayed s).

Definition with_queue (q : list string) (s : Scheduler) : Scheduler :=
  mkScheduler (folderSizeCache s) (folderSizeInFlight s) q (folderSizeActive s)
              (currentItems s) (clock s) (computations s) (nextPromise s) (displayed s).

Definition with_items (items : list DirItem) (s : Scheduler) : Scheduler :=
  mkScheduler (folderSizeCache s) (folderSizeInFlight s) (folderSizeQueue s)
              (folderSizeActive s) items (clock s) (computations s) (nextPromise s)
              (displayed s).

Definition with_clock (t : Z) (s : Scheduler) : Scheduler :=
  mkScheduler (folderSizeCache s) (folderSizeInFlight s) (folderSizeQueue s)
              (folderSizeActive s) (currentItems s) t (computations s) (nextPromise s)
              (displayed s).

(** Writing a size, or the dash for [null], to the size cell of the row of
    [folderPath], when the list shows such a row.  (With the list sorted by
    size the function also asks for a later re-rendering, which ends in
    [scheduleVisibleFolderSizes].) *)
Definition updateFolderSizeCell (folderPath : string) (sizeOrNull : option Z)
    (s : Scheduler) : Scheduler :=
  mkScheduler (folderSizeCache s) (folderSizeInFlight s) (folderSizeQueue s)
              (folderSizeActive s) (currentItems s) (clock s) (computations s)
              (nextPromise s) (displayed s ++ [(folderPath, sizeOrNull)]).

(** [item && item.modified ? new Date(item.modified).getTime() : 0] for
    [item = currentItems.find(i => i.path === folderPath)] *)
Definition currentMtime (s : Scheduler) (folderPath : string) : JsTime :=
  match find (λ i, String.eqb (path i) folderPath) (currentItems s) with
  | Some item => default (Millis 0) (modified item)
  | None => Millis 0
  end.

(** [cached && cached.mtime === currentMtime ? cached : null] *)
Definition freshEntry (s : Scheduler) (folderPath : string) : option CacheEntry :=
  match map_get folderPath (folderSizeCache s) with
  | Some cached =>
      if strict_eq (ce_mtime cached) (currentMtime s folderPath) then Some cached
      else None
  | None => None
  end.

(** The test in [renderItem] that chooses between the cached size and the
    spinner: [cached && Date.now() - cached.ts < FOLDER_SIZE_CACHE_TTL_MS]. *)
Definition renderFresh (s : Scheduler) (folderPath : string) : option CacheEntry :=
  match map_get folderPath (folderSizeCache s) with
  | Some cached =>
      match ce_ts cached with
      | Some ts => if Z.ltb (clock s - ts) FOLDER_SIZE_CACHE_TTL_MS then Some cached
                   else None
      | None => None
      end
  | None => None
  end.

(** [folderSizeActive++], the call of the async function up to its first
    [await], and [folderSizeInFlight.set(folderPath, p)]. *)
Definition startComputation (folderPath : string) (s : Scheduler) : Scheduler :=
  mkScheduler (folderSizeCache s)
              (<[folderPath := nextPromise s]> (folderSizeInFlight s))
              (folderSizeQueue s) (folderSizeActive s + 1) (currentItems s) (clock s)
              (computations s ++ [(nextPromise s, folderPath)])
              (S (nextPromise s)) (displayed s).

(** The [while] loop of [drainFolderSizeQueue] on the queue [queue]; the
    queue field of [s] is written when the loop ends. *)
Fixpoint drainLoop (queue : list string) (s : Scheduler) : Scheduler :=
  if negb (Z.ltb (folderSizeActive s) FOLDER_SIZE_CONCURRENCY) then with_queue queue s
  else
    match queue with
    | [] => with_queue [] s
    | folderPath :: rest =>
        if String.eqb folderPath "" then drainLoop rest s
        else
          match freshEntry s folderPath with
          | Some fresh =>
              drainLoop rest (updateFolderSizeCell folderPath (Some (ce_size fresh)) s)
          | None =>
              if bool_decide (is_Some (folderSizeInFlight s !! folderPath))
              then drainLoop rest s
              else drainLoop rest (startComputation folderPath s)
          end
    end.

Definition drainFolderSizeQueue (s : Scheduler) : Scheduler :=
  drainLoop (folderSizeQueue s) s.

Definition enqueueFolderSize (folderPath : string) (s : Scheduler) : Scheduler :=
  drainFolderSizeQueue (with_queue (folderSizeQueue s ++ [folderPath]) s).

(** The body of [for (const row of rows)] for the row whose [dataset.path]
    is [folderPath]; a fresh size is written to the row's cell directly. *)
Definition scheduleRow (s : Scheduler) (folderPath : string) : Scheduler :=
  if String.eqb folderPath "" then s
  else
    match freshEntry s folderPath with
    | Some fresh => updateFolderSizeCell folderPath (Some (ce_size fresh)) s
    | None =>
        if bool_decide (is_Some (folderSizeInFlight s !! folderPath)) then s
        else enqueueFolderSize folderPath s
    end.

(** [enabled] is [fileList && calculateFolderSizes]; [rows] are the paths of
    the directory rows in the list. *)
Definition scheduleVisibleFolderSizes (enabled : bool) (rows : list string)
    (s : Scheduler) : Scheduler :=
  if enabled then foldl scheduleRow s rows else s.

(** The [finally] block without its last statement: the slot and the
    in-flight entry are given back. *)
Definition releaseSlot (promise : nat) (folderPath : string) (s : Scheduler)
    : Scheduler :=
  mkScheduler (folderSizeCache s) (delete folderPath (folderSizeInFlight s))
              (folderSizeQueue s) (folderSizeActive s - 1) (currentItems s) (clock s)
              (filter (λ c, c.1 ≠ promise) (computations s))
              (nextPromise s) (displayed s).

(** What the async function does once [getItemInfo] has settled, in a later
    turn of the event loop than the one that started it; [res] is
    [Some (size, mtime)] when the answer carries a numeric size, [mtime]
    being the time value of [res.info.modified] or 0 without one, and [None]
    for any other answer or a rejection. *)
Definition settleWith (promise : nat) (folderPath : string)
    (res : option (Z * JsTime)) (s : Scheduler) : Scheduler :=
  let s1 :=
    match res with
    | Some (sz, mtime) =>
        updateFolderSizeCell folderPath (Some sz)
          (with_cache (map_set folderPath (mkEntry sz mtime None) (folderSizeCache s)) s)
    | None => updateFolderSizeCell folderPath None s
    end in
  drainFolderSizeQueue (releaseSlot promise folderPath s1).

Definition settle (promise : nat) (res : option (Z * JsTime)) (s : Scheduler)
    : option Scheduler :=
  match list_find (λ c, c.1 = promise) (computations s) with
  | Some (_, (_, folderPath)) => Some (settleWith promise folderPath res s)
  | None => None
  end.

(** [folderSizeQueue.length = 0] in [finishNavigation] *)
Definition finishNavigation (s : Scheduler) : Scheduler := with_queue [] s.

(** The loop of [refresh] *)
Definition refresh (s : Scheduler) : Scheduler :=
  with_cache
    (foldl (λ c item, if isDirectory item then map_delete (path item) c else c)
           (folderSizeCache s) (currentItems s))
    s.

(** The timer set by [saveFolderSizeCache] *)
Definition saveFolderSizeCache (s : Scheduler) : Scheduler :=
  with_cache (trimCache (folderSizeCache s) MAX_FOLDER_SIZE_CACHE_ENTRIES) s.

(** Every way the scheduler's variables change. *)
Inductive step : Scheduler → Scheduler → Prop :=
  | step_schedule enabled rows s :
      step s (scheduleVisibleFolderSizes enabled rows s)
  | step_settle promise res s s' :
      settle promise res s = Some s' → step s s'
  | step_navigate s :
      step s (finishNavigation s)
  | step_items items s :
      step s (with_items items s)
  | step_refresh s :
      step s (refresh s)
  | step_save s :
      step s (saveFolderSizeCache s)
  | step_time t s :
      clock s ≤ t → step s (with_clock t s).

(** The renderer after start-up: whatever cache was read back from storage,
    nothing queued, nothing running. *)
Definition startState (cache : JsMap CacheEntry) (now : Z) : Scheduler :=
  mkScheduler (trimCache cache MAX_FOLDER_SIZE_CACHE_ENTRIES) ∅ [] 0 [] now [] 0 [].

Definition reachable (s : Scheduler) : Prop :=
  ∃ cache now, rtc step (startState cache now) s.

(** ** A small host and disk

    An instance of the interfaces above on which the code can be evaluated:
    normalized absolute POSIX paths, ASCII names, byte-wise case-insensitive
    comparison, and a disk that is a finite table of files and directories. *)
Module Small.

Definition join_segments (segs : list string) : string :=
  String.concat "/" segs.

(** [path.dirname] on a normalized absolute path *)
Definition dirname (p : string) : string :=
  match reverse (split_on "/" p) with
  | _ :: (_ :: _ :: _) as up => join_segments (reverse up)
  | _ => "/"
  end.

(** [path.basename] on a normalized absolute path *)
Definition basename (p : string) : string :=
  match reverse (split_on "/" p) with
  | b :: _ => b
  | [] => ""
  end.

Definition join (a b : string) : string :=
  if String.eqb a "/" then a +:+ b else a +:+ "/" +:+ b.

(** [path.extname] on a name with at most one dot that is not the first
    character *)
Definition extname (n : string) : string :=
  match split_on "." n with
  | stem :: ext :: _ => if String.eqb stem "" then "" else "." +:+ ext
  | _ => ""
  end.

Definition digit_of (c : ascii) : option Z :=
  let n := nat_of_ascii c in
  if (Nat.leb 48 n && Nat.leb n 57)%bool then Some (Z.of_nat (n - 48)) else None.

Fixpoint digits (s : string) (acc : option Z) : option Z :=
  match s with
  | EmptyString => acc
  | String c s' =>
      match digit_of c with
      | Some d => digits s' (Some (10 * default 0 acc + d))
      | None => acc
      end
  end.

Definition compare_fold (a b : string) : Z :=
  match OrdersEx.String_as_OT.compare (fold_case a) (fold_case b) with
  | Lt => -1
  | Eq => 0
  | Gt => 1
  end.

Definition host : Host :=
  {| path_dirname := dirname;
     path_basename := basename;
     path_join := join;
     path_extname := extname;
     toLowerCase := fold_case;
     localeCompare := compare_fold;
     parseInt10 := λ s, digits s None;
     date_of_string := λ s, from_option Millis NotANumber (digits s None);
     double_div := Qdiv;
     double_mul := Qmult |}.

Inductive Node :=
  | FileNode (bytes : N)
  | DirNode (children : list string).

(** [cross_device] makes every [rename] fail with [EXDEV]. *)
Record Disk := mkDisk {
  nodes : gmap string Node;
  cross_device : bool;
}.

Definition fail {A} (c : string) (d : Disk) : (JsError + A) * Disk :=
  (inl (mkError c (c +:+ ": operation failed")), d).

Definition stat (p : string) (d : Disk) : (JsError + Stats) * Disk :=
  match nodes d !! p with
  | Some (FileNode n) => (inr (mkStats true false n (Millis 0) (Millis 0)), d)
  | Some (DirNode _) => (inr (mkStats false true 0 (Millis 0) (Millis 0)), d)
  | None => fail "ENOENT" d
  end.

Definition readdir (p : string) (d : Disk) : (JsError + list string) * Disk :=
  match nodes d !! p with
  | Some (DirNode cs) => (inr cs, d)
  | Some (FileNode _) => fail "ENOTDIR" d
  | None => fail "ENOENT" d
  end.

(** Enter [p] in its parent directory. *)
Definition link (p : string) (m : gmap string Node) : gmap string Node :=
  match m !! dirname p with
  | Some (DirNode cs) =>
      if bool_decide (basename p ∈ cs) then m
      else <[dirname p := DirNode (cs ++ [basename p])]> m
  | _ => m
  end.

Definition unlink (p : string) (m : gmap string Node) : gmap string Node :=
  match m !! dirname p with
  | Some (DirNode cs) =>
      <[dirname p := DirNode (filter (λ c, c ≠ basename p) cs)]> m
  | _ => m
  end.

Definition mkdir (p : string) (d : Disk) : (JsError + unit) * Disk :=
  match nodes d !! p with
  | Some (DirNode _) => (inr tt, d)
  | Some (FileNode _) => fail "EEXIST" d
  | None => (inr tt, mkDisk (link p (<[p := DirNode []]> (nodes d))) (cross_device d))
  end.

Definition copyFile (src dst : string) (d : Disk) : (JsError + unit) * Disk :=
  match nodes d !! src, nodes d !! dirname dst with
  | Some (FileNode n), Some (DirNode _) =>
      match nodes d !! dst with
      | Some (DirNode _) => fail "EISDIR" d
      | _ => (inr tt, mkDisk (link dst (<[dst := FileNode n]> (nodes d)))
                             (cross_device d))
      end
  | Some (DirNode _), _ => fail "EISDIR" d
  | _, _ => fail "ENOENT" d
  end.

(** Is [p] the path [root] or a path below it? *)
Definition within (root p : string) : bool :=
  (String.eqb p root || String.prefix (root +:+ "/") p)%bool.

Definition rekey (src dst p : string) : string :=
  if within src p then dst +:+ slice_from (String.length src) p else p.

Definition rename (src dst : string) (d : Disk) : (JsError + unit) * Disk :=
  if cross_device d then fail "EXDEV" d
  else
    match nodes d !! src, nodes d !! dirname dst with
    | Some _, Some (DirNode _) =>
        let moved := list_to_map (prod_map (rekey src dst) id <$> map_to_list (nodes d)) in
        (inr tt, mkDisk (link dst (unlink src moved)) (cross_device d))
    | _, _ => fail "ENOENT" d
    end.

Definition rm (p : string) (d : Disk) : (JsError + unit) * Disk :=
  (inr tt,
   mkDisk (unlink p (filter (λ kv, within p kv.1 = false) (nodes d)))
          (cross_device d)).

Definition disk_fs : FileSystem Disk :=
  {| fs_stat := stat;
     fs_readdir := readdir;
     fs_mkdir := mkdir;
     fs_copyFile := copyFile;
     fs_rename := rename;
     fs_rm := rm |}.

(** The disk as a listing request sees it, with the archive tool's answer
    for each archive it can read. *)
Definition dirent_of (d : Disk) (dir c : string) : Dirent :=
  match nodes d !! join dir c with
  | Some (DirNode _) => mkDirent c true false false
  | _ => mkDirent c false true false
  end.

Definition view (d : Disk) (archives : list (string * list Block)) : FsView :=
  {| view_stat := λ p, (stat p d).1;
     view_readdir := λ p, match (readdir p d).1 with
                          | inr cs => inr (dirent_of d p <$> cs)
                          | inl e => inl e
                          end;
     view_readlink := λ p, inl (mkError "EINVAL" "EINVAL: invalid argument");
     view_list_archive := λ _ p,
       match map_get p archives with
       | Some blocks => inr blocks
       | None => inl (mkError "ENOENT" "Command failed: 7z")
       end |}.

(** A home directory with an archive in it. *)
Definition home : Disk :=
  mkDisk (list_to_map
            [("/", DirNode ["home"]);
             ("/home", DirNode ["docs"; "archive.zip"; "Notes.txt"; "apps"]);
             ("/home/docs", DirNode ["a.txt"; "sub"]);
             ("/home/docs/a.txt", FileNode 10);
             ("/home/docs/sub", DirNode ["b.txt"]);
             ("/home/docs/sub/b.txt", FileNode 5);
             ("/home/archive.zip", FileNode 300);
             ("/home/Notes.txt", FileNode 7);
             ("/home/apps", DirNode [])])
         false.

(** The same tree with the destination on another device. *)
Definition split_home : Disk := mkDisk (nodes home) true.

(** The handler's state when the scan of [items] on [d] is over. *)
Definition scanned (d : Disk) (items : list TransferItem) : Batch Disk :=
  ((@scanPhase host Disk disk_fs 5 items;; avoidDivisionByZero) (freshBatch d)).2.

(** The listing of [archive.zip]: two files below [subdir]. *)
Definition archive_zip : list Block :=
  [ [("Path", "subdir/a.txt"); ("Size", "12"); ("Attributes", "A")];
    [("Path", "subdir/nested/b.txt"); ("Size", "34"); ("Attributes", "A")] ].

Definition home_view : FsView := view home [("/home/archive.zip", archive_zip)].

End Small.

(** ** Statements of the listing, in the words of the specification *)

(** [strip_prefix pre s] is the rest of [s] after [pre], when [s] starts
    with [pre]. *)
Fixpoint strip_prefix (pre s : string) : option string :=
  match pre, s with
  | EmptyString, _ => Some s
  | String a pre', String b s' => if Ascii.eqb a b then strip_prefix pre' s' else None
  | String _ _, EmptyString => None
  end.

(** The path of a record relative to [internal], for a record that is a
    strict descendant of [internal]; at the archive root every record with a
    path is one. *)
Definition relativeTo (internal p : string) : option string :=
  if String.eqb internal "" then (if String.eqb p "" then None else Some p)
  else
    match strip_prefix (internal +:+ "/") p with
    | Some rel => if String.eqb rel "" then None else Some rel
    | None => None
    end.

(** A record of the archive listing: its slash-normalized path and whether
    its attribute field marks a directory.  A block without a path is no
    record. *)
Definition recordOfBlock (block : Block) : option (string * bool) :=
  match entryOfBlock block !! "Path" with
  | Some p =>
      if String.eqb p "" then None
      else Some (replace_backslashes p,
                 match entryOfBlock block !! "Attributes" with
                 | Some attrs => includes_char "D" attrs
                 | None => false
                 end)
  | None => None
  end.

Definition segments (rel : string) : list string := split_on "/" rel.

(** The visible child a record stands for: the first segment of its relative
    path, a directory when there are more segments or the attributes say so. *)
Definition childOfRecord (internal : string) (r : string * bool) : option (string * bool) :=
  match relativeTo internal r.1 with
  | Some rel =>
      Some (hd "" (segments rel), (Nat.ltb 1 (length (segments rel)) || r.2)%bool)
  | None => None
  end.

(** Keep the first entry for every name. *)
Fixpoint firstPerName (l : list (string * bool)) : list (string * bool) :=
  match l with
  | [] => []
  | x :: l' => x :: filter (λ y, y.1 ≠ x.1) (firstPerName l')
  end.

Definition childrenSpec (internal : string) (blocks : list Block) : list (string * bool) :=
  firstPerName (omap (childOfRecord internal) (omap recordOfBlock blocks)).

(** Name and kind of a listed item. *)
Definition summary (item : DirItem) : string * bool := (name item, isDirectory item).

(** The order of a listing: the directories, then the others, each group
    ascending in the comparison that ignores letter case. *)
Definition nameLe `{Host} (a b : DirItem) : Prop :=
  localeCompare (fold_case (name a)) (fold_case (name b)) ≤ 0.

Definition directoriesFirst `{Host} (contents : list DirItem) : Prop :=
  ∃ dirs others,
    contents = dirs ++ others
    ∧ Forall (λ i, isDirectory i = true) dirs
    ∧ Forall (λ i, isDirectory i = false) others
    ∧ StronglySorted nameLe dirs
    ∧ StronglySorted nameLe others.

(** ** The upward walk, in the words of the specification *)

(** The path and the internal path after [k] ascensions: each one strips the
    last segment of the path and puts it in front of the internal path. *)
Fixpoint ascend `{Host} (k : nat) (p internal : string) : string * string :=
  match k with
  | O => (p, internal)
  | S k' =>
      ascend k' (path_dirname p)
        (if String.eqb internal "" then path_basename p
         else path_join (path_basename p) internal)
  end.

Definition statFails `{FsView} (p : string) : Prop :=
  ∃ e, view_stat p = inl e.

Definition statsAsFile `{FsView} (p : string) : Prop :=
  ∃ st, view_stat p = inr st ∧ st_isFile st = true.

Definition statsAsDirectory `{FsView} (p : string) : Prop :=
  ∃ st, view_stat p = inr st ∧ st_isFile st = false ∧ st_isDirectory st = true.

(** ** Scheduler invariant *)

(** The paths of the computations in flight. *)
Definition inFlightPaths (s : Scheduler) : list string := (computations s).*2.

Record scheduler_core (s : Scheduler) : Prop := {
  core_one_per_path : NoDup (inFlightPaths s);
  core_promises : NoDup (computations s).*1;
  core_fresh : Forall (λ c, (c.1 < nextPromise s)%nat) (computations s);
  core_table : ∀ p, is_Some (folderSizeInFlight s !! p) ↔ p ∈ inFlightPaths s;
  core_active : folderSizeActive s = Z.of_nat (length (computations s));
  core_bound : folderSizeActive s ≤ FOLDER_SIZE_CONCURRENCY;
}.

(** Between two handlers the queue is empty or every slot is taken. *)
Definition scheduler_inv (s : Scheduler) : Prop :=
  scheduler_core s
  ∧ (folderSizeQueue s = [] ∨ folderSizeActive s = FOLDER_SIZE_CONCURRENCY).

(** Two states with the same bookkeeping of computations. *)
Definition same_bookkeeping (s s' : Scheduler) : Prop :=
  folderSizeInFlight s' = folderSizeInFlight s
  ∧ folderSizeActive s' = folderSizeActive s
  ∧ computations s' = computations s
  ∧ nextPromise s' = nextPromise s.

(** ** Relations between the states of a batch *)

(** [keeps R m]: whatever way [m] ends, the state it leaves is related by
    [R] to the state it started in. *)
Definition keeps {World} (R : relation (Batch World)) {A} (m : Run World A) : Prop :=
  ∀ b, R b (m b).2.

(** From [b] to [b']: the total is untouched, the processed bytes did not
    decrease, and every percentage sent in between is the clamped ratio of
    the value [processedBytes] had at that send to the total; these values,
    [marks], ascend. *)
Definition advances `{Host} {World} (b b' : Batch World) : Prop :=
  totalBytes b' = totalBytes b
  ∧ (processedBytes b ≤ processedBytes b')%N
  ∧ ∃ marks : list N,
      sentAt b' = sentAt b ++ marks
      ∧ progress b' = progress b ++ ((λ pb, percent pb (totalBytes b)) <$> marks)
      ∧ StronglySorted N.le marks
      ∧ Forall (λ m, (processedBytes b ≤ m ∧ m ≤ processedBytes b')%N) marks.

(** From [b] to [b']: nothing was processed and nothing was sent. *)
Definition scans {World} (b b' : Batch World) : Prop :=
  processedBytes b' = processedBytes b ∧ progress b' = progress b
  ∧ sentAt b' = sentAt b.

(** [itemSizes.get(src) || 0] *)
Definition sizeOf (sizes : gmap string N) (src : string) : N :=
  default 0%N (sizes !! src).

(** From [b] to [b']: the bytes added to the total are the bytes added to
    the size recorded for [root], and no other recorded size changed. *)
Definition counts {World} (root : string) (b b' : Batch World) : Prop :=
  ∃ bytes : N,
    totalBytes b' = (totalBytes b + bytes)%N
    ∧ sizeOf (itemSizes b') root = (sizeOf (itemSizes b) root + bytes)%N
    ∧ ∀ k, k ≠ root → itemSizes b' !! k = itemSizes b !! k.

(** From [b] to [b']: the calls issued in between all satisfy [P]. *)
Definition issues {World} (P : FsCall → Prop) (b b' : Batch World) : Prop :=
  ∃ cs, calls b' = calls b ++ cs ∧ Forall P cs.

Definition isRm (c : FsCall) : Prop := ∃ p, c = CallRm p.

(** The world and the call record after the call [c] made in [b]; the
    handler's variables are untouched. *)
Definition afterCall {World} (c : FsCall) (w : World) (b : Batch World) : Batch World :=
  mkBatch w (totalBytes b) (processedBytes b) (totalFiles b) (processedFiles b)
          (itemSizes b) (progress b) (calls b ++ [c]) (sentAt b).

(** ** What the recursive copy copies *)

(** [min(100, processedBytes / totalBytes * 100)], in the numbers of the
    runtime. *)
Definition clampedRatio `{Host} (processedBytes totalBytes : N) : Q :=
  Qmin 100 (double_mul (double_div (inject_Z (Z.of_N processedBytes))
                          (inject_Z (Z.of_N totalBytes)))
              100).

(** What the recursive copy finds at a path: a file, with the size that its
    [stat] gives, or a directory, with what is found at each name of its
    listing, in the order of the listing. *)
#[warnings="-register-all"]
Inductive Tree :=
  | File (size : N)
  | Dir (children : list (string * Tree)).

(** The calls that copy [t] from the path [src] to the path [dst], in their
    order: for a file its [stat] and its [copyFile]; for a directory its
    [stat], the [mkdir] of the destination, the [readdir] and then the calls
    for each child. *)
Fixpoint treeCalls `{Host} (src dst : string) (t : Tree) : list FsCall :=
  match t with
  | File _ => [CallStat src; CallCopyFile src dst]
  | Dir children =>
      CallStat src :: CallMkdir dst :: CallReaddir src
      :: (fix calls (children : list (string * Tree)) : list FsCall :=
            match children with
            | [] => []
            | (name, t') :: rest =>
                treeCalls (path_join src name) (path_join dst name) t' ++ calls rest
            end) children
  end.

(** The sizes of the files of [t], in the order in which they are copied. *)
Fixpoint fileSizes (t : Tree) : list N :=
  match t with
  | File size => [size]
  | Dir children =>
      (fix sizes (children : list (string * Tree)) : list N :=
         match children with
         | [] => []
         | (_, t') :: rest => fileSizes t' ++ sizes rest
         end) children
  end.

(** [t] is walked within [depth] calls inside one another. *)
Fixpoint treeNests (depth : nat) (t : Tree) : bool :=
  match depth with
  | O => false
  | S depth' =>
      match t with
      | File _ => true
      | Dir children => forallb (λ c, treeNests depth' c.2) children
      end
  end.

Definition sumSizes (sizes : list N) : N := foldr N.add 0%N sizes.

(** The values that a count takes which starts at [start] and grows by one
    of [sizes] after the other. *)
Fixpoint runningSums (start : N) (sizes : list N) : list N :=
  match sizes with
  | [] => []
  | size :: rest => (start + size)%N :: runningSums (start + size) rest
  end.

(** [replicates src dst t w w']: from the world [w] on, the calls of the
    copy of [src] to [dst] all resolve and show [t] at [src]; [w'] is the
    world after the last of them. *)
Inductive replicates `{Host} {World : Type} `{FileSystem World}
    : string → string → Tree → World → World → Prop :=
  | replicates_file src dst stats size w w1 w' :
      fs_stat src w = (inr stats, w1) →
      st_isDirectory stats = false →
      st_size stats = size →
      fs_copyFile src dst w1 = (inr tt, w') →
      replicates src dst (File size) w w'
  | replicates_dir src dst stats names children w w1 w2 w3 w' :
      fs_stat src w = (inr stats, w1) →
      st_isDirectory stats = true →
      fs_mkdir dst w1 = (inr tt, w2) →
      fs_readdir src w2 = (inr names, w3) →
      replicates_each src dst names children w3 w' →
      replicates src dst (Dir children) w w'
with replicates_each `{Host} {World : Type} `{FileSystem World}
    : string → string → list string → list (string * Tree) → World → World → Prop :=
  | replicates_end src dst w : replicates_each src dst [] [] w w
  | replicates_next src dst name names t children w w1 w' :
      replicates (path_join src name) (path_join dst name) t w w1 →
      replicates_each src dst names children w1 w' →
      replicates_each src dst (name :: names) ((name, t) :: children) w w'.

(** The handler's state when the copy of [t] from [src] to [dst] that
    started in [b] is over, in the world [w']: one file counted and one
    percentage sent for each file, each percentage the clamped ratio of the
    bytes of the files copied so far, with their sizes as [stat] gave them;
    the calls of the copy recorded; the total and the sizes of the scan
    untouched. *)
Definition afterCopy `{Host} {World} (src dst : string) (t : Tree) (w' : World)
    (b : Batch World) : Batch World :=
  let marks := runningSums (processedBytes b) (fileSizes t) in
  mkBatch w' (totalBytes b)
          (processedBytes b + sumSizes (fileSizes t))
          (totalFiles b)
          (processedFiles b + N.of_nat (length (fileSizes t)))
          (itemSizes b)
          (progress b ++ ((λ pb, clampedRatio pb (totalBytes b)) <$> marks))
          (calls b ++ treeCalls src dst t)
          (sentAt b ++ marks).

(** The same for the copies of the children of a directory, one after the
    other, after the calls for the directory itself. *)
Definition afterCopies `{Host} {World} (src dst : string)
    (children : list (string * Tree)) (w' : World) (b : Batch World) : Batch World :=
  let marks := runningSums (processedBytes b) (fileSizes (Dir children)) in
  mkBatch w' (totalBytes b)
          (processedBytes b + sumSizes (fileSizes (Dir children)))
          (totalFiles b)
          (processedFiles b + N.of_nat (length (fileSizes (Dir children))))
          (itemSizes b)
          (progress b ++ ((λ pb, clampedRatio pb (totalBytes b)) <$> marks))
          (calls b ++ drop 3 (treeCalls src dst (Dir children)))
          (sentAt b ++ marks).

(** [within_depth m m']: whenever [m] ends within the recursion depth it was
    given, [m'] ends the same way in the same state. *)
Definition within_depth {World A} (m m' : Run World A) : Prop :=
  ∀ b o b', m b = (o, b') → o ≠ Unfinished → m' b = (o, b').

(** * Further parts of the code *)

(** ** Paths below a root *)

(** The path reached from [root] through the entries [names], joined one
    after the other as the recursive walks do. *)
Definition descend `{Host} (root : string) (names : list string) : string :=
  foldl path_join root names.

Definition readsOnly (c : FsCall) : Prop :=
  (∃ p, c = CallStat p) ∨ (∃ p, c = CallReaddir p).

(** A call of the recursive copy from [src] to [dst]: it reads below [src],
    and what it writes below [dst] has the relative path of what it reads. *)
Definition mirrors `{Host} (src dst : string) (c : FsCall) : Prop :=
  ∃ names,
    c = CallStat (descend src names)
    ∨ c = CallReaddir (descend src names)
    ∨ c = CallMkdir (descend dst names)
    ∨ c = CallCopyFile (descend src names) (descend dst names).

(** From [b] to [b']: [sent] percentages were sent and [copied] files were
    counted as processed. *)
Definition tallies {World} (b b' : Batch World) : Prop :=
  ∃ sent copied : nat,
    length (progress b') = (length (progress b) + sent)%nat
    ∧ processedFiles b' = (processedFiles b + N.of_nat copied)%N
    ∧ (copied ≤ sent)%nat.

(** The same, with one percentage for every file counted. *)
Definition talliesEvenly {World} (b b' : Batch World) : Prop :=
  ∃ copied : nat,
    length (progress b') = (length (progress b) + copied)%nat
    ∧ processedFiles b' = (processedFiles b + N.of_nat copied)%N.

(** ** Navigation history (renderer) *)

Definition MAX_HISTORY_LENGTH : nat := 50.

(** [l[i]] for an integer [i]: [undefined] outside the array. *)
Definition js_index {A} (l : list A) (i : Z) : option A :=
  if Z.ltb i 0 then None else l !! Z.to_nat i.

(** [l.slice(0, e)] for an integer [e]; a negative [e] counts from the end. *)
Definition js_slice_to {A} (e : Z) (l : list A) : list A :=
  if Z.ltb e 0 then take (Z.to_nat (Z.max (Z.of_nat (length l) + e) 0)) l
  else take (Z.to_nat e) l.

(** The variables of the active tab that navigation keeps. *)
Record Nav := mkNav {
  history : list string;
  historyIndex : Z;
  currentPath : string;
}.

(** The block [// Update history] of [finishNavigation]. *)
Definition updateHistory (n : Nav) : Nav :=
  if (Z.eqb (historyIndex n) (-1)
      || negb (bool_decide (js_index (history n) (historyIndex n)
                            = Some (currentPath n))))%bool
  then
    let h := js_slice_to (historyIndex n + 1) (history n) ++ [currentPath n] in
    let idx := Z.of_nat (length h) - 1 in
    if Nat.ltb MAX_HISTORY_LENGTH (length h) then
      let overflow := (length h - MAX_HISTORY_LENGTH)%nat in
      mkNav (drop overflow h) (idx - Z.of_nat overflow) (currentPath n)
    else mkNav h idx (currentPath n)
  else n.

Section Navigation.
Context `{Host} `{FsView}.

(** What [navigateTo] does to the history variables: a tag view is
    entered as it is, a directory when it can be listed; the page is taken
    to have its [.app-container] element. *)
Definition navigateTo (target : string) (n : Nav) : Nav :=
  if String.prefix "tag://" target then
    updateHistory (mkNav (history n) (historyIndex n) target)
  else
    match getDirectoryContents target with
    | ListOk _ listed _ => updateHistory (mkNav (history n) (historyIndex n) listed)
    | ListErr _ => n
    end.

(** Listing the history entry at [idx]; an index without an entry gives
    [undefined], which the listing handler answers with a failure. *)
Definition revisit (idx : Z) (n : Nav) : Nav :=
  match js_index (history n) idx with
  | Some p =>
      match getDirectoryContents p with
      | ListOk _ listed _ => mkNav (history n) idx listed
      | ListErr _ => mkNav (history n) idx (currentPath n)
      end
  | None => mkNav (history n) idx (currentPath n)
  end.

Definition goBack (n : Nav) : Nav :=
  if Z.ltb 0 (historyIndex n) then revisit (historyIndex n - 1) n else n.

Definition goForward (n : Nav) : Nav :=
  if Z.ltb (historyIndex n) (Z.of_nat (length (history n)) - 1)
  then revisit (historyIndex n + 1) n
  else n.
End Navigation.

(** The history is within its bound and the index points into it, or stands
    at -1 before the first navigation. *)
Definition nav_wf (n : Nav) : Prop :=
  -1 ≤ historyIndex n < Z.of_nat (length (history n))
  ∧ (length (history n) ≤ MAX_HISTORY_LENGTH)%nat.

(** The entry at the index is the current path. *)
Definition nav_current (n : Nav) : Prop :=
  js_index (history n) (historyIndex n) = Some (currentPath n).

(** ** More functions of the runtime *)

(** Functions of the JavaScript runtime and of Node's [path] module that the
    code below calls in addition to those of [Host]. *)
Class HostMore := {
  (** [String.prototype.trim] *)
  string_trim : string → string;
  (** [path.parse(p).base], [.name] and [.ext] *)
  path_parse_base : string → string;
  path_parse_name : string → string;
  path_parse_ext : string → string;
  path_resolve : string → string;
  (** [a.localeCompare(b)] without options *)
  localeCompareDefault : string → string → Z;
}.

(** ** Comparing paths (renderer) *)

Definition is_separator (c : ascii) : bool :=
  (Ascii.eqb c "/" || Ascii.eqb c "\")%bool.

(** [s.replace(/[/\\]+$/, "")]: the separators at the end of [s] go. *)
Fixpoint stripTrailingSeparators (s : string) : string :=
  match s with
  | EmptyString => EmptyString
  | String c s' =>
      let rest := stripTrailingSeparators s' in
      if (is_separator c && String.eqb rest "")%bool then EmptyString
      else String c rest
  end.

(** [win32] is [window.fileManager.platform === "win32"]; a missing path
    ([null], [undefined]) is the empty string. *)
Definition normalizePathForCompare (win32 : bool) (p : string) : string :=
  if String.eqb p "" then ""
  else
    let n := if win32 then replace_backslashes p else p in
    let n := stripTrailingSeparators n in
    if String.eqb n "" then "/" else n.

(** ** The guard of [handleFileDrop] *)

(** [s.lastIndexOf(c)] for a one-character needle; [None] for -1. *)
Fixpoint lastIndexOf (c : ascii) (s : string) : option nat :=
  match s with
  | EmptyString => None
  | String a s' =>
      match lastIndexOf c s' with
      | Some i => Some (S i)
      | None => if Ascii.eqb a c then Some O else None
      end
  end.

Section FileDrop.
Context `{Host} `{HostMore}.

(** One turn of the loop over [sourcePaths]: the pair to submit, or
    [None] where the loop says [continue].  The progress bar, which the
    loop also moves, is left out. *)
Definition dropPair (win32 : bool) (targetDir sourcePath : string)
    : option TransferItem :=
  let normTargetDir := normalizePathForCompare win32 targetDir in
  let sep := if win32 then "\"%char else "/"%char in
  let destPath := path_join targetDir (path_parse_base sourcePath) in
  let normSourcePath := normalizePathForCompare win32 sourcePath in
  let normDestPath := normalizePathForCompare win32 destPath in
  if String.eqb normSourcePath normDestPath then None
  else
    let cleanSource := stripTrailingSeparators sourcePath in
    if match lastIndexOf sep cleanSource with
       | Some lastSep =>
           let parent := if Nat.eqb lastSep 0 then "/"
                         else String.substring 0 lastSep cleanSource in
           String.eqb (normalizePathForCompare win32 parent) normTargetDir
       | None => false
       end
    then None
    else if String.prefix (normSourcePath +:+ "/") normDestPath then None
    else if String.eqb (normalizePathForCompare win32 targetDir) normSourcePath
    then None
    else Some (mkTransfer sourcePath destPath).

(** [batchItems] when the loop is over. *)
Definition dropBatchItems (win32 : bool) (targetDir : string)
    (sourcePaths : list string) : list TransferItem :=
  omap (dropPair win32 targetDir) sourcePaths.
End FileDrop.

(** Whether the directory with normal form [a] contains the path with
    normal form [d]: [d] continues [a] after a separator.  The root's normal
    form is the separator itself. *)
Definition contains_path (a d : string) : bool :=
  if String.eqb a "/" then (String.prefix "/" d && negb (String.eqb d "/"))%bool
  else String.prefix (a +:+ "/") d.

(** ** Quick access (renderer) *)

(** An entry of [quickAccessItems]: [{ id, type: "builtin", key, label }] or
    [{ id, type: "pin", path, label }]. *)
Inductive QuickAccessItem :=
  | QaBuiltin (id key label : string)
  | QaPin (id pinned label : string).

Definition qa_id (x : QuickAccessItem) : string :=
  match x with
  | QaBuiltin id _ _ => id
  | QaPin id _ _ => id
  end.

Definition DEFAULT_BUILTINS : list QuickAccessItem :=
  [ QaBuiltin "trash" "trash" "Trash";
    QaBuiltin "root" "root" "Root";
    QaBuiltin "home" "home" "Home";
    QaBuiltin "desktop" "desktop" "Desktop";
    QaBuiltin "documents" "documents" "Documents";
    QaBuiltin "downloads" "downloads" "Downloads";
    QaBuiltin "pictures" "pictures" "Pictures";
    QaBuiltin "music" "music" "Music";
    QaBuiltin "videos" "videos" "Videos";
    QaBuiltin "config" "config" ".config" ].

(** [BUILTIN_REGISTRY[key]] for the keys its callers pass, which are values
    of the table of [inferBuiltinKeyFromName]. *)
Definition BUILTIN_REGISTRY (key : string) : option QuickAccessItem :=
  find (λ b, match b with
             | QaBuiltin _ k _ => String.eqb k key
             | QaPin _ _ _ => false
             end) DEFAULT_BUILTINS.

(** What [map[n] || null] gives: a key of the table, nothing, or for a name
    that every object inherits ([constructor], [__proto__], ...) a value that
    is no key of the registry. *)
Inductive Inferred :=
  | InferredKey (key : string)
  | InferredInherited
  | NotInferred.

Definition inherited_names : list string :=
  [ "constructor"; "__defineGetter__"; "__defineSetter__"; "hasOwnProperty";
    "__lookupGetter__"; "__lookupSetter__"; "isPrototypeOf";
    "propertyIsEnumerable"; "toString"; "valueOf"; "__proto__";
    "toLocaleString" ].

Definition builtin_names : list (string * string) :=
  [ ("trash", "trash"); ("recycle bin", "trash");
    ("root", "root"); ("/", "root");
    ("home", "home"); ("~", "home");
    ("desktop", "desktop"); ("documents", "documents");
    ("downloads", "downloads"); ("pictures", "pictures");
    ("music", "music"); ("videos", "videos");
    (".config", "config"); ("config", "config") ].

(** [s.split(/[/\\]/).filter(Boolean).pop()] *)
Fixpoint split_separators (s : string) : list string :=
  match s with
  | EmptyString => [EmptyString]
  | String c s' =>
      if is_separator c then EmptyString :: split_separators s'
      else match split_separators s' with
           | seg :: segs => String c seg :: segs
           | [] => [String c EmptyString]
           end
  end.

Definition lastSegment (s : string) : option string :=
  last (filter (λ seg, seg ≠ "") (split_separators s)).

(** [copy.splice(i, 0, x)] for [0 ≤ i ≤ copy.length] *)
Definition insert_at {A} (i : nat) (x : A) (l : list A) : list A :=
  take i l ++ x :: drop i l.

Section QuickAccess.
Context `{Host} `{HostMore}.

Definition inferBuiltinKeyFromName (name : string) : Inferred :=
  let n := toLowerCase (string_trim name) in
  if String.eqb n "" then NotInferred
  else
    match map_get n builtin_names with
    | Some key => InferredKey key
    | None =>
        if bool_decide (n ∈ inherited_names) then InferredInherited
        else NotInferred
    end.

Definition isPinnedExact (win32 : bool) (pathToCheck : string)
    (quickAccessItems : list QuickAccessItem) : bool :=
  let needle := normalizePathForCompare win32 pathToCheck in
  existsb (λ x, match x with
                | QaPin _ p _ => String.eqb (normalizePathForCompare win32 p) needle
                | QaBuiltin _ _ _ => false
                end) quickAccessItems.

Definition hasBuiltin (key : string) (quickAccessItems : list QuickAccessItem) : bool :=
  existsb (λ x, match x with
                | QaBuiltin _ k _ => String.eqb k key
                | QaPin _ _ _ => false
                end) quickAccessItems.

(** [repinBuiltin(keyOrName)].  A name that every object inherits, for
    which the lookup in the registry gives a value without [id], [key] and
    [label], is taken as absent from the registry. *)
Definition repinBuiltin (keyOrName : string)
    (quickAccessItems : list QuickAccessItem) : list QuickAccessItem :=
  let inferred :=
    match BUILTIN_REGISTRY keyOrName with
    | Some _ => InferredKey keyOrName
    | None => inferBuiltinKeyFromName keyOrName
    end in
  match inferred with
  | InferredKey key =>
      match BUILTIN_REGISTRY key with
      | Some (QaBuiltin id k label) =>
          if hasBuiltin k quickAccessItems then quickAccessItems
          else QaBuiltin id k label :: quickAccessItems
      | _ => quickAccessItems
      end
  | _ => quickAccessItems
  end.

(** [label] is the empty string when the caller gives none. *)
Definition addPin (win32 : bool) (pathToPin label : string)
    (quickAccessItems : list QuickAccessItem) : list QuickAccessItem :=
  let p := normalizePathForCompare win32 pathToPin in
  if String.eqb p "" then quickAccessItems
  else if isPinnedExact win32 p quickAccessItems then quickAccessItems
  else
    let niceLabel :=
      if (negb (String.eqb label "") && negb (String.eqb (string_trim label) ""))%bool
      then string_trim label
      else match lastSegment p with
           | Some seg => seg
           | None => p
           end in
    match inferBuiltinKeyFromName niceLabel with
    | InferredKey key =>
        if (bool_decide (is_Some (BUILTIN_REGISTRY key))
            && negb (hasBuiltin key quickAccessItems))%bool
        then repinBuiltin key quickAccessItems
        else QaPin ("pin:" +:+ p) p niceLabel :: quickAccessItems
    | _ => QaPin ("pin:" +:+ p) p niceLabel :: quickAccessItems
    end.
End QuickAccess.

Definition removeQuickAccessById (id : string) (quickAccessItems : list QuickAccessItem)
    : list QuickAccessItem :=
  filter (λ x, qa_id x ≠ id) quickAccessItems.

Definition moveQuickAccess (id : string) (direction : Z)
    (quickAccessItems : list QuickAccessItem) : list QuickAccessItem :=
  match list_find (λ x, qa_id x = id) quickAccessItems with
  | None => quickAccessItems
  | Some (idx, item) =>
      let next := Z.of_nat idx + direction in
      if (Z.ltb next 0 || Z.leb (Z.of_nat (length quickAccessItems)) next)%bool
      then quickAccessItems
      else insert_at (Z.to_nat next) item (delete idx quickAccessItems)
  end.

(** The pins are for pairwise different places, and no built-in occurs
    twice. *)
Definition pinnedPlaces (win32 : bool) (items : list QuickAccessItem) : list string :=
  omap (λ x, match x with
             | QaPin _ p _ => Some (normalizePathForCompare win32 p)
             | QaBuiltin _ _ _ => None
             end) items.

Definition builtinKeys (items : list QuickAccessItem) : list string :=
  omap (λ x, match x with
             | QaBuiltin _ k _ => Some k
             | QaPin _ _ _ => None
             end) items.

Definition quickAccess_wf (win32 : bool) (items : list QuickAccessItem) : Prop :=
  NoDup (pinnedPlaces win32 items) ∧ NoDup (builtinKeys items).

(** What the list keeps besides [quickAccess_wf]: ids are pairwise different,
    a pin's id is [pin:] followed by its place, which is in normal form, and
    a built-in is one of [DEFAULT_BUILTINS]. *)
Definition quickAccess_inv (win32 : bool) (items : list QuickAccessItem) : Prop :=
  NoDup (qa_id <$> items)
  ∧ quickAccess_wf win32 items
  ∧ Forall (λ x, match x with
                 | QaPin id p _ =>
                     id = "pin:" +:+ p ∧ normalizePathForCompare win32 p = p ∧ p ≠ ""
                 | QaBuiltin _ _ _ => x ∈ DEFAULT_BUILTINS
                 end) items.

(** The user pins, unpins and moves entries. *)
Inductive quickAccess_step `{Host} `{HostMore} (win32 : bool)
    : list QuickAccessItem → list QuickAccessItem → Prop :=
  | step_addPin pathToPin label items :
      quickAccess_step win32 items (addPin win32 pathToPin label items)
  | step_remove id items :
      quickAccess_step win32 items (removeQuickAccessById id items)
  | step_move id direction items :
      quickAccess_step win32 items (moveQuickAccess id direction items).

(** The lists that can arise from the default one. *)
Definition quickAccess_reachable `{Host} `{HostMore} (win32 : bool)
    (items : list QuickAccessItem) : Prop :=
  rtc (quickAccess_step win32) DEFAULT_BUILTINS items.

(** ** A small runtime for examples, continued *)

Module SmallMore.

Definition is_blank (c : ascii) : bool :=
(Ascii.eqb c " " || Ascii.eqb c "009" || Ascii.eqb c "010" || Ascii.eqb c "013")%bool.

Fixpoint trim_start (s : string) : string :=
match s with
| EmptyString => EmptyString
| String c s' => if is_blank c then trim_start s' else s
end.

Fixpoint trim_end (s : string) : string :=
match s with
| EmptyString => EmptyString
| String c s' =>
    let rest := trim_end s' in
    if (is_blank c && String.eqb rest "")%bool then EmptyString else String c rest
end.

(** [path.parse(p).name] on a name with at most one dot *)
Definition stem (p : string) : string :=
match split_on "." (Small.basename p) with
| s :: _ :: _ => if String.eqb s "" then Small.basename p else s
| _ => Small.basename p
end.

Definition hostMore : HostMore :=
{| string_trim := λ s, trim_end (trim_start s);
   path_parse_base := Small.basename;
   path_parse_name := stem;
   path_parse_ext := λ p, Small.extname (Small.basename p);
   path_resolve := λ p, p;
   localeCompareDefault := λ a b,
     match OrdersEx.String_as_OT.compare a b with
     | Lt => -1
     | Eq => 0
     | Gt => 1
     end |}.

End SmallMore.

(** ** Escaping (renderer) *)

(** [s.replaceAll(c, r)] for a one-character pattern *)
Fixpoint replaceAll (c : ascii) (r : string) (s : string) : string :=
  match s with
  | EmptyString => EmptyString
  | String a s' =>
      if Ascii.eqb a c then r +:+ replaceAll c r s'
      else String a (replaceAll c r s')
  end.

Definition double_quote : ascii := "034".

Definition escapeHtml (text : string) : string :=
  replaceAll "'" "&#039;"
    (replaceAll double_quote "&quot;"
       (replaceAll ">" "&gt;"
          (replaceAll "<" "&lt;"
             (replaceAll "&" "&amp;" text)))).

(** The characters that end or start a tag or an attribute value *)
Definition is_markup (c : ascii) : bool :=
  (Ascii.eqb c "<" || Ascii.eqb c ">" || Ascii.eqb c double_quote
   || Ascii.eqb c "'")%bool.

(** The characters of a string *)
Fixpoint chars (s : string) : list ascii :=
  match s with
  | EmptyString => []
  | String a s' => a :: chars s'
  end.

(** ** Names of new items (renderer) *)

(** [{ ok: false, reason }] or [{ ok: true, name }] *)
Inductive Validation :=
  | Rejected (reason : string)
  | Accepted (name : string).

(** [name.includes(c)] for a one-character [c] *)
Definition includes (c : ascii) (name : string) : bool :=
  existsb (Ascii.eqb c) (chars name).

(** The characters of the class that the last test looks for *)
Definition windows_invalid : list ascii :=
  ["<"; ">"; ":"; double_quote; "|"; "?"; "*"]%char.

Section NewItemName.
Context `{HostMore}.

(** [rawName] is the empty string for [null] and [undefined]. *)
Definition validateNewItemName (rawName : string) : Validation :=
  let name := string_trim rawName in
  if String.eqb name "" then Rejected "Name cannot be empty"
  else if (includes "/" name || includes "\" name)%bool
  then Rejected "Name cannot contain / or \"
  else if (String.eqb name "." || String.eqb name "..")%bool
  then Rejected "Invalid name"
  else if existsb (λ c, includes c name) windows_invalid
  then Rejected ("Name cannot contain any of: < > : "
                 +:+ String double_quote " | ? *")
  else Accepted name.
End NewItemName.

(** ** Tags (renderer) *)

(** [fileTags] is an object from paths to arrays of colours: the map holds
    the entries that the object itself has.  [tagsOf] is the array of such
    an entry, empty where the object has none. *)
Definition tagsOf (fileTags : gmap string (list string)) (path : string) : list string :=
  default [] (fileTags !! path).

(** [arr.indexOf(x)]; [None] for -1 *)
Definition indexOf (x : string) (arr : list string) : option nat :=
  fst <$> list_find (λ y, y = x) arr.

(** The state of [fileTags] after [toggleFileTag(path, color)]; [None] when
    the call throws a TypeError, which leaves [fileTags] as it was.  For a
    path that the object has no entry for and that names a property every
    object inherits, [fileTags[path]] is that property: it is truthy, so no
    array is stored, and it has no [indexOf]. *)
Definition toggleFileTag (path color : string) (fileTags : gmap string (list string))
    : option (gmap string (list string)) :=
  match fileTags !! path with
  | None =>
      if bool_decide (path ∈ inherited_names) then None
      else Some (<[path := [color]]> fileTags)
  | Some tags =>
      match indexOf color tags with
      | Some idx =>
          let tags' := delete idx tags in
          if bool_decide (length tags' = 0%nat) then Some (delete path fileTags)
          else Some (<[path := tags']> fileTags)
      | None => Some (<[path := tags ++ [color]]> fileTags)
      end
  end.

(** No path has an empty array, and no array names a colour twice. *)
Definition fileTags_wf (fileTags : gmap string (list string)) : Prop :=
  ∀ path tags, fileTags !! path = Some tags → tags ≠ [] ∧ NoDup tags.

(** ** Selection (renderer) *)

(** [selectedItems] is a [Set]: its elements in the order of insertion, each
    of them once. *)
Definition set_has (x : string) (s : list string) : bool := bool_decide (x ∈ s).

Definition set_add (x : string) (s : list string) : list string :=
  if set_has x s then s else s ++ [x].

Definition set_delete (x : string) (s : list string) : list string :=
  filter (λ y, y ≠ x) s.

(** [arr.findIndex(p)] *)
Definition findIndex {A} (P : A → Prop) `{!∀ x, Decision (P x)} (arr : list A) : Z :=
  match list_find P arr with
  | Some (i, _) => Z.of_nat i
  | None => -1
  end.

(** The keys held during a click. *)
Record Click := mkClick { ctrlKey : bool; metaKey : bool; shiftKey : bool }.

(** The turns of [for (let i = start; i <= end; i++)] of the range
    selection, over the paths of the rendered items. *)
Definition selectRange (rendered : list string) (start stop : Z)
    (selectedItems : list string) : list string :=
  foldl (λ sel i, match js_index rendered i with
                  | Some p => set_add p sel
                  | None => sel
                  end)
        selectedItems (seqZ start (stop - start + 1)).

(** [selectedItems] after [handleItemClick(e, item)].  [rendered] holds the
    paths of the elements of the list that are file items, in their order;
    [pickerMode] is [None] for [null]. *)
Definition handleItemClick (pickerMode : option string) (e : Click)
    (itemPath : string) (itemIsDirectory : bool) (rendered : list string)
    (selectedItems : list string) : list string :=
  if (bool_decide (pickerMode = Some "open") && itemIsDirectory)%bool
  then selectedItems
  else if bool_decide (pickerMode = Some "save") then selectedItems
  else if (ctrlKey e || metaKey e)%bool then
    if set_has itemPath selectedItems then set_delete itemPath selectedItems
    else set_add itemPath selectedItems
  else if (shiftKey e && Nat.ltb 0 (length selectedItems))%bool then
    let lastSelected := last selectedItems in
    let lastIndex := findIndex (λ p, Some p = lastSelected) rendered in
    let currentIndex := findIndex (λ p, p = itemPath) rendered in
    selectRange rendered (Z.min lastIndex currentIndex)
      (Z.max lastIndex currentIndex) selectedItems
  else [itemPath].

(** ** Tabs (renderer) *)

(** An element of [tabs].  The scroll position, which is read from and
    written to the list element of the page, is left out. *)
Record Tab := mkTab {
  tab_id : Q;
  tab_path : string;
  tab_history : list string;
  tab_historyIndex : Z;
  tab_selectedItems : list string;
}.

(** The variables that the tab functions read and write. *)
Record Window := mkWindow {
  tabs : list Tab;
  activeTabIndex : Z;
  nav : Nav;
  selection : list string;
}.

(** The variables a tab restores. *)
Definition tabNav (tab : Tab) : Nav :=
  mkNav (tab_history tab) (tab_historyIndex tab) (tab_path tab).

(** [arr.splice(index, 1)]: a negative index counts from the end, and an
    index past the end removes nothing. *)
Definition splice_one {A} (index : Z) (arr : list A) : list A :=
  if Z.ltb index 0
  then delete (Z.to_nat (Z.max (Z.of_nat (length arr) + index) 0)) arr
  else delete (Z.to_nat index) arr.

(** [activateTab(index)], up to the listing that it requests last and that
    changes none of these variables. *)
Definition activateTab (index : Z) (w : Window) : Window :=
  if (Z.ltb index 0 || Z.leb (Z.of_nat (length (tabs w))) index)%bool then w
  else
    let saved :=
      match (if Z.eqb (activeTabIndex w) (-1) then None
             else js_index (tabs w) (activeTabIndex w)) with
      | Some currentTab =>
          <[Z.to_nat (activeTabIndex w) :=
              mkTab (tab_id currentTab) (currentPath (nav w)) (history (nav w))
                    (historyIndex (nav w)) (selection w)]> (tabs w)
      | None => tabs w
      end in
    match js_index saved index with
    | Some tab => mkWindow saved index (tabNav tab) (tab_selectedItems tab)
    | None => mkWindow saved index (nav w) (selection w)
    end.

(** [createNewTab(path)]; [id] is the value of [Date.now() + Math.random()]
    and [home] the answer of [getHomeDirectory]; the empty string stands for
    a missing [path]. *)
Definition createNewTab (id : Q) (home path : string) (w : Window) : Window :=
  let startPath := if String.eqb path "" then home else path in
  let pushed := tabs w ++ [mkTab id startPath [startPath] 0 []] in
  activateTab (Z.of_nat (length pushed) - 1)
    (mkWindow pushed (activeTabIndex w) (nav w) (selection w)).

Section Tabs.
(** [await navigateTo(home)] on the variables of the window *)
Variable navigateHome : Window → Window.

(** [closeTab(index)]; with a single tab there is a first tab. *)
Definition closeTab (home : string) (index : Z) (w : Window) : Window :=
  if Nat.leb (length (tabs w)) 1 then
    match tabs w !! 0%nat with
    | Some first =>
        if String.eqb (tab_path first) home then w else navigateHome w
    | None => w
    end
  else
    let spliced := splice_one index (tabs w) in
    if Z.eqb index (activeTabIndex w) then
      activateTab (Z.max 0 (index - 1))
        (mkWindow spliced (-1) (nav w) (selection w))
    else if Z.ltb index (activeTabIndex w) then
      mkWindow spliced (activeTabIndex w - 1) (nav w) (selection w)
    else mkWindow spliced (activeTabIndex w) (nav w) (selection w).
End Tabs.

(** There is an active tab. *)
Definition tabs_wf (w : Window) : Prop :=
  0 ≤ activeTabIndex w < Z.of_nat (length (tabs w)).

(** ** The order of the rendered items (renderer) *)

(** [s.includes(needle)] *)
Fixpoint string_includes (needle s : string) : bool :=
  (String.prefix needle s
   || match s with
      | EmptyString => false
      | String _ s' => string_includes needle s'
      end)%bool.

(** The variables that [renderFiles] filters and sorts by; [searchValue] is
    the text of the search field, empty when the page has none. *)
Record ViewSettings := mkView {
  showHidden : bool;
  pickerMode : option string;
  searchValue : string;
  sortBy : string;
  sortAscending : bool;
}.

(** The time value of [new Date(t || 0)] *)
Definition timeOrEpoch (t : option JsTime) : JsTime := default (Millis 0) t.

(** The difference of two dates; [None] is [NaN]. *)
Definition dateDifference (a b : option JsTime) : option Z :=
  match timeOrEpoch a, timeOrEpoch b with
  | Millis x, Millis y => Some (x - y)
  | _, _ => None
  end.

Section RenderOrder.
Context `{Host} `{HostMore}.

(** [a.isDirectory ? (folderSizeCache.get(a.path)?.size ?? 0) : (a.size ?? 0)];
    [None] is [NaN], the size of an archive entry whose size did not
    parse, which [??] lets through. *)
Definition sortSize (folderSizeCache : JsMap CacheEntry) (a : DirItem) : option Z :=
  if isDirectory a then
    match map_get (path a) folderSizeCache with
    | Some entry => Some (ce_size entry)
    | None => Some 0
    end
  else size a.

(** The value of [comparison] after the [switch]; [None] is [NaN]. *)
Definition comparison (v : ViewSettings) (folderSizeCache : JsMap CacheEntry)
    (a b : DirItem) : option Z :=
  if String.eqb (sortBy v) "name" then Some (localeCompare (name a) (name b))
  else if String.eqb (sortBy v) "size" then
    match sortSize folderSizeCache a, sortSize folderSizeCache b with
    | Some sizeA, Some sizeB => Some (sizeA - sizeB)
    | _, _ => None
    end
  else if String.eqb (sortBy v) "date" then dateDifference (modified a) (modified b)
  else if String.eqb (sortBy v) "added" then dateDifference (created a) (created b)
  else if String.eqb (sortBy v) "type" then
    Some (localeCompareDefault (toLowerCase (default "" (extension a)))
            (toLowerCase (default "" (extension b))))
  else Some 0.

(** The comparator of [items.sort]; a result that is [NaN] counts as 0 in
    a sort. *)
Definition renderCompare (v : ViewSettings) (folderSizeCache : JsMap CacheEntry)
    (a b : DirItem) : Z :=
  if (isDirectory a && negb (isDirectory b))%bool then -1
  else if (negb (isDirectory a) && isDirectory b)%bool then 1
  else
    match comparison v folderSizeCache a b with
    | Some c => if sortAscending v then c else - c
    | None => 0
    end.

(** [items] of [renderFiles] when the sort is over. *)
Definition renderItems (v : ViewSettings) (folderSizeCache : JsMap CacheEntry)
    (currentItems : list DirItem) : list DirItem :=
  let items := currentItems in
  let items :=
    if showHidden v then items
    else filter (λ item, String.prefix "." (name item) = false) items in
  let items :=
    if bool_decide (pickerMode v = Some "directory")
    then filter (λ i, isDirectory i = true) items
    else items in
  let searchTerm := toLowerCase (searchValue v) in
  let items :=
    if String.eqb searchTerm "" then items
    else filter (λ item, string_includes searchTerm (toLowerCase (name item)) = true)
           items in
  array_sort (renderCompare v folderSizeCache) items.

(** An item passes the three filters. *)
Definition visible (v : ViewSettings) (item : DirItem) : bool :=
  ((showHidden v || negb (String.prefix "." (name item)))
   && (negb (bool_decide (pickerMode v = Some "directory")) || isDirectory item)
   && (String.eqb (toLowerCase (searchValue v)) ""
       || string_includes (toLowerCase (searchValue v))
            (toLowerCase (name item))))%bool.
End RenderOrder.

From Stdlib Require DecimalString.

(** ** The single-item handlers (main process) *)

(** A call to [fs.promises] made by one of these handlers. *)
Inductive FsOp :=
  | OpStat (p : string)
  | OpAccess (p : string)
  | OpReaddir (p : string)
  | OpMkdir (recursive : bool) (p : string)
  | OpCreate (p : string)
  | OpCopyFile (src dst : string)
  | OpRename (src dst : string)
  | OpRm (recursive force : bool) (p : string)
  | OpUnlink (p : string)
  | OpChmod (p : string) (mode : N).

(** The operations themselves: each takes the world as it is when the call
    is made and gives its result, or the error it rejects with, and the
    world afterwards. *)
Class Io (W : Type) := {
  io_stat : string → W → (JsError + Stats) * W;
  io_access : string → W → (JsError + unit) * W;
  (** [fs.readdir(p, { withFileTypes: true })] *)
  io_readdir : string → W → (JsError + list Dirent) * W;
  (** [fs.mkdir(p, { recursive })] *)
  io_mkdir : bool → string → W → (JsError + unit) * W;
  (** [fs.open(p, "wx")] and the [close] of the handle it gives, which the
      code has in one [try] block *)
  io_create : string → W → (JsError + unit) * W;
  io_copyFile : string → string → W → (JsError + unit) * W;
  io_rename : string → string → W → (JsError + unit) * W;
  (** [fs.rm(p, { recursive, force })] *)
  io_rm : bool → bool → string → W → (JsError + unit) * W;
  io_unlink : string → W → (JsError + unit) * W;
  io_chmod : string → N → W → (JsError + unit) * W;
}.

(** The world and the calls made so far, oldest first, each with whether it
    resolved. *)
Record Machine (W : Type) := mkMachine {
  disk : W;
  log : list (FsOp * bool);
}.
Arguments mkMachine {W}.
Arguments disk {W}.
Arguments log {W}.

Definition Task (W A : Type) : Type := Machine W → Outcome A * Machine W.

Global Instance task_ret {W} : MRet (Task W) :=
  λ A a s, (Returned a, s).

Global Instance task_bind {W} : MBind (Task W) :=
  λ A B k m s,
    match m s with
    | (Returned a, s') => k a s'
    | (Thrown e, s') => (Thrown e, s')
    | (Unfinished, s') => (Unfinished, s')
    end.

(** [throw e] *)
Definition raise {W A} (e : JsError) : Task W A := λ s, (Thrown e, s).

(** [try { body } catch (e) { handler }] *)
Definition attempt {W A} (body : Task W A) (handler : JsError → Task W A) : Task W A :=
  λ s,
    match body s with
    | (Thrown e, s') => handler e s'
    | r => r
    end.

Definition out_of_depth {W A} : Task W A := λ s, (Unfinished, s).

(** [for (const x of xs) await body(x)] *)
Fixpoint each {W A} (xs : list A) (body : A → Task W unit) : Task W unit :=
  match xs with
  | [] => mret tt
  | x :: xs' => body x ;; each xs' body
  end.

(** [await fs.op(...)] *)
Definition perform {W A} (op : FsOp) (f : W → (JsError + A) * W) : Task W A :=
  λ s,
    match f (disk s) with
    | (inr a, w) => (Returned a, mkMachine w (log s ++ [(op, true)]))
    | (inl e, w) => (Thrown e, mkMachine w (log s ++ [(op, false)]))
    end.

(** What a handler replies: [{ success: true }], [{ success: true, path }]
    (or [newPath]), or [{ success: false, error }], with the [code] where
    the handler gives one. *)
Inductive Reply :=
  | Done
  | DoneAt (p : string)
  | Failed (error : string) (errorCode : option string).

(** The [info] of [get-item-info], without [accessed] and [permissions]. *)
Record ItemInfo := mkItemInfo {
  info_name : string;
  info_path : string;
  info_size : N;
  info_created : JsTime;
  info_modified : JsTime;
  info_isDirectory : bool;
  info_isFile : bool;
}.

Inductive InfoReply :=
  | InfoOk (info : ItemInfo)
  | InfoFailed (error : string).

(** [`${i}`] for a natural number *)
Definition decimal (i : nat) : string :=
  DecimalString.NilZero.string_of_uint (Nat.to_uint i).

(** The loop of [findUniquePath] runs [i] from 1 to 9999. *)
Definition LAST_CANDIDATE : nat := N.to_nat 9999.
#[global] Opaque LAST_CANDIDATE.

Definition is_removal (op : FsOp) : Prop :=
  match op with
  | OpRm _ _ _ | OpUnlink _ => True
  | _ => False
  end.

Definition is_read (op : FsOp) : Prop :=
  match op with
  | OpStat _ | OpAccess _ | OpReaddir _ => True
  | _ => False
  end.

Section Handlers.
Context `{Host} `{HostMore} {W : Type} `{Io W}.

(** [err.code === "EACCES" || err.code === "EPERM"] *)
Definition permission_denied (err : JsError) : bool :=
  (String.eqb (code err) "EACCES" || String.eqb (code err) "EPERM")%bool.

(** [err.code === "EEXIST" || err.code === "ENOTEMPTY"] *)
Definition already_exists (err : JsError) : bool :=
  (String.eqb (code err) "EEXIST" || String.eqb (code err) "ENOTEMPTY")%bool.

Definition forceRemove (itemPath : string) : Task W unit :=
  perform (OpRm true true itemPath) (io_rm true true itemPath).

(** The handler of [delete-item] *)
Definition deleteItem (itemPath : string) : Task W Reply :=
  attempt
    (stats ← perform (OpStat itemPath) (io_stat itemPath);
     (if st_isDirectory stats then forceRemove itemPath
      else
        attempt (perform (OpUnlink itemPath) (io_unlink itemPath))
          (λ err,
             if permission_denied err then
               perform (OpChmod itemPath 384) (io_chmod itemPath 384);;
               perform (OpUnlink itemPath) (io_unlink itemPath)
             else raise err));;
     mret Done)
    (λ error,
       attempt (forceRemove itemPath;; mret Done)
         (λ finalErr,
            mret (Failed (message finalErr) (Some (code finalErr))))).

(** [`${baseName} (${i})${ext}`] joined to the directory of
    [desiredPath] *)
Definition candidatePath (desiredPath kind : string) (i : nat) : string :=
  let dir := path_dirname desiredPath in
  let baseName := if String.eqb kind "file" then path_parse_name desiredPath
                  else path_parse_base desiredPath in
  let ext := if String.eqb kind "file" then path_parse_ext desiredPath else "" in
  path_join dir (baseName +:+ " (" +:+ decimal i +:+ ")" +:+ ext).

(** The loop of [findUniquePath] over the values of [i] that are left,
    and the [throw] after it. *)
Fixpoint firstFree (desiredPath kind : string) (indices : list nat) : Task W string :=
  match indices with
  | [] => raise (mkError "" "Could not find a unique name")
  | i :: rest =>
      let candidate := candidatePath desiredPath kind i in
      free ← attempt (perform (OpAccess candidate) (io_access candidate);;
                      mret false)
                     (λ _, mret true);
      if free : bool then mret candidate else firstFree desiredPath kind rest
  end.

Definition findUniquePath (desiredPath kind : string) : Task W string :=
  firstFree desiredPath kind (seq 1 LAST_CANDIDATE).

Definition makeFolder (p : string) : Task W Reply :=
  perform (OpMkdir false p) (io_mkdir false p);; mret (DoneAt p).

Definition makeUniqueFolder (desiredPath : string) : Task W Reply :=
  uniquePath ← findUniquePath desiredPath "folder";
  makeFolder uniquePath.

(** The handler of [create-folder] *)
Definition createFolder (parentPath folderName : string) : Task W Reply :=
  attempt
    (let basePath := path_resolve parentPath in
     let desiredPath := path_join basePath folderName in
     attempt (makeFolder desiredPath)
       (λ err,
          if already_exists err then makeUniqueFolder desiredPath
          else if String.eqb (code err) "ENOENT" then
            perform (OpMkdir true basePath) (io_mkdir true basePath);;
            attempt (makeFolder desiredPath)
              (λ err2,
                 if already_exists err2 then makeUniqueFolder desiredPath
                 else raise err2)
          else raise err))
    (λ error, mret (Failed (message error) None)).

Definition makeFile (p : string) : Task W Reply :=
  perform (OpCreate p) (io_create p);; mret (DoneAt p).

(** The handler of [create-file] *)
Definition createFile (parentPath fileName : string) : Task W Reply :=
  attempt
    (let basePath := path_resolve parentPath in
     let desiredPath := path_join basePath fileName in
     perform (OpMkdir true basePath) (io_mkdir true basePath);;
     attempt (makeFile desiredPath)
       (λ err,
          if String.eqb (code err) "EEXIST" then
            uniquePath ← findUniquePath desiredPath "file";
            makeFile uniquePath
          else raise err))
    (λ error, mret (Failed (message error) None)).

(** [copyDirectory]; [depth] bounds the nesting of the calls. *)
Fixpoint copyDirectory (depth : nat) (source destination : string) : Task W unit :=
  match depth with
  | O => out_of_depth
  | S depth' =>
      perform (OpMkdir true destination) (io_mkdir true destination);;
      items ← perform (OpReaddir source) (io_readdir source);
      each items (λ item,
        let srcPath := path_join source (de_name item) in
        let destPath := path_join destination (de_name item) in
        if de_isDirectory item then copyDirectory depth' srcPath destPath
        else perform (OpCopyFile srcPath destPath) (io_copyFile srcPath destPath))
  end.

(** The handler of [copy-item] *)
Definition copyItem (depth : nat) (sourcePath destPath : string) : Task W Reply :=
  attempt
    (stats ← perform (OpStat sourcePath) (io_stat sourcePath);
     (if st_isDirectory stats then copyDirectory depth sourcePath destPath
      else perform (OpCopyFile sourcePath destPath)
             (io_copyFile sourcePath destPath));;
     mret Done)
    (λ error, mret (Failed (message error) None)).

(** The handler of [move-item] *)
Definition moveItem (depth : nat) (sourcePath destPath : string) : Task W Reply :=
  attempt
    (perform (OpRename sourcePath destPath) (io_rename sourcePath destPath);;
     mret Done)
    (λ error,
       attempt
         (stats ← perform (OpStat sourcePath) (io_stat sourcePath);
          (if st_isDirectory stats then
             copyDirectory depth sourcePath destPath;;
             perform (OpRm true false sourcePath) (io_rm true false sourcePath)
           else
             perform (OpCopyFile sourcePath destPath)
               (io_copyFile sourcePath destPath);;
             perform (OpUnlink sourcePath) (io_unlink sourcePath));;
          mret Done)
         (λ copyError, mret (Failed (message copyError) None))).

(** The loop of [getDirectorySize] over the entries that are left, with
    [size] as it is when the turn starts. *)
Fixpoint sumEntries (sizeOfDirectory : string → Task W N) (dirPath : string)
    (items : list Dirent) (size : N) : Task W N :=
  match items with
  | [] => mret size
  | item :: rest =>
      let fullPath := path_join dirPath (de_name item) in
      size' ← attempt
                (if de_isDirectory item then
                   n ← sizeOfDirectory fullPath; mret (size + n)%N
                 else
                   stats ← perform (OpStat fullPath) (io_stat fullPath);
                   mret (size + st_size stats)%N)
                (λ _, mret size);
      sumEntries sizeOfDirectory dirPath rest size'
  end.

(** [getDirectorySize].  The outer [catch] is reached from [readdir]
    only, with [size] still 0: the loop catches what its body throws. *)
Fixpoint getDirectorySize (depth : nat) (dirPath : string) : Task W N :=
  match depth with
  | O => out_of_depth
  | S depth' =>
      attempt
        (items ← perform (OpReaddir dirPath) (io_readdir dirPath);
         sumEntries (getDirectorySize depth') dirPath items 0%N)
        (λ _, mret 0%N)
  end.

(** The handler of [get-item-info] *)
Definition getItemInfo (depth : nat) (itemPath : string) : Task W InfoReply :=
  attempt
    (stats ← perform (OpStat itemPath) (io_stat itemPath);
     size ← (if st_isDirectory stats then getDirectorySize depth itemPath
             else mret (st_size stats));
     mret (InfoOk (mkItemInfo (path_basename itemPath) itemPath size
                     (st_birthtime stats) (st_mtime stats)
                     (st_isDirectory stats) (st_isFile stats))))
    (λ error, mret (InfoFailed (message error))).
End Handlers.

(** ** What a traversal finds *)

(** What [getDirectorySize] finds at an entry of a directory.  At an entry
    that is no directory: the size that its [stat] gives, or a [stat] that
    is rejected.  At a directory: what is found at each of its entries, in
    the order of the listing, or a [readdir] that is rejected. *)
#[warnings="-register-all"]
Inductive Found :=
  | FoundFile (size : N)
  | FoundNoStat
  | FoundDir (entries : list (string * Found))
  | FoundNoList.

(** The bytes found: what was rejected counts as nothing. *)
Fixpoint foundSize (t : Found) : N :=
  match t with
  | FoundFile size => size
  | FoundDir entries =>
      (fix total (entries : list (string * Found)) : N :=
         match entries with
         | [] => 0
         | (_, t') :: rest => foundSize t' + total rest
         end) entries
  | FoundNoStat | FoundNoList => 0
  end%N.

(** The calls that find [t] at the path [p], each with whether it
    resolved. *)
Fixpoint foundCalls `{Host} (p : string) (t : Found) : list (FsOp * bool) :=
  match t with
  | FoundFile _ => [(OpStat p, true)]
  | FoundNoStat => [(OpStat p, false)]
  | FoundNoList => [(OpReaddir p, false)]
  | FoundDir entries =>
      (OpReaddir p, true)
      :: (fix calls (entries : list (string * Found)) : list (FsOp * bool) :=
            match entries with
            | [] => []
            | (name, t') :: rest => foundCalls (path_join p name) t' ++ calls rest
            end) entries
  end.

(** [t] has at most [depth] directories inside one another. *)
Fixpoint nests (depth : nat) (t : Found) : bool :=
  match t with
  | FoundFile _ | FoundNoStat => true
  | FoundNoList => negb (Nat.eqb depth 0)
  | FoundDir entries =>
      match depth with
      | O => false
      | S depth' => forallb (λ e, nests depth' e.2) entries
      end
  end.

(** [finds dir items entries w w']: read one after the other from the world
    [w] on, the entries [items] of the listing of [dir] show [entries], and
    the world is [w'] afterwards. *)
Inductive finds `{Host} {W : Type} `{Io W}
    : string → list Dirent → list (string * Found) → W → W → Prop :=
  | finds_end dir w : finds dir [] [] w w
  | finds_file dir item items stats size entries w w1 w' :
      de_isDirectory item = false →
      io_stat (path_join dir (de_name item)) w = (inr stats, w1) →
      st_size stats = size →
      finds dir items entries w1 w' →
      finds dir (item :: items) ((de_name item, FoundFile size) :: entries) w w'
  | finds_no_stat dir item items e entries w w1 w' :
      de_isDirectory item = false →
      io_stat (path_join dir (de_name item)) w = (inl e, w1) →
      finds dir items entries w1 w' →
      finds dir (item :: items) ((de_name item, FoundNoStat) :: entries) w w'
  | finds_no_list dir item items e entries w w1 w' :
      de_isDirectory item = true →
      io_readdir (path_join dir (de_name item)) w = (inl e, w1) →
      finds dir items entries w1 w' →
      finds dir (item :: items) ((de_name item, FoundNoList) :: entries) w w'
  | finds_dir dir item items below inside entries w w1 w2 w' :
      de_isDirectory item = true →
      io_readdir (path_join dir (de_name item)) w = (inr below, w1) →
      finds (path_join dir (de_name item)) below inside w1 w2 →
      finds dir items entries w2 w' →
      finds dir (item :: items) ((de_name item, FoundDir inside) :: entries) w w'.

(** ** What a copy copies *)

(** What [copyDirectory] copies at an entry of a directory: something that
    is no directory, with one [copyFile], or a directory, with what is
    copied at each entry of its listing, in the order of the listing. *)
#[warnings="-register-all"]
Inductive Copied :=
  | CopiedFile
  | CopiedDir (entries : list (string * Copied)).

(** The calls that copy [t] from the path [src] to the path [dst], all of
    them resolved. *)
Fixpoint copiedCalls `{Host} (src dst : string) (t : Copied) : list (FsOp * bool) :=
  match t with
  | CopiedFile => [(OpCopyFile src dst, true)]
  | CopiedDir entries =>
      (OpMkdir true dst, true) :: (OpReaddir src, true)
      :: (fix calls (entries : list (string * Copied)) : list (FsOp * bool) :=
            match entries with
            | [] => []
            | (name, t') :: rest =>
                copiedCalls (path_join src name) (path_join dst name) t'
                ++ calls rest
            end) entries
  end.

(** [t] has at most [depth] directories inside one another. *)
Fixpoint copiedNests (depth : nat) (t : Copied) : bool :=
  match t with
  | CopiedFile => true
  | CopiedDir entries =>
      match depth with
      | O => false
      | S depth' => forallb (λ e, copiedNests depth' e.2) entries
      end
  end.

(** [duplicates src dst items entries w w']: from the world [w] on, every
    entry of the listing [items] of [src] is copied to the same name in
    [dst], one after the other, with every call resolved: a directory by
    making the directory in [dst], listing it in [src] and copying every
    entry listed, anything else by [copyFile].  [entries] is what was
    copied and [w'] the world afterwards. *)
Inductive duplicates `{Host} {W : Type} `{Io W}
    : string → string → list Dirent → list (string * Copied) → W → W → Prop :=
  | duplicates_end src dst w : duplicates src dst [] [] w w
  | duplicates_file src dst item items entries w w1 w' :
      de_isDirectory item = false →
      io_copyFile (path_join src (de_name item)) (path_join dst (de_name item)) w
        = (inr tt, w1) →
      duplicates src dst items entries w1 w' →
      duplicates src dst (item :: items) ((de_name item, CopiedFile) :: entries) w w'
  | duplicates_dir src dst item items below inside entries w w1 w2 w3 w' :
      de_isDirectory item = true →
      io_mkdir true (path_join dst (de_name item)) w = (inr tt, w1) →
      io_readdir (path_join src (de_name item)) w1 = (inr below, w2) →
      duplicates (path_join src (de_name item)) (path_join dst (de_name item))
        below inside w2 w3 →
      duplicates src dst items entries w3 w' →
      duplicates src dst (item :: items) ((de_name item, CopiedDir inside) :: entries)
        w w'.

(** An operation of the copy from [src] to [dst]: it reads below [src], and
    what it writes below [dst] has the relative path of what it reads. *)
Definition copies `{Host} (src dst : string) (op : FsOp) : Prop :=
  ∃ names,
    op = OpStat (descend src names)
    ∨ op = OpReaddir (descend src names)
    ∨ op = OpMkdir true (descend dst names)
    ∨ op = OpCopyFile (descend src names) (descend dst names).

(** From [s] to [s']: the log grew by entries that satisfy [P]. *)
Definition logged {W} (P : FsOp * bool → Prop) (s s' : Machine W) : Prop :=
  ∃ entries, log s' = log s ++ entries ∧ Forall P entries.

(** The entries a task adds are all resolved calls, except that a task
    which throws ends with the one call that was rejected. *)
Definition stops_at_first_failure {W A} (m : Task W A) : Prop :=
  ∀ s,
    match (m s).1 with
    | Thrown _ =>
        ∃ entries op, log (m s).2 = log s ++ entries ++ [(op, false)]
                      ∧ Forall (λ e, e.2 = true) entries
    | _ => ∃ entries, log (m s).2 = log s ++ entries
                      ∧ Forall (λ e, e.2 = true) entries
    end.

(** Every run of [m] takes the machine to one that [R] relates to it,
    however the run ends. *)
Definition task_keeps {W} (R : relation (Machine W)) {A} (m : Task W A) : Prop :=
  ∀ s, R s (m s).2.

(** The run of [m] ends within the depth the model was given. *)
Definition finishes {W A} (m : Task W A) : Prop :=
  ∀ s, (m s).1 ≠ Unfinished.

Definition never_throws {W A} (m : Task W A) : Prop :=
  ∀ s e, (m s).1 ≠ Thrown e.

(** The calls that look whether a path exists or create what is not
    there. *)
Definition is_creation (op : FsOp) : Prop :=
  match op with
  | OpAccess _ | OpMkdir _ _ | OpCreate _ => True
  | _ => False
  end.

(** When the reply names a path: the last call made created it, and it is
    the path asked for or a candidate that [access] had just rejected. *)
Definition creates_reply `{Host} `{HostMore} {W} (make : string → FsOp)
    (desiredPath kind : string) (s : Machine W) (r : Outcome Reply * Machine W)
    : Prop :=
  ∀ p, r.1 = Returned (DoneAt p) →
    ∃ pre,
      log r.2 = log s ++ pre ++ [(make p, true)]
      ∧ (p = desiredPath
         ∨ ∃ i pre', (1 ≤ i ≤ LAST_CANDIDATE)%nat
                     ∧ p = candidatePath desiredPath kind i
                     ∧ pre = pre' ++ [(OpAccess p, false)]).

(** ** The small disk, with the operations of the single-item handlers *)

Module SmallIo.

Definition access (p : string) (d : Small.Disk) : (JsError + unit) * Small.Disk :=
match Small.nodes d !! p with
| Some _ => (inr tt, d)
| None => Small.fail "ENOENT" d
end.

Definition readdir (p : string) (d : Small.Disk)
  : (JsError + list Dirent) * Small.Disk :=
match (Small.readdir p d).1 with
| inr cs => (inr (Small.dirent_of d p <$> cs), d)
| inl e => (inl e, d)
end.

Definition mkdir (recursive : bool) (p : string) (d : Small.Disk)
  : (JsError + unit) * Small.Disk :=
if recursive then Small.mkdir p d
else
  match Small.nodes d !! p, Small.nodes d !! Small.dirname p with
  | Some _, _ => Small.fail "EEXIST" d
  | None, Some (Small.DirNode _) => Small.mkdir p d
  | None, _ => Small.fail "ENOENT" d
  end.

Definition create (p : string) (d : Small.Disk) : (JsError + unit) * Small.Disk :=
match Small.nodes d !! p, Small.nodes d !! Small.dirname p with
| Some _, _ => Small.fail "EEXIST" d
| None, Some (Small.DirNode _) =>
    (inr tt, Small.mkDisk (Small.link p (<[p := Small.FileNode 0]> (Small.nodes d)))
                          (Small.cross_device d))
| None, _ => Small.fail "ENOENT" d
end.

Definition rm (recursive force : bool) (p : string) (d : Small.Disk)
  : (JsError + unit) * Small.Disk :=
match Small.nodes d !! p with
| None => if force then (inr tt, d) else Small.fail "ENOENT" d
| Some (Small.DirNode _) =>
    if recursive then Small.rm p d else Small.fail "EISDIR" d
| Some (Small.FileNode _) => Small.rm p d
end.

Definition unlink (p : string) (d : Small.Disk) : (JsError + unit) * Small.Disk :=
match Small.nodes d !! p with
| Some (Small.FileNode _) => Small.rm p d
| Some (Small.DirNode _) => Small.fail "EISDIR" d
| None => Small.fail "ENOENT" d
end.

Definition chmod (p : string) (mode : N) (d : Small.Disk)
  : (JsError + unit) * Small.Disk :=
access p d.

Definition disk_io : Io Small.Disk :=
{| io_stat := Small.stat;
   io_access := access;
   io_readdir := readdir;
   io_mkdir := mkdir;
   io_create := create;
   io_copyFile := Small.copyFile;
   io_rename := Small.rename;
   io_rm := rm;
   io_unlink := unlink;
   io_chmod := chmod |}.

(** A machine that starts on [d] with an empty log. *)
Definition start (d : Small.Disk) : Machine Small.Disk := mkMachine d [].

End SmallIo.

(** * Properties *)

#[local] Set Warnings "-clear-no-such-hyp".

(** ** The cache map and its trimming *)

Section CacheMap.
Context {V : Type}.
Implicit Types (m : JsMap V) (k : string) (v : V).

Lemma map_delete_absent k m : k ∉ map_keys m → map_delete k m = m.
Proof.
  induction m as [|[k' v'] m IH]; simpl; [done|].
  intros Hk. apply not_elem_of_cons in Hk as [Hne Hk].
  destruct (String.eqb_spec k' k) as [->|_]; [done|].
  by rewrite IH.
Qed.

Lemma map_delete_oldest k v m :
  map_wf ((k, v) :: m) → map_delete k ((k, v) :: m) = m.
Proof.
  intros Hwf. apply NoDup_cons in Hwf as [Hk _].
  simpl. rewrite String.eqb_refl. by apply map_delete_absent.
Qed.

Lemma map_keys_delete k m : map_keys (map_delete k m) = filter (λ k', k' ≠ k) (map_keys m).
Proof.
  induction m as [|[k' v'] m IH]; simpl; [done|].
  rewrite filter_cons. simpl.
  destruct (String.eqb_spec k' k) as [->|Hne].
  - by rewrite decide_False by (intros ?; done).
  - rewrite decide_True by done. simpl. by f_equal.
Qed.

Lemma map_wf_delete k m : map_wf m → map_wf (map_delete k m).
Proof.
  unfold map_wf. rewrite map_keys_delete. apply NoDup_filter.
Qed.

Lemma map_keys_set k v m :
  map_keys (map_set k v m) = if bool_decide (k ∈ map_keys m) then map_keys m
                             else map_keys m ++ [k].
Proof.
  induction m as [|[k' v'] m IH]; simpl; [done|].
  destruct (String.eqb_spec k' k) as [->|Hne]; simpl.
  - rewrite bool_decide_eq_true_2; [done | left].
  - rewrite IH. destruct (bool_decide_reflect (k ∈ map_keys m)) as [Hin|Hout].
    + rewrite bool_decide_eq_true_2; [done | by right].
    + rewrite bool_decide_eq_false_2; [done|].
      intros [?|?]%elem_of_cons; congruence.
Qed.

Lemma map_wf_set k v m : map_wf m → map_wf (map_set k v m).
Proof.
  unfold map_wf. rewrite map_keys_set.
  destruct (bool_decide_reflect (k ∈ map_keys m)) as [Hin|Hout]; [done|].
  intros Hwf. apply NoDup_app. split_and!; [done | | apply NoDup_singleton].
  intros x Hx ->%list_elem_of_singleton. done.
Qed.

Lemma map_set_new k v m : k ∉ map_keys m → map_set k v m = m ++ [(k, v)].
Proof.
  induction m as [|[k' v'] m IH]; simpl; [done|].
  intros [Hne Hk]%not_elem_of_cons.
  destruct (String.eqb_spec k' k) as [->|_]; [done|].
  by rewrite IH.
Qed.

(** Setting pairwise different keys one after the other builds the map
    that lists them in that order. *)
Lemma map_set_all (entries : JsMap V) m :
  NoDup (map_keys (m ++ entries)) →
  foldl (λ c kv, map_set kv.1 kv.2 c) m entries = m ++ entries.
Proof.
  revert m. induction entries as [|[k v] entries IH]; intros m Hnd; simpl.
  - by rewrite app_nil_r.
  - rewrite map_set_new.
    + rewrite IH; rewrite <- app_assoc; done.
    + unfold map_keys in *. rewrite fmap_app in Hnd.
      apply NoDup_app in Hnd as (_ & Hdis & _).
      intros Hin. apply (Hdis k Hin). simpl. left.
Qed.

Lemma delete_oldest_keys (n : nat) m :
  map_wf m → foldl (λ c k, map_delete k c) m (take n (map_keys m)) = drop n m.
Proof.
  revert m. induction n as [|n IH]; intros m Hwf; [done|].
  destruct m as [|[k v] m]; [done|].
  cbn [map_keys fmap list_fmap take foldl fst drop].
  rewrite map_delete_oldest by done.
  apply IH. by apply NoDup_cons in Hwf as [_ ?].
Qed.

(** C8. A cache that holds more than [N] entries is cut down to exactly
    [N]: the entries removed are the oldest-inserted ones, in insertion
    order, and the [N] newest stay as they were.  A cache with [N + 1]
    entries loses exactly its oldest entry; this is what happens after
    [N + 1] different keys have been set in an empty map. *)
Theorem trimCache_drops_oldest (cache : JsMap V) (N : nat) :
  map_wf cache →
  (N < map_size cache)%nat →
  trimCache cache N = drop (map_size cache - N) cache
  ∧ map_size (trimCache cache N) = N
  ∧ cache = take (map_size cache - N) cache ++ trimCache cache N
  ∧ (map_size cache = S N → ∃ oldest, cache = oldest :: trimCache cache N)
  ∧ (∀ entries : JsMap V,
       foldl (λ c kv, map_set kv.1 kv.2 c) [] entries = cache →
       NoDup (map_keys entries) →
       trimCache cache N = drop (length entries - N) entries).
Proof.
  intros Hwf Hlt.
  assert (Htrim : trimCache cache N = drop (map_size cache - N) cache).
  { unfold trimCache. rewrite (proj2 (Nat.leb_gt _ _)) by done.
    by apply delete_oldest_keys. }
  rewrite Htrim. split_and!.
  - done.
  - unfold map_size in *. rewrite length_drop. lia.
  - by rewrite take_drop.
  - intros HS. rewrite HS. replace (S N - N)%nat with 1%nat by lia.
    destruct cache as [|oldest cache]; [done|]. by exists oldest.
  - intros entries Hbuild Hnd.
    rewrite (map_set_all entries []) in Hbuild by done. simpl in Hbuild.
    by subst.
Qed.
End CacheMap.

Lemma trimCache_drops_oldest_witness :
  map_wf [("/a", 1); ("/b", 2); ("/c", 3)]
  ∧ (2 < map_size [("/a", 1); ("/b", 2); ("/c", 3)])%nat
  ∧ trimCache [("/a", 1); ("/b", 2); ("/c", 3)] 2 = [("/b", 2); ("/c", 3)].
Proof.
  assert (Hwf : map_wf [("/a", 1); ("/b", 2); ("/c", 3)]).
  { apply (bool_decide_unpack _). vm_compute. reflexivity. }
  assert (Hlt : (2 < map_size [("/a", 1); ("/b", 2); ("/c", 3)])%nat).
  { simpl. lia. }
  split; [exact Hwf | split; [exact Hlt|]].
  exact (proj1 (trimCache_drops_oldest [("/a", 1); ("/b", 2); ("/c", 3)] 2 Hwf Hlt)).
Defined.

(** ** Strings *)

Lemma split_on_nonempty sep s : split_on sep s ≠ [].
Proof.
  induction s as [|c s IH]; simpl; [done|].
  destruct (Ascii.eqb c sep); [done|]. by destruct (split_on sep s).
Qed.

Lemma split_on_length sep s : (1 ≤ length (split_on sep s))%nat.
Proof.
  pose proof (split_on_nonempty sep s). destruct (split_on sep s); simpl; [done | lia].
Qed.

Lemma append_nil (t : string) : "" +:+ t = t.
Proof. reflexivity. Qed.

Lemma append_cons c (s t : string) : String c s +:+ t = String c (s +:+ t).
Proof. reflexivity. Qed.

Lemma string_length_app (a b : string) :
  String.length (a +:+ b) = (String.length a + String.length b)%nat.
Proof.
  induction a as [|c a IH]; [done|]. rewrite append_cons. simpl. by rewrite IH.
Qed.

Lemma strip_prefix_spec pre s r : strip_prefix pre s = Some r ↔ s = pre +:+ r.
Proof.
  revert s. induction pre as [|a pre IH]; intros s; simpl.
  - rewrite append_nil. split; [by intros [= ->] | by intros ->].
  - rewrite append_cons. destruct s as [|b s]; [done|].
    destruct (Ascii.eqb_spec a b) as [->|Hne].
    + rewrite IH. split; [by intros -> | by intros [= ->]].
    + split; [done | intros [= ? ?]; done].
Qed.

Lemma strip_prefix_prefix pre s :
  strip_prefix pre s =
    if String.prefix pre s then Some (slice_from (String.length pre) s) else None.
Proof.
  revert s. induction pre as [|a pre IH]; intros s; simpl.
  - by destruct s.
  - destruct s as [|b s]; [done|]. cbn [String.prefix].
    destruct (Ascii.ascii_dec a b) as [->|Hne].
    + rewrite Ascii.eqb_refl. apply IH.
    + by rewrite (proj2 (Ascii.eqb_neq a b)).
Qed.

(** What [relativeTo] computes: the non-empty rest of the path after the
    internal path and a slash. *)
Lemma append_slash_assoc (internal rel : string) :
  (internal +:+ "/") +:+ rel = internal +:+ "/" +:+ rel.
Proof.
  induction internal as [|c s IH]; [done|]. rewrite !append_cons. by rewrite IH.
Qed.

Lemma append_cancel_l (a r1 r2 : string) : a +:+ r1 = a +:+ r2 → r1 = r2.
Proof. apply String.app_inj. Qed.

Lemma relativeTo_spec internal p rel :
  relativeTo internal p = Some rel ↔
  rel ≠ "" ∧ p = (if String.eqb internal "" then rel else internal +:+ "/" +:+ rel).
Proof.
  unfold relativeTo. destruct (String.eqb_spec internal "") as [->|Hne].
  - destruct (String.eqb_spec p "") as [->|Hp].
    + split; [done | intros [? ?]; congruence].
    + split; [by intros [= ->] | by intros [_ ->]].
  - destruct (strip_prefix (internal +:+ "/") p) as [r|] eqn:Hs.
    + apply strip_prefix_spec in Hs. rewrite append_slash_assoc in Hs. subst p.
      destruct (String.eqb_spec r "") as [->|Hr].
      * split; [done|]. intros [Hrel Heq%append_cancel_l].
        rewrite !append_cons, !append_nil in Heq. injection Heq as Heq. congruence.
      * split; [by intros [= ->]|].
        intros [_ Heq%append_cancel_l].
        rewrite !append_cons, !append_nil in Heq. injection Heq as Heq.
        by subst.
    + split; [done|]. intros [_ ->].
      assert (strip_prefix (internal +:+ "/") (internal +:+ "/" +:+ rel) = Some rel) as Hs'.
      { apply strip_prefix_spec. by rewrite append_slash_assoc. }
      congruence.
Qed.

(** ** Listing the inside of an archive *)

Lemma firstPerName_filter (P : string → Prop) `{∀ n, Decision (P n)} l :
  firstPerName (filter (λ y, P y.1) l) = filter (λ y, P y.1) (firstPerName l).
Proof.
  induction l as [|x l IH]; [done|].
  rewrite filter_cons. destruct (decide (P x.1)) as [HP|HP]; simpl.
  - rewrite filter_cons, decide_True by done. f_equal.
    rewrite IH, !list_filter_filter. apply list_filter_iff. naive_solver.
  - rewrite filter_cons, decide_False by done.
    rewrite IH, list_filter_filter. apply list_filter_iff.
    intros y. split; [|naive_solver]. intros Hy. split; [done|]. congruence.
Qed.

Lemma firstPerName_NoDup l : NoDup (firstPerName l).*1.
Proof.
  induction l as [|x l IH]; simpl; [constructor|].
  apply NoDup_cons. split.
  - intros (y & Heq & Hy%list_elem_of_filter)%list_elem_of_fmap. naive_solver.
  - clear -IH. induction (firstPerName l) as [|y l' IH']; [constructor|].
    rewrite filter_cons. apply NoDup_cons in IH as [Hy Hnd].
    destruct (decide (y.1 ≠ x.1)); [|by apply IH'].
    simpl. apply NoDup_cons. split; [|by apply IH'].
    intros (z & Heq & Hz%list_elem_of_filter)%list_elem_of_fmap.
    apply Hy. apply list_elem_of_fmap. naive_solver.
Qed.

Lemma firstPerName_names l n : n ∈ (firstPerName l).*1 ↔ n ∈ l.*1.
Proof.
  induction l as [|x l IH]; simpl; [done|].
  rewrite !elem_of_cons, <- IH. split.
  - intros [->|(y & -> & Hy%list_elem_of_filter)%list_elem_of_fmap]; [by left|].
    right. apply list_elem_of_fmap. naive_solver.
  - intros [->|(y & -> & Hy)%list_elem_of_fmap]; [by left|].
    destruct (decide (y.1 = x.1)) as [Heq|Hne]; [by left|].
    right. apply list_elem_of_fmap. exists y. split; [done|].
    by apply list_elem_of_filter.
Qed.

(** An entry of [firstPerName l] is the first entry of [l] with its name. *)
Lemma firstPerName_first l x :
  x ∈ firstPerName l ↔
  ∃ i, l !! i = Some x ∧ ∀ j y, (j < i)%nat → l !! j = Some y → y.1 ≠ x.1.
Proof.
  revert x. induction l as [|a l IH]; intros x; simpl.
  - split; [by intros ?%elem_of_nil | by intros (i & ? & _)].
  - rewrite elem_of_cons, list_elem_of_filter, IH. split.
    + intros [->|(Hne & i & Hi & Hfirst)].
      * exists 0%nat. split; [done|]. intros; lia.
      * exists (S i). split; [done|]. intros [|j] y Hj Hy.
        -- injection Hy as <-. congruence.
        -- apply (Hfirst j); [lia | done].
    + intros ([|i] & Hi & Hfirst).
      * left. by injection Hi.
      * right. split.
        -- intros Heq. by apply (Hfirst 0%nat a); [lia | | ].
        -- exists i. split; [done|]. intros j y Hj Hy.
           apply (Hfirst (S j)); [lia | done].
Qed.

Section ArchiveListing.
Context `{Host}.

(** One turn of the loop, read off the record of the block. *)
Lemma archiveStep_child fullPath ni (acc : list DirItem * gset string) block :
  match recordOfBlock block ≫= childOfRecord ni with
  | None => archiveStep fullPath ni acc block = acc
  | Some (n, d) =>
      if bool_decide (n ∈ acc.2) then archiveStep fullPath ni acc block = acc
      else ∃ item,
          archiveStep fullPath ni acc block = (acc.1 ++ [item], {[ n ]} ∪ acc.2)
          ∧ summary item = (n, d)
          ∧ isFile item = negb d
          ∧ path item = path_join fullPath n
  end.
Proof.
  unfold archiveStep, recordOfBlock, childOfRecord, relativeTo, segments.
  destruct (entryOfBlock block !! "Path") as [p|] eqn:HP; simpl; [|done].
  destruct (String.eqb_spec p "") as [->|Hp]; simpl; [done|].
  destruct (String.eqb_spec ni "") as [->|Hni]; simpl.
  - destruct (String.eqb_spec (replace_backslashes p) "") as [Hempty|Hrel]; simpl; [done|].
    destruct (bool_decide _); [done|].
    eexists. split; [reflexivity|]. simpl. unfold summary. simpl.
    pose proof (split_on_length "/" (replace_backslashes p)) as Hlen.
    destruct (entryOfBlock block !! "Attributes") as [attrs|]; simpl.
    + destruct (String.eqb_spec attrs "") as [->|]; simpl;
        destruct (length (split_on "/" (replace_backslashes p))) as [|[|?]];
        simpl; try lia; done.
    + destruct (length (split_on "/" (replace_backslashes p))) as [|[|?]];
        simpl; try lia; done.
  - rewrite strip_prefix_prefix, string_length_app. simpl String.length.
    destruct (String.prefix (ni +:+ "/") (replace_backslashes p)); simpl; [|done].
    set (rel := slice_from (String.length ni + 1) (replace_backslashes p)).
    destruct (String.eqb_spec rel "") as [Hempty|Hrel]; simpl; [done|].
    destruct (bool_decide _); [done|].
    eexists. split; [reflexivity|]. simpl. unfold summary. simpl.
    pose proof (split_on_length "/" rel) as Hlen.
    destruct (entryOfBlock block !! "Attributes") as [attrs|]; simpl.
    + destruct (String.eqb_spec attrs "") as [->|]; simpl;
        destruct (length (split_on "/" rel)) as [|[|?]];
        simpl; try lia; done.
    + destruct (length (split_on "/" rel)) as [|[|?]];
        simpl; try lia; done.
Qed.

Lemma archive_loop fullPath ni blocks (acc : list DirItem * gset string) :
  (∀ n, n ∈ acc.2 ↔ n ∈ name <$> acc.1) →
  summary <$> (foldl (archiveStep fullPath ni) acc blocks).1 =
    (summary <$> acc.1)
    ++ firstPerName (filter (λ c, c.1 ∉ acc.2)
                            (omap (λ b, recordOfBlock b ≫= childOfRecord ni) blocks)).
Proof.
  revert acc. induction blocks as [|block blocks IH]; intros acc Hseen; simpl.
  { by rewrite app_nil_r. }
  pose proof (archiveStep_child fullPath ni acc block) as Hstep.
  destruct (recordOfBlock block ≫= childOfRecord ni) as [[n d]|] eqn:Hchild; simpl.
  2:{ rewrite Hstep. by apply IH. }
  rewrite filter_cons. simpl.
  destruct (bool_decide_reflect (n ∈ acc.2)) as [Hin|Hout].
  - rewrite Hstep, decide_False by (intros ?; done). by apply IH.
  - destruct Hstep as (item & -> & Hsum & Hfile & Hpath).
    rewrite decide_True by done.
    assert (Hname : name item = n) by (by injection Hsum).
    rewrite IH.
    2:{ intros m. simpl. rewrite fmap_app, elem_of_app, elem_of_union, elem_of_singleton.
        simpl. rewrite list_elem_of_singleton, Hname, Hseen. naive_solver. }
    simpl. rewrite fmap_app, <- app_assoc. simpl. rewrite Hsum. do 2 f_equal.
    etrans; [|exact (firstPerName_filter (λ m, m ≠ n) _)].
    f_equal. rewrite list_filter_filter. apply list_filter_iff.
    intros [m e]. simpl. set_solver.
Qed.

Lemma archive_loop_items fullPath ni blocks (acc : list DirItem * gset string) :
  Forall (λ i, isFile i = negb (isDirectory i)) acc.1 →
  Forall (λ i, isFile i = negb (isDirectory i))
         (foldl (archiveStep fullPath ni) acc blocks).1.
Proof.
  revert acc. induction blocks as [|block blocks IH]; intros acc Hacc; simpl; [done|].
  apply IH.
  pose proof (archiveStep_child fullPath ni acc block) as Hstep.
  destruct (recordOfBlock block ≫= childOfRecord ni) as [[n d]|]; [|by rewrite Hstep].
  destruct (bool_decide (n ∈ acc.2)); [by rewrite Hstep|].
  destruct Hstep as (item & -> & Hsum & Hfile & _). simpl.
  apply Forall_app. split; [done|]. apply Forall_singleton.
  rewrite Hfile. by injection Hsum as _ ->.
Qed.

Lemma omap_bind {A B C} (f : A → option B) (g : B → option C) (l : list A) :
  omap g (omap f l) = omap (λ x, f x ≫= g) l.
Proof.
  induction l as [|x l IH]; [done|].
  unfold omap in *. simpl.
  destruct (f x) as [y|]; simpl; [|done].
  destruct (g y); simpl; congruence.
Qed.

Lemma filter_all {A} (P : A → Prop) `{∀ x, Decision (P x)} (l : list A) :
  (∀ x, P x) → filter P l = l.
Proof.
  intros HP. induction l as [|x l IH]; [done|].
  rewrite filter_cons, decide_True by done. by rewrite IH.
Qed.

Lemma childOfRecord_spec internal p (marked : bool) n d :
  childOfRecord internal (p, marked) = Some (n, d) ↔
  ∃ rel, rel ≠ ""
         ∧ p = (if String.eqb internal "" then rel else internal +:+ "/" +:+ rel)
         ∧ n = hd "" (segments rel)
         ∧ d = (Nat.ltb 1 (length (segments rel)) || marked)%bool.
Proof.
  unfold childOfRecord. simpl. split.
  - destruct (relativeTo internal p) as [rel|] eqn:Hrel; [|done].
    intros [= <- <-]. apply relativeTo_spec in Hrel as [? ?]. by exists rel.
  - intros (rel & Hne & Hp & -> & ->).
    by rewrite (proj2 (relativeTo_spec internal p rel)).
Qed.

Lemma archiveContents_summary fullPath internal blocks :
  summary <$> archiveContents fullPath internal blocks
  = childrenSpec (replace_backslashes internal) blocks.
Proof.
  unfold archiveContents, childrenSpec.
  rewrite archive_loop by set_solver. simpl.
  rewrite omap_bind. f_equal. apply filter_all. set_solver.
Qed.

Lemma archiveContents_names fullPath internal blocks :
  NoDup (name <$> archiveContents fullPath internal blocks).
Proof.
  replace (name <$> archiveContents fullPath internal blocks)
    with ((summary <$> archiveContents fullPath internal blocks).*1).
  - rewrite archiveContents_summary. apply firstPerName_NoDup.
  - by rewrite <- list_fmap_compose.
Qed.

(** C1. The children listed for the internal path [internal] of an
    archive are obtained from the records of the archive as the
    specification says: the records that are strict descendants of the
    internal path, each reduced to the first segment of its relative path,
    a later record with a name already seen being skipped, and an entry
    being a directory exactly when its relative path has more than one
    segment or its attributes carry the directory mark.  No name occurs
    twice, and the names are the first segments of those records.  For an
    archive with [subdir/a.txt] and [subdir/nested/b.txt], listing
    [subdir] gives the file [a.txt] and the directory [nested]. *)
Theorem archive_children_of_records fullPath internal (blocks : list Block) :
  let ni := replace_backslashes internal in
  let records := omap recordOfBlock blocks in
  let children := omap (childOfRecord ni) records in
  let contents := archiveContents fullPath internal blocks in
  summary <$> contents = childrenSpec ni blocks
  ∧ NoDup (name <$> contents)
  ∧ (∀ n, n ∈ name <$> contents ↔ n ∈ children.*1)
  ∧ (∀ item, item ∈ contents → isFile item = negb (isDirectory item))
  ∧ (∀ n d, (n, d) ∈ summary <$> contents ↔
       ∃ i, children !! i = Some (n, d)
            ∧ ∀ j c, (j < i)%nat → children !! j = Some c → c.1 ≠ n)
  ∧ (∀ p marked n d,
       childOfRecord ni (p, marked) = Some (n, d) ↔
       ∃ rel, rel ≠ ""
              ∧ p = (if String.eqb ni "" then rel else ni +:+ "/" +:+ rel)
              ∧ n = hd "" (segments rel)
              ∧ d = (Nat.ltb 1 (length (segments rel)) || marked)%bool)
  ∧ summary <$> @archiveContents Small.host "/home/archive.zip/subdir" "subdir"
                  Small.archive_zip
    = [("a.txt", false); ("nested", true)]
  ∧ @getDirectoryContents Small.host Small.home_view "/home/archive.zip/subdir"
    = ListOk
        [ mkItem "nested" "/home/archive.zip/subdir/nested" true false false
                 None (Some 0) None None None;
          mkItem "a.txt" "/home/archive.zip/subdir/a.txt" false true false
                 None (Some 12) None None (Some ".txt") ]
        "/home/archive.zip/subdir" true.
Proof.
  intros ni records children contents.
  assert (Hsum : summary <$> contents = childrenSpec ni blocks)
    by apply archiveContents_summary.
  split_and!.
  - done.
  - apply archiveContents_names.
  - intros n.
    replace (name <$> contents) with ((summary <$> contents).*1)
      by (by rewrite <- list_fmap_compose).
    rewrite Hsum. apply firstPerName_names.
  - intros item Hitem. subst contents. unfold archiveContents in Hitem.
    pose proof (archive_loop_items fullPath ni blocks ([], ∅) (Forall_nil_2 _)) as Hall.
    rewrite Forall_forall in Hall. by apply Hall.
  - intros n d. rewrite Hsum. unfold childrenSpec. fold records. fold children.
    apply (firstPerName_first children (n, d)).
  - intros. apply childOfRecord_spec.
  - vm_compute. reflexivity.
  - vm_compute. reflexivity.
Qed.
End ArchiveListing.

(** ** Sorting *)

Section InsertionSort.
Context {A : Type} (cmp : A → A → Z).
Hypothesis cmp_total : ∀ a b, cmp a b ≤ 0 ∨ cmp b a ≤ 0.
Hypothesis cmp_trans : ∀ a b c, cmp a b ≤ 0 → cmp b c ≤ 0 → cmp a c ≤ 0.

Lemma insert_sorted_perm x l : insert_sorted cmp x l ≡ₚ x :: l.
Proof.
  induction l as [|y l IH]; simpl; [done|].
  destruct (Z.leb (cmp x y) 0); [done|].
  rewrite IH. apply Permutation_swap.
Qed.

Lemma array_sort_perm l : array_sort cmp l ≡ₚ l.
Proof.
  induction l as [|x l IH]; simpl; [done|].
  by rewrite insert_sorted_perm, IH.
Qed.

Lemma insert_sorted_sorted x l :
  StronglySorted (λ a b, cmp a b ≤ 0) l →
  StronglySorted (λ a b, cmp a b ≤ 0) (insert_sorted cmp x l).
Proof.
  induction 1 as [|y l Hl IH Hy]; simpl.
  - repeat constructor.
  - destruct (Z.leb_spec (cmp x y) 0) as [Hxy|Hxy].
    + constructor; [by constructor|].
      constructor; [done|]. eapply Forall_impl; [exact Hy|].
      intros z Hz. by apply (cmp_trans x y z).
    + constructor; [done|].
      rewrite insert_sorted_perm. constructor; [|done].
      destruct (cmp_total x y) as [?|?]; [lia | done].
Qed.

Lemma array_sort_sorted l : StronglySorted (λ a b, cmp a b ≤ 0) (array_sort cmp l).
Proof.
  induction l as [|x l IH]; simpl; [constructor|]. by apply insert_sorted_sorted.
Qed.
End InsertionSort.

Section ListingOrder.
Context `{Host} `{!Collation}.

Lemma compareItems_total a b : compareItems a b ≤ 0 ∨ compareItems b a ≤ 0.
Proof.
  unfold compareItems.
  destruct (isDirectory a), (isDirectory b); simpl;
    first [by left | by right | apply localeCompare_total].
Qed.

Lemma compareItems_trans a b c :
  compareItems a b ≤ 0 → compareItems b c ≤ 0 → compareItems a c ≤ 0.
Proof.
  unfold compareItems.
  destruct (isDirectory a), (isDirectory b), (isDirectory c); simpl;
    first [lia | apply localeCompare_trans].
Qed.

Lemma sorted_directoriesFirst l :
  StronglySorted (λ a b, compareItems a b ≤ 0) l → directoriesFirst l.
Proof.
  induction 1 as [|x l Hl (dirs & others & -> & Hd & Ho & Hsd & Hso) Hx].
  - exists [], []. by repeat constructor.
  - assert (Hle : ∀ y, compareItems x y ≤ 0 → isDirectory x = isDirectory y →
                       nameLe x y).
    { intros y Hy Hk. unfold nameLe. rewrite <- localeCompare_case.
      unfold compareItems in Hy. rewrite Hk in Hy.
      by destruct (isDirectory y). }
    apply Forall_app in Hx as [Hxd Hxo].
    destruct (isDirectory x) eqn:Hkind.
    + exists (x :: dirs), others. split_and!; [done | by constructor | done | | done].
      constructor; [done|].
      rewrite Forall_forall in Hd, Hxd. apply Forall_forall. intros y Hy.
      apply Hle; [by apply Hxd | by rewrite Hd].
    + assert (dirs = []) as ->.
      { destruct dirs as [|y dirs]; [done|]. exfalso.
        apply Forall_cons in Hd as [Hy _]. apply Forall_cons in Hxd as [Hxy _].
        unfold compareItems in Hxy. rewrite Hkind, Hy in Hxy. simpl in Hxy. lia. }
      exists [], (x :: others). split_and!; [done | done | by constructor | done |].
      constructor; [done|].
      rewrite Forall_forall in Ho, Hxo. apply Forall_forall. intros y Hy.
      apply Hle; [by apply Hxo | by rewrite Ho].
Qed.

Lemma sortContents_directoriesFirst l : directoriesFirst (sortContents l).
Proof.
  apply sorted_directoriesFirst, array_sort_sorted.
  - apply compareItems_total.
  - apply compareItems_trans.
Qed.

Lemma sortContents_names l : name <$> sortContents l ≡ₚ name <$> l.
Proof. unfold sortContents. by rewrite array_sort_perm. Qed.

Context `{FsView}.

(** C7. A listing, of a real directory or of the inside of an archive,
    comes back with its directories before its other entries and each of
    the two groups ascending by name in the comparison that ignores letter
    case; and its names are pairwise different (for a real directory,
    because the names read from the directory are: the listing has
    exactly those names). *)
Theorem listing_sorted_with_distinct_names dirPath :
  (∀ contents listed isArchive,
     handleArchiveBrowsing dirPath = ListOk contents listed isArchive →
     NoDup (name <$> contents) ∧ directoriesFirst contents)
  ∧ (∀ contents listed isArchive,
       getDirectoryContents dirPath = ListOk contents listed isArchive →
       (∀ items, view_readdir dirPath = inr items → NoDup (de_name <$> items)) →
       NoDup (name <$> contents) ∧ directoriesFirst contents)
  ∧ (∀ items contents listed isArchive,
       view_readdir dirPath = inr items →
       getDirectoryContents dirPath = ListOk contents listed isArchive →
       name <$> contents ≡ₚ de_name <$> items).
Proof.
  assert (Harchive : ∀ contents listed isArchive,
    handleArchiveBrowsing dirPath = ListOk contents listed isArchive →
    NoDup (name <$> contents) ∧ directoriesFirst contents).
  { intros contents listed isArchive. unfold handleArchiveBrowsing.
    destruct (walkUp 20 dirPath "") as [archivePath internalPath| |]; [|done..].
    destruct (view_list_archive _ _) as [?|blocks]; [done|].
    intros [= <- <- <-]. split; [|apply sortContents_directoriesFirst].
    rewrite sortContents_names. apply archiveContents_names. }
  split; [exact Harchive|]. split.
  - intros contents listed isArchive. unfold getDirectoryContents.
    destruct (view_readdir dirPath) as [error|items].
    + destruct (_ || _)%bool; [|done]. intros Hlist _. by eapply Harchive.
    + intros [= <- <- <-] Hnames. split; [|apply sortContents_directoriesFirst].
      rewrite sortContents_names, <- list_fmap_compose.
      by apply Hnames.
  - intros items contents listed isArchive Hdir. unfold getDirectoryContents.
    rewrite Hdir. intros [= <- <- <-].
    by rewrite sortContents_names, <- list_fmap_compose.
Qed.
End ListingOrder.

(** The small host compares consistently and without regard to case. *)
Lemma ascii_lower_idemp c : ascii_lower (ascii_lower c) = ascii_lower c.
Proof. destruct c as [[] [] [] [] [] [] [] []]; reflexivity. Qed.

Lemma fold_case_idemp s : fold_case (fold_case s) = fold_case s.
Proof. induction s as [|c s IH]; simpl; [done|]. by rewrite ascii_lower_idemp, IH. Qed.

Lemma small_collation : @Collation Small.host.
Proof.
  split; simpl; unfold Small.compare_fold.
  - intros a b.
    destruct (String_as_OT.compare_spec (fold_case a) (fold_case b)) as [?|?|Hlt];
      [left; lia | left; lia | right].
    unfold String_as_OT.lt in Hlt. rewrite Hlt. lia.
  - intros a b c.
    destruct (String_as_OT.compare_spec (fold_case a) (fold_case b)) as [->|Hab|?];
      [done | | lia].
    destruct (String_as_OT.compare_spec (fold_case b) (fold_case c)) as [<-|Hbc|?];
      [ | | lia].
    + intros _ _. unfold String_as_OT.lt in Hab. rewrite Hab. lia.
    + intros _ _.
      pose proof (StrictOrder_Transitive _ _ _ Hab Hbc) as Hac.
      unfold String_as_OT.lt in Hac. rewrite Hac. lia.
  - intros a b. by rewrite !fold_case_idemp.
Qed.

Lemma listing_sorted_with_distinct_names_witness :
  @Collation Small.host
  ∧ @getDirectoryContents Small.host Small.home_view "/home"
    = ListOk
        [ mkItem "apps" "/home/apps" true false false None (Some 0)
                 (Some (Millis 0)) (Some (Millis 0)) None;
          mkItem "docs" "/home/docs" true false false None (Some 0)
                 (Some (Millis 0)) (Some (Millis 0)) None;
          mkItem "archive.zip" "/home/archive.zip" false true false None (Some 300)
                 (Some (Millis 0)) (Some (Millis 0)) (Some ".zip");
          mkItem "Notes.txt" "/home/Notes.txt" false true false None (Some 7)
                 (Some (Millis 0)) (Some (Millis 0)) (Some ".txt") ]
        "/home" false
  ∧ (∀ items, @view_readdir Small.home_view "/home" = inr items →
              NoDup (de_name <$> items))
  ∧ NoDup ["apps"; "docs"; "archive.zip"; "Notes.txt"]
  ∧ @directoriesFirst Small.host
      [ mkItem "apps" "/home/apps" true false false None (Some 0)
               (Some (Millis 0)) (Some (Millis 0)) None;
        mkItem "docs" "/home/docs" true false false None (Some 0)
               (Some (Millis 0)) (Some (Millis 0)) None;
        mkItem "archive.zip" "/home/archive.zip" false true false None (Some 300)
               (Some (Millis 0)) (Some (Millis 0)) (Some ".zip");
        mkItem "Notes.txt" "/home/Notes.txt" false true false None (Some 7)
               (Some (Millis 0)) (Some (Millis 0)) (Some ".txt") ].
Proof.
  assert (Hlist : @getDirectoryContents Small.host Small.home_view "/home"
    = ListOk
        [ mkItem "apps" "/home/apps" true false false None (Some 0)
                 (Some (Millis 0)) (Some (Millis 0)) None;
          mkItem "docs" "/home/docs" true false false None (Some 0)
                 (Some (Millis 0)) (Some (Millis 0)) None;
          mkItem "archive.zip" "/home/archive.zip" false true false None (Some 300)
                 (Some (Millis 0)) (Some (Millis 0)) (Some ".zip");
          mkItem "Notes.txt" "/home/Notes.txt" false true false None (Some 7)
                 (Some (Millis 0)) (Some (Millis 0)) (Some ".txt") ]
        "/home" false) by (vm_compute; reflexivity).
  assert (Hnames : ∀ items, @view_readdir Small.home_view "/home" = inr items →
                            NoDup (de_name <$> items)).
  { intros items Hitems. vm_compute in Hitems. injection Hitems as <-.
    apply (bool_decide_unpack _). vm_compute. reflexivity. }
  split; [exact small_collation|]. split; [exact Hlist|]. split; [exact Hnames|].
  exact (proj1 (proj2 (@listing_sorted_with_distinct_names Small.host small_collation
                         Small.home_view "/home")) _ _ _ Hlist Hnames).
Defined.

(** ** The upward walk *)

Section UpwardWalk.
Context `{Host} `{FsView}.

Lemma ascend_S k p internal :
  ascend (S k) p internal =
    ascend k (path_dirname p)
      (if String.eqb internal "" then path_basename p
       else path_join (path_basename p) internal).
Proof. done. Qed.

(** Ascending is stripping one more segment from where [k] ascensions
    arrived. *)
Lemma ascend_last k p internal :
  ascend (S k) p internal =
    let '(q, i) := ascend k p internal in
    (path_dirname q,
     if String.eqb i "" then path_basename q else path_join (path_basename q) i).
Proof.
  revert p internal. induction k as [|k IH]; intros p internal; [done|].
  rewrite ascend_S. rewrite IH. by rewrite ascend_S.
Qed.

(** The walk goes up while [stat] fails. *)
Lemma walkUp_ascends budget k p internal :
  (k < budget)%nat →
  (∀ j, (j < k)%nat →
        statFails (ascend j p internal).1
        ∧ (ascend (S j) p internal).1 ≠ (ascend j p internal).1) →
  walkUp budget p internal =
    walkUp (budget - k) (ascend k p internal).1 (ascend k p internal).2.
Proof.
  revert budget p internal. induction k as [|k IH]; intros budget p internal Hk Hup.
  { simpl. by rewrite Nat.sub_0_r. }
  destruct budget as [|budget]; [lia|].
  destruct (Hup 0%nat ltac:(lia)) as [[e He] Hparent]. simpl in He, Hparent.
  cbn [walkUp]. rewrite He.
  destruct (String.eqb_spec (path_dirname p) p) as [Heq|_]; [done|].
  rewrite IH; [done | lia |].
  intros j Hj. apply (Hup (S j)). lia.
Qed.

Lemma walkUp_exhausted budget p internal :
  (∀ j, (j < budget)%nat → statFails (ascend j p internal).1) →
  walkUp budget p internal = WalkNotFound.
Proof.
  revert p internal. induction budget as [|budget IH]; intros p internal Hfail; [done|].
  destruct (Hfail 0%nat ltac:(lia)) as [e He]. simpl in He.
  cbn [walkUp]. rewrite He.
  destruct (String.eqb (path_dirname p) p); [done|].
  apply IH. intros j Hj. apply (Hfail (S j)). lia.
Qed.

Lemma walkUp_found budget p internal archivePath internalPath :
  walkUp budget p internal = WalkFound archivePath internalPath →
  ∃ k, (k < budget)%nat
       ∧ ascend k p internal = (archivePath, internalPath)
       ∧ statsAsFile archivePath
       ∧ ∀ j, (j < k)%nat →
              ¬ statsAsFile (ascend j p internal).1
              ∧ ¬ statsAsDirectory (ascend j p internal).1.
Proof.
  revert p internal. induction budget as [|budget IH]; intros p internal; [done|].
  cbn [walkUp]. destruct (view_stat p) as [e|st] eqn:Hstat.
  - destruct (String.eqb (path_dirname p) p); [done|].
    intros (k & Hk & Hasc & Hfile & Hbefore)%IH.
    exists (S k). split_and!; [lia | done | done |].
    intros [|j] Hj; [|apply Hbefore; lia].
    simpl. unfold statsAsFile, statsAsDirectory. rewrite Hstat.
    split; intros (? & ? & _); done.
  - destruct (st_isFile st) eqn:Hfile.
    + intros [= <- <-]. exists 0%nat. split_and!; [lia | done | | intros; lia].
      by exists st.
    + destruct (st_isDirectory st) eqn:Hdir; [done|].
      intros (k & Hk & Hasc & Hf & Hbefore)%IH.
      exists k. split_and!; [lia | done | done | done].
Qed.

(** C2. The walk of [handleArchiveBrowsing] from a path that could not be
    listed: while [stat] fails it strips the last segment and puts it in
    front of the internal path; it stops with the archive at the first
    path that is a regular file, with an error at a directory met before
    any regular file, and with the not-found error when twenty paths have
    been tried in vain.  A walk that finds an archive has made fewer than
    twenty ascensions.  The listing handler starts the walk when reading
    the directory fails as not-a-directory or not-found. *)
Theorem walk_up_to_archive fullPath :
  (∀ error, view_readdir fullPath = inl error →
            code error = "ENOTDIR" ∨ code error = "ENOENT" →
            getDirectoryContents fullPath = handleArchiveBrowsing fullPath)
  ∧ (∀ k, (k < 20)%nat →
        (∀ j, (j < k)%nat →
              statFails (ascend j fullPath "").1
              ∧ (ascend (S j) fullPath "").1 ≠ (ascend j fullPath "").1) →
        (statsAsFile (ascend k fullPath "").1 →
         walkUp 20 fullPath "" =
           WalkFound (ascend k fullPath "").1 (ascend k fullPath "").2)
        ∧ (statsAsDirectory (ascend k fullPath "").1 →
           walkUp 20 fullPath "" = WalkIsDirectory
           ∧ handleArchiveBrowsing fullPath = ListErr "Not a directory"))
  ∧ ((∀ j, (j < 20)%nat → statFails (ascend j fullPath "").1) →
     walkUp 20 fullPath "" = WalkNotFound
     ∧ handleArchiveBrowsing fullPath = ListErr "Path not found")
  ∧ (∀ archivePath internalPath,
       walkUp 20 fullPath "" = WalkFound archivePath internalPath →
       ∃ k, (k < 20)%nat
            ∧ ascend k fullPath "" = (archivePath, internalPath)
            ∧ statsAsFile archivePath
            ∧ ∀ j, (j < k)%nat →
                   ¬ statsAsFile (ascend j fullPath "").1
                   ∧ ¬ statsAsDirectory (ascend j fullPath "").1).
Proof.
  split_and!.
  - intros error Hdir Hcode. unfold getDirectoryContents. rewrite Hdir.
    by destruct Hcode as [-> | ->].
  - intros k Hk Hup. rewrite (walkUp_ascends 20 k) by done.
    destruct (20 - k)%nat as [|budget] eqn:Hbudget; [lia|].
    split.
    + intros (st & Hst & Hfile). cbn [walkUp]. by rewrite Hst, Hfile.
    + intros (st & Hst & Hfile & Hdir).
      assert (Hwalk : walkUp 20 fullPath "" = WalkIsDirectory).
      { rewrite (walkUp_ascends 20 k), Hbudget by done.
        cbn [walkUp]. by rewrite Hst, Hfile, Hdir. }
      split.
      * cbn [walkUp]. by rewrite Hst, Hfile, Hdir.
      * unfold handleArchiveBrowsing. by rewrite Hwalk.
  - intros Hfail. pose proof (walkUp_exhausted 20 fullPath "" Hfail) as Hwalk.
    split; [done|]. unfold handleArchiveBrowsing. by rewrite Hwalk.
  - intros archivePath internalPath. apply walkUp_found.
Qed.
End UpwardWalk.

Lemma walk_up_to_archive_witness :
  (3 < 20)%nat
  ∧ (∀ j, (j < 3)%nat →
          @statFails Small.home_view
            (@ascend Small.host j "/home/archive.zip/subdir/x/y" "").1
          ∧ (@ascend Small.host (S j) "/home/archive.zip/subdir/x/y" "").1
            ≠ (@ascend Small.host j "/home/archive.zip/subdir/x/y" "").1)
  ∧ @statsAsFile Small.home_view
      (@ascend Small.host 3 "/home/archive.zip/subdir/x/y" "").1
  ∧ @walkUp Small.host Small.home_view 20 "/home/archive.zip/subdir/x/y" ""
    = WalkFound "/home/archive.zip" "subdir/x/y".
Proof.
  assert (Hup : ∀ j, (j < 3)%nat →
          @statFails Small.home_view
            (@ascend Small.host j "/home/archive.zip/subdir/x/y" "").1
          ∧ (@ascend Small.host (S j) "/home/archive.zip/subdir/x/y" "").1
            ≠ (@ascend Small.host j "/home/archive.zip/subdir/x/y" "").1).
  { intros j Hj. destruct j as [|[|[|j]]]; [..|lia];
      (split; [eexists; vm_compute; reflexivity | vm_compute; discriminate]). }
  assert (Hfile : @statsAsFile Small.home_view
      (@ascend Small.host 3 "/home/archive.zip/subdir/x/y" "").1).
  { eexists. split; vm_compute; reflexivity. }
  split; [lia|]. split; [exact Hup|]. split; [exact Hfile|].
  exact (proj1 (proj1 (proj2 (@walk_up_to_archive Small.host Small.home_view
                                "/home/archive.zip/subdir/x/y"))
                  3%nat ltac:(lia) Hup) Hfile).
Defined.

(** ** Reasoning about runs of the batch handler *)

Section RunLogic.
Context {World : Type}.
Implicit Types (b : Batch World) (R : relation (Batch World)).

Lemma run_bind_eq {A B} (m : Run World A) (k : A → Run World B) b :
  (m ≫= k) b =
    match m b with
    | (Returned a, b') => k a b'
    | (Thrown e, b') => (Thrown e, b')
    | (Unfinished, b') => (Unfinished, b')
    end.
Proof. done. Qed.

Lemma run_bind_returned {A B} (m : Run World A) (k : A → Run World B) b a b' :
  m b = (Returned a, b') → (m ≫= k) b = k a b'.
Proof. intros Hm. by rewrite run_bind_eq, Hm. Qed.

Lemma run_bind_thrown {A B} (m : Run World A) (k : A → Run World B) b e b' :
  m b = (Thrown e, b') → (m ≫= k) b = (Thrown e, b').
Proof. intros Hm. by rewrite run_bind_eq, Hm. Qed.

Lemma run_bind_unfinished {A B} (m : Run World A) (k : A → Run World B) b b' :
  m b = (Unfinished, b') → (m ≫= k) b = (Unfinished, b').
Proof. intros Hm. by rewrite run_bind_eq, Hm. Qed.

Lemma keeps_ret R `{!Reflexive R} {A} (a : A) : keeps R (mret a).
Proof. intros b. simpl. reflexivity. Qed.

Lemma keeps_unfinished R `{!Reflexive R} {A} : keeps R (@unfinished World A).
Proof. intros b. simpl. reflexivity. Qed.

Lemma keeps_bind R `{!Transitive R} {A B} (m : Run World A) (k : A → Run World B) :
  keeps R m → (∀ a, keeps R (k a)) → keeps R (m ≫= k).
Proof.
  intros Hm Hk b. rewrite run_bind_eq. specialize (Hm b).
  destruct (m b) as [[a|e|] b']; simpl in *; [|done..].
  etrans; [exact Hm | apply Hk].
Qed.

Lemma keeps_try_catch R `{!Transitive R} {A} (m : Run World A) h :
  keeps R m → (∀ e, keeps R (h e)) → keeps R (try_catch m h).
Proof.
  intros Hm Hh b. unfold try_catch. specialize (Hm b).
  destruct (m b) as [[a|e|] b']; simpl in *; [done| |done].
  etrans; [exact Hm | apply Hh].
Qed.

Lemma keeps_for_each R `{!PreOrder R} {A} (xs : list A) (body : A → Run World unit) :
  (∀ x, keeps R (body x)) → keeps R (for_each xs body).
Proof.
  intros Hbody. induction xs as [|x xs IH]; simpl.
  - apply keeps_ret, _.
  - apply keeps_bind; [apply _ | apply Hbody | done].
Qed.

(** A loop over [pre ++ x :: post] whose turns for [pre] return and whose
    turn for [x] throws ends there: no turn is taken for [post]. *)
Lemma for_each_stops_at_throw {A} (pre post : list A) x
    (body : A → Run World unit) b b1 b2 e :
  for_each pre body b = (Returned tt, b1) →
  body x b1 = (Thrown e, b2) →
  for_each (pre ++ x :: post) body b = (Thrown e, b2).
Proof.
  revert b. induction pre as [|y pre IH]; intros b Hpre Hx; simpl in *.
  - injection Hpre as <-. by rewrite (run_bind_thrown _ _ _ _ _ Hx).
  - rewrite run_bind_eq in *. destruct (body y b) as [[[]|?|] b']; [|done..].
    by apply IH.
Qed.

Lemma for_each_app {A} (xs ys : list A) (body : A → Run World unit) b b1 :
  for_each xs body b = (Returned tt, b1) →
  for_each (xs ++ ys) body b = for_each ys body b1.
Proof.
  revert b. induction xs as [|x xs IH]; intros b Hxs; simpl in *.
  - by injection Hxs as <-.
  - rewrite run_bind_eq in *. destruct (body x b) as [[[]|?|] b']; [|done..].
    by apply IH.
Qed.
End RunLogic.

(** ** Progress of a batch *)

Section Percent.
Context `{Host} `{!Rounding}.

Lemma percent_range pb tb :
  (0 < tb)%N → (0 <= percent pb tb)%Q ∧ (percent pb tb <= 100)%Q.
Proof.
  intros Htb. unfold percent. split; [|apply Q.le_min_l].
  apply Q.min_glb; [done|].
  rewrite <- (double_mul_zero 100). apply double_mul_le; [done|].
  assert (0 < inject_Z (Z.of_N tb))%Q as Hpos
    by (rewrite <- (Zlt_Qlt 0); lia).
  rewrite <- (double_div_zero _ Hpos). apply double_div_le; [done|].
  rewrite <- (Zle_Qle 0). lia.
Qed.

Lemma percent_mono pb1 pb2 tb :
  (0 < tb)%N → (pb1 ≤ pb2)%N → (percent pb1 tb <= percent pb2 tb)%Q.
Proof.
  intros Htb Hle. unfold percent. apply Q.min_le_compat_l.
  apply double_mul_le; [done|].
  apply double_div_le.
  - rewrite <- (Zlt_Qlt 0). lia.
  - rewrite <- Zle_Qle. lia.
Qed.
End Percent.

Section Progress.
Context `{Host} {World : Type} `{FileSystem World}.

#[local] Instance advances_preorder : PreOrder (advances (World:=World)).
Proof.
  split.
  - intros b. split_and!; [done | lia |].
    exists []. split_and!; [by rewrite app_nil_r | by rewrite app_nil_r
                           | constructor | constructor].
  - intros b1 b2 b3 (Ht1 & Hp1 & m1 & Hg1 & Hm1 & Hs1 & Hb1)
      (Ht2 & Hp2 & m2 & Hg2 & Hm2 & Hs2 & Hb2).
    split_and!; [congruence | lia |].
    exists (m1 ++ m2). split_and!.
    + by rewrite Hg2, Hg1, app_assoc.
    + rewrite Hm2, Hm1, Ht1, fmap_app, app_assoc. done.
    + apply StronglySorted_app_2; [|done..].
      rewrite Forall_forall in Hb1, Hb2.
      intros x1 x2 Hx1%Hb1 Hx2%Hb2. lia.
    + apply Forall_app. split.
      * eapply Forall_impl; [exact Hb1|]. simpl. lia.
      * eapply Forall_impl; [exact Hb2|]. simpl. lia.
Qed.

#[local] Instance scans_preorder : PreOrder (@scans World).
Proof.
  split.
  - by intros b.
  - intros b1 b2 b3 (? & ? & ?) (? & ? & ?). split_and!; congruence.
Qed.

Lemma advances_call {A} c (op : World → (JsError + A) * World) :
  keeps advances (call c op).
Proof.
  intros b. unfold call. destruct (op (world b)).1; simpl;
    (split_and!; [done | simpl; lia |]; exists [];
     split_and!; [by rewrite app_nil_r | by rewrite app_nil_r
                 | constructor | constructor]).
Qed.

Lemma advances_countCopied sz : keeps (advances (World:=World)) (countCopied sz).
Proof.
  intros b. simpl. split_and!; [done | simpl; lia |]. exists [].
  split_and!; [by rewrite app_nil_r | by rewrite app_nil_r
              | constructor | constructor].
Qed.

Lemma advances_creditItem src : keeps (advances (World:=World)) (creditItem src).
Proof.
  intros b. simpl. split_and!; [done | simpl; lia |]. exists [].
  split_and!; [by rewrite app_nil_r | by rewrite app_nil_r
              | constructor | constructor].
Qed.

Lemma advances_reportProgress : keeps (advances (World:=World)) reportProgress.
Proof.
  intros b. simpl. split_and!; [done | simpl; lia |]. exists [processedBytes b].
  split_and!; [done | done | repeat constructor |].
  constructor; [simpl; lia | constructor].
Qed.

Lemma advances_copyRecursive depth src dst :
  keeps advances (copyRecursive depth src dst).
Proof.
  revert src dst. induction depth as [|depth IH]; intros src dst; simpl.
  - apply keeps_unfinished, _.
  - apply keeps_bind; [apply _ | apply advances_call |]. intros stats.
    destruct (st_isDirectory stats).
    + apply keeps_bind; [apply _ | apply advances_call |]. intros _.
      apply keeps_bind; [apply _ | apply advances_call |]. intros children.
      apply keeps_for_each; [apply _|]. intros child. apply IH.
    + apply keeps_bind; [apply _ | apply advances_call |]. intros _.
      apply keeps_bind; [apply _ | apply advances_countCopied |]. intros _.
      apply advances_reportProgress.
Qed.

Lemma advances_processItem depth operation item :
  keeps advances (processItem depth operation item).
Proof.
  unfold processItem. destruct (String.eqb operation "copy").
  - apply advances_copyRecursive.
  - apply keeps_try_catch; [apply _ | |].
    + apply keeps_bind; [apply _ | apply advances_call |]. intros _.
      apply keeps_bind; [apply _ | apply advances_creditItem |]. intros _.
      apply advances_reportProgress.
    + intros _. apply keeps_bind; [apply _ | apply advances_copyRecursive |].
      intros _. apply advances_call.
Qed.

Lemma advances_executionPhase depth items operation :
  keeps advances (executionPhase depth items operation).
Proof.
  unfold executionPhase. apply keeps_try_catch; [apply _ | |].
  - apply keeps_bind; [apply _ | |].
    + apply keeps_for_each; [apply _|]. intros item. apply advances_processItem.
    + intros _. apply keeps_ret, _.
  - intros e. apply keeps_ret, _.
Qed.

Lemma scans_call {A} c (op : World → (JsError + A) * World) :
  keeps scans (call c op).
Proof. intros b. unfold call. by destruct (op (world b)).1. Qed.

Lemma scans_scan depth p root : keeps scans (scan depth p root).
Proof.
  revert p. induction depth as [|depth IH]; intros p; simpl.
  - apply keeps_unfinished, _.
  - apply keeps_try_catch; [apply _ | |].
    + apply keeps_bind; [apply _ | apply scans_call |]. intros stats.
      destruct (st_isDirectory stats).
      * apply keeps_bind; [apply _ | apply scans_call |]. intros children.
        apply keeps_for_each; [apply _|]. intros c. apply IH.
      * by intros b.
    + intros _. apply keeps_ret, _.
Qed.

Lemma scans_scanPhase depth items : keeps scans (scanPhase depth items).
Proof.
  unfold scanPhase. apply keeps_for_each; [apply _|]. intros item. apply scans_scan.
Qed.

(** The scan swallows every error: it returns, or it is unfinished. *)
Lemma scan_never_throws depth p root b e b' :
  scan depth p root b ≠ (Thrown e, b').
Proof.
  destruct depth as [|depth]; simpl; [done|].
  unfold try_catch. by destruct (_ ≫= _) as [[?|?|] ?].
Qed.

Lemma scanPhase_never_throws depth items b e b' :
  scanPhase depth items b ≠ (Thrown e, b').
Proof.
  unfold scanPhase. revert b. induction items as [|item items IH]; intros b; simpl; [done|].
  rewrite run_bind_eq.
  destruct (scan depth (source item) (source item) b) as [[[]|e0|] b0] eqn:Hscan.
  - apply IH.
  - by apply scan_never_throws in Hscan.
  - done.
Qed.

Lemma execution_sends depth items operation b :
  let final := (executionPhase depth items operation b).2 in
  totalBytes final = totalBytes b
  ∧ ∃ marks,
      sentAt final = sentAt b ++ marks
      ∧ progress final
        = progress b ++ ((λ pb, percent pb (totalBytes b)) <$> marks)
      ∧ StronglySorted N.le marks
      ∧ Forall (λ m, (m ≤ processedBytes final)%N) marks.
Proof.
  intros final. subst final.
  pose proof (advances_executionPhase depth items operation b)
    as (Ht & _ & marks & Hg & Hm & Hs & Hb).
  split; [done|]. exists marks. split_and!; [done..|].
  eapply Forall_impl; [exact Hb|]. simpl. lia.
Qed.

(** What the batch sent, and the total it divided by. *)
Lemma batch_sends depth items operation (w : World) :
  let scanned := (scanPhase depth items ;; avoidDivisionByZero) (freshBatch w) in
  let final := (batchFileOperation depth items operation (freshBatch w)).2 in
  (scanned.1 = Returned tt →
   (1 ≤ totalBytes scanned.2)%N ∧ totalBytes final = totalBytes scanned.2)
  ∧ (∀ e, scanned.1 ≠ Thrown e)
  ∧ progress final = (λ pb, percent pb (totalBytes final)) <$> sentAt final
  ∧ StronglySorted N.le (sentAt final)
  ∧ Forall (λ m, (m ≤ processedBytes final)%N) (sentAt final)
  ∧ (sentAt final = [] ∨ (1 ≤ totalBytes final)%N).
Proof.
  intros scanned final.
  pose proof (scans_scanPhase depth items (freshBatch w)) as (_ & Hnone & Hsent).
  assert (Hthrow : ∀ e, scanned.1 ≠ Thrown e).
  { subst scanned. intros e. rewrite run_bind_eq.
    destruct (scanPhase depth items (freshBatch w)) as [[[]|e0|] b0] eqn:Hscan;
      simpl; [done | | done].
    by apply scanPhase_never_throws in Hscan. }
  split_and!; [|done|..]; subst scanned final; unfold batchFileOperation;
    rewrite !run_bind_eq;
    destruct (scanPhase depth items (freshBatch w)) as [[[]|e0|] b0] eqn:Hscan;
    simpl in Hnone, Hsent |- *; try done;
    try (rewrite ?Hnone, ?Hsent; by repeat constructor);
    try (left; by rewrite Hsent).
  all: change ((avoidDivisionByZero ≫= λ _, executionPhase depth items operation) b0)
      with (executionPhase depth items operation (avoidDivisionByZero b0).2).
  all: pose proof (execution_sends depth items operation
                     (avoidDivisionByZero b0).2) as (Ht & marks & Hg & Hm & Hs & Hb).
  all: set (b1 := (avoidDivisionByZero b0).2) in *.
  all: assert (progress b1 = [] ∧ sentAt b1 = [] ∧ (1 ≤ totalBytes b1)%N)
      as (Hp1 & Hg1 & Hone)
      by (subst b1; simpl; split_and!; [done..|];
          destruct (N.eqb_spec (totalBytes b0) 0); lia).
  - intros _. done.
  - by rewrite Hm, Hg, Hp1, Hg1, Ht.
  - by rewrite Hg, Hg1.
  - by rewrite Hg, Hg1.
  - right. by rewrite Ht.
Qed.
End Progress.

Section ProgressValues.
Context `{Host} `{!Rounding} {World : Type} `{FileSystem World}.

(** C4. When the scan phase of a batch has returned, the total is at
    least 1 (a total of 0 is replaced by 1) and stays what it is to the
    end of the batch.  A send records the value that the processed bytes
    have and emits [min(100, processed / total * 100)] for it, computed
    in doubles.  So every percentage the batch sent is this clamped ratio
    for the value the processed bytes had at that send and for the one
    total; these values ascend, and the percentages lie between 0 and 100
    and never decrease. *)
Theorem progress_clamped_and_monotone depth items operation (w : World) :
  let scanned := (scanPhase depth items ;; avoidDivisionByZero) (freshBatch w) in
  let final := (batchFileOperation depth items operation (freshBatch w)).2 in
  let ratio (processed total : N) : Q :=
    Qmin 100 (double_mul (double_div (inject_Z (Z.of_N processed))
                            (inject_Z (Z.of_N total)))
                100) in
  (scanned.1 = Returned tt →
   (1 ≤ totalBytes scanned.2)%N ∧ totalBytes final = totalBytes scanned.2)
  ∧ (∀ e, scanned.1 ≠ Thrown e)
  ∧ (∀ b : Batch World,
       (reportProgress b).1 = Returned tt
       ∧ sentAt (reportProgress b).2 = sentAt b ++ [processedBytes b]
       ∧ progress (reportProgress b).2
         = progress b ++ [ratio (processedBytes b) (totalBytes b)])
  ∧ progress final = (λ pb, ratio pb (totalBytes final)) <$> sentAt final
  ∧ StronglySorted N.le (sentAt final)
  ∧ Forall (λ m, (m ≤ processedBytes final)%N) (sentAt final)
  ∧ Forall (λ q, (0 <= q)%Q ∧ (q <= 100)%Q) (progress final)
  ∧ StronglySorted Qle (progress final).
Proof.
  intros scanned final ratio.
  destruct (batch_sends depth items operation w)
    as (Htotal & Hthrow & Hsent & Hsorted & Hbound & Hpositive).
  fold final in Hsent, Hsorted, Hbound, Hpositive.
  change (progress final = (λ pb, ratio pb (totalBytes final)) <$> sentAt final)
    in Hsent.
  split_and!; [done|done|done|done|done|done| |].
  - rewrite Hsent. destruct Hpositive as [->|Hpositive]; [constructor|].
    apply Forall_fmap, Forall_forall. intros pb _.
    apply (percent_range pb (totalBytes final)). lia.
  - rewrite Hsent. destruct Hpositive as [->|Hpositive]; [constructor|].
    eapply StronglySorted_fmap; [|exact Hsorted].
    intros x y. apply (percent_mono x y (totalBytes final)). lia.
Qed.
End ProgressValues.


(** ** The recursion depth of the model

    A run that ends within the depth it was given ends the same way with any
    greater depth: the depth only says how deep a tree the run can walk. *)

Section Depth.
Context `{Host} {World : Type} `{FileSystem World}.

Lemma within_depth_refl {A} (m : Run World A) : within_depth m m.
Proof. by intros b o b' Hm _. Qed.

Lemma within_depth_bind {A B} (m m' : Run World A) (k k' : A → Run World B) :
  within_depth m m' → (∀ a, within_depth (k a) (k' a)) →
  within_depth (m ≫= k) (m' ≫= k').
Proof.
  intros Hm Hk b o b'. rewrite !run_bind_eq.
  destruct (m b) as [[a|e|] b1] eqn:Hmb.
  - rewrite (Hm b _ _ Hmb) by done. apply Hk.
  - rewrite (Hm b _ _ Hmb) by done. done.
  - by intros [= <- <-].
Qed.

Lemma within_depth_try_catch {A} (m m' : Run World A) (h h' : JsError → Run World A) :
  within_depth m m' → (∀ e, within_depth (h e) (h' e)) →
  within_depth (try_catch m h) (try_catch m' h').
Proof.
  intros Hm Hh b o b'. unfold try_catch.
  destruct (m b) as [[a|e|] b1] eqn:Hmb.
  - rewrite (Hm b _ _ Hmb) by done. done.
  - rewrite (Hm b _ _ Hmb) by done. apply Hh.
  - by intros [= <- <-].
Qed.

Lemma within_depth_for_each {A} (xs : list A) (body body' : A → Run World unit) :
  (∀ x, within_depth (body x) (body' x)) →
  within_depth (for_each xs body) (for_each xs body').
Proof.
  intros Hbody. induction xs as [|x xs IH]; simpl; [apply within_depth_refl|].
  apply within_depth_bind; [apply Hbody | done].
Qed.

Lemma scan_within_depth depth depth' p root :
  (depth ≤ depth')%nat → within_depth (scan depth p root) (scan depth' p root).
Proof.
  revert depth' p. induction depth as [|depth IH]; intros depth' p Hle.
  { by intros b o b' [= <- <-]. }
  destruct depth' as [|depth']; [lia|]. simpl.
  apply within_depth_try_catch; [|intros; apply within_depth_refl].
  apply within_depth_bind; [apply within_depth_refl|].
  intros stats. destruct (st_isDirectory stats); [|apply within_depth_refl].
  apply within_depth_bind; [apply within_depth_refl|]. intros children.
  apply within_depth_for_each. intros c. apply IH. lia.
Qed.

Lemma copyRecursive_within_depth depth depth' src dst :
  (depth ≤ depth')%nat →
  within_depth (copyRecursive depth src dst) (copyRecursive depth' src dst).
Proof.
  revert depth' src dst. induction depth as [|depth IH]; intros depth' src dst Hle.
  { by intros b o b' [= <- <-]. }
  destruct depth' as [|depth']; [lia|]. simpl.
  apply within_depth_bind; [apply within_depth_refl|].
  intros stats. destruct (st_isDirectory stats); [|apply within_depth_refl].
  apply within_depth_bind; [apply within_depth_refl|]. intros _.
  apply within_depth_bind; [apply within_depth_refl|]. intros children.
  apply within_depth_for_each. intros c. apply IH. lia.
Qed.

Lemma processItem_within_depth depth depth' operation item :
  (depth ≤ depth')%nat →
  within_depth (processItem depth operation item) (processItem depth' operation item).
Proof.
  intros Hle. unfold processItem. destruct (String.eqb operation "copy").
  - by apply copyRecursive_within_depth.
  - apply within_depth_try_catch; [apply within_depth_refl|]. intros _.
    apply within_depth_bind; [by apply copyRecursive_within_depth|].
    intros _. apply within_depth_refl.
Qed.

(** A batch that ends within the depth of the model ends the same way with
    any greater depth. *)
Lemma batchFileOperation_within_depth depth depth' items operation :
  (depth ≤ depth')%nat →
  within_depth (batchFileOperation depth items operation)
               (batchFileOperation depth' items operation).
Proof.
  intros Hle. unfold batchFileOperation, scanPhase, executionPhase.
  apply within_depth_bind.
  { apply within_depth_for_each. intros item. by apply scan_within_depth. }
  intros _. apply within_depth_bind; [apply within_depth_refl|]. intros _.
  apply within_depth_try_catch; [|intros; apply within_depth_refl].
  apply within_depth_bind; [|intros; apply within_depth_refl].
  apply within_depth_for_each. intros item. by apply processItem_within_depth.
Qed.
End Depth.

(** ** Items of a batch *)

Section Items.
Context `{Host} {World : Type} `{FileSystem World}.

Lemma call_run {A} c (op : World → (JsError + A) * World) b :
  call c op b =
    (match (op (world b)).1 with
     | inr a => Returned a
     | inl e => Thrown e
     end,
     afterCall c (op (world b)).2 b).
Proof. unfold call, afterCall. by destruct (op (world b)).1. Qed.

#[local] Instance counts_preorder root : PreOrder (@counts World root).
Proof.
  split.
  - intros b. exists 0%N. split_and!; [lia | lia | done].
  - intros b1 b2 b3 (n1 & Ht1 & Hs1 & Ho1) (n2 & Ht2 & Hs2 & Ho2).
    exists (n1 + n2)%N. split_and!; [lia | lia |].
    intros k Hk. by rewrite Ho2, Ho1.
Qed.

#[local] Instance issues_preorder P : PreOrder (@issues World P).
Proof.
  split.
  - intros b. exists []. by rewrite app_nil_r.
  - intros b1 b2 b3 (c1 & Hc1 & HP1) (c2 & Hc2 & HP2).
    exists (c1 ++ c2). rewrite Hc2, Hc1, app_assoc. split; [done|].
    by apply Forall_app.
Qed.

Lemma counts_call {A} root c (op : World → (JsError + A) * World) :
  keeps (counts root) (call c op).
Proof.
  intros b. rewrite call_run. simpl. exists 0%N. simpl. split_and!; [lia | lia | done].
Qed.

Lemma counts_countFile root sz : keeps (@counts World root) (countFile root sz).
Proof.
  intros b. exists sz. simpl. unfold sizeOf. split_and!.
  - done.
  - by rewrite lookup_insert_eq.
  - intros k Hk. by rewrite lookup_insert_ne.
Qed.

(** One scan of an item adds to the size recorded for its source exactly
    the bytes it adds to the total. *)
Lemma counts_scan depth p root : keeps (counts root) (scan depth p root).
Proof.
  revert p. induction depth as [|depth IH]; intros p; simpl.
  - apply keeps_unfinished, _.
  - apply keeps_try_catch; [apply _ | |].
    + apply keeps_bind; [apply _ | apply counts_call |]. intros stats.
      destruct (st_isDirectory stats).
      * apply keeps_bind; [apply _ | apply counts_call |]. intros children.
        apply keeps_for_each; [apply _|]. intros c. apply IH.
      * apply counts_countFile.
    + intros _. apply keeps_ret, _.
Qed.

Lemma issues_call {A} (P : FsCall → Prop) c (op : World → (JsError + A) * World) :
  P c → keeps (issues P) (call c op).
Proof.
  intros HP b. rewrite call_run. simpl. exists [c]. split; [done|]. by constructor.
Qed.

(** The recursive copy never removes anything. *)
Lemma copyRecursive_no_rm depth src dst :
  keeps (issues (λ c, ¬ isRm c)) (copyRecursive depth src dst).
Proof.
  assert (Hsame : ∀ b b' : Batch World, calls b' = calls b →
                                        issues (λ c, ¬ isRm c) b b').
  { intros b b' Hc. exists []. by rewrite app_nil_r. }
  revert src dst. induction depth as [|depth IH]; intros src dst; simpl.
  - apply keeps_unfinished, _.
  - apply keeps_bind; [apply _ | apply issues_call; by intros [? ?] |].
    intros stats. destruct (st_isDirectory stats).
    + apply keeps_bind; [apply _ | apply issues_call; by intros [? ?] |]. intros _.
      apply keeps_bind; [apply _ | apply issues_call; by intros [? ?] |].
      intros children. apply keeps_for_each; [apply _|]. intros child. apply IH.
    + apply keeps_bind; [apply _ | apply issues_call; by intros [? ?] |]. intros _.
      apply keeps_bind; [apply _ | |]; intros; intros b; by apply Hsame.
Qed.

Lemma processItem_copy depth item :
  processItem depth "copy" item = copyRecursive depth (source item) (dest item).
Proof. done. Qed.

Lemma processItem_move depth operation item b :
  operation ≠ "copy" →
  processItem depth operation item b =
    try_catch
      (call (CallRename (source item) (dest item))
            (fs_rename (source item) (dest item));;
       creditItem (source item);;
       reportProgress)
      (λ _,
         copyRecursive depth (source item) (dest item);;
         call (CallRm (source item)) (fs_rm (source item))) b.
Proof.
  intros Hop. unfold processItem.
  by destruct (String.eqb_spec operation "copy").
Qed.

Lemma processItem_renamed depth operation item b u :
  operation ≠ "copy" →
  (fs_rename (source item) (dest item) (world b)).1 = inr u →
  let b1 := afterCall (CallRename (source item) (dest item))
                      (fs_rename (source item) (dest item) (world b)).2 b in
  let credited := (processedBytes b + sizeOf (itemSizes b) (source item))%N in
  processItem depth operation item b =
    (Returned tt,
     mkBatch (world b1) (totalBytes b) credited (totalFiles b)
             (processedFiles b) (itemSizes b)
             (progress b ++ [clampedRatio credited (totalBytes b)]) (calls b1)
             (sentAt b ++ [credited])).
Proof.
  intros Hop Hu. rewrite processItem_move by done.
  unfold try_catch. rewrite run_bind_eq, call_run. by rewrite Hu.
Qed.

Lemma processItem_rename_failed depth operation item b e :
  operation ≠ "copy" →
  (fs_rename (source item) (dest item) (world b)).1 = inl e →
  processItem depth operation item b =
    (copyRecursive depth (source item) (dest item);;
     call (CallRm (source item)) (fs_rm (source item)))
      (afterCall (CallRename (source item) (dest item))
                 (fs_rename (source item) (dest item) (world b)).2 b).
Proof.
  intros Hop He. rewrite processItem_move by done.
  unfold try_catch. rewrite run_bind_eq, call_run. by rewrite He.
Qed.
End Items.
(** ** The recursive copy of a tree *)

Lemma runningSums_app start sizes sizes' :
  runningSums start (sizes ++ sizes')
  = runningSums start sizes ++ runningSums (start + sumSizes sizes) sizes'.
Proof.
  revert start. induction sizes as [|size sizes IH]; intros start; simpl.
  - by rewrite N.add_0_r.
  - by rewrite IH, N.add_assoc.
Qed.

Lemma sumSizes_app sizes sizes' :
  sumSizes (sizes ++ sizes') = (sumSizes sizes + sumSizes sizes')%N.
Proof.
  induction sizes as [|size sizes IH]; simpl; [done|].
  unfold sumSizes in *. simpl. rewrite IH. lia.
Qed.

Lemma fileSizes_cons name t children :
  fileSizes (Dir ((name, t) :: children)) = fileSizes t ++ fileSizes (Dir children).
Proof. reflexivity. Qed.

Lemma treeCalls_cons `{Host} src dst name t children :
  treeCalls src dst (Dir ((name, t) :: children))
  = CallStat src :: CallMkdir dst :: CallReaddir src
    :: treeCalls (path_join src name) (path_join dst name) t
    ++ drop 3 (treeCalls src dst (Dir children)).
Proof. reflexivity. Qed.

Lemma treeCalls_dir `{Host} src dst children :
  treeCalls src dst (Dir children)
  = CallStat src :: CallMkdir dst :: CallReaddir src
    :: drop 3 (treeCalls src dst (Dir children)).
Proof. reflexivity. Qed.

Section CopyOfTree.
Context `{Host} {World : Type} `{FileSystem World}.

#[local] Arguments fileSizes : simpl never.
#[local] Arguments treeCalls : simpl never.
#[local] Arguments copyRecursive : simpl never.

Lemma copyRecursive_S depth src dst (b : Batch World) :
  copyRecursive (S depth) src dst b
  = (stats ← call (CallStat src) (fs_stat src);
     if st_isDirectory stats then
       call (CallMkdir dst) (fs_mkdir dst);;
       children ← call (CallReaddir src) (fs_readdir src);
       for_each children
         (λ child, copyRecursive depth (path_join src child) (path_join dst child))
     else
       call (CallCopyFile src dst) (fs_copyFile src dst);;
       countCopied (st_size stats);;
       reportProgress) b.
Proof. reflexivity. Qed.

Lemma afterCopy_then_each src dst name t children w1 w' (b : Batch World) :
  afterCopies src dst children w'
    (afterCopy (path_join src name) (path_join dst name) t w1 b)
  = afterCopies src dst ((name, t) :: children) w' b.
Proof.
  unfold afterCopies, afterCopy. cbn [processedBytes totalBytes totalFiles
    processedFiles itemSizes progress calls sentAt].
  rewrite fileSizes_cons, treeCalls_cons, runningSums_app, sumSizes_app,
    length_app, fmap_app, Nat2N.inj_add.
  cbn [drop]. rewrite <- !app_assoc. f_equal; lia.
Qed.

(** With enough depth, a copy whose calls all resolve returns, in the
    state that the tree it was shown determines. *)
Lemma copyRecursive_replicates depth :
  ∀ src dst t (b : Batch World) w',
    replicates src dst t (world b) w' →
    treeNests depth t = true →
    copyRecursive depth src dst b = (Returned tt, afterCopy src dst t w' b).
Proof.
  induction depth as [|depth IH]; intros src dst t b w' Hrep Hnests; [done|].
  rewrite copyRecursive_S, run_bind_eq, call_run.
  inversion Hrep as [? ? stats size w w1 ? Hstat Hdir Hsize Hcopy
                    |? ? stats names children w w1 w2 w3 ? Hstat Hdir Hmk Hlist Heach];
    subst; rewrite Hstat; cbn [fst snd]; rewrite Hdir.
  - rewrite run_bind_eq, call_run. cbn [afterCall world]. rewrite Hcopy.
    unfold afterCopy.
    change (fileSizes (File (st_size stats))) with [st_size stats].
    change (treeCalls src dst (File (st_size stats)))
      with [CallStat src; CallCopyFile src dst].
    rewrite run_bind_eq. unfold countCopied, reportProgress, afterCall.
    cbn. rewrite N.add_0_r, <- app_assoc. reflexivity.
  - rewrite run_bind_eq, call_run. cbn [afterCall world]. rewrite Hmk.
    cbn [fst snd]. rewrite run_bind_eq, call_run. cbn [afterCall world].
    rewrite Hlist. cbn [fst snd].
    assert (∀ b0 : Batch World,
              replicates_each src dst names children (world b0) w' →
              for_each names
                (λ child, copyRecursive depth (path_join src child)
                            (path_join dst child)) b0
              = (Returned tt, afterCopies src dst children w' b0)) as Heach'.
    { clear Hstat Hmk Hlist Heach Hrep. cbn in Hnests.
      intros b0 Hall. remember (world b0) as w0 eqn:Hw0.
      revert b0 Hw0.
      induction Hall as [src dst w0|src dst name names t children w0 wm w' Hone Hall IHall];
        intros b0 Hw0.
      - subst w0. unfold afterCopies.
        change (fileSizes (Dir [])) with (@nil N).
        change (treeCalls src dst (Dir []))
          with [CallStat src; CallMkdir dst; CallReaddir src].
        cbn. change (N.of_nat 0) with 0%N.
        rewrite !N.add_0_r, !app_nil_r. by destruct b0.
      - cbn in Hnests. apply andb_prop in Hnests as [Hnest Hnests].
        cbn [for_each]. rewrite run_bind_eq.
        subst w0. rewrite (IH _ _ t b0 wm Hone Hnest).
        rewrite (IHall Hnests) by done.
        by rewrite afterCopy_then_each. }
    rewrite Heach' by done.
    unfold afterCopies, afterCopy. cbn. rewrite (treeCalls_dir src dst children).
    by rewrite <- !app_assoc.
Qed.

(** A copy that returns was shown a tree and copied all of it. *)
Lemma copyRecursive_returned depth :
  ∀ src dst (b b' : Batch World),
    copyRecursive depth src dst b = (Returned tt, b') →
    ∃ t, replicates src dst t (world b) (world b')
         ∧ treeNests depth t = true
         ∧ b' = afterCopy src dst t (world b') b.
Proof.
  induction depth as [|depth IH]; intros src dst b b'; [done|].
  rewrite copyRecursive_S, run_bind_eq, call_run.
  destruct (fs_stat src (world b)) as [[e|stats] w1] eqn:Hstat;
    cbn [fst snd]; [done|].
  destruct (st_isDirectory stats) eqn:Hdir.
  - rewrite run_bind_eq, call_run. cbn [afterCall world].
    destruct (fs_mkdir dst w1) as [[e|[]] w2] eqn:Hmk; cbn [fst snd]; [done|].
    rewrite run_bind_eq, call_run. cbn [afterCall world].
    destruct (fs_readdir src w2) as [[e|names] w3] eqn:Hlist; cbn [fst snd];
      [done|].
    assert (∀ b0 : Batch World,
              for_each names
                (λ child, copyRecursive depth (path_join src child)
                            (path_join dst child)) b0
              = (Returned tt, b') →
              ∃ children,
                replicates_each src dst names children (world b0) (world b')
                ∧ forallb (λ c, treeNests depth c.2) children = true
                ∧ b' = afterCopies src dst children (world b') b0) as Heach.
    { clear Hlist. induction names as [|name names IHnames]; intros b0.
      - intros [= <-]. exists []. split_and!; [constructor|done|].
        unfold afterCopies.
        change (fileSizes (Dir [])) with (@nil N).
        change (treeCalls src dst (Dir []))
          with [CallStat src; CallMkdir dst; CallReaddir src].
        cbn. change (N.of_nat 0) with 0%N.
        rewrite !N.add_0_r, !app_nil_r. by destruct b0.
      - cbn [for_each]. rewrite run_bind_eq.
        destruct (copyRecursive depth (path_join src name) (path_join dst name) b0)
          as [[[]|e|] b1] eqn:Hone; [|done..].
        intros Hrest.
        destruct (IH _ _ _ _ Hone) as (t & Hrep & Hnest & Hb1).
        destruct (IHnames _ Hrest) as (children & Hall & Hnests & Hb').
        exists ((name, t) :: children). split_and!.
        + by econstructor.
        + cbn. by rewrite Hnest, Hnests.
        + rewrite Hb' at 1. rewrite Hb1 at 1. apply afterCopy_then_each. }
    intros Hrun. destruct (Heach _ Hrun) as (children & Hall & Hnests & Hb').
    exists (Dir children). split_and!.
    + by econstructor.
    + done.
    + rewrite Hb' at 1. unfold afterCopies, afterCopy. cbn.
      rewrite (treeCalls_dir src dst children). by rewrite <- !app_assoc.
  - rewrite run_bind_eq, call_run. cbn [afterCall world].
    destruct (fs_copyFile src dst w1) as [[e|[]] w2] eqn:Hcopy; cbn [fst snd];
      [done|].
    rewrite run_bind_eq. unfold countCopied, reportProgress, afterCall. cbn.
    intros [= <-]. exists (File (st_size stats)). split_and!.
    + by econstructor.
    + done.
    + unfold afterCopy.
      change (fileSizes (File (st_size stats))) with [st_size stats].
      change (treeCalls src dst (File (st_size stats)))
        with [CallStat src; CallCopyFile src dst].
      cbn. rewrite N.add_0_r, <- app_assoc. reflexivity.
Qed.
End CopyOfTree.
(** ** The claims about the items of a batch *)

Section ItemClaims.
Context `{Host} {World : Type} `{FileSystem World}.
#[local] Existing Instance issues_preorder.

(** C5. For an item of a move batch the rename is the first call.  When
    it succeeds, the size recorded for the item's source by the scan is
    added to the processed bytes at once and one percentage is sent.  When
    it fails, the source is copied to the destination as in a copy batch,
    file by file with one percentage for each file, and then removed: with
    the calls of the copy resolved and the nesting within the bound, the
    item's calls are the rename, those of the copy of the whole tree and
    the removal, and an item that returns has copied a whole tree and
    removed the source after it.  What the scan records for a source is
    the number of bytes that scanning the item added to the total. *)
Theorem move_renames_or_copies depth operation item (b : Batch World) :
  operation ≠ "copy" →
  let src := source item in
  let dst := dest item in
  let renamed := fs_rename src dst (world b) in
  let b1 := afterCall (CallRename src dst) renamed.2 b in
  let credited := (processedBytes b + sizeOf (itemSizes b) src)%N in
  (∃ cs, calls (processItem depth operation item b).2
         = calls b ++ CallRename src dst :: cs)
  ∧ (∀ u, renamed.1 = inr u →
        processItem depth operation item b =
          (Returned tt,
           mkBatch (world b1) (totalBytes b) credited (totalFiles b)
                   (processedFiles b) (itemSizes b)
                   (progress b ++ [clampedRatio credited (totalBytes b)])
                   (calls b1) (sentAt b ++ [credited])))
  ∧ (∀ e t w2, renamed.1 = inl e →
       replicates src dst t (world b1) w2 → treeNests depth t = true →
       let b2 := afterCopy src dst t w2 b1 in
       processItem depth operation item b
       = (match (fs_rm src w2).1 with
          | inr _ => Returned tt
          | inl e' => Thrown e'
          end,
          afterCall (CallRm src) (fs_rm src w2).2 b2)
       ∧ calls (processItem depth operation item b).2
         = calls b ++ CallRename src dst :: treeCalls src dst t ++ [CallRm src])
  ∧ (∀ e b', renamed.1 = inl e →
       processItem depth operation item b = (Returned tt, b') →
       ∃ t w2,
         replicates src dst t (world b1) w2
         ∧ treeNests depth t = true
         ∧ fs_rm src w2 = (inr tt, world b')
         ∧ b' = afterCall (CallRm src) (world b') (afterCopy src dst t w2 b1))
  ∧ (∀ (b0 : Batch World) t w2,
       replicates src dst t (world b0) w2 → treeNests depth t = true →
       processItem depth "copy" item b0 = (Returned tt, afterCopy src dst t w2 b0))
  ∧ (∀ b0 : Batch World, counts src b0 (scan depth src src b0).2).
Proof.
  intros Hop src dst renamed b1 credited.
  assert (Hfail : ∀ e, renamed.1 = inl e →
            processItem depth operation item b
            = (copyRecursive depth src dst;; call (CallRm src) (fs_rm src)) b1).
  { intros e He. by apply (processItem_rename_failed depth operation item b e). }
  split_and!.
  - destruct renamed.1 as [e|u] eqn:Hr.
    + rewrite (Hfail e) by done.
      pose proof (copyRecursive_no_rm depth src dst b1) as (cs & Hcs & _).
      rewrite run_bind_eq.
      destruct (copyRecursive depth src dst b1) as [[[]|?|] b2]; simpl in Hcs |- *.
      * rewrite call_run. simpl. rewrite Hcs. simpl. rewrite <- !app_assoc.
        by eexists.
      * rewrite Hcs. simpl. rewrite <- !app_assoc. by eexists.
      * rewrite Hcs. simpl. rewrite <- !app_assoc. by eexists.
    + rewrite (processItem_renamed depth operation item b u Hop Hr). simpl.
      by eexists.
  - intros u Hu. by apply (processItem_renamed depth operation item b u).
  - intros e t w2 He Hrep Hnests b2.
    rewrite (Hfail e He), run_bind_eq.
    rewrite (copyRecursive_replicates depth src dst t b1 w2 Hrep Hnests).
    fold b2. rewrite call_run. change (world b2) with w2. split.
    + by destruct (fs_rm src w2).1 as [?|[]].
    + simpl. by rewrite <- !app_assoc.
  - intros e b' He. rewrite (Hfail e He), run_bind_eq.
    destruct (copyRecursive depth src dst b1) as [[[]|e'|] b2] eqn:Hcopy;
      [|done..].
    destruct (copyRecursive_returned depth src dst b1 b2 Hcopy)
      as (t & Hrep & Hnests & Hb2).
    rewrite call_run.
    destruct (fs_rm src (world b2)) as [[e'|[]] w3] eqn:Hrm; simpl; [done|].
    intros [= <-]. exists t, (world b2). simpl.
    split_and!; [done|done|done|]. by rewrite <- Hb2.
  - intros b0 t w2 Hrep Hnests. rewrite processItem_copy.
    by apply copyRecursive_replicates.
  - intros b0. apply counts_scan.
Qed.

(** C10. In a move batch, after a failed rename, the source is removed
    only when its copy has returned: the removal is then the last call of
    the item, after every call of the copy.  When the copy throws, the
    item throws the same error in the state the copy left, no removal has
    been issued, and the batch fails with that error. *)
Theorem move_fallback_removes_after_copy depth operation item rest
    (b : Batch World) e :
  operation ≠ "copy" →
  (fs_rename (source item) (dest item) (world b)).1 = inl e →
  let b1 := afterCall (CallRename (source item) (dest item))
                      (fs_rename (source item) (dest item) (world b)).2 b in
  let copied := copyRecursive depth (source item) (dest item) b1 in
  issues (λ c, ¬ isRm c) b copied.2
  ∧ (copied.1 = Returned tt →
     processItem depth operation item b
       = call (CallRm (source item)) (fs_rm (source item)) copied.2
     ∧ calls (processItem depth operation item b).2
       = calls copied.2 ++ [CallRm (source item)])
  ∧ (∀ e', copied.1 = Thrown e' →
       processItem depth operation item b = (Thrown e', copied.2)
       ∧ executionPhase depth (item :: rest) operation b
         = (Returned (BatchFailure (message e')), copied.2))
  ∧ (copied.1 = Unfinished →
     processItem depth operation item b = (Unfinished, copied.2)).
Proof.
  intros Hop He b1 copied.
  pose proof (processItem_rename_failed depth operation item b e Hop He) as Hfail.
  fold b1 in Hfail. rewrite run_bind_eq in Hfail. fold copied in Hfail.
  split_and!.
  - trans b1.
    + exists [CallRename (source item) (dest item)]. split; [done|].
      constructor; [by intros [? ?] | constructor].
    + apply copyRecursive_no_rm.
  - intros Hret. destruct copied as [o b2]. simpl in Hret. subst o.
    split; [done|]. rewrite Hfail, call_run. done.
  - intros e' Hthrow. destruct copied as [o b2]. simpl in Hthrow. subst o.
    split; [done|].
    unfold executionPhase, try_catch. simpl. rewrite !run_bind_eq, Hfail. done.
  - intros Hun. destruct copied as [o b2]. simpl in Hun. by subst o.
Qed.

(** C3, as the code has it.  The items are processed in the order of the
    batch.  The batch reports success exactly when every item's processing
    returned.  The first item whose processing throws ends the batch: the
    batch reports failure with the message of that error, in the state
    that item left, and no later item is attempted.  In a copy batch the
    processing of an item is its recursive copy, so every error of the
    copy is such an error.  In a move batch a rename that is rejected is
    handled within the item, which then copies the source and removes it;
    an error that the item throws is an error of this copy or of this
    removal, and it ends the batch. *)
Theorem batch_stops_at_first_error depth operation (b : Batch World) :
  let fallback item :=
    copyRecursive depth (source item) (dest item);;
    call (CallRm (source item)) (fs_rm (source item)) in
  let renamed item (b1 : Batch World) :=
    fs_rename (source item) (dest item) (world b1) in
  let afterRename item b1 :=
    afterCall (CallRename (source item) (dest item)) (renamed item b1).2 b1 in
  (∀ items b',
     for_each items (processItem depth operation) b = (Returned tt, b') ↔
     executionPhase depth items operation b = (Returned BatchSuccess, b'))
  ∧ (∀ pre item post b1 b2 e,
       for_each pre (processItem depth operation) b = (Returned tt, b1) →
       processItem depth operation item b1 = (Thrown e, b2) →
       executionPhase depth (pre ++ item :: post) operation b
         = (Returned (BatchFailure (message e)), b2))
  ∧ (∀ item, processItem depth "copy" item
             = copyRecursive depth (source item) (dest item))
  ∧ (operation ≠ "copy" →
     ∀ item b1,
       (∀ u, (renamed item b1).1 = inr u →
             (processItem depth operation item b1).1 = Returned tt)
       ∧ (∀ e0, (renamed item b1).1 = inl e0 →
                processItem depth operation item b1
                = fallback item (afterRename item b1))
       ∧ (∀ e b2, processItem depth operation item b1 = (Thrown e, b2) →
                  ∃ e0, (renamed item b1).1 = inl e0
                        ∧ fallback item (afterRename item b1) = (Thrown e, b2)))
  ∧ (operation ≠ "copy" →
     ∀ pre item post b1 b2 e0 e,
       for_each pre (processItem depth operation) b = (Returned tt, b1) →
       (renamed item b1).1 = inl e0 →
       fallback item (afterRename item b1) = (Thrown e, b2) →
       executionPhase depth (pre ++ item :: post) operation b
         = (Returned (BatchFailure (message e)), b2)).
Proof.
  intros fallback renamed afterRename.
  assert (Hstop : ∀ pre item post b1 b2 e,
       for_each pre (processItem depth operation) b = (Returned tt, b1) →
       processItem depth operation item b1 = (Thrown e, b2) →
       executionPhase depth (pre ++ item :: post) operation b
         = (Returned (BatchFailure (message e)), b2)).
  { intros pre item post b1 b2 e Hpre Hitem.
    unfold executionPhase, try_catch. rewrite run_bind_eq.
    by rewrite (for_each_stops_at_throw pre post item _ b b1 b2 e). }
  split_and!.
  - intros items b'. unfold executionPhase, try_catch. rewrite run_bind_eq.
    destruct (for_each items (processItem depth operation) b) as [[[]|e|] b0];
      simpl; split; intros [= ->]; done.
  - exact Hstop.
  - intros item. apply processItem_copy.
  - intros Hop item b1. split_and!.
    + intros u Hu.
      by rewrite (processItem_renamed depth operation item b1 u Hop Hu).
    + intros e0 He0.
      by apply (processItem_rename_failed depth operation item b1 e0).
    + intros e b2 Hthrown.
      destruct (renamed item b1).1 as [e0|u] eqn:Hr.
      * exists e0. split; [done|]. rewrite <- Hthrown. symmetry.
        by apply (processItem_rename_failed depth operation item b1 e0).
      * rewrite (processItem_renamed depth operation item b1 u Hop Hr) in Hthrown.
        discriminate.
  - intros Hop pre item post b1 b2 e0 e Hpre He0 Hfallback.
    apply (Hstop pre item post b1 b2 e Hpre).
    rewrite <- Hfallback.
    by apply (processItem_rename_failed depth operation item b1 e0).
Qed.
End ItemClaims.
(** ** The batch handler on the small disk *)

(** Exact division and multiplication round like the doubles do. *)
Lemma small_rounding : @Rounding Small.host.
Proof.
  split; simpl.
  - intros a b c Hc Hab. unfold Qdiv. apply Qmult_le_compat_r; [done|].
    apply Qinv_le_0_compat. by apply Qlt_le_weak.
  - intros a b c Hc Hab. by apply Qmult_le_compat_r.
  - intros c _. unfold Qdiv. apply Qmult_0_l.
  - intros c. apply Qmult_0_l.
Qed.

Lemma progress_clamped_and_monotone_witness :
  let items := [mkTransfer "/home/docs" "/home/apps/docs";
                mkTransfer "/home/Notes.txt" "/home/apps/Notes.txt"] in
  let scanned := (@scanPhase Small.host _ Small.disk_fs 5 items;; avoidDivisionByZero)
                   (freshBatch Small.home) in
  let final := (@batchFileOperation Small.host _ Small.disk_fs 5 items "copy"
                  (freshBatch Small.home)).2 in
  scanned.1 = Returned tt
  ∧ (1 ≤ totalBytes scanned.2)%N
  ∧ totalBytes final = totalBytes scanned.2
  ∧ totalBytes final = 22%N
  ∧ sentAt final = [10; 15; 22]%N
  ∧ progress final
    = [@percent Small.host 10 22; @percent Small.host 15 22; @percent Small.host 22 22]
  ∧ (@percent Small.host 10 22 == 500 # 11)%Q
  ∧ Forall (λ q, (0 <= q)%Q ∧ (q <= 100)%Q) (progress final)
  ∧ StronglySorted Qle (progress final).
Proof.
  intros items scanned final.
  assert (Hscan : scanned.1 = Returned tt) by (vm_compute; reflexivity).
  split; [exact Hscan|].
  destruct (@progress_clamped_and_monotone Small.host small_rounding _ Small.disk_fs
              5 items "copy" Small.home)
    as (Htotal & _ & _ & Hsent & _ & _ & Hrange & Hsorted).
  destruct (Htotal Hscan) as [Hone Hsame].
  split; [exact Hone|]. split; [exact Hsame|].
  split; [vm_compute; reflexivity|].
  assert (sentAt final = [10; 15; 22]%N) as Hmarks by (vm_compute; reflexivity).
  split; [exact Hmarks|].
  split.
  { fold final in Hsent. rewrite Hsent, Hmarks.
    assert (totalBytes final = 22%N) as -> by (vm_compute; reflexivity).
    reflexivity. }
  split; [vm_compute; reflexivity|].
  split; [exact Hrange|exact Hsorted].
Defined.

Lemma move_renames_or_copies_witness :
  let item := mkTransfer "/home/docs" "/home/apps/docs" in
  let b := Small.scanned Small.home [item] in
  let moved := @processItem Small.host _ Small.disk_fs 5 "move" item b in
  let split := Small.scanned Small.split_home [item] in
  let copied := @processItem Small.host _ Small.disk_fs 5 "move" item split in
  let tree := Dir [("a.txt", File 10); ("sub", Dir [("b.txt", File 5)])] in
  ("move" ≠ "copy"
   ∧ (Small.rename "/home/docs" "/home/apps/docs" (world b)).1 = inr tt
   ∧ sizeOf (itemSizes b) "/home/docs" = 15%N
   ∧ moved.1 = Returned tt
   ∧ processedBytes moved.2 = 15%N
   ∧ calls moved.2 = calls b ++ [CallRename "/home/docs" "/home/apps/docs"]
   ∧ sentAt moved.2 = [15%N]
   ∧ progress moved.2 = [@percent Small.host 15 15])
  ∧ ((Small.rename "/home/docs" "/home/apps/docs" (world split)).1
     = inl (mkError "EXDEV" "EXDEV: operation failed")
     ∧ copied.1 = Returned tt
     ∧ calls copied.2
       = calls split
         ++ [CallRename "/home/docs" "/home/apps/docs";
             CallStat "/home/docs"; CallMkdir "/home/apps/docs";
             CallReaddir "/home/docs";
             CallStat "/home/docs/a.txt";
             CallCopyFile "/home/docs/a.txt" "/home/apps/docs/a.txt";
             CallStat "/home/docs/sub"; CallMkdir "/home/apps/docs/sub";
             CallReaddir "/home/docs/sub";
             CallStat "/home/docs/sub/b.txt";
             CallCopyFile "/home/docs/sub/b.txt" "/home/apps/docs/sub/b.txt";
             CallRm "/home/docs"]
     ∧ sentAt copied.2 = [10; 15]%N
     ∧ progress copied.2 = [@percent Small.host 10 15; @percent Small.host 15 15]
     ∧ Small.nodes (world copied.2) !! "/home/docs" = None
     ∧ Small.nodes (world copied.2) !! "/home/apps/docs/sub/b.txt"
       = Some (Small.FileNode 5)).
Proof.
  intros item b moved split copied tree.
  assert (Hop : "move" ≠ "copy") by discriminate.
  split.
  - assert (Hren : (Small.rename "/home/docs" "/home/apps/docs" (world b)).1 = inr tt)
      by (vm_compute; reflexivity).
    split; [exact Hop|]. split; [exact Hren|].
    destruct (@move_renames_or_copies Small.host _ Small.disk_fs 5 "move" item b Hop)
      as (_ & Hrenamed & _).
    subst moved. rewrite (Hrenamed tt Hren).
    vm_compute. repeat split; reflexivity.
  - assert (Hren : (Small.rename "/home/docs" "/home/apps/docs" (world split)).1
                   = inl (mkError "EXDEV" "EXDEV: operation failed"))
      by (vm_compute; reflexivity).
    split; [exact Hren|].
    destruct (@move_renames_or_copies Small.host _ Small.disk_fs 5 "move" item split
                Hop) as (_ & _ & Hfallback & _).
    edestruct (Hfallback (mkError "EXDEV" "EXDEV: operation failed") tree)
      as [Hrun Hcalls]; [exact Hren| |reflexivity|].
    { eapply (replicates_dir (H:=Small.host) (H0:=Small.disk_fs));
        [reflexivity|reflexivity|reflexivity|reflexivity|].
      eapply (replicates_next (H:=Small.host) (H0:=Small.disk_fs)).
      { eapply (replicates_file (H:=Small.host) (H0:=Small.disk_fs));
          reflexivity. }
      eapply (replicates_next (H:=Small.host) (H0:=Small.disk_fs)).
      { eapply (replicates_dir (H:=Small.host) (H0:=Small.disk_fs));
          [reflexivity|reflexivity|reflexivity|reflexivity|].
        eapply (replicates_next (H:=Small.host) (H0:=Small.disk_fs)).
        { eapply (replicates_file (H:=Small.host) (H0:=Small.disk_fs));
            reflexivity. }
        apply replicates_end. }
      apply replicates_end. }
    subst copied. split; [by rewrite Hrun|]. split; [exact Hcalls|].
    rewrite Hrun. vm_compute. repeat split; reflexivity.
Defined.

Lemma move_fallback_removes_after_copy_witness :
  let item := mkTransfer "/home/docs" "/home/Notes.txt" in
  let later := mkTransfer "/home/apps" "/home/docs/apps" in
  let b := Small.scanned Small.split_home [item; later] in
  let exdev := mkError "EXDEV" "EXDEV: operation failed" in
  let eexist := mkError "EEXIST" "EEXIST: operation failed" in
  "move" ≠ "copy"
  ∧ (Small.rename "/home/docs" "/home/Notes.txt" (world b)).1 = inl exdev
  ∧ (@processItem Small.host _ Small.disk_fs 5 "move" item b).1 = Thrown eexist
  ∧ (@executionPhase Small.host _ Small.disk_fs 5 [item; later] "move" b).1
    = Returned (BatchFailure "EEXIST: operation failed")
  ∧ calls (@executionPhase Small.host _ Small.disk_fs 5 [item; later] "move" b).2
    = calls b ++ [CallRename "/home/docs" "/home/Notes.txt"; CallStat "/home/docs";
                  CallMkdir "/home/Notes.txt"]
  ∧ Small.nodes (world (@executionPhase Small.host _ Small.disk_fs 5 [item; later]
                          "move" b).2) !! "/home/docs/a.txt"
    = Some (Small.FileNode 10).
Proof.
  intros item later b exdev eexist.
  assert (Hop : "move" ≠ "copy") by discriminate.
  assert (Hren : (@fs_rename _ Small.disk_fs (source item) (dest item) (world b)).1
                 = inl exdev) by (vm_compute; reflexivity).
  assert (Hcopy : (@copyRecursive Small.host _ Small.disk_fs 5 (source item) (dest item)
                     (afterCall (CallRename (source item) (dest item))
                        (@fs_rename _ Small.disk_fs (source item) (dest item) (world b)).2
                        b)).1 = Thrown eexist) by (vm_compute; reflexivity).
  destruct (@move_fallback_removes_after_copy Small.host _ Small.disk_fs 5 "move" item
              [later] b exdev Hop Hren) as (_ & _ & Hthrow & _).
  destruct (Hthrow eexist Hcopy) as [Hitem Hbatch].
  split; [exact Hop|]. split; [exact Hren|].
  rewrite Hitem, Hbatch. vm_compute. repeat split; reflexivity.
Defined.

Lemma batch_stops_at_first_error_witness :
  let disk := Small.mkDisk
                (list_to_map
                   [("/", Small.DirNode ["home"; "mnt"]);
                    ("/home", Small.DirNode ["docs"]);
                    ("/home/docs", Small.DirNode []);
                    ("/mnt", Small.DirNode ["docs"; "b.txt"]);
                    ("/mnt/docs", Small.FileNode 4);
                    ("/mnt/b.txt", Small.FileNode 6)])
                true in
  let first := mkTransfer "/mnt/docs" "/home/docs" in
  let second := mkTransfer "/mnt/b.txt" "/home/b.txt" in
  let b := Small.scanned disk [first; second] in
  let exdev := mkError "EXDEV" "EXDEV: operation failed" in
  let eisdir := mkError "EISDIR" "EISDIR: operation failed" in
  let failed :=
    afterCall (CallCopyFile "/mnt/docs" "/home/docs") disk
      (afterCall (CallStat "/mnt/docs") disk
         (afterCall (CallRename "/mnt/docs" "/home/docs") disk b)) in
  "move" ≠ "copy"
  ∧ (Small.rename "/mnt/docs" "/home/docs" (world b)).1 = inl exdev
  ∧ @processItem Small.host _ Small.disk_fs 5 "move" first b = (Thrown eisdir, failed)
  ∧ @executionPhase Small.host _ Small.disk_fs 5 ([] ++ first :: [second]) "move" b
    = (Returned (BatchFailure "EISDIR: operation failed"), failed)
  ∧ Small.nodes (world failed) !! "/home/b.txt" = None.
Proof.
  intros disk first second b exdev eisdir failed.
  assert (Hop : "move" ≠ "copy") by discriminate.
  assert (Hpre : @for_each Small.Disk _ []
                   (@processItem Small.host _ Small.disk_fs 5 "move") b
                 = (Returned tt, b)) by reflexivity.
  assert (Hren : (Small.rename "/mnt/docs" "/home/docs" (world b)).1 = inl exdev)
    by (vm_compute; reflexivity).
  assert (Hfallback :
            (@copyRecursive Small.host _ Small.disk_fs 5 "/mnt/docs" "/home/docs";;
             call (CallRm "/mnt/docs") (@fs_rm _ Small.disk_fs "/mnt/docs"))
              (afterCall (CallRename "/mnt/docs" "/home/docs") disk b)
            = (Thrown eisdir, failed)) by (vm_compute; reflexivity).
  destruct (@batch_stops_at_first_error Small.host _ Small.disk_fs 5 "move" b)
    as (_ & _ & _ & Hitem & Hbatch).
  split; [exact Hop|]. split; [exact Hren|].
  split.
  - destruct (Hitem Hop first b) as (_ & Hhandled & _).
    rewrite (Hhandled exdev Hren). exact Hfallback.
  - split.
    + exact (Hbatch Hop [] first [second] b failed exdev eisdir Hpre Hren Hfallback).
    + vm_compute. reflexivity.
Defined.

(** C3, as stated, fails.  Two files are copied into [/home]; the first has
    the name of a directory that is there, so its [copyFile] is rejected.
    This error ends the batch with a failure, and the second file, which
    could have been copied, is never touched after the scan. *)
Lemma copy_error_aborts_remaining_items :
  let disk := Small.mkDisk
                (list_to_map
                   [("/", Small.DirNode ["home"; "mnt"]);
                    ("/home", Small.DirNode ["docs"]);
                    ("/home/docs", Small.DirNode []);
                    ("/mnt", Small.DirNode ["docs"; "b.txt"]);
                    ("/mnt/docs", Small.FileNode 4);
                    ("/mnt/b.txt", Small.FileNode 6)])
                false in
  let first := mkTransfer "/mnt/docs" "/home/docs" in
  let second := mkTransfer "/mnt/b.txt" "/home/b.txt" in
  let run := @batchFileOperation Small.host _ Small.disk_fs 5 [first; second] "copy"
               (freshBatch disk) in
  (Small.stat "/mnt/docs" disk).1
    = inr (mkStats true false 4 (Millis 0) (Millis 0))
  ∧ (Small.stat "/mnt/b.txt" disk).1
    = inr (mkStats true false 6 (Millis 0) (Millis 0))
  ∧ run.1 = Returned (BatchFailure "EISDIR: operation failed")
  ∧ calls run.2 = [CallStat "/mnt/docs"; CallStat "/mnt/b.txt";
                   CallStat "/mnt/docs"; CallCopyFile "/mnt/docs" "/home/docs"]
  ∧ Small.nodes (world run.2) !! "/home/b.txt" = None
  ∧ (@batchFileOperation Small.host _ Small.disk_fs 5 [second] "copy"
       (freshBatch disk)).1 = Returned BatchSuccess.
Proof. vm_compute. repeat split; reflexivity. Qed.

(** ** The folder-size scheduler *)

Lemma same_bookkeeping_core s s' :
  same_bookkeeping s s' → scheduler_core s → scheduler_core s'.
Proof.
  intros (Hf & Ha & Hc & Hn) [H1 H2 H3 H4 H5 H6].
  split; unfold inFlightPaths in *; rewrite ?Hf, ?Ha, ?Hc, ?Hn; done.
Qed.

Lemma same_bookkeeping_inv s s' :
  same_bookkeeping s s' → folderSizeQueue s' = folderSizeQueue s →
  scheduler_inv s → scheduler_inv s'.
Proof.
  intros Hsame Hq [Hcore Hsat]. split; [by eapply same_bookkeeping_core|].
  destruct Hsame as (_ & Ha & _). by rewrite Hq, Ha.
Qed.

Lemma core_startComputation folderPath s :
  scheduler_core s →
  folderSizeActive s < FOLDER_SIZE_CONCURRENCY →
  folderSizeInFlight s !! folderPath = None →
  scheduler_core (startComputation folderPath s).
Proof.
  intros [H1 H2 H3 H4 H5 H6] Hfree Hnone.
  assert (Hnew : folderPath ∉ inFlightPaths s).
  { intros Hin%H4. rewrite Hnone in Hin. by destruct Hin. }
  split; unfold inFlightPaths in *; simpl.
  - rewrite fmap_app. simpl. apply NoDup_app. split_and!; [done | | apply NoDup_singleton].
    intros p Hp ->%list_elem_of_singleton. done.
  - rewrite fmap_app. simpl. apply NoDup_app. split_and!; [done | | apply NoDup_singleton].
    intros p (c & Hp & Hc)%list_elem_of_fmap Hnext%list_elem_of_singleton.
    rewrite Forall_forall in H3. specialize (H3 c Hc). lia.
  - apply Forall_app. split.
    + eapply Forall_impl; [exact H3|]. simpl. lia.
    + apply Forall_singleton. simpl. lia.
  - intros p. rewrite fmap_app, elem_of_app. simpl. rewrite list_elem_of_singleton.
    rewrite <- H4. destruct (decide (p = folderPath)) as [->|Hne].
    + rewrite lookup_insert_eq. naive_solver.
    + rewrite lookup_insert_ne by done. naive_solver.
  - rewrite length_app. simpl. lia.
  - lia.
Qed.

(** What the drain loop does: it keeps the bookkeeping sound, starts
    computations under fresh numbers only, takes paths from the front of the
    queue, and stops with the queue empty or every slot taken. *)
Lemma drainLoop_spec queue s :
  scheduler_core s →
  let s' := drainLoop queue s in
  scheduler_core s'
  ∧ (folderSizeQueue s' = [] ∨ folderSizeActive s' = FOLDER_SIZE_CONCURRENCY)
  ∧ (∃ started, computations s' = computations s ++ started
                ∧ Forall (λ c, (nextPromise s ≤ c.1)%nat) started)
  ∧ (nextPromise s ≤ nextPromise s')%nat
  ∧ folderSizeQueue s' `suffix_of` queue
  ∧ (folderSizeActive s < FOLDER_SIZE_CONCURRENCY →
     ∀ q rest, queue = q :: rest → folderSizeQueue s' `suffix_of` rest)
  ∧ folderSizeCache s' = folderSizeCache s
  ∧ currentItems s' = currentItems s
  ∧ clock s' = clock s.
Proof.
  revert s. induction queue as [|folderPath rest IH]; intros s Hcore; cbn [drainLoop].
  - assert (Hq : scheduler_core (with_queue [] s))
      by (eapply same_bookkeeping_core; [|done]; done).
    destruct (Z.ltb_spec (folderSizeActive s) FOLDER_SIZE_CONCURRENCY) as [Hlt|Hge]; simpl.
    + split_and!; try done; [by left | exists []; by rewrite app_nil_r].
    + split_and!; try done; [by left | exists []; by rewrite app_nil_r].
  - destruct (Z.ltb_spec (folderSizeActive s) FOLDER_SIZE_CONCURRENCY) as [Hlt|Hge]; simpl.
    2:{ assert (Hq : scheduler_core (with_queue (folderPath :: rest) s))
          by (eapply same_bookkeeping_core; [|done]; done).
        pose proof (core_bound _ Hcore).
        split_and!; try done; [right; simpl; lia | exists []; by rewrite app_nil_r | lia]. }
    assert (Hgo : ∀ s1, scheduler_core s1 →
      computations s1 = computations s ∧ nextPromise s1 = nextPromise s
      ∧ folderSizeCache s1 = folderSizeCache s ∧ currentItems s1 = currentItems s
      ∧ clock s1 = clock s →
      let s' := drainLoop rest s1 in
      scheduler_core s'
      ∧ (folderSizeQueue s' = [] ∨ folderSizeActive s' = FOLDER_SIZE_CONCURRENCY)
      ∧ (∃ started, computations s' = computations s ++ started
                    ∧ Forall (λ c, (nextPromise s ≤ c.1)%nat) started)
      ∧ (nextPromise s ≤ nextPromise s')%nat
      ∧ folderSizeQueue s' `suffix_of` (folderPath :: rest)
      ∧ (folderSizeActive s < FOLDER_SIZE_CONCURRENCY →
         ∀ q rest0, folderPath :: rest = q :: rest0 →
                    folderSizeQueue s' `suffix_of` rest0)
      ∧ folderSizeCache s' = folderSizeCache s
      ∧ currentItems s' = currentItems s
      ∧ clock s' = clock s).
    { intros s1 Hcore1 (Hc & Hn & Hcache & Hitems & Hclock).
      destruct (IH s1 Hcore1) as (IH1 & IH2 & (started & IH3 & IH3') & IH4 & IH5 & _
                                  & IH7 & IH8 & IH9).
      split_and!; [done | done | | lia | by apply suffix_cons_r | | congruence..].
      - exists started. rewrite IH3, Hc, <- Hn. done.
      - intros _ q rest0 [= _ <-]. done. }
    destruct (String.eqb folderPath ""); [by apply Hgo|].
    destruct (freshEntry s folderPath) as [fresh|].
    { apply Hgo; [|done]. eapply same_bookkeeping_core; [|done]. done. }
    destruct (bool_decide_reflect (is_Some (folderSizeInFlight s !! folderPath)))
      as [Hin|Hout]; [by apply Hgo|].
    assert (Hnone : folderSizeInFlight s !! folderPath = None).
    { destruct (folderSizeInFlight s !! folderPath) eqn:E; [|done].
      exfalso. apply Hout. by eexists. }
    pose proof (core_startComputation folderPath s Hcore Hlt Hnone) as Hcore1.
    destruct (IH _ Hcore1) as (IH1 & IH2 & (started & IH3 & IH3') & IH4 & IH5 & _
                                & IH7 & IH8 & IH9).
    simpl in IH3, IH3', IH4, IH7, IH8, IH9.
    split_and!; [done | done | | lia | by apply suffix_cons_r | | done..].
    + exists ((nextPromise s, folderPath) :: started).
      rewrite IH3, <- app_assoc. split; [done|].
      constructor; [simpl; lia|].
      eapply Forall_impl; [exact IH3'|]. simpl. lia.
    + intros _ q rest0 [= _ <-]. done.
Qed.

Lemma drainFolderSizeQueue_inv s :
  scheduler_core s → scheduler_inv (drainFolderSizeQueue s).
Proof.
  intros Hcore. unfold drainFolderSizeQueue.
  destruct (drainLoop_spec (folderSizeQueue s) s Hcore) as (H1 & H2 & _). by split.
Qed.

Lemma scheduleRow_inv s folderPath : scheduler_inv s → scheduler_inv (scheduleRow s folderPath).
Proof.
  intros Hinv. unfold scheduleRow.
  destruct (String.eqb folderPath ""); [done|].
  destruct (freshEntry s folderPath).
  { eapply same_bookkeeping_inv; [| |exact Hinv]; done. }
  destruct (bool_decide _); [done|].
  unfold enqueueFolderSize. apply drainFolderSizeQueue_inv.
  eapply same_bookkeeping_core; [|exact (proj1 Hinv)]. done.
Qed.

Lemma scheduleVisibleFolderSizes_inv enabled rows s :
  scheduler_inv s → scheduler_inv (scheduleVisibleFolderSizes enabled rows s).
Proof.
  unfold scheduleVisibleFolderSizes. destruct enabled; [|done].
  revert s. induction rows as [|row rows IH]; intros s Hinv; simpl; [done|].
  by apply IH, scheduleRow_inv.
Qed.

Lemma settle_finds promise res s s' :
  settle promise res s = Some s' →
  ∃ folderPath, (promise, folderPath) ∈ computations s
                ∧ s' = settleWith promise folderPath res s.
Proof.
  unfold settle.
  destruct (list_find _ _) as [[i [id folderPath]]|] eqn:Hfind; [|done].
  intros [= <-]. apply list_find_Some in Hfind as (Hi & Hid & _). simpl in Hid. subst id.
  exists folderPath. split; [|done]. by eapply list_elem_of_lookup_2.
Qed.

Lemma promise_names_one_path promise p q (cs : list (nat * string)) :
  NoDup cs.*1 → (promise, p) ∈ cs → (promise, q) ∈ cs → p = q.
Proof.
  induction cs as [|[id r] cs IH]; simpl; [by intros _ ?%elem_of_nil|].
  intros [Hid Hnd]%NoDup_cons Hp Hq.
  assert (Hfresh : ∀ x, (id, x) ∉ cs).
  { intros x Hx. apply Hid. apply list_elem_of_fmap. by exists (id, x). }
  apply elem_of_cons in Hp as [Hp|Hp]; apply elem_of_cons in Hq as [Hq|Hq].
  - congruence.
  - injection Hp as -> ->. by destruct (Hfresh q).
  - injection Hq as -> ->. by destruct (Hfresh p).
  - by apply IH.
Qed.

Lemma settle_running promise folderPath res s :
  NoDup (computations s).*1 →
  (promise, folderPath) ∈ computations s →
  settle promise res s = Some (settleWith promise folderPath res s).
Proof.
  intros Hnd Hin. unfold settle.
  destruct (list_find (λ c, c.1 = promise) (computations s)) as [[i [id p]]|] eqn:Hfind.
  - apply list_find_Some in Hfind as (Hi & Hid & _). simpl in Hid. subst id.
    apply list_elem_of_lookup_2 in Hi.
    by rewrite (promise_names_one_path promise p folderPath _ Hnd Hi Hin).
  - exfalso. apply list_find_None in Hfind. rewrite Forall_forall in Hfind.
    by apply (Hfind _ Hin).
Qed.

Lemma filter_keeps_all {A} (P : A → Prop) `{∀ x, Decision (P x)} (l : list A) :
  (∀ x, x ∈ l → P x) → filter P l = l.
Proof.
  induction l as [|x l IH]; intros HP; [done|].
  rewrite filter_cons, decide_True by (apply HP; left).
  rewrite IH; [done|]. intros y Hy. apply HP. by right.
Qed.

(** Removing the computation [promise] from the record of those in flight. *)
Lemma finished_removed promise folderPath (cs : list (nat * string)) :
  NoDup cs.*1 → NoDup cs.*2 → (promise, folderPath) ∈ cs →
  let cs' := filter (λ c, c.1 ≠ promise) cs in
  S (length cs') = length cs
  ∧ (∀ p, p ∈ cs'.*2 ↔ p ∈ cs.*2 ∧ p ≠ folderPath)
  ∧ (promise ∉ cs'.*1)
  ∧ cs' ⊆ cs.
Proof.
  intros Hids Hpaths Hin cs'. subst cs'.
  induction cs as [|[id q] cs IH]; [by apply elem_of_nil in Hin|].
  simpl in Hids, Hpaths.
  apply NoDup_cons in Hids as [Hid Hids], Hpaths as [Hq Hpaths].
  rewrite filter_cons. simpl.
  apply elem_of_cons in Hin as [[= <- <-]|Hin].
  - rewrite decide_False by (intros ?; done).
    assert (Hall : filter (λ c, c.1 ≠ promise) cs = cs).
    { apply filter_keeps_all. intros c Hc Heq. apply Hid.
      apply list_elem_of_fmap. by exists c. }
    rewrite Hall. split_and!; [done | | done | set_solver].
    intros p. simpl. rewrite elem_of_cons. split; [|naive_solver].
    intros Hp. split; [by right|]. by intros ->.
  - assert (Hne : id ≠ promise).
    { intros ->. apply Hid. apply list_elem_of_fmap. by exists (promise, folderPath). }
    assert (Hqne : q ≠ folderPath).
    { intros ->. apply Hq. apply list_elem_of_fmap. by exists (promise, folderPath). }
    rewrite decide_True by done.
    destruct (IH Hids Hpaths Hin) as (IH1 & IH2 & IH3 & IH4).
    split_and!.
    + simpl. lia.
    + intros p. simpl. rewrite !elem_of_cons, IH2. naive_solver.
    + simpl. rewrite elem_of_cons. naive_solver.
    + set_solver.
Qed.

Lemma core_releaseSlot promise folderPath s :
  scheduler_core s → (promise, folderPath) ∈ computations s →
  scheduler_core (releaseSlot promise folderPath s)
  ∧ folderSizeActive (releaseSlot promise folderPath s) = folderSizeActive s - 1
  ∧ (promise ∉ (computations (releaseSlot promise folderPath s)).*1)
  ∧ folderSizeInFlight (releaseSlot promise folderPath s) !! folderPath = None.
Proof.
  intros [H1 H2 H3 H4 H5 H6] Hin.
  destruct (finished_removed promise folderPath _ H2 H1 Hin) as (Hlen & Hpaths & Hgone & Hsub).
  split_and!; [|done | done | apply lookup_delete_eq].
  split; unfold inFlightPaths in *; simpl.
  - clear -H1. induction (computations s) as [|c cs IH]; [constructor|].
    simpl in H1. apply NoDup_cons in H1 as [Hc Hnd].
    rewrite filter_cons. destruct (decide _); [|by apply IH].
    simpl. apply NoDup_cons. split; [|by apply IH].
    intros (c' & Heq & Hc'%list_elem_of_filter)%list_elem_of_fmap.
    apply Hc. apply list_elem_of_fmap. naive_solver.
  - clear -H2. induction (computations s) as [|c cs IH]; [constructor|].
    simpl in H2. apply NoDup_cons in H2 as [Hc Hnd].
    rewrite filter_cons. destruct (decide _); [|by apply IH].
    simpl. apply NoDup_cons. split; [|by apply IH].
    intros (c' & Heq & Hc'%list_elem_of_filter)%list_elem_of_fmap.
    apply Hc. apply list_elem_of_fmap. naive_solver.
  - rewrite Forall_forall in H3. apply Forall_forall. intros c Hc. apply H3. by apply Hsub.
  - intros p0. rewrite Hpaths, <- H4.
    destruct (decide (p0 = folderPath)) as [->|Hne].
    + rewrite lookup_delete_eq. split; [by intros [? ?] | by intros [_ ?]].
    + rewrite lookup_delete_ne by done. naive_solver.
  - lia.
  - lia.
Qed.

(** The state that [settleWith] hands to the [finally] block. *)
Lemma settleWith_unfold promise folderPath res s :
  ∃ s1, same_bookkeeping s s1
        ∧ folderSizeQueue s1 = folderSizeQueue s
        ∧ settleWith promise folderPath res s
          = drainFolderSizeQueue (releaseSlot promise folderPath s1).
Proof.
  unfold settleWith. destruct res as [[sz mtime]|]; eexists; (split_and!; [|  |reflexivity]); done.
Qed.

Lemma step_inv s s' : step s s' → scheduler_inv s → scheduler_inv s'.
Proof.
  destruct 1 as [enabled rows s|promise res s s' Hsettle|s|items s|s|s|t s Ht];
    intros Hinv.
  - by apply scheduleVisibleFolderSizes_inv.
  - apply settle_finds in Hsettle as (folderPath & Hin & ->).
    destruct (settleWith_unfold promise folderPath res s) as (s1 & Hsame & Hq & ->).
    apply drainFolderSizeQueue_inv.
    apply core_releaseSlot.
    + eapply same_bookkeeping_core; [done | apply Hinv].
    + destruct Hsame as (_ & _ & -> & _). done.
  - split; [|by left]. eapply same_bookkeeping_core; [|apply Hinv]. done.
  - eapply same_bookkeeping_inv; [| |exact Hinv]; done.
  - eapply same_bookkeeping_inv; [| |exact Hinv]; done.
  - eapply same_bookkeeping_inv; [| |exact Hinv]; done.
  - eapply same_bookkeeping_inv; [| |exact Hinv]; done.
Qed.

Lemma startState_inv cache now : scheduler_inv (startState cache now).
Proof.
  split; [|by left]. split; unfold inFlightPaths; simpl.
  - constructor.
  - constructor.
  - constructor.
  - intros p. rewrite lookup_empty. split; [by intros [? ?] | by intros ?%elem_of_nil].
  - done.
  - done.
Qed.

Lemma reachable_inv s : reachable s → scheduler_inv s.
Proof.
  intros (cache & now & Hsteps).
  eapply (rtc_ind_r (λ x, scheduler_inv x)); [| |exact Hsteps].
  - apply startState_inv.
  - intros s1 s2 _ Hstep IH. by eapply step_inv.
Qed.

Lemma reachable_step s s' : reachable s → step s s' → reachable s'.
Proof.
  intros (cache & now & Hsteps) Hstep. exists cache, now. by eapply rtc_r.
Qed.

(** C6. In every state the scheduler can reach, the computations in flight
    are for pairwise different paths, however often a path was requested or
    queued, and there are at most three of them; [folderSizeActive] counts
    them.  When a computation settles, with a size or without, its slot and
    its in-flight entry are given back and the queue is drained at once: a
    path waiting at the head of the queue is taken from it, and the handler
    ends with the queue empty or all three slots taken. *)
Theorem scheduler_one_computation_per_path s :
  reachable s →
  NoDup (inFlightPaths s)
  ∧ folderSizeActive s = Z.of_nat (length (computations s))
  ∧ folderSizeActive s ≤ FOLDER_SIZE_CONCURRENCY
  ∧ (∀ p, is_Some (folderSizeInFlight s !! p) ↔ p ∈ inFlightPaths s)
  ∧ (folderSizeQueue s = [] ∨ folderSizeActive s = FOLDER_SIZE_CONCURRENCY)
  ∧ (∀ promise folderPath res,
       (promise, folderPath) ∈ computations s →
       ∃ s1 s',
         settle promise res s = Some s'
         ∧ s' = drainFolderSizeQueue (releaseSlot promise folderPath s1)
         ∧ same_bookkeeping s s1
         ∧ folderSizeActive (releaseSlot promise folderPath s1) = folderSizeActive s - 1
         ∧ folderSizeInFlight (releaseSlot promise folderPath s1) !! folderPath = None
         ∧ (promise ∉ (computations s').*1)
         ∧ (∀ q rest, folderSizeQueue s = q :: rest →
                      folderSizeQueue s' `suffix_of` rest)
         ∧ (folderSizeQueue s' = [] ∨ folderSizeActive s' = FOLDER_SIZE_CONCURRENCY)
         ∧ reachable s').
Proof.
  intros Hreach. pose proof (reachable_inv s Hreach) as [Hcore Hsat].
  pose proof Hcore as [H1 H2 H3 H4 H5 H6].
  split_and!; [done..|].
  intros promise folderPath res Hin.
  destruct (settleWith_unfold promise folderPath res s) as (s1 & Hsame & Hq & Hs').
  pose proof (settle_running promise folderPath res s H2 Hin) as Hsettle.
  assert (Hcore1 : scheduler_core s1) by (by eapply same_bookkeeping_core).
  assert (Hin1 : (promise, folderPath) ∈ computations s1).
  { destruct Hsame as (_ & _ & -> & _). done. }
  destruct (core_releaseSlot promise folderPath s1 Hcore1 Hin1)
    as (Hrel & Hactive & Hgone & Hfree).
  set (s2 := releaseSlot promise folderPath s1) in *.
  destruct (drainLoop_spec (folderSizeQueue s2) s2 Hrel)
    as (D1 & D2 & (started & D3 & D3') & D4 & D5 & D6 & _).
  exists s1, (drainFolderSizeQueue s2).
  assert (Hact : folderSizeActive s2 = folderSizeActive s - 1).
  { rewrite Hactive. destruct Hsame as (_ & -> & _). done. }
  split_and!; [by rewrite Hsettle, Hs' | done | done | done | done | | | done |].
  - unfold drainFolderSizeQueue. rewrite D3, fmap_app, elem_of_app.
    intros [Hold|Hnew]; [done|].
    apply list_elem_of_fmap in Hnew as (c & Hc1 & Hc).
    rewrite Forall_forall in D3'. specialize (D3' c Hc).
    assert (promise < nextPromise s2)%nat; [|lia].
    subst s2. simpl. destruct Hsame as (_ & _ & _ & ->).
    rewrite Forall_forall in H3. apply (H3 _ Hin).
  - intros q rest Hqueue. eapply D6; [lia|].
    subst s2. simpl. by rewrite Hq.
  - eapply reachable_step; [done|]. eapply step_settle. by rewrite Hsettle, Hs'.
Qed.

Lemma scheduler_one_computation_per_path_witness :
  let s := scheduleVisibleFolderSizes true ["/a"; "/b"; "/c"; "/d"; "/d"]
             (startState [] 0) in
  reachable s
  ∧ folderSizeQueue s = ["/d"; "/d"]
  ∧ inFlightPaths s = ["/a"; "/b"; "/c"]
  ∧ NoDup (inFlightPaths s)
  ∧ folderSizeActive s ≤ FOLDER_SIZE_CONCURRENCY.
Proof.
  intros s.
  assert (Hreach : reachable s).
  { exists [], 0. apply rtc_once. apply step_schedule. }
  split; [exact Hreach|].
  split; [vm_compute; reflexivity|]. split; [vm_compute; reflexivity|].
  destruct (scheduler_one_computation_per_path s Hreach) as (Hone & _ & Hbound & _).
  split; [exact Hone | exact Hbound].
Defined.

Lemma strict_eq_true a b : strict_eq a b = true ↔ ∃ ms, a = Millis ms ∧ b = Millis ms.
Proof.
  destruct a as [x|], b as [y|]; simpl.
  - rewrite Z.eqb_eq. split; [intros ->; by exists y | by intros (ms & [= ->] & [= ->])].
  - split; [done | by intros (? & _ & ?)].
  - split; [done | by intros (? & ? & _)].
  - split; [done | by intros (? & ? & _)].
Qed.

(** C9, as the code has it.  A lookup of the scheduler uses the cached
    entry of a path exactly when the modification time stored in it is
    strictly equal to the current modification time of the directory, taken
    as 0 for a directory that is not among the current items or has no
    modification time.  The clock is not consulted: the age of the entry
    plays no part.  A used entry is displayed and nothing is queued or
    started.  Otherwise the scheduling pass queues the path, and the drain
    starts its computation, unless one is in flight for it. *)
Theorem cache_hit_is_mtime_equality s folderPath :
  (∀ entry, freshEntry s folderPath = Some entry ↔
            map_get folderPath (folderSizeCache s) = Some entry
            ∧ ∃ ms, ce_mtime entry = Millis ms ∧ currentMtime s folderPath = Millis ms)
  ∧ (∀ t, freshEntry (with_clock t s) folderPath = freshEntry s folderPath)
  ∧ (folderPath ≠ "" →
     match freshEntry s folderPath with
     | Some entry =>
         scheduleRow s folderPath = updateFolderSizeCell folderPath (Some (ce_size entry)) s
         ∧ computations (scheduleRow s folderPath) = computations s
         ∧ folderSizeQueue (scheduleRow s folderPath) = folderSizeQueue s
     | None =>
         if bool_decide (is_Some (folderSizeInFlight s !! folderPath))
         then scheduleRow s folderPath = s
         else scheduleRow s folderPath = enqueueFolderSize folderPath s
     end)
  ∧ (folderPath ≠ "" →
     folderSizeActive s < FOLDER_SIZE_CONCURRENCY →
     ∀ rest,
       match freshEntry s folderPath with
       | Some entry =>
           drainLoop (folderPath :: rest) s
           = drainLoop rest (updateFolderSizeCell folderPath (Some (ce_size entry)) s)
       | None =>
           if bool_decide (is_Some (folderSizeInFlight s !! folderPath))
           then drainLoop (folderPath :: rest) s = drainLoop rest s
           else drainLoop (folderPath :: rest) s
                = drainLoop rest (startComputation folderPath s)
       end).
Proof.
  split_and!.
  - intros entry. unfold freshEntry.
    destruct (map_get folderPath (folderSizeCache s)) as [cached|]; [|naive_solver].
    destruct (strict_eq (ce_mtime cached) (currentMtime s folderPath)) eqn:Heq.
    + apply strict_eq_true in Heq. naive_solver.
    + split; [done|]. intros [[= ->] Hms]. apply strict_eq_true in Hms. congruence.
  - done.
  - intros Hne. unfold scheduleRow.
    rewrite (proj2 (String.eqb_neq folderPath "")) by done.
    destruct (freshEntry s folderPath); [done|]. by destruct (bool_decide _).
  - intros Hne Hfree rest. cbn [drainLoop].
    rewrite (proj2 (Z.ltb_lt _ _)) by done. simpl.
    rewrite (proj2 (String.eqb_neq folderPath "")) by done.
    destruct (freshEntry s folderPath); [done|]. by destruct (bool_decide _).
Qed.

Lemma cache_hit_is_mtime_equality_witness :
  let dir := mkItem "d" "/d" true false false None (Some 0) (Some (Millis 1000))
                    None None in
  let s := mkScheduler [("/d", mkEntry 42 (Millis 1000) None)] ∅ [] 0 [dir]
                       9000000 [] 0 [] in
  "/d" ≠ ""
  ∧ freshEntry s "/d" = Some (mkEntry 42 (Millis 1000) None)
  ∧ scheduleRow s "/d" = updateFolderSizeCell "/d" (Some 42) s.
Proof.
  intros dir s.
  assert (Hne : "/d" ≠ "") by discriminate.
  assert (Hfresh : freshEntry s "/d" = Some (mkEntry 42 (Millis 1000) None))
    by reflexivity.
  split; [exact Hne|]. split; [exact Hfresh|].
  pose proof (proj1 (proj2 (proj2 (cache_hit_is_mtime_equality s "/d"))) Hne) as Hrow.
  rewrite Hfresh in Hrow. exact (proj1 Hrow).
Defined.

(** C9, as stated, fails: an entry stored when the clock read 0 is used
    when the clock has gone past the time-to-live, its modification time
    being the directory's; nothing is queued and nothing is started. *)
Lemma entry_older_than_ttl_is_used :
  let dir := mkItem "d" "/d" true false false None (Some 0) (Some (Millis 1000))
                    None None in
  let s1 := with_items [dir] (startState [] 0) in
  let s2 := scheduleVisibleFolderSizes true ["/d"] s1 in
  ∃ s3,
    settle 0 (Some (42, Millis 1000)) s2 = Some s3
    ∧ clock s3 = 0
    ∧ folderSizeCache s3 = [("/d", mkEntry 42 (Millis 1000) None)]
    ∧ let s4 := with_clock (FOLDER_SIZE_CACHE_TTL_MS + 1) s3 in
      let s5 := scheduleVisibleFolderSizes true ["/d"] s4 in
      FOLDER_SIZE_CACHE_TTL_MS < clock s4 - clock s3
      ∧ freshEntry s4 "/d" = Some (mkEntry 42 (Millis 1000) None)
      ∧ computations s5 = []
      ∧ folderSizeQueue s5 = []
      ∧ displayed s5 = displayed s4 ++ [("/d", Some 42)].
Proof.
  eexists. split; [vm_compute; reflexivity|]. vm_compute. repeat split; reflexivity.
Qed.

(** * Further properties *)

(** ** Trimming in general *)

Lemma map_get_drop {V} (n : nat) (m : JsMap V) k v :
  map_get k (drop n m) = Some v → map_wf m → map_get k m = Some v.
Proof.
  revert m. induction n as [|n IH]; intros m; [by rewrite drop_0|].
  destruct m as [|[k' v'] m]; [done|]. simpl.
  intros Hget [Hk' Hwf]%NoDup_cons.
  destruct (String.eqb_spec k' k) as [->|_]; [|by apply IH].
  exfalso. apply Hk'.
  assert (Hin : ∀ (l : JsMap V), map_get k l = Some v → k ∈ map_keys l).
  { clear. induction l as [|[a b] l IHl]; simpl; [done|].
    destruct (String.eqb_spec a k) as [->|_]; [left | right; auto]. }
  specialize (Hin _ Hget). unfold map_keys in *. rewrite fmap_drop in Hin.
  by eapply subseteq_drop.
Qed.

(** X1. Trimming a cache leaves the newest [N] entries when there are more,
    and the cache as it is otherwise: the result has [min size N] entries,
    is a suffix of the cache, gives every key it keeps the value it had, and
    trimming again changes nothing. *)
Theorem trimCache_keeps_newest {V} (cache : JsMap V) (N : nat) :
  map_wf cache →
  trimCache cache N = drop (map_size cache - N) cache
  ∧ map_size (trimCache cache N) = Nat.min (map_size cache) N
  ∧ map_wf (trimCache cache N)
  ∧ ((map_size cache ≤ N)%nat → trimCache cache N = cache)
  ∧ trimCache (trimCache cache N) N = trimCache cache N
  ∧ (∀ k v, map_get k (trimCache cache N) = Some v → map_get k cache = Some v).
Proof.
  intros Hwf.
  assert (Htrim : trimCache cache N = drop (map_size cache - N) cache).
  { unfold trimCache. destruct (Nat.leb_spec (map_size cache) N) as [Hle|Hgt].
    - replace (map_size cache - N)%nat with 0%nat by lia. done.
    - by apply delete_oldest_keys. }
  assert (Hsize : map_size (trimCache cache N) = Nat.min (map_size cache) N).
  { rewrite Htrim. unfold map_size. rewrite length_drop. lia. }
  split_and!; [done | done | | | |].
  - rewrite Htrim. unfold map_wf, map_keys in *. rewrite fmap_drop.
    rewrite <- (take_drop (map_size cache - N) cache.*1) in Hwf.
    by apply NoDup_app in Hwf as (_ & _ & ?).
  - intros Hle. rewrite Htrim. by replace (map_size cache - N)%nat with 0%nat by lia.
  - unfold trimCache at 1. by rewrite (proj2 (Nat.leb_le _ _)) by lia.
  - intros k v. rewrite Htrim. intros Hget. by eapply map_get_drop.
Qed.

Lemma trimCache_keeps_newest_witness :
  map_wf [("/a", 1); ("/b", 2); ("/c", 3)]
  ∧ map_size (trimCache [("/a", 1); ("/b", 2); ("/c", 3)] 5) = 3%nat
  ∧ trimCache (trimCache [("/a", 1); ("/b", 2); ("/c", 3)] 1) 1 = [("/c", 3)].
Proof.
  assert (Hwf : map_wf [("/a", 1); ("/b", 2); ("/c", 3)]).
  { apply (bool_decide_unpack _). vm_compute. reflexivity. }
  split; [exact Hwf|].
  destruct (trimCache_keeps_newest [("/a", 1); ("/b", 2); ("/c", 3)] 5 Hwf)
    as (_ & Hsize & _).
  split; [exact Hsize|]. vm_compute. reflexivity.
Defined.

(** ** Listings *)

Lemma array_sort_of_sorted {A} (cmp : A → A → Z) (l : list A) :
  StronglySorted (λ a b, cmp a b ≤ 0) l → array_sort cmp l = l.
Proof.
  induction 1 as [|x l Hl IH Hx]; simpl; [done|].
  rewrite IH. destruct l as [|y l]; [done|]. simpl.
  apply Forall_cons in Hx as [Hxy _].
  by rewrite (proj2 (Z.leb_le _ _)).
Qed.

(** X2. Sorting a listing that is already sorted leaves it as it is: the
    sort of both listing paths is idempotent. *)
Theorem sortContents_idempotent `{Host} `{!Collation} (contents : list DirItem) :
  sortContents (sortContents contents) = sortContents contents.
Proof.
  unfold sortContents. apply array_sort_of_sorted, array_sort_sorted.
  - apply compareItems_total.
  - apply compareItems_trans.
Qed.

Lemma sortContents_idempotent_witness :
  @Collation Small.host
  ∧ @sortContents Small.host
      (@sortContents Small.host
         [ mkItem "b.txt" "/b.txt" false true false None (Some 1) None None None;
           mkItem "A" "/A" true false false None (Some 0) None None None;
           mkItem "a.txt" "/a.txt" false true false None (Some 2) None None None ])
    = [ mkItem "A" "/A" true false false None (Some 0) None None None;
        mkItem "a.txt" "/a.txt" false true false None (Some 2) None None None;
        mkItem "b.txt" "/b.txt" false true false None (Some 1) None None None ].
Proof.
  split; [exact small_collation|].
  rewrite (@sortContents_idempotent Small.host small_collation).
  vm_compute. reflexivity.
Defined.

Section RealListing.
Context `{Host} `{FsView}.

(** X3. A directory that can be read is listed entry by entry: the
    listing is a rearrangement of the objects built for the directory
    entries, none is dropped, each keeps the name and kind the directory
    read gave it, and an entry whose [stat] fails is still listed, with
    size 0 and without dates or link target. *)
Theorem listing_keeps_every_entry dirPath (items : list Dirent) :
  view_readdir dirPath = inr items →
  ∃ contents,
    getDirectoryContents dirPath = ListOk contents dirPath false
    ∧ contents ≡ₚ describeItem dirPath <$> items
    ∧ length contents = length items
    ∧ (∀ item, item ∈ contents →
         ∃ entry, entry ∈ items
                  ∧ name item = de_name entry
                  ∧ path item = path_join dirPath (de_name entry)
                  ∧ isDirectory item = de_isDirectory entry
                  ∧ isFile item = de_isFile entry
                  ∧ isSymlink item = de_isSymbolicLink entry
                  ∧ ((∃ e, view_stat (path item) = inl e) →
                     size item = Some 0 ∧ modified item = None
                     ∧ created item = None ∧ linkTarget item = None)
                  ∧ (∀ st, view_stat (path item) = inr st →
                           size item = Some (Z.of_N (st_size st))
                           ∧ modified item = Some (st_mtime st))).
Proof.
  intros Hdir. unfold getDirectoryContents. rewrite Hdir.
  eexists. split; [reflexivity|].
  assert (Hperm : sortContents (describeItem dirPath <$> items)
                  ≡ₚ describeItem dirPath <$> items)
    by apply array_sort_perm.
  split_and!; [done | by rewrite Hperm, length_fmap |].
  intros item Hitem. rewrite Hperm in Hitem.
  apply list_elem_of_fmap in Hitem as (entry & -> & Hentry).
  exists entry. unfold describeItem. simpl.
  split_and!; try done.
  - intros [e He]. by rewrite He.
  - intros st Hst. by rewrite Hst.
Qed.
End RealListing.

Lemma listing_keeps_every_entry_witness :
  @view_readdir Small.home_view "/home/docs"
  = inr [mkDirent "a.txt" false true false; mkDirent "sub" true false false]
  ∧ ∃ contents,
      @getDirectoryContents Small.host Small.home_view "/home/docs"
      = ListOk contents "/home/docs" false
      ∧ length contents = 2%nat.
Proof.
  assert (Hdir : @view_readdir Small.home_view "/home/docs"
                 = inr [mkDirent "a.txt" false true false;
                        mkDirent "sub" true false false])
    by (vm_compute; reflexivity).
  split; [exact Hdir|].
  destruct (@listing_keeps_every_entry Small.host Small.home_view "/home/docs" _ Hdir)
    as (contents & Hlist & _ & Hlen & _).
  exists contents. split; [exact Hlist | exact Hlen].
Defined.

(** ** Copy batches *)

Section CopyBatches.
Context `{Host} {World : Type} `{FileSystem World}.
#[local] Existing Instance issues_preorder.

Lemma issues_weaken (P Q : FsCall → Prop) (b b' : Batch World) :
  (∀ c, P c → Q c) → issues P b b' → issues Q b b'.
Proof.
  intros HPQ (cs & Hcs & HP). exists cs. split; [done|].
  eapply Forall_impl; [exact HP | done].
Qed.

Lemma issues_nothing (P : FsCall → Prop) (b b' : Batch World) :
  calls b' = calls b → issues P b b'.
Proof. intros Hc. exists []. by rewrite app_nil_r. Qed.

Lemma descend_snoc root names c :
  path_join (descend root names) c = descend root (names ++ [c]).
Proof. unfold descend. by rewrite foldl_app. Qed.

Lemma scan_mirrors depth src dst names root :
  keeps (issues (mirrors src dst)) (scan depth (descend src names) root).
Proof.
  revert names. induction depth as [|depth IH]; intros names; simpl.
  - apply keeps_unfinished, _.
  - apply keeps_try_catch; [apply _ | |].
    + apply keeps_bind; [apply _ | apply issues_call; exists names; auto |].
      intros stats. destruct (st_isDirectory stats).
      * apply keeps_bind; [apply _ | apply issues_call; exists names; auto |].
        intros children. apply keeps_for_each; [apply _|]. intros c.
        rewrite descend_snoc. apply IH.
      * intros b. by apply issues_nothing.
    + intros _. apply keeps_ret, _.
Qed.

Lemma copyRecursive_mirrors depth src dst names :
  keeps (issues (mirrors src dst))
        (copyRecursive depth (descend src names) (descend dst names)).
Proof.
  revert names. induction depth as [|depth IH]; intros names; simpl.
  - apply keeps_unfinished, _.
  - apply keeps_bind; [apply _ | apply issues_call; exists names; auto |].
    intros stats. destruct (st_isDirectory stats).
    + apply keeps_bind; [apply _ | apply issues_call; exists names; auto |].
      intros _.
      apply keeps_bind; [apply _ | apply issues_call; exists names; auto |].
      intros children. apply keeps_for_each; [apply _|]. intros c.
      rewrite !descend_snoc. apply IH.
    + apply keeps_bind; [apply _ | apply issues_call; exists names; auto 6 |].
      intros _.
      apply keeps_bind; [apply _ | |]; intros; intros b; by apply issues_nothing.
Qed.

Lemma for_each_issues {A} (P : A → FsCall → Prop) (xs : list A)
    (body : A → Run World unit) :
  (∀ x, keeps (issues (P x)) (body x)) →
  keeps (issues (λ c, ∃ x, x ∈ xs ∧ P x c)) (for_each xs body).
Proof.
  intros Hbody. induction xs as [|x xs IH]; simpl.
  - apply keeps_ret, _.
  - apply keeps_bind; [apply _ | |].
    + intros b. eapply issues_weaken; [|apply Hbody].
      intros c Hc. exists x. split; [left | done].
    + intros _ b. eapply issues_weaken; [|apply IH].
      intros c (y & Hy & Hc). exists y. split; [by right | done].
Qed.

(** X4. Every file-system call of a copy batch belongs to one of its
    items: it reads at some path below the item's source, or it creates a
    directory or writes a file at the same relative path below the item's
    destination.  A copy batch never renames and never removes. *)
Theorem copy_batch_mirrors_sources depth items (b : Batch World) :
  ∃ cs,
    calls (batchFileOperation depth items "copy" b).2 = calls b ++ cs
    ∧ Forall (λ c, ∃ item, item ∈ items ∧ mirrors (source item) (dest item) c) cs
    ∧ Forall (λ c, ¬ isRm c ∧ ∀ s d, c ≠ CallRename s d) cs.
Proof.
  assert (Hall : keeps (issues (λ c, ∃ item, item ∈ items
                                     ∧ mirrors (source item) (dest item) c))
                       (batchFileOperation depth items "copy")).
  { unfold batchFileOperation, scanPhase, executionPhase.
    apply keeps_bind; [apply _ | |].
    { apply (for_each_issues (λ item, mirrors (source item) (dest item))).
      intros item. apply (scan_mirrors depth (source item) (dest item) []). }
    intros _. apply keeps_bind; [apply _ | intros b0; by apply issues_nothing |].
    intros _. apply keeps_try_catch; [apply _ | |].
    - apply keeps_bind; [apply _ | | intros; apply keeps_ret, _].
      apply (for_each_issues (λ item, mirrors (source item) (dest item))).
      intros item. rewrite processItem_copy.
      apply (copyRecursive_mirrors depth (source item) (dest item) []).
    - intros e. apply keeps_ret, _. }
  destruct (Hall b) as (cs & Hcs & Hmirror).
  exists cs. split_and!; [done | done |].
  eapply Forall_impl; [exact Hmirror|]. simpl.
  intros c (item & _ & names & [-> | [-> | [-> | ->]]]);
    (split; [by intros [? ?] | done]).
Qed.

#[local] Instance tallies_preorder : PreOrder (@tallies World).
Proof.
  split.
  - intros b. exists 0%nat, 0%nat. split_and!; [lia..].
  - intros b1 b2 b3 (s1 & c1 & Hs1 & Hc1 & Hle1) (s2 & c2 & Hs2 & Hc2 & Hle2).
    exists (s1 + s2)%nat, (c1 + c2)%nat. split_and!; lia.
Qed.

#[local] Instance talliesEvenly_preorder : PreOrder (@talliesEvenly World).
Proof.
  split.
  - intros b. exists 0%nat. split_and!; [lia..].
  - intros b1 b2 b3 (c1 & Hs1 & Hc1) (c2 & Hs2 & Hc2).
    exists (c1 + c2)%nat. split_and!; lia.
Qed.

Lemma talliesEvenly_tallies (b b' : Batch World) : talliesEvenly b b' → tallies b b'.
Proof. intros (c & Hs & Hc). by exists c, c. Qed.

Lemma talliesEvenly_call {A} c (op : World → (JsError + A) * World) :
  keeps talliesEvenly (call c op).
Proof.
  intros b. rewrite call_run. exists 0%nat. simpl. split; lia.
Qed.

Lemma talliesEvenly_copyRecursive depth src dst :
  keeps talliesEvenly (copyRecursive depth src dst).
Proof.
  revert src dst. induction depth as [|depth IH]; intros src dst; simpl.
  - apply keeps_unfinished, _.
  - apply keeps_bind; [apply _ | apply talliesEvenly_call |]. intros stats.
    destruct (st_isDirectory stats).
    + apply keeps_bind; [apply _ | apply talliesEvenly_call |]. intros _.
      apply keeps_bind; [apply _ | apply talliesEvenly_call |]. intros children.
      apply keeps_for_each; [apply _|]. intros child. apply IH.
    + intros b. rewrite run_bind_eq, call_run.
      destruct (fs_copyFile src dst (world b)).1; simpl.
      * exists 0%nat. simpl. split; lia.
      * exists 1%nat. simpl. rewrite length_app. simpl. split; lia.
Qed.

Lemma tallies_processItem depth operation item :
  keeps tallies (processItem depth operation item).
Proof.
  unfold processItem. destruct (String.eqb operation "copy").
  { intros b. apply talliesEvenly_tallies, talliesEvenly_copyRecursive. }
  apply keeps_try_catch; [apply _ | |].
  - intros b. rewrite run_bind_eq, call_run.
    destruct (fs_rename _ _ _).1; simpl.
    + exists 0%nat, 0%nat. simpl. split_and!; lia.
    + exists 1%nat, 0%nat. simpl. rewrite length_app. simpl. split_and!; lia.
  - intros _. apply keeps_bind; [apply _ | |].
    + intros b. apply talliesEvenly_tallies, talliesEvenly_copyRecursive.
    + intros _ b. apply talliesEvenly_tallies, talliesEvenly_call.
Qed.

Lemma scanPhase_tally depth items (b : Batch World) :
  progress (scanPhase depth items b).2 = progress b
  ∧ processedFiles (scanPhase depth items b).2 = processedFiles b.
Proof.
  assert (Hkeep : keeps (λ b b' : Batch World,
                           progress b' = progress b
                           ∧ processedFiles b' = processedFiles b)
                        (scanPhase depth items)).
  { assert (PreOrder (λ b b' : Batch World,
                        progress b' = progress b
                        ∧ processedFiles b' = processedFiles b)).
    { split; [by intros ? | intros ??? [??] [??]; split; congruence]. }
    unfold scanPhase. apply keeps_for_each; [done|]. intros item.
    generalize (source item) at 1. generalize (source item).
    induction depth as [|depth IH]; intros root p; simpl.
    - by apply keeps_unfinished.
    - apply keeps_try_catch; [apply _ | |].
      + apply keeps_bind; [apply _ | intros b0; rewrite call_run; done |].
        intros stats. destruct (st_isDirectory stats).
        * apply keeps_bind; [apply _ | intros b0; rewrite call_run; done |].
          intros children. apply keeps_for_each; [done|]. intros c. apply IH.
        * by intros b0.
      + intros _. by apply keeps_ret. }
  apply Hkeep.
Qed.

(** X5. In a batch the files counted as processed never outnumber the
    percentages sent; in a copy batch the two are equal: one percentage is
    sent for every file copied, and none otherwise. *)
Theorem one_percentage_per_copied_file depth items operation (w : World) :
  let final := (batchFileOperation depth items operation (freshBatch w)).2 in
  (N.to_nat (processedFiles final) ≤ length (progress final))%nat
  ∧ (operation = "copy" →
     length (progress final) = N.to_nat (processedFiles final)).
Proof.
  intros final. subst final. unfold batchFileOperation.
  rewrite !run_bind_eq.
  pose proof (scanPhase_tally depth items (freshBatch w)) as [Hp Hf].
  destruct (scanPhase depth items (freshBatch w)) as [[[]|e|] b0];
    simpl in Hp, Hf |- *; [|rewrite Hp, Hf; simpl; split; [lia | done]..].
  change ((avoidDivisionByZero ≫= λ _, executionPhase depth items operation) b0)
    with (executionPhase depth items operation (avoidDivisionByZero b0).2).
  set (b1 := (avoidDivisionByZero b0).2).
  assert (Hb1 : progress b1 = [] ∧ processedFiles b1 = 0%N) by (by subst b1).
  destruct Hb1 as [Hp1 Hf1]. split.
  - assert (Hk : keeps tallies (executionPhase depth items operation)).
    { unfold executionPhase. apply keeps_try_catch; [apply _ | |].
      - apply keeps_bind; [apply _ | | intros; apply keeps_ret, _].
        apply keeps_for_each; [apply _|]. intros item. apply tallies_processItem.
      - intros e. apply keeps_ret, _. }
    destruct (Hk b1) as (sent & copied & Hs & Hc & Hle).
    rewrite Hs, Hc, Hp1, Hf1. simpl. lia.
  - intros ->.
    assert (Hk : keeps talliesEvenly (executionPhase depth items "copy")).
    { unfold executionPhase. apply keeps_try_catch; [apply _ | |].
      - apply keeps_bind; [apply _ | | intros; apply keeps_ret, _].
        apply keeps_for_each; [apply _|]. intros item.
        rewrite processItem_copy. apply talliesEvenly_copyRecursive.
      - intros e. apply keeps_ret, _. }
    destruct (Hk b1) as (copied & Hs & Hc).
    rewrite Hs, Hc, Hp1, Hf1. simpl. lia.
Qed.
End CopyBatches.

Lemma one_percentage_per_copied_file_witness :
  let items := [mkTransfer "/home/docs" "/home/apps/docs";
                mkTransfer "/home/Notes.txt" "/home/apps/Notes.txt"] in
  let final := (@batchFileOperation Small.host _ Small.disk_fs 5 items "copy"
                  (freshBatch Small.home)).2 in
  "copy" = "copy"
  ∧ length (progress final) = N.to_nat (processedFiles final)
  ∧ processedFiles final = 3%N.
Proof.
  intros items final. split; [reflexivity|]. split.
  - exact (proj2 (@one_percentage_per_copied_file Small.host _ Small.disk_fs 5 items
                    "copy" Small.home) eq_refl).
  - vm_compute. reflexivity.
Defined.

(** ** More on the folder-size scheduler *)

Lemma map_get_set {V} k (v : V) m : map_get k (map_set k v m) = Some v.
Proof.
  induction m as [|[k' v'] m IH]; simpl.
  - by rewrite String.eqb_refl.
  - destruct (String.eqb_spec k' k) as [->|Hne]; simpl.
    + by rewrite String.eqb_refl.
    + by rewrite (proj2 (String.eqb_neq k' k)).
Qed.

Lemma map_get_set_other {V} k k' (v : V) m :
  k' ≠ k → map_get k' (map_set k v m) = map_get k' m.
Proof.
  intros Hne. induction m as [|[a b] m IH]; simpl.
  - by rewrite (proj2 (String.eqb_neq k k')).
  - destruct (String.eqb_spec a k) as [->|Hak]; simpl.
    + by rewrite (proj2 (String.eqb_neq k k')).
    + destruct (String.eqb a k'); [done | exact IH].
Qed.

Lemma freshEntry_same s s' folderPath :
  folderSizeCache s' = folderSizeCache s → currentItems s' = currentItems s →
  freshEntry s' folderPath = freshEntry s folderPath.
Proof. intros Hc Hi. unfold freshEntry, currentMtime. by rewrite Hc, Hi. Qed.

(** X6. A size that has been computed is served from the cache: when a
    computation settles with a size and the modification time the listing
    shows for the directory, the entry it stores is the fresh entry of the
    path, so that the next scheduling pass writes the size and neither
    queues nor starts anything for the path.  Stored with another
    modification time, the entry is stale at once. *)
Theorem computed_size_is_served s promise folderPath sz mtime :
  scheduler_core s →
  (promise, folderPath) ∈ computations s →
  ∃ s',
    settle promise (Some (sz, mtime)) s = Some s'
    ∧ map_get folderPath (folderSizeCache s') = Some (mkEntry sz mtime None)
    ∧ currentItems s' = currentItems s
    ∧ ((∃ ms, mtime = Millis ms ∧ currentMtime s folderPath = Millis ms) →
       freshEntry s' folderPath = Some (mkEntry sz mtime None)
       ∧ (folderPath ≠ "" →
          scheduleRow s' folderPath = updateFolderSizeCell folderPath (Some sz) s'))
    ∧ (strict_eq mtime (currentMtime s folderPath) = false →
       freshEntry s' folderPath = None).
Proof.
  intros Hcore Hin.
  pose proof (settle_running promise folderPath (Some (sz, mtime)) s
                (core_promises _ Hcore) Hin) as Hsettle.
  exists (settleWith promise folderPath (Some (sz, mtime)) s).
  split; [done|].
  unfold settleWith. unfold drainFolderSizeQueue.
  set (s1 := releaseSlot promise folderPath _).
  assert (Hcore1 : scheduler_core s1).
  { subst s1. apply core_releaseSlot; [|done].
    eapply same_bookkeeping_core; [|exact Hcore]. done. }
  destruct (drainLoop_spec (folderSizeQueue s1) s1 Hcore1)
    as (_ & _ & _ & _ & _ & _ & Hcache & Hitems & _).
  set (s' := drainLoop (folderSizeQueue s1) s1) in *.
  assert (Hget : map_get folderPath (folderSizeCache s') = Some (mkEntry sz mtime None)).
  { rewrite Hcache. subst s1. simpl. apply map_get_set. }
  assert (Hcur : currentMtime s' folderPath = currentMtime s folderPath).
  { unfold currentMtime. by rewrite Hitems. }
  split_and!; [done | by rewrite Hitems | |].
  - intros (ms & -> & Hms).
    assert (Hfresh : freshEntry s' folderPath = Some (mkEntry sz (Millis ms) None)).
    { unfold freshEntry. rewrite Hget, Hcur, Hms. simpl. by rewrite Z.eqb_refl. }
    split; [done|]. intros Hne. unfold scheduleRow.
    by rewrite (proj2 (String.eqb_neq folderPath "")), Hfresh by done.
  - intros Hneq. unfold freshEntry. rewrite Hget, Hcur. simpl. by rewrite Hneq.
Qed.

Lemma computed_size_is_served_witness :
  let dir := mkItem "d" "/d" true false false None (Some 0) (Some (Millis 1000))
                    None None in
  let s := scheduleVisibleFolderSizes true ["/d"]
             (with_items [dir] (startState [] 0)) in
  scheduler_core s
  ∧ (0%nat, "/d") ∈ computations s
  ∧ ∃ s', settle 0 (Some (42, Millis 1000)) s = Some s'
          ∧ freshEntry s' "/d" = Some (mkEntry 42 (Millis 1000) None).
Proof.
  intros dir s.
  assert (Hcore : scheduler_core s).
  { apply reachable_inv. exists [], 0.
    eapply rtc_l; [apply (step_items [dir])|]. apply rtc_once, step_schedule. }
  assert (Hin : (0%nat, "/d") ∈ computations s) by (vm_compute; left).
  split; [exact Hcore|]. split; [exact Hin|].
  destruct (computed_size_is_served s 0 "/d" 42 (Millis 1000) Hcore Hin)
    as (s' & Hsettle & _ & _ & Hfresh & _).
  exists s'. split; [exact Hsettle|].
  apply Hfresh. exists 1000. split; reflexivity.
Defined.

Lemma inFlight_persists queue s p :
  scheduler_core s → p ∈ inFlightPaths s → p ∈ inFlightPaths (drainLoop queue s).
Proof.
  intros Hcore Hp.
  destruct (drainLoop_spec queue s Hcore) as (_ & _ & (started & Hc & _) & _).
  unfold inFlightPaths in *. rewrite Hc, fmap_app. apply elem_of_app. by left.
Qed.

Lemma drainLoop_keeps_requests queue s p :
  scheduler_core s → p ∈ queue → p ≠ "" → freshEntry s p = None →
  p ∈ inFlightPaths (drainLoop queue s) ∨ p ∈ folderSizeQueue (drainLoop queue s).
Proof.
  revert s. induction queue as [|x rest IH]; intros s Hcore Hin Hne Hstale.
  { by apply elem_of_nil in Hin. }
  cbn [drainLoop].
  destruct (Z.ltb_spec (folderSizeActive s) FOLDER_SIZE_CONCURRENCY) as [Hlt|Hge]; simpl.
  2:{ by right. }
  destruct (String.eqb_spec x "") as [->|Hx].
  { apply IH; try done. apply elem_of_cons in Hin as [?|?]; [congruence | done]. }
  destruct (freshEntry s x) as [fresh|] eqn:Hfresh.
  { apply IH; try done.
    - eapply same_bookkeeping_core; [|exact Hcore]. done.
    - apply elem_of_cons in Hin as [->|?]; [congruence | done]. }
  destruct (decide (p = x)) as [->|Hpx].
  - left. destruct (bool_decide_reflect (is_Some (folderSizeInFlight s !! x)))
      as [Hflight|Hfree].
    + apply inFlight_persists; [done|]. by apply (core_table _ Hcore).
    + assert (Hnone : folderSizeInFlight s !! x = None).
      { destruct (folderSizeInFlight s !! x) eqn:E; [|done].
        exfalso. apply Hfree. by eexists. }
      apply inFlight_persists.
      * by apply core_startComputation.
      * unfold inFlightPaths. simpl. rewrite fmap_app. apply elem_of_app. right.
        simpl. left.
  - assert (Hrest : p ∈ rest).
    { apply elem_of_cons in Hin as [?|?]; [congruence | done]. }
    destruct (bool_decide_reflect (is_Some (folderSizeInFlight s !! x)))
      as [Hflight|Hfree]; [by apply IH|].
    assert (Hnone : folderSizeInFlight s !! x = None).
    { destruct (folderSizeInFlight s !! x) eqn:E; [|done].
      exfalso. apply Hfree. by eexists. }
    apply IH; [by apply core_startComputation | done | done | done].
Qed.

(** X7. No request is lost: after the scheduling pass has handled the row
    of a directory without a fresh cache entry, a computation for the
    directory is in flight or the directory waits in the queue. *)
Theorem requested_path_is_running_or_queued s folderPath :
  scheduler_core s →
  folderPath ≠ "" →
  freshEntry s folderPath = None →
  folderPath ∈ inFlightPaths (scheduleRow s folderPath)
  ∨ folderPath ∈ folderSizeQueue (scheduleRow s folderPath).
Proof.
  intros Hcore Hne Hstale. unfold scheduleRow.
  rewrite (proj2 (String.eqb_neq folderPath "")), Hstale by done.
  destruct (bool_decide_reflect (is_Some (folderSizeInFlight s !! folderPath)))
    as [Hflight|Hfree].
  - left. by apply (core_table _ Hcore).
  - unfold enqueueFolderSize, drainFolderSizeQueue. simpl.
    apply drainLoop_keeps_requests; [| | done | done].
    + eapply same_bookkeeping_core; [|exact Hcore]. done.
    + apply elem_of_app. right. left.
Qed.

Lemma requested_path_is_running_or_queued_witness :
  let s := scheduleVisibleFolderSizes true ["/a"; "/b"; "/c"] (startState [] 0) in
  scheduler_core s
  ∧ "/d" ≠ ""
  ∧ freshEntry s "/d" = None
  ∧ folderSizeQueue (scheduleRow s "/d") = ["/d"]
  ∧ ("/d" ∈ inFlightPaths (scheduleRow s "/d")
     ∨ "/d" ∈ folderSizeQueue (scheduleRow s "/d")).
Proof.
  intros s.
  assert (Hcore : scheduler_core s).
  { apply reachable_inv. exists [], 0. apply rtc_once, step_schedule. }
  assert (Hne : "/d" ≠ "") by discriminate.
  assert (Hstale : freshEntry s "/d" = None) by reflexivity.
  split; [exact Hcore|]. split; [exact Hne|]. split; [exact Hstale|].
  split; [vm_compute; reflexivity|].
  exact (requested_path_is_running_or_queued s "/d" Hcore Hne Hstale).
Defined.

(** ** Navigation history *)

Lemma js_index_Some {A} (l : list A) i x :
  js_index l i = Some x ↔ 0 ≤ i ∧ l !! Z.to_nat i = Some x.
Proof.
  unfold js_index. destruct (Z.ltb_spec i 0); [|naive_solver].
  split; [done | intros [? _]; lia].
Qed.

Lemma js_index_nat {A} (l : list A) (k : nat) : js_index l (Z.of_nat k) = l !! k.
Proof.
  unfold js_index. destruct (Z.ltb_spec (Z.of_nat k) 0); [lia|]. by rewrite Nat2Z.id.
Qed.

(** The history after the update, spelled out: the entries up to the index,
    then the current path, cut to the newest [MAX_HISTORY_LENGTH]. *)
Lemma updateHistory_push n :
  nav_wf n → ¬ nav_current n →
  let h := take (Z.to_nat (historyIndex n + 1)) (history n) ++ [currentPath n] in
  updateHistory n
  = mkNav (drop (length h - MAX_HISTORY_LENGTH) h)
          (Z.of_nat (length h) - 1 - Z.of_nat (length h - MAX_HISTORY_LENGTH))
          (currentPath n)
  ∧ length h = Z.to_nat (historyIndex n + 2).
Proof.
  intros [Hidx Hlen] Hcur h. unfold updateHistory, nav_current in *.
  assert (Hh : length h = Z.to_nat (historyIndex n + 2)).
  { subst h. rewrite length_app, length_take. simpl. lia. }
  split; [|done].
  assert (Hcond : (Z.eqb (historyIndex n) (-1)
      || negb (bool_decide (js_index (history n) (historyIndex n)
                            = Some (currentPath n))))%bool = true).
  { rewrite bool_decide_eq_false_2 by done. apply orb_true_r. }
  rewrite Hcond. unfold js_slice_to.
  destruct (Z.ltb_spec (historyIndex n + 1) 0); [lia|]. fold h.
  destruct (Nat.ltb_spec MAX_HISTORY_LENGTH (length h)) as [Hover|Hfit]; [done|].
  replace (length h - MAX_HISTORY_LENGTH)%nat with 0%nat by lia.
  rewrite drop_0. f_equal. lia.
Qed.

Lemma updateHistory_ok n :
  nav_wf n →
  nav_wf (updateHistory n)
  ∧ 0 ≤ historyIndex (updateHistory n)
  ∧ nav_current (updateHistory n)
  ∧ currentPath (updateHistory n) = currentPath n
  ∧ (nav_current n → updateHistory n = n).
Proof.
  intros Hwf.
  destruct (decide (nav_current n)) as [Hcur|Hcur].
  - assert (Hsame : updateHistory n = n).
    { unfold updateHistory, nav_current in *.
      apply js_index_Some in Hcur as Hpos. destruct Hpos as [Hpos _].
      rewrite bool_decide_eq_true_2 by done.
      destruct (Z.eqb_spec (historyIndex n) (-1)); [lia|]. done. }
    rewrite Hsame. apply js_index_Some in Hcur as Hpos. by destruct Hpos.
  - destruct (updateHistory_push n Hwf Hcur) as [-> Hh].
    set (h := take _ _ ++ _) in *. destruct Hwf as [Hidx Hlen].
    assert (Hhlen : (length h ≤ S MAX_HISTORY_LENGTH)%nat) by lia.
    unfold nav_wf, nav_current. simpl. rewrite length_drop.
    split_and!;
      [unfold MAX_HISTORY_LENGTH in *; lia | unfold MAX_HISTORY_LENGTH in *; lia
      | unfold MAX_HISTORY_LENGTH in *; lia | unfold MAX_HISTORY_LENGTH in *; lia
      | | done | by intros ?].
    replace (Z.of_nat (length h) - 1 - Z.of_nat (length h - MAX_HISTORY_LENGTH))
      with (Z.of_nat (length h - 1 - (length h - MAX_HISTORY_LENGTH)))
      by (unfold MAX_HISTORY_LENGTH in *; lia).
    rewrite js_index_nat, lookup_drop.
    replace (length h - MAX_HISTORY_LENGTH + (length h - 1 - (length h - MAX_HISTORY_LENGTH)))%nat
      with (length h - 1)%nat by (unfold MAX_HISTORY_LENGTH in *; lia).
    subst h. rewrite lookup_app_r; rewrite length_app; simpl.
    + by replace (_ + 1 - 1 - _)%nat with 0%nat by lia.
    + lia.
Qed.

Section NavigationProperties.
Context `{Host} `{FsView}.

Lemma getDirectoryContents_listed dirPath contents listed isArchive :
  getDirectoryContents dirPath = ListOk contents listed isArchive → listed = dirPath.
Proof.
  unfold getDirectoryContents, handleArchiveBrowsing.
  destruct (view_readdir dirPath) as [error|items]; [|by intros [= _ <- _]].
  destruct (_ || _)%bool; [|done].
  destruct (walkUp 20 dirPath ""); [|done..].
  destruct (view_list_archive _ _); [done|]. by intros [= _ <- _].
Qed.

Lemma revisit_wf idx n :
  nav_wf n → -1 ≤ idx < Z.of_nat (length (history n)) → nav_wf (revisit idx n).
Proof.
  intros [_ Hlen] Hidx. unfold revisit.
  destruct (js_index (history n) idx); [destruct (getDirectoryContents _)|]; done.
Qed.

(** X8. The history stays within its bound of fifty entries with the
    index inside it, whatever is navigated to and however often one goes
    back and forward.  After the update of the history in
    [finishNavigation] the entry at the index is the current path, and an
    update at an entry that already is the current path changes nothing.
    Going back moves the index even when the entry cannot be listed. *)
Theorem history_stays_bounded (n : Nav) :
  nav_wf n →
  (nav_wf (updateHistory n)
   ∧ 0 ≤ historyIndex (updateHistory n)
   ∧ nav_current (updateHistory n)
   ∧ (nav_current n → updateHistory n = n))
  ∧ (∀ target, nav_wf (navigateTo target n))
  ∧ nav_wf (goBack n)
  ∧ nav_wf (goForward n)
  ∧ (0 < historyIndex n →
     historyIndex (goBack n) = historyIndex n - 1 ∧ history (goBack n) = history n).
Proof.
  intros Hwf. pose proof (updateHistory_ok n Hwf) as (U1 & U2 & U3 & U4 & U5).
  split_and!; [done..| | | |].
  - intros target. unfold navigateTo.
    destruct (String.prefix "tag://" target).
    + apply updateHistory_ok. by destruct Hwf.
    + destruct (getDirectoryContents target); [|done].
      apply updateHistory_ok. by destruct Hwf.
  - unfold goBack. destruct (Z.ltb_spec 0 (historyIndex n)); [|done].
    apply revisit_wf; [done|]. destruct Hwf. lia.
  - unfold goForward.
    destruct (Z.ltb_spec (historyIndex n) (Z.of_nat (length (history n)) - 1));
      [|done].
    apply revisit_wf; [done|]. destruct Hwf. lia.
  - intros Hpos. unfold goBack. rewrite (proj2 (Z.ltb_lt _ _)) by done.
    unfold revisit.
    destruct (js_index _ _); [destruct (getDirectoryContents _)|]; done.
Qed.

(** X9. Navigating from a listed directory to another one and going back
    arrives at the directory one came from, and going forward again at the
    one navigated to.  The navigation puts the new path right after the
    entry it started from: the entries that were ahead of it are gone. *)
Theorem back_returns_to_previous (n : Nav) target contents isArchive contents0 a0 :
  nav_wf n → nav_current n →
  String.prefix "tag://" target = false →
  target ≠ currentPath n →
  getDirectoryContents target = ListOk contents target isArchive →
  getDirectoryContents (currentPath n) = ListOk contents0 (currentPath n) a0 →
  let n1 := navigateTo target n in
  currentPath n1 = target
  ∧ nav_current n1
  ∧ history n1
    = drop (Z.to_nat (historyIndex n + 2) - MAX_HISTORY_LENGTH)
           (take (Z.to_nat (historyIndex n + 1)) (history n) ++ [target])
  ∧ historyIndex n1 = Z.of_nat (length (history n1)) - 1
  ∧ currentPath (goBack n1) = currentPath n
  ∧ nav_current (goBack n1)
  ∧ goForward (goBack n1) = n1.
Proof.
  intros Hwf Hcur Htag Hnew Hlist Hlist0 n1.
  pose proof Hcur as Hpos. apply js_index_Some in Hpos as [Hpos Hentry].
  set (n0 := mkNav (history n) (historyIndex n) target).
  assert (Hn1 : n1 = updateHistory n0).
  { subst n1. unfold navigateTo. by rewrite Htag, Hlist. }
  assert (Hwf0 : nav_wf n0) by (by destruct Hwf).
  assert (Hcur0 : ¬ nav_current n0).
  { unfold nav_current. simpl. unfold nav_current in Hcur. rewrite Hcur.
    intros [= ?]. done. }
  destruct (updateHistory_push n0 Hwf0 Hcur0) as [Hpush Hh]. simpl in Hpush, Hh.
  set (h := take (Z.to_nat (historyIndex n + 1)) (history n) ++ [target]) in *.
  pose proof (updateHistory_ok n0 Hwf0) as (U1 & U2 & U3 & U4 & _).
  rewrite <- Hn1 in U1, U2, U3, U4. simpl in U4.
  destruct Hwf as [Hidx Hlen].
  assert (Hhist : history n1 = drop (length h - MAX_HISTORY_LENGTH) h)
    by (by rewrite Hn1, Hpush).
  assert (Hidx1 : historyIndex n1 = Z.of_nat (length (history n1)) - 1).
  { rewrite Hhist, length_drop. rewrite Hn1, Hpush. simpl.
    unfold MAX_HISTORY_LENGTH in *. lia. }
  assert (Hprev : js_index (history n1) (historyIndex n1 - 1) = Some (currentPath n)).
  { rewrite Hidx1, Hhist, length_drop.
    replace (Z.of_nat (length h - (length h - MAX_HISTORY_LENGTH)) - 1 - 1)
      with (Z.of_nat (length h - (length h - MAX_HISTORY_LENGTH) - 2))
      by (unfold MAX_HISTORY_LENGTH in *; lia).
    rewrite js_index_nat, lookup_drop.
    replace (length h - MAX_HISTORY_LENGTH
             + (length h - (length h - MAX_HISTORY_LENGTH) - 2))%nat
      with (Z.to_nat (historyIndex n)) by (unfold MAX_HISTORY_LENGTH in *; lia).
    subst h. rewrite lookup_app_l by (rewrite length_take; lia).
    rewrite lookup_take_lt by lia. done. }
  assert (Hlen1 : 2 ≤ Z.of_nat (length (history n1))).
  { rewrite Hhist, length_drop. unfold MAX_HISTORY_LENGTH in *. lia. }
  assert (Hback : goBack n1 = mkNav (history n1) (historyIndex n1 - 1) (currentPath n)).
  { unfold goBack. rewrite (proj2 (Z.ltb_lt _ _)) by lia.
    unfold revisit. by rewrite Hprev, Hlist0. }
  split_and!; [done | done | by rewrite Hhist, Hh | done | by rewrite Hback | |].
  - rewrite Hback. unfold nav_current. simpl. done.
  - rewrite Hback. unfold goForward. simpl.
    rewrite (proj2 (Z.ltb_lt _ _)) by lia.
    unfold revisit. simpl.
    replace (historyIndex n1 - 1 + 1) with (historyIndex n1) by lia.
    unfold nav_current in U3. rewrite U3, U4, Hlist.
    destruct n1 as [h1 i1 c1]. simpl in *. by subst c1.
Qed.
End NavigationProperties.

Lemma history_stays_bounded_witness :
  let n := mkNav ["/home"] 0 "/home" in
  nav_wf n
  ∧ nav_wf (@navigateTo Small.host Small.home_view "/home/docs" n)
  ∧ history (@navigateTo Small.host Small.home_view "/home/docs" n)
    = ["/home"; "/home/docs"].
Proof.
  intros n.
  assert (Hwf : nav_wf n) by (split; simpl; unfold MAX_HISTORY_LENGTH; lia).
  split; [exact Hwf|]. split.
  - exact (proj1 (proj2 (@history_stays_bounded Small.host Small.home_view n Hwf))
             "/home/docs").
  - vm_compute. reflexivity.
Defined.

Lemma back_returns_to_previous_witness :
  let n := mkNav ["/home"; "/home/apps"] 0 "/home" in
  nav_wf n
  ∧ nav_current n
  ∧ "/home/docs" ≠ currentPath n
  ∧ history (@navigateTo Small.host Small.home_view "/home/docs" n)
    = ["/home"; "/home/docs"]
  ∧ currentPath (@goBack Small.host Small.home_view
                   (@navigateTo Small.host Small.home_view "/home/docs" n))
    = "/home".
Proof.
  intros n.
  assert (Hwf : nav_wf n) by (split; simpl; unfold MAX_HISTORY_LENGTH; lia).
  assert (Hcur : nav_current n) by reflexivity.
  assert (Hnew : "/home/docs" ≠ currentPath n) by discriminate.
  eassert (Hlist : @getDirectoryContents Small.host Small.home_view "/home/docs"
                   = ListOk _ "/home/docs" false) by (vm_compute; reflexivity).
  eassert (Hlist0 : @getDirectoryContents Small.host Small.home_view (currentPath n)
                    = ListOk _ (currentPath n) false) by (vm_compute; reflexivity).
  split; [exact Hwf|]. split; [exact Hcur|]. split; [exact Hnew|].
  split; [vm_compute; reflexivity|].
  exact (proj1 (proj2 (proj2 (proj2 (proj2
           (@back_returns_to_previous Small.host Small.home_view n "/home/docs"
              _ false _ false Hwf Hcur eq_refl Hnew Hlist Hlist0)))))).
Defined.

(** * Comparing paths *)

Lemma is_separator_replaced c :
  is_separator (if Ascii.eqb c "\" then "/"%char else c) = is_separator c.
Proof.
  unfold is_separator. destruct (Ascii.eqb c "\") eqn:E; [|by rewrite E].
  apply Ascii.eqb_eq in E as ->. reflexivity.
Qed.

Lemma replace_backslashes_empty s : replace_backslashes s = "" ↔ s = "".
Proof. destruct s; simpl; split; congruence. Qed.

Lemma replace_backslashes_idempotent s :
  replace_backslashes (replace_backslashes s) = replace_backslashes s.
Proof.
  induction s as [|c s IH]; simpl; [reflexivity|]. rewrite IH. f_equal.
  destruct (Ascii.eqb c "\") eqn:E; [reflexivity|]. by rewrite E.
Qed.

Lemma replace_backslashes_snoc s c :
  replace_backslashes (s +:+ String c "")
  = replace_backslashes s +:+ String (if Ascii.eqb c "\" then "/"%char else c) "".
Proof.
  induction s as [|a s IH]; [reflexivity|].
  rewrite append_cons. simpl. rewrite IH, append_cons. reflexivity.
Qed.

Lemma strip_replace_backslashes s :
  stripTrailingSeparators (replace_backslashes s)
  = replace_backslashes (stripTrailingSeparators s).
Proof.
  induction s as [|c s IH]; simpl; [reflexivity|].
  rewrite IH, is_separator_replaced.
  destruct (is_separator c); simpl; [|reflexivity].
  destruct (stripTrailingSeparators s); reflexivity.
Qed.

Lemma stripTrailingSeparators_idempotent s :
  stripTrailingSeparators (stripTrailingSeparators s) = stripTrailingSeparators s.
Proof.
  induction s as [|c s IH]; simpl; [reflexivity|].
  destruct (is_separator c && String.eqb (stripTrailingSeparators s) "")%bool eqn:E;
    [reflexivity|].
  simpl. rewrite IH, E. reflexivity.
Qed.

Lemma stripTrailingSeparators_snoc s c :
  is_separator c = true →
  stripTrailingSeparators (s +:+ String c "") = stripTrailingSeparators s.
Proof.
  intros Hc. induction s as [|a s IH].
  - rewrite append_nil. simpl. rewrite Hc. reflexivity.
  - rewrite append_cons. simpl. rewrite IH. reflexivity.
Qed.

Lemma stripTrailingSeparators_length s :
  (String.length (stripTrailingSeparators s) <= String.length s)%nat.
Proof.
  induction s as [|c s IH]; simpl; [lia|].
  destruct (is_separator c && String.eqb (stripTrailingSeparators s) "")%bool;
    simpl; lia.
Qed.

Lemma string_length_snoc s c : String.length (s +:+ String c "") = S (String.length s).
Proof.
  induction s as [|a s IH]; [reflexivity|]. rewrite append_cons. simpl. lia.
Qed.

Lemma stripTrailingSeparators_last s t c :
  stripTrailingSeparators s = t +:+ String c "" → is_separator c = false.
Proof.
  intros Hs. destruct (is_separator c) eqn:Hc; [|reflexivity]. exfalso.
  pose proof (stripTrailingSeparators_idempotent s) as Hi.
  rewrite Hs, stripTrailingSeparators_snoc in Hi by assumption.
  pose proof (stripTrailingSeparators_length t) as Hl.
  rewrite Hi, string_length_snoc in Hl. lia.
Qed.

Lemma normalizePathForCompare_nonempty win32 p :
  p ≠ "" → normalizePathForCompare win32 p ≠ "".
Proof.
  intros Hp. unfold normalizePathForCompare.
  destruct (String.eqb_spec p ""); [done|].
  destruct (String.eqb_spec (stripTrailingSeparators
    (if win32 then replace_backslashes p else p)) ""); [discriminate|done].
Qed.

Lemma normalizePathForCompare_idempotent win32 p :
  normalizePathForCompare win32 (normalizePathForCompare win32 p)
  = normalizePathForCompare win32 p.
Proof.
  destruct (decide (p = "")) as [->|Hp]; [reflexivity|].
  set (n := stripTrailingSeparators (if win32 then replace_backslashes p else p)).
  assert (normalizePathForCompare win32 p = if String.eqb n "" then "/" else n) as ->.
  { unfold normalizePathForCompare. by destruct (String.eqb_spec p ""). }
  destruct (String.eqb_spec n "") as [|Hn].
  { destruct win32; reflexivity. }
  unfold normalizePathForCompare.
  destruct (String.eqb_spec n ""); [done|].
  assert (stripTrailingSeparators (if win32 then replace_backslashes n else n) = n) as ->.
  { subst n. destruct win32.
    - rewrite (strip_replace_backslashes p), replace_backslashes_idempotent.
      rewrite strip_replace_backslashes.
      by rewrite stripTrailingSeparators_idempotent.
    - apply stripTrailingSeparators_idempotent. }
  destruct (String.eqb_spec n ""); done.
Qed.

(** X10.  [normalizePathForCompare] gives a canonical form: normalising a
    second time changes nothing, only a missing path gives the empty string,
    and the result is the root [/] or does not end with a separator. *)
Theorem normalised_path_is_canonical (win32 : bool) (p : string) :
  normalizePathForCompare win32 (normalizePathForCompare win32 p)
    = normalizePathForCompare win32 p
  ∧ (normalizePathForCompare win32 p = "" ↔ p = "")
  ∧ (normalizePathForCompare win32 p = "/"
     ∨ ∀ t c, normalizePathForCompare win32 p = t +:+ String c "" →
              is_separator c = false).
Proof.
  split; [apply normalizePathForCompare_idempotent|]. split.
  - split.
    + intros Hn. destruct (decide (p = "")) as [|Hp]; [assumption|].
      by apply (normalizePathForCompare_nonempty win32) in Hp.
    + intros ->. reflexivity.
  - unfold normalizePathForCompare.
    destruct (String.eqb_spec p "").
    { right. intros [|a t] c Hc; discriminate. }
    destruct (String.eqb_spec (stripTrailingSeparators
      (if win32 then replace_backslashes p else p)) ""); [by left|].
    right. intros t c. apply stripTrailingSeparators_last.
Qed.

Lemma normalised_path_is_canonical_witness :
  normalizePathForCompare true "C:\Users\me\\" = "C:/Users/me"
  ∧ normalizePathForCompare true "C:/Users/me" = "C:/Users/me"
  ∧ normalizePathForCompare false "///" = "/".
Proof.
  pose proof (normalised_path_is_canonical true "C:\Users\me\\") as [Hi _].
  split; [reflexivity|]. split; [exact Hi|reflexivity].
Defined.

(** X11.  Separators at the end of a path do not count: a path and the same
    path followed by a separator are normalised to the same string.  The
    empty path is the exception, since the separator alone is the root. *)
Theorem trailing_separator_is_ignored (win32 : bool) (p : string) (c : ascii) :
  p ≠ "" → is_separator c = true →
  normalizePathForCompare win32 (p +:+ String c "")
  = normalizePathForCompare win32 p.
Proof.
  intros Hp Hc. unfold normalizePathForCompare.
  destruct (String.eqb_spec p ""); [done|].
  destruct (String.eqb_spec (p +:+ String c "") "") as [He|_].
  { destruct p; discriminate. }
  destruct win32.
  - rewrite replace_backslashes_snoc, stripTrailingSeparators_snoc; [reflexivity|].
    by rewrite is_separator_replaced.
  - by rewrite stripTrailingSeparators_snoc.
Qed.

Lemma trailing_separator_is_ignored_witness :
  normalizePathForCompare false ("/home/me" +:+ "/") = normalizePathForCompare false "/home/me"
  ∧ normalizePathForCompare false ("" +:+ "/") ≠ normalizePathForCompare false "".
Proof.
  split.
  - apply (trailing_separator_is_ignored false "/home/me" "/"); [discriminate|reflexivity].
  - discriminate.
Defined.

(** * Dropping files *)

Section DropGuard.
Context `{Host} `{HostMore}.

Lemma dropPair_Some win32 targetDir sourcePath item :
  dropPair win32 targetDir sourcePath = Some item →
  item = mkTransfer sourcePath (path_join targetDir (path_parse_base sourcePath))
  ∧ normalizePathForCompare win32 sourcePath
      ≠ normalizePathForCompare win32 (dest item)
  ∧ String.prefix (normalizePathForCompare win32 sourcePath +:+ "/")
      (normalizePathForCompare win32 (dest item)) = false
  ∧ normalizePathForCompare win32 targetDir
      ≠ normalizePathForCompare win32 sourcePath.
Proof.
  unfold dropPair.
  destruct (String.eqb_spec (normalizePathForCompare win32 sourcePath)
    (normalizePathForCompare win32
       (path_join targetDir (path_parse_base sourcePath)))) as [|Hne];
    [discriminate|].
  match goal with |- (if ?b then _ else _) = _ → _ => destruct b end;
    [discriminate|].
  destruct (String.prefix _ _) eqn:Hpre; [discriminate|].
  destruct (String.eqb_spec (normalizePathForCompare win32 targetDir)
    (normalizePathForCompare win32 sourcePath)) as [|Hdir]; [discriminate|].
  intros [= <-]. simpl. done.
Qed.

Lemma dropPair_root win32 targetDir :
  let destPath := path_join targetDir (path_parse_base "/") in
  normalizePathForCompare win32 destPath ≠ "/" →
  String.prefix "//" (normalizePathForCompare win32 destPath) = false →
  normalizePathForCompare win32 targetDir ≠ "/" →
  dropPair win32 targetDir "/" = Some (mkTransfer "/" destPath).
Proof.
  intros destPath Hdest Hpre Hdir. unfold dropPair. fold destPath.
  assert (normalizePathForCompare win32 "/" = "/") as -> by (by destruct win32).
  destruct (String.eqb_spec "/" (normalizePathForCompare win32 destPath));
    [congruence|].
  change (stripTrailingSeparators "/") with "".
  change ("/" +:+ "/") with "//". rewrite Hpre.
  destruct (String.eqb_spec (normalizePathForCompare win32 targetDir) "/");
    [congruence|].
  by destruct win32.
Qed.

(** X12.  [handleFileDrop] submits a pair only for a dropped path, with
    the destination inside the target directory, and never one whose
    source is the destination or is the target directory, each compared
    in normal form.  A source other than the root is never a directory
    that contains the destination.  The root is not caught: dropped on
    another directory it is submitted, with a destination that it
    contains. *)
Theorem dropped_item_is_never_its_own_target (win32 : bool)
    (targetDir : string) (sourcePaths : list string) :
  (∀ item, item ∈ dropBatchItems win32 targetDir sourcePaths →
     source item ∈ sourcePaths
     ∧ dest item = path_join targetDir (path_parse_base (source item))
     ∧ normalizePathForCompare win32 (source item)
         ≠ normalizePathForCompare win32 (dest item)
     ∧ normalizePathForCompare win32 (source item)
         ≠ normalizePathForCompare win32 targetDir
     ∧ (normalizePathForCompare win32 (source item) ≠ "/" →
        contains_path (normalizePathForCompare win32 (source item))
          (normalizePathForCompare win32 (dest item)) = false))
  ∧ (let destPath := path_join targetDir (path_parse_base "/") in
     "/" ∈ sourcePaths →
     normalizePathForCompare win32 targetDir ≠ "/" →
     normalizePathForCompare win32 destPath ≠ "/" →
     String.prefix "//" (normalizePathForCompare win32 destPath) = false →
     mkTransfer "/" destPath ∈ dropBatchItems win32 targetDir sourcePaths
     ∧ contains_path (normalizePathForCompare win32 "/")
         (normalizePathForCompare win32 destPath)
       = String.prefix "/" (normalizePathForCompare win32 destPath)).
Proof.
  split.
  - intros item. unfold dropBatchItems. rewrite list_elem_of_omap.
    intros (sourcePath & Hin & Hpair).
    apply dropPair_Some in Hpair as (-> & Hne & Hpre & Hdir). simpl in *.
    split_and!; [assumption|reflexivity|assumption|congruence|].
    intros Hroot. unfold contains_path.
    by destruct (String.eqb_spec (normalizePathForCompare win32 sourcePath) "/").
  - intros destPath Hin Hdir Hdest Hpre. split.
    + unfold dropBatchItems. rewrite list_elem_of_omap. exists "/".
      split; [done|]. by apply dropPair_root.
    + assert (normalizePathForCompare win32 "/" = "/") as -> by (by destruct win32).
      unfold contains_path. simpl String.eqb. cbv iota.
      destruct (String.eqb_spec (normalizePathForCompare win32 destPath) "/");
        [done|]. by rewrite andb_true_r.
Qed.
End DropGuard.

Lemma dropped_item_is_never_its_own_target_witness :
  let H := Small.host in
  let M := SmallMore.hostMore in
  let sources := ["/home/docs"; "/home/docs/a.txt"; "/home"; "/tmp/a.txt"; "/"] in
  dropBatchItems false "/home/docs" sources
    = [mkTransfer "/tmp/a.txt" "/home/docs/a.txt"; mkTransfer "/" "/home/docs/"]
  ∧ contains_path "/tmp/a.txt" "/home/docs/a.txt" = false
  ∧ mkTransfer "/" "/home/docs/" ∈ dropBatchItems false "/home/docs" sources
  ∧ contains_path "/" "/home/docs" = true.
Proof.
  intros H M sources. split; [reflexivity|].
  destruct (dropped_item_is_never_its_own_target false "/home/docs" sources)
    as [Hitems Hroot].
  split.
  - apply (Hitems (mkTransfer "/tmp/a.txt" "/home/docs/a.txt")).
    + vm_compute. apply list_elem_of_here.
    + discriminate.
  - destruct Hroot as [Hin Hcontains].
    + vm_compute. do 4 apply list_elem_of_further. apply list_elem_of_here.
    + discriminate.
    + discriminate.
    + reflexivity.
    + split; [exact Hin|exact Hcontains].
Defined.

(** * Quick access *)

Lemma insert_at_Permutation {A} (i : nat) (x : A) (l : list A) :
  insert_at i x l ≡ₚ x :: l.
Proof.
  unfold insert_at. rewrite <- Permutation_middle. by rewrite take_drop.
Qed.

Lemma insert_at_lookup {A} (i : nat) (x : A) (l : list A) :
  (i ≤ length l)%nat → insert_at i x l !! i = Some x.
Proof.
  intros Hi. unfold insert_at.
  apply list_lookup_middle. by rewrite length_take_le.
Qed.

Lemma delete_insert_at {A} (i : nat) (x : A) (l : list A) :
  (i ≤ length l)%nat → delete i (insert_at i x l) = l.
Proof.
  intros Hi. unfold insert_at.
  assert (∀ n, n = length (take i l) →
               delete n (take i l ++ x :: drop i l) = l) as Hdel.
  { intros n ->. rewrite delete_middle. apply take_drop. }
  apply Hdel. by rewrite length_take_le.
Qed.

Lemma insert_at_delete {A} (i : nat) (x : A) (l : list A) :
  l !! i = Some x → insert_at i x (delete i l) = l.
Proof.
  revert i. induction l as [|a l IH]; intros [|i] Hx; try discriminate.
  - injection Hx as ->. reflexivity.
  - unfold insert_at in *. simpl. f_equal. by apply IH.
Qed.

Lemma moveQuickAccess_Permutation id direction items :
  moveQuickAccess id direction items ≡ₚ items.
Proof.
  unfold moveQuickAccess.
  destruct (list_find _ items) as [[idx item]|] eqn:Hfind; [|reflexivity].
  destruct (_ || _)%bool; [reflexivity|].
  apply list_find_Some in Hfind as (Hidx & _).
  rewrite insert_at_Permutation. symmetry. by apply delete_Permutation.
Qed.

Lemma omap_sublist {A B} (f : A → option B) (l k : list A) :
  l `sublist_of` k → omap f l `sublist_of` omap f k.
Proof.
  induction 1 as [|x l k _ IH|x l k _ IH]; simpl.
  - constructor.
  - destruct (f x); [by constructor|assumption].
  - destruct (f x); [by constructor|assumption].
Qed.

Lemma pin_prefix p :
  "pin:" +:+ p = String "p" (String "i" (String "n" (String ":" p))).
Proof. reflexivity. Qed.

Lemma default_builtin_shape x :
  x ∈ DEFAULT_BUILTINS →
  ∃ k l, x = QaBuiltin k k l ∧ BUILTIN_REGISTRY k = Some x ∧ ∀ p, k ≠ "pin:" +:+ p.
Proof.
  unfold DEFAULT_BUILTINS. rewrite !elem_of_cons, elem_of_nil.
  intros Hx. repeat (destruct Hx as [->|Hx]); [..|done];
    (eexists _, _; split; [reflexivity|]; split; [reflexivity|];
     intros p; rewrite pin_prefix; discriminate).
Qed.

Lemma BUILTIN_REGISTRY_Some key b :
  BUILTIN_REGISTRY key = Some b → ∃ l, b = QaBuiltin key key l ∧ b ∈ DEFAULT_BUILTINS.
Proof.
  unfold BUILTIN_REGISTRY. intros Hfind.
  apply find_some in Hfind as [Hin Hkey].
  apply list_elem_of_In in Hin.
  destruct (default_builtin_shape _ Hin) as (k & l & -> & _ & _).
  apply String.eqb_eq in Hkey as <-. eauto.
Qed.

Section QuickAccessProperties.
Context `{Host} `{HostMore}.
Variable win32 : bool.

Lemma isPinnedExact_false needle items :
  isPinnedExact win32 needle items = false →
  normalizePathForCompare win32 needle ∉ pinnedPlaces win32 items.
Proof.
  unfold isPinnedExact, pinnedPlaces. intros Hex Hin.
  apply list_elem_of_omap in Hin as (x & Hx & Hplace).
  apply not_true_iff_false in Hex. apply Hex.
  apply existsb_exists. exists x. split; [by apply list_elem_of_In|].
  destruct x; [discriminate|]. injection Hplace as <-.
  apply String.eqb_refl.
Qed.

Lemma hasBuiltin_false key items :
  hasBuiltin key items = false → key ∉ builtinKeys items.
Proof.
  unfold hasBuiltin, builtinKeys. intros Hex Hin.
  apply list_elem_of_omap in Hin as (x & Hx & Hkey).
  apply not_true_iff_false in Hex. apply Hex.
  apply existsb_exists. exists x. split; [by apply list_elem_of_In|].
  destruct x; [|discriminate]. injection Hkey as <-.
  apply String.eqb_refl.
Qed.

Lemma inv_cons_pin p label items :
  quickAccess_inv win32 items →
  normalizePathForCompare win32 p = p → p ≠ "" →
  isPinnedExact win32 p items = false →
  quickAccess_inv win32 (QaPin ("pin:" +:+ p) p label :: items).
Proof.
  intros (Hids & [Hplaces Hkeys] & Hshape) Hnorm Hp Hpinned.
  apply isPinnedExact_false in Hpinned. rewrite Hnorm in Hpinned.
  unfold quickAccess_inv, quickAccess_wf. split_and!.
  - simpl. apply NoDup_cons. split; [|assumption].
    intros Hin. apply list_elem_of_fmap in Hin as (x & Hid & Hx).
    rewrite Forall_forall in Hshape. specialize (Hshape x Hx).
    destruct x as [id k l|id q l]; simpl in Hid.
    + destruct (default_builtin_shape _ Hshape) as (k' & l' & Heq & _ & Hk).
      simplify_eq. by apply (Hk p).
    + destruct Hshape as (-> & Hq & _).
      apply String.app_inj in Hid. subst q.
      apply Hpinned. unfold pinnedPlaces. apply list_elem_of_omap.
      exists (QaPin ("pin:" +:+ p) p l). split; [assumption|]. simpl. by rewrite Hq.
  - change (NoDup (normalizePathForCompare win32 p :: pinnedPlaces win32 items)).
    rewrite Hnorm. apply NoDup_cons. done.
  - assumption.
  - apply Forall_cons. done.
Qed.

Lemma inv_cons_builtin key b items :
  quickAccess_inv win32 items →
  BUILTIN_REGISTRY key = Some b →
  hasBuiltin key items = false →
  quickAccess_inv win32 (b :: items).
Proof.
  intros (Hids & [Hplaces Hkeys] & Hshape) Hreg Hhas.
  apply hasBuiltin_false in Hhas.
  apply BUILTIN_REGISTRY_Some in Hreg as (label & -> & Hdefault).
  unfold quickAccess_inv, quickAccess_wf. split_and!.
  - simpl. apply NoDup_cons. split; [|assumption].
    intros Hin. apply list_elem_of_fmap in Hin as (x & Hid & Hx).
    rewrite Forall_forall in Hshape. specialize (Hshape x Hx).
    destruct x as [id k l|id q l]; simpl in Hid.
    + destruct (default_builtin_shape _ Hshape) as (k' & l' & Heq & _ & _).
      simplify_eq. apply Hhas. unfold builtinKeys. apply list_elem_of_omap.
      by eexists (QaBuiltin _ _ _).
    + destruct Hshape as (-> & _).
      destruct (default_builtin_shape _ Hdefault) as (k' & l' & Heq & _ & Hk).
      simplify_eq. by apply (Hk q).
  - assumption.
  - change (NoDup (key :: builtinKeys items)). apply NoDup_cons. done.
  - apply Forall_cons. done.
Qed.

Lemma addPin_cases pathToPin label items :
  let p := normalizePathForCompare win32 pathToPin in
  addPin win32 pathToPin label items = items
  ∨ (p ≠ "" ∧ isPinnedExact win32 p items = false
     ∧ ∃ niceLabel, addPin win32 pathToPin label items
                    = QaPin ("pin:" +:+ p) p niceLabel :: items)
  ∨ (p ≠ "" ∧ isPinnedExact win32 p items = false
     ∧ ∃ key b, BUILTIN_REGISTRY key = Some b ∧ hasBuiltin key items = false
                ∧ addPin win32 pathToPin label items = b :: items).
Proof.
  intros p. unfold addPin. fold p.
  destruct (String.eqb_spec p "") as [|Hp]; [by left|].
  destruct (isPinnedExact win32 p items) eqn:Hpinned; [by left|].
  match goal with |- context [inferBuiltinKeyFromName ?l] =>
    set (niceLabel := l) end.
  destruct (inferBuiltinKeyFromName niceLabel) as [key| |];
    [|right; left; eauto..].
  destruct (bool_decide (is_Some (BUILTIN_REGISTRY key))) eqn:Hreg;
    [|right; left; eauto].
  apply bool_decide_eq_true in Hreg as [b Hb].
  destruct (hasBuiltin key items) eqn:Hhas; simpl; [right; left; eauto|].
  right. right. split_and!; [done..|]. exists key, b. split_and!; [done..|].
  unfold repinBuiltin. rewrite Hb. cbv beta iota zeta. rewrite Hb.
  destruct (BUILTIN_REGISTRY_Some _ _ Hb) as (l & -> & _). by rewrite Hhas.
Qed.

Lemma addPin_inv pathToPin label items :
  quickAccess_inv win32 items →
  quickAccess_inv win32 (addPin win32 pathToPin label items).
Proof.
  intros Hinv.
  destruct (addPin_cases pathToPin label items)
    as [->|[(Hp & Hpinned & l & ->)|(Hp & Hpinned & key & b & Hb & Hhas & ->)]].
  - assumption.
  - apply inv_cons_pin; [assumption| |assumption..].
    apply normalizePathForCompare_idempotent.
  - by eapply inv_cons_builtin.
Qed.

Lemma remove_inv id items :
  quickAccess_inv win32 items →
  quickAccess_inv win32 (removeQuickAccessById id items).
Proof.
  intros (Hids & [Hplaces Hkeys] & Hshape). unfold removeQuickAccessById.
  pose proof (sublist_filter (λ x, qa_id x ≠ id) items) as Hsub.
  unfold quickAccess_inv, quickAccess_wf. split_and!.
  - eapply sublist_NoDup; [exact Hids|]. by apply fmap_sublist.
  - eapply sublist_NoDup; [exact Hplaces|]. by apply omap_sublist.
  - eapply sublist_NoDup; [exact Hkeys|]. by apply omap_sublist.
  - apply Forall_forall. intros x Hx. apply list_elem_of_filter in Hx as [_ Hx].
    rewrite Forall_forall in Hshape. by apply Hshape.
Qed.

Lemma move_inv id direction items :
  quickAccess_inv win32 items →
  quickAccess_inv win32 (moveQuickAccess id direction items).
Proof.
  intros (Hids & [Hplaces Hkeys] & Hshape).
  pose proof (moveQuickAccess_Permutation id direction items) as Hperm.
  unfold quickAccess_inv, quickAccess_wf. split_and!.
  - by rewrite Hperm.
  - unfold pinnedPlaces. by rewrite Hperm.
  - unfold builtinKeys. by rewrite Hperm.
  - by rewrite Hperm.
Qed.

Lemma default_inv : quickAccess_inv win32 DEFAULT_BUILTINS.
Proof.
  unfold quickAccess_inv, quickAccess_wf. split_and!.
  - by refine (bool_decide_unpack _ _).
  - unfold pinnedPlaces. simpl. constructor.
  - by refine (bool_decide_unpack _ _).
  - apply Forall_forall. intros [id k l|id p l] Hx; [assumption|].
    destruct (default_builtin_shape _ Hx) as (? & ? & [=] & _).
Qed.

(** X13.  Whatever the user pins, unpins and moves, starting from the
    default list: no two entries of the quick access list have the same id,
    no two pins are for the same place, and no built-in occurs twice. *)
Theorem quick_access_entries_stay_distinct (items : list QuickAccessItem) :
  quickAccess_reachable win32 items →
  NoDup (qa_id <$> items)
  ∧ NoDup (pinnedPlaces win32 items)
  ∧ NoDup (builtinKeys items).
Proof.
  intros Hreach.
  assert (quickAccess_inv win32 items) as (Hids & [Hplaces Hkeys] & _); [|done].
  unfold quickAccess_reachable in Hreach.
  eapply (rtc_ind_r (λ l, quickAccess_inv win32 l)); [| |exact Hreach].
  - apply default_inv.
  - intros l l' _ Hstep IH. destruct Hstep.
    + by apply addPin_inv.
    + by apply remove_inv.
    + by apply move_inv.
Qed.


(** X15.  Moving an entry that is in the list by a distance that stays
    inside the list puts it at the new position, leaves the other entries
    in their order, and is undone by moving it back by the same distance. *)
Theorem move_is_undone_by_moving_back (id : string) (direction : Z)
    (items : list QuickAccessItem) (idx : nat) (item : QuickAccessItem) :
  NoDup (qa_id <$> items) →
  list_find (λ x, qa_id x = id) items = Some (idx, item) →
  (0 ≤ Z.of_nat idx + direction < Z.of_nat (length items))%Z →
  let items' := moveQuickAccess id direction items in
  items' !! Z.to_nat (Z.of_nat idx + direction) = Some item
  ∧ delete (Z.to_nat (Z.of_nat idx + direction)) items' = delete idx items
  ∧ moveQuickAccess id (- direction) items' = items.
Proof.
  intros Hids Hfind Hrange items'.
  pose proof (moveQuickAccess_Permutation id direction items) as Hperm.
  fold items' in Hperm.
  pose proof Hfind as Hfind0.
  apply list_find_Some in Hfind0 as (Hidx & Hid & _).
  assert (idx < length items)%nat as Hlt by (by eapply lookup_lt_Some).
  set (next := Z.to_nat (Z.of_nat idx + direction)).
  assert (items' = insert_at next item (delete idx items)) as Hmoved.
  { unfold items', moveQuickAccess. rewrite Hfind.
    destruct (Z.ltb_spec (Z.of_nat idx + direction) 0); [lia|].
    destruct (Z.leb_spec (Z.of_nat (length items)) (Z.of_nat idx + direction));
      [lia|]. reflexivity. }
  assert (next ≤ length (delete idx items))%nat as Hnext.
  { rewrite length_delete by eauto. unfold next. lia. }
  assert (items' !! next = Some item) as Hat.
  { rewrite Hmoved. by apply insert_at_lookup. }
  split; [assumption|]. split.
  { rewrite Hmoved. by apply delete_insert_at. }
  assert (list_find (λ x, qa_id x = id) items' = Some (next, item)) as Hfind'.
  { apply list_find_Some. split_and!; [assumption..|].
    intros j y Hj Hlt' Hy.
    assert (NoDup (qa_id <$> items')) as Hids' by (by rewrite Hperm).
    assert (j = next); [|lia].
    eapply (NoDup_lookup _ _ _ id Hids'); rewrite list_lookup_fmap.
    - by rewrite Hj; simpl; rewrite Hy.
    - by rewrite Hat; simpl; rewrite Hid. }
  unfold moveQuickAccess. rewrite Hfind'.
  apply Permutation_length in Hperm.
  replace (Z.of_nat next + - direction)%Z with (Z.of_nat idx) by (unfold next; lia).
  destruct (Z.ltb_spec (Z.of_nat idx) 0); [lia|].
  destruct (Z.leb_spec (Z.of_nat (length items')) (Z.of_nat idx)); [lia|].
  simpl. rewrite Nat2Z.id, Hmoved, delete_insert_at by assumption.
  by apply insert_at_delete.
Qed.
End QuickAccessProperties.

Lemma quick_access_entries_stay_distinct_witness :
  let H := Small.host in
  let M := SmallMore.hostMore in
  let items := moveQuickAccess "pin:/home/me" 1
                 (addPin false "/home/me/" "" DEFAULT_BUILTINS) in
  take 3 (qa_id <$> items) = ["trash"; "pin:/home/me"; "root"]
  ∧ NoDup (qa_id <$> items) ∧ NoDup (pinnedPlaces false items)
  ∧ NoDup (builtinKeys items).
Proof.
  intros H M items. split; [reflexivity|].
  apply (quick_access_entries_stay_distinct false items).
  eapply rtc_l; [apply (step_addPin false "/home/me/" "")|].
  eapply rtc_l; [apply (step_move false "pin:/home/me" 1)|].
  apply rtc_refl.
Defined.


Lemma move_is_undone_by_moving_back_witness :
  let items' := moveQuickAccess "home" 1 DEFAULT_BUILTINS in
  take 4 (qa_id <$> items') = ["trash"; "root"; "desktop"; "home"]
  ∧ moveQuickAccess "home" (- 1) items' = DEFAULT_BUILTINS.
Proof.
  intros items'. split; [reflexivity|].
  apply (move_is_undone_by_moving_back "home" 1 DEFAULT_BUILTINS 2
           (QaBuiltin "home" "home" "Home")).
  - by refine (bool_decide_unpack _ _).
  - reflexivity.
  - simpl. lia.
Defined.

(** * Escaping *)

Lemma append_assoc (s t u : string) : (s +:+ t) +:+ u = s +:+ (t +:+ u).
Proof.
  induction s as [|a s IH]; [by rewrite !append_nil|].
  by rewrite !append_cons, IH.
Qed.

Lemma chars_app (s t : string) : chars (s +:+ t) = chars s ++ chars t.
Proof.
  induction s as [|a s IH]; [by rewrite append_nil|].
  rewrite append_cons. simpl. by rewrite IH.
Qed.

Lemma replaceAll_app c r (s t : string) :
  replaceAll c r (s +:+ t) = replaceAll c r s +:+ replaceAll c r t.
Proof.
  induction s as [|a s IH]; [by rewrite !append_nil|].
  rewrite append_cons. simpl. rewrite IH.
  destruct (Ascii.eqb a c); [by rewrite append_assoc|by rewrite append_cons].
Qed.

Lemma escapeHtml_app (s t : string) :
  escapeHtml (s +:+ t) = escapeHtml s +:+ escapeHtml t.
Proof. unfold escapeHtml. by rewrite !replaceAll_app. Qed.

Lemma escapeHtml_cons a (s : string) :
  escapeHtml (String a s) = escapeHtml (String a "") +:+ escapeHtml s.
Proof. by rewrite <- escapeHtml_app. Qed.

Lemma escapeHtml_char a :
  (a = "&"%char ∧ escapeHtml (String a "") = "&amp;")
  ∨ (a = "<"%char ∧ escapeHtml (String a "") = "&lt;")
  ∨ (a = ">"%char ∧ escapeHtml (String a "") = "&gt;")
  ∨ (a = double_quote ∧ escapeHtml (String a "") = "&quot;")
  ∨ (a = "'"%char ∧ escapeHtml (String a "") = "&#039;")
  ∨ (a ≠ "&"%char ∧ is_markup a = false ∧ escapeHtml (String a "") = String a "").
Proof.
  destruct (Ascii.eqb_spec a "&") as [->|Hamp]; [by left|].
  destruct (Ascii.eqb_spec a "<") as [->|Hlt]; [by right; left|].
  destruct (Ascii.eqb_spec a ">") as [->|Hgt]; [by right; right; left|].
  destruct (Ascii.eqb_spec a double_quote) as [->|Hquote];
    [by right; right; right; left|].
  destruct (Ascii.eqb_spec a "'") as [->|Hapos];
    [by right; right; right; right; left|].
  do 5 right. apply Ascii.eqb_neq in Hamp, Hlt, Hgt, Hquote, Hapos.
  split; [by apply Ascii.eqb_neq|].
  unfold is_markup, escapeHtml. simpl.
  rewrite Hamp. simpl. rewrite Hlt. simpl. rewrite Hgt. simpl.
  rewrite Hquote. simpl. rewrite Hapos. done.
Qed.

(** X16.  The text that [escapeHtml] returns contains no [<], no [>] and no
    quote of either kind, and two different texts are never escaped to the
    same string. *)
Theorem escaped_html_has_no_markup (s : string) :
  (∀ c, c ∈ chars (escapeHtml s) → is_markup c = false)
  ∧ (∀ t, escapeHtml s = escapeHtml t → s = t).
Proof.
  split.
  - induction s as [|a s IH]; intros c Hc; [by apply elem_of_nil in Hc|].
    rewrite escapeHtml_cons, chars_app, elem_of_app in Hc.
    destruct Hc as [Hc|Hc]; [|by apply IH].
    destruct (escapeHtml_char a)
      as [[_ E]|[[_ E]|[[_ E]|[[_ E]|[[_ E]|(_ & Hm & E)]]]]];
      rewrite E in Hc; simpl in Hc;
      rewrite ?elem_of_cons, elem_of_nil in Hc;
      repeat (destruct Hc as [->|Hc]; [done|]); done.
  - induction s as [|a s IH]; intros [|b t] Heq; [reflexivity| | |].
    + rewrite escapeHtml_cons in Heq.
      destruct (escapeHtml_char b)
        as [[_ E]|[[_ E]|[[_ E]|[[_ E]|[[_ E]|(_ & _ & E)]]]]];
        rewrite E, !append_cons in Heq; discriminate.
    + rewrite escapeHtml_cons in Heq.
      destruct (escapeHtml_char a)
        as [[_ E]|[[_ E]|[[_ E]|[[_ E]|[[_ E]|(_ & _ & E)]]]]];
        rewrite E, !append_cons in Heq; discriminate.
    + rewrite (escapeHtml_cons a), (escapeHtml_cons b) in Heq.
      destruct (escapeHtml_char a)
        as [[-> E]|[[-> E]|[[-> E]|[[-> E]|[[-> E]|(Ha & Hma & E)]]]]];
      destruct (escapeHtml_char b)
        as [[-> E']|[[-> E']|[[-> E']|[[-> E']|[[-> E']|(Hb & Hmb & E')]]]]];
        rewrite ?E, ?E', !append_cons, ?append_nil in Heq;
        try discriminate;
        try (injection Heq as Heq; f_equal; by apply IH);
        try (injection Heq as Hab _; congruence).
      injection Heq as -> Heq. f_equal. by apply IH.
Qed.

Lemma escaped_html_has_no_markup_witness :
  escapeHtml "<a href='x'>R&amp;D</a>"
    = "&lt;a href=&#039;x&#039;&gt;R&amp;amp;D&lt;/a&gt;"
  ∧ is_markup "<" = true
  ∧ ("<"%char ∉ chars (escapeHtml "<a href='x'>R&amp;D</a>")).
Proof.
  split; [reflexivity|]. split; [reflexivity|]. intros Hin.
  pose proof (proj1 (escaped_html_has_no_markup "<a href='x'>R&amp;D</a>") _ Hin).
  discriminate.
Defined.

(** * Names of new items *)

Section NewItemNameProperties.
Context `{HostMore}.

Lemma includes_spec c name : includes c name = true ↔ c ∈ chars name.
Proof.
  unfold includes. rewrite existsb_exists. split.
  - intros (a & Hin & Heq). apply Ascii.eqb_eq in Heq as ->.
    by apply list_elem_of_In.
  - intros Hin. exists c. split; [by apply list_elem_of_In|apply Ascii.eqb_refl].
Qed.

(** X17.  [validateNewItemName] accepts exactly the trimmed names that are
    not empty, are not [.] or [..], and contain no path separator and none
    of the characters that Windows forbids; what it hands on is the
    trimmed name. *)
Theorem accepted_name_is_a_single_component (rawName name : string) :
  validateNewItemName rawName = Accepted name ↔
  name = string_trim rawName
  ∧ name ≠ "" ∧ name ≠ "." ∧ name ≠ ".."
  ∧ ∀ c, c ∈ chars name → is_separator c = false ∧ c ∉ windows_invalid.
Proof.
  unfold validateNewItemName. set (n := string_trim rawName).
  destruct (String.eqb_spec n "") as [Hempty|Hempty].
  { split; [intros [=]|]. intros (-> & ? & _). done. }
  destruct (includes "/" n) eqn:Hslash.
  { split; [intros [=]|]. intros (-> & _ & _ & _ & Hc).
    apply includes_spec in Hslash. by destruct (Hc _ Hslash). }
  destruct (includes "\" n) eqn:Hback.
  { split; [intros [=]|]. intros (-> & _ & _ & _ & Hc).
    apply includes_spec in Hback. by destruct (Hc _ Hback). }
  cbn [orb].
  destruct (String.eqb_spec n ".") as [Hdot|Hdot].
  { split; [intros [=]|]. intros (-> & _ & ? & _). done. }
  destruct (String.eqb_spec n "..") as [Hdots|Hdots].
  { split; [intros [=]|]. intros (-> & _ & _ & ? & _). done. }
  cbn [orb].
  destruct (existsb (λ c, includes c n) windows_invalid) eqn:Hwin.
  { split; [intros [=]|]. intros (-> & _ & _ & _ & Hc).
    apply existsb_exists in Hwin as (c & Hin & Hinc).
    apply includes_spec in Hinc. apply list_elem_of_In in Hin.
    by destruct (Hc _ Hinc). }
  split.
  - intros [= <-]. split_and!; [done..|]. intros c Hc. split.
    + unfold is_separator.
      destruct (Ascii.eqb_spec c "/") as [->|_].
      { apply includes_spec in Hc. congruence. }
      destruct (Ascii.eqb_spec c "\") as [->|_]; [|done].
      apply includes_spec in Hc. congruence.
    + intros Hin. apply not_true_iff_false in Hwin. apply Hwin.
      apply existsb_exists. exists c.
      split; [by apply list_elem_of_In|by apply includes_spec].
  - by intros (-> & _).
Qed.
End NewItemNameProperties.

Lemma accepted_name_is_a_single_component_witness :
  let M := SmallMore.hostMore in
  validateNewItemName "  notes.txt " = Accepted "notes.txt"
  ∧ validateNewItemName "a/b" = Rejected "Name cannot contain / or \"
  ∧ ("/"%char ∉ chars "notes.txt").
Proof.
  intros M. split; [reflexivity|]. split; [reflexivity|].
  intros Hin.
  pose proof (proj1 (accepted_name_is_a_single_component "  notes.txt " "notes.txt")
                eq_refl) as (_ & _ & _ & _ & Hc).
  by destruct (Hc _ Hin).
Defined.

(** * Tags *)

Lemma indexOf_None x arr : indexOf x arr = None ↔ x ∉ arr.
Proof.
  unfold indexOf. rewrite fmap_None, list_find_None, Forall_forall. naive_solver.
Qed.

Lemma indexOf_Some x arr idx : indexOf x arr = Some idx → arr !! idx = Some x.
Proof.
  unfold indexOf. intros Hfind.
  apply fmap_Some in Hfind as ([i y] & Hfind & ->).
  apply list_find_Some in Hfind as (Hy & -> & _). exact Hy.
Qed.

Lemma toggleFileTag_runs path color fileTags :
  is_Some (fileTags !! path) ∨ path ∉ inherited_names →
  toggleFileTag path color fileTags
  = Some (match indexOf color (tagsOf fileTags path) with
          | Some idx =>
              if bool_decide (length (delete idx (tagsOf fileTags path)) = 0%nat)
              then delete path fileTags
              else <[path := delete idx (tagsOf fileTags path)]> fileTags
          | None => <[path := tagsOf fileTags path ++ [color]]> fileTags
          end).
Proof.
  intros Hruns. unfold toggleFileTag, tagsOf.
  destruct (fileTags !! path) as [tags|] eqn:Htags; simpl.
  - destruct (indexOf color tags); [|done]. by case_bool_decide.
  - destruct Hruns as [[? [=]]|Hnot]. by rewrite bool_decide_eq_false_2.
Qed.

Lemma toggleFileTag_throws path color fileTags :
  toggleFileTag path color fileTags = None
  ↔ fileTags !! path = None ∧ path ∈ inherited_names.
Proof.
  unfold toggleFileTag. destruct (fileTags !! path) as [tags|].
  - destruct (indexOf color tags); [case_bool_decide|]; naive_solver.
  - case_bool_decide; naive_solver.
Qed.

Lemma tagsOf_toggle path color fileTags fileTags' :
  toggleFileTag path color fileTags = Some fileTags' →
  tagsOf fileTags' path
  = match indexOf color (tagsOf fileTags path) with
    | Some idx => delete idx (tagsOf fileTags path)
    | None => tagsOf fileTags path ++ [color]
    end.
Proof.
  intros Hrun.
  assert (is_Some (fileTags !! path) ∨ path ∉ inherited_names) as Hruns.
  { destruct (fileTags !! path) eqn:Hp; [by left; eexists|right].
    intros Hin. assert (toggleFileTag path color fileTags = None) as Hnone
      by (by apply toggleFileTag_throws).
    congruence. }
  rewrite (toggleFileTag_runs _ _ _ Hruns) in Hrun. injection Hrun as <-.
  set (tags := tagsOf fileTags path).
  destruct (indexOf color tags) as [idx|].
  - case_bool_decide as Hlen.
    + unfold tagsOf at 1. rewrite lookup_delete_eq. simpl.
      symmetry. by apply nil_length_inv.
    + unfold tagsOf at 1. by rewrite lookup_insert_eq.
  - unfold tagsOf at 1. by rewrite lookup_insert_eq.
Qed.

Lemma toggle_other path color fileTags fileTags' other :
  toggleFileTag path color fileTags = Some fileTags' →
  other ≠ path → fileTags' !! other = fileTags !! other.
Proof.
  unfold toggleFileTag. intros Hrun Hother.
  destruct (fileTags !! path) as [tags|].
  - destruct (indexOf color tags) as [idx|]; [case_bool_decide|];
      injection Hrun as <-; by rewrite ?lookup_delete_ne, ?lookup_insert_ne.
  - case_bool_decide; [done|]. injection Hrun as <-. by rewrite lookup_insert_ne.
Qed.

Lemma tagsOf_wf fileTags path :
  fileTags_wf fileTags → NoDup (tagsOf fileTags path).
Proof.
  intros Hwf. unfold tagsOf. destruct (fileTags !! path) as [tags|] eqn:Htags.
  - by destruct (Hwf _ _ Htags).
  - constructor.
Qed.

Lemma toggle_membership path color fileTags fileTags' c :
  NoDup (tagsOf fileTags path) →
  toggleFileTag path color fileTags = Some fileTags' →
  c ∈ tagsOf fileTags' path
  ↔ (if decide (c = color) then c ∉ tagsOf fileTags path
     else c ∈ tagsOf fileTags path).
Proof.
  intros Hnodup Hrun. rewrite (tagsOf_toggle _ _ _ _ Hrun).
  set (tags := tagsOf fileTags path) in *.
  destruct (indexOf color tags) as [idx|] eqn:Hidx.
  - apply indexOf_Some in Hidx.
    pose proof (delete_Permutation _ _ _ Hidx) as Hperm.
    assert (NoDup (color :: delete idx tags)) as Hnd by (by rewrite <- Hperm).
    apply NoDup_cons in Hnd as [Hnotin _].
    destruct (decide (c = color)) as [->|Hne].
    + split; [done|]. intros Hc. exfalso. apply Hc.
      by eapply list_elem_of_lookup_2.
    + rewrite Hperm at 2. rewrite elem_of_cons. naive_solver.
  - apply indexOf_None in Hidx. rewrite elem_of_app, list_elem_of_singleton.
    destruct (decide (c = color)) as [->|Hne]; naive_solver.
Qed.

Lemma toggle_wf path color fileTags fileTags' :
  fileTags_wf fileTags →
  toggleFileTag path color fileTags = Some fileTags' →
  fileTags_wf fileTags'.
Proof.
  intros Hwf Hrun p tags Hp.
  pose proof (tagsOf_wf fileTags path Hwf) as Hnodup.
  destruct (decide (p = path)) as [->|Hne].
  - pose proof (tagsOf_toggle _ _ _ _ Hrun) as Htags.
    unfold tagsOf at 1 in Htags. rewrite Hp in Htags. simpl in Htags.
    destruct (indexOf color (tagsOf fileTags path)) as [idx|] eqn:Hidx.
    + subst tags. split.
      * intros Hnil. revert Hrun Hp. unfold toggleFileTag, tagsOf in *.
        destruct (fileTags !! path) as [tags|]; simpl in *.
        -- rewrite Hidx, Hnil. simpl. intros [= <-].
           by rewrite lookup_delete_eq.
        -- discriminate Hidx.
      * eapply sublist_NoDup; [exact Hnodup|]. apply sublist_delete.
    + subst tags. split.
      * intros Hnil. by apply app_nil in Hnil as [_ ?].
      * apply NoDup_app. split_and!; [done| |apply NoDup_singleton].
        intros x Hx Hx'. apply list_elem_of_singleton in Hx' as ->.
        by apply indexOf_None in Hidx.
  - apply (Hwf p). rewrite <- Hp. symmetry. by eapply toggle_other.
Qed.

(** X18.  Toggling a colour on a path flips whether the path has that
    colour and changes nothing else: the other colours of the path and the
    tags of every other path stay, no path is left with an empty array, and
    no array names a colour twice.  The exception is a path without tags
    whose name every object inherits a property for ([constructor],
    [toString], [__proto__], ...): there the call throws and no tag changes. *)
Theorem toggle_flips_one_tag (path color : string) (fileTags : gmap string (list string)) :
  fileTags_wf fileTags →
  (toggleFileTag path color fileTags = None
   ↔ fileTags !! path = None ∧ path ∈ inherited_names)
  ∧ ∀ fileTags', toggleFileTag path color fileTags = Some fileTags' →
      (color ∈ tagsOf fileTags' path ↔ color ∉ tagsOf fileTags path)
      ∧ (∀ c, c ≠ color → c ∈ tagsOf fileTags' path ↔ c ∈ tagsOf fileTags path)
      ∧ (∀ other, other ≠ path → fileTags' !! other = fileTags !! other)
      ∧ fileTags_wf fileTags'.
Proof.
  intros Hwf. split; [apply toggleFileTag_throws|].
  intros fileTags' Hrun.
  pose proof (tagsOf_wf fileTags path Hwf) as Hnodup.
  split_and!.
  - rewrite (toggle_membership path color fileTags fileTags' color Hnodup Hrun).
    by rewrite decide_True.
  - intros c Hc.
    rewrite (toggle_membership path color fileTags fileTags' c Hnodup Hrun).
    by rewrite decide_False.
  - intros other Hother. by eapply toggle_other.
  - by eapply toggle_wf.
Qed.

Lemma toggle_flips_one_tag_witness :
  let fileTags : gmap string (list string) := {[ "/home/a" := ["red"; "blue"] ]} in
  toggleFileTag "/home/a" "red" fileTags = Some {[ "/home/a" := ["blue"] ]}
  ∧ toggleFileTag "constructor" "red" fileTags = None
  ∧ fileTags_wf ({[ "/home/a" := ["blue"] ]} : gmap string (list string)).
Proof.
  intros fileTags.
  assert (fileTags_wf fileTags) as Hwf.
  { intros path tags Htags. apply lookup_singleton_Some in Htags as [_ <-].
    split; [intros [=]|]. by refine (bool_decide_unpack _ _). }
  assert (toggleFileTag "/home/a" "red" fileTags = Some {[ "/home/a" := ["blue"] ]})
    as Hrun.
  { unfold toggleFileTag, fileTags. rewrite lookup_singleton_eq. simpl.
    by rewrite insert_singleton_eq. }
  split; [exact Hrun|]. split.
  - apply (toggle_flips_one_tag "constructor" "red" fileTags Hwf).
    split; [by apply lookup_singleton_ne|]. by refine (bool_decide_unpack _ _).
  - by apply (toggle_flips_one_tag "/home/a" "red" fileTags Hwf).
Defined.

(** X19.  For a path whose name no object inherits a property for,
    toggling the same colour twice gives back the tags the path had, as a
    set; a colour that was not the last of the array comes back at its end.
    For a path with an inherited name whose only tag is the colour, the
    first toggle removes the entry and the second throws. *)
Theorem toggle_twice_restores_tags (path color : string) (fileTags : gmap string (list string)) :
  fileTags_wf fileTags →
  (path ∉ inherited_names →
   ∃ once twice,
     toggleFileTag path color fileTags = Some once
     ∧ toggleFileTag path color once = Some twice
     ∧ tagsOf twice path ≡ₚ tagsOf fileTags path
     ∧ (color ∈ tagsOf fileTags path → last (tagsOf twice path) = Some color)
     ∧ ∀ other, other ≠ path → twice !! other = fileTags !! other)
  ∧ (path ∈ inherited_names → fileTags !! path = Some [color] →
     toggleFileTag path color fileTags = Some (delete path fileTags)
     ∧ toggleFileTag path color (delete path fileTags) = None).
Proof.
  intros Hwf. pose proof (tagsOf_wf fileTags path Hwf) as Hnodup. split.
  - intros Hpath.
    pose proof (toggleFileTag_runs path color fileTags (or_intror Hpath)) as Hone.
    destruct (toggleFileTag path color fileTags) as [once|] eqn:Honce; [|done].
    clear Hone. rename Honce into Hone.
    pose proof (toggleFileTag_runs path color once (or_intror Hpath)) as Htwo.
    destruct (toggleFileTag path color once) as [twice|] eqn:Htwice; [|done].
    clear Htwo. rename Htwice into Htwo.
    exists once, twice. split; [done|]. split; [done|].
    pose proof (tagsOf_toggle _ _ _ _ Hone) as Htags1.
    pose proof (tagsOf_toggle _ _ _ _ Htwo) as Htags2.
    split_and!;
      [| |intros other Hother;
          by rewrite (toggle_other _ _ _ _ other Htwo),
               (toggle_other _ _ _ _ other Hone)].
    all: rewrite Htags2, Htags1; clear Htags1 Htags2 Hone Htwo.
    all: set (tags := tagsOf fileTags path) in *.
    all: destruct (indexOf color tags) as [idx|] eqn:Hidx.
    + pose proof (indexOf_Some _ _ _ Hidx) as Hat.
      pose proof (delete_Permutation _ _ _ Hat) as Hperm.
      assert (NoDup (color :: delete idx tags)) as Hnd by (by rewrite <- Hperm).
      apply NoDup_cons in Hnd as [Hnotin _].
      apply indexOf_None in Hnotin. rewrite Hnotin.
      rewrite Hperm at 2. by rewrite <- Permutation_cons_append.
    + pose proof Hidx as Hnotin. apply indexOf_None in Hnotin.
      assert (indexOf color (tags ++ [color]) = Some (length tags)) as ->.
      { unfold indexOf. apply fmap_Some. exists (length tags, color). split; [|done].
        apply list_find_Some. split_and!; [by apply list_lookup_middle|done|].
        intros j y Hj Hlt ->. apply Hnotin.
        rewrite lookup_app_l in Hj by assumption. by eapply list_elem_of_lookup_2. }
      by rewrite (delete_middle tags [] color), app_nil_r.
    + pose proof (indexOf_Some _ _ _ Hidx) as Hat.
      pose proof (delete_Permutation _ _ _ Hat) as Hperm.
      assert (NoDup (color :: delete idx tags)) as Hnd by (by rewrite <- Hperm).
      apply NoDup_cons in Hnd as [Hnotin _].
      apply indexOf_None in Hnotin. rewrite Hnotin.
      intros _. apply last_snoc.
    + intros Hin. by apply indexOf_None in Hidx.
  - intros Hpath Hentry. split.
    + unfold toggleFileTag. rewrite Hentry. unfold indexOf. simpl.
      by rewrite decide_True.
    + apply toggleFileTag_throws. split; [apply lookup_delete_eq|done].
Qed.

Lemma toggle_twice_restores_tags_witness :
  let fileTags : gmap string (list string) :=
    {[ "/home/a" := ["red"; "blue"]; "toString" := ["red"] ]} in
  (∃ once twice,
     toggleFileTag "/home/a" "red" fileTags = Some once
     ∧ toggleFileTag "/home/a" "red" once = Some twice
     ∧ tagsOf twice "/home/a" ≡ₚ ["red"; "blue"]
     ∧ last (tagsOf twice "/home/a") = Some "red")
  ∧ toggleFileTag "toString" "red" (delete "toString" fileTags) = None.
Proof.
  intros fileTags.
  assert (fileTags_wf fileTags) as Hwf.
  { intros path tags Htags. unfold fileTags in Htags.
    apply lookup_insert_Some in Htags as [[_ <-]|[_ Htags]].
    - split; [intros [=]|]. by refine (bool_decide_unpack _ _).
    - apply lookup_singleton_Some in Htags as [_ <-].
      split; [intros [=]|]. by refine (bool_decide_unpack _ _). }
  split.
  - destruct (toggle_twice_restores_tags "/home/a" "red" fileTags Hwf) as [Hruns _].
    destruct Hruns as (once & twice & Hone & Htwo & Hperm & Hlast & _).
    { by refine (bool_decide_unpack _ _). }
    exists once, twice. split_and!; [done..| |].
    + rewrite Hperm. reflexivity.
    + apply Hlast. apply list_elem_of_here.
  - apply (toggle_twice_restores_tags "toString" "red" fileTags Hwf).
    + by refine (bool_decide_unpack _ _).
    + unfold fileTags. rewrite lookup_insert_ne by done. apply lookup_singleton_eq.
Defined.

(** * Selection *)

Lemma set_add_NoDup x s : NoDup s → NoDup (set_add x s).
Proof.
  intros Hs. unfold set_add, set_has. case_bool_decide as Hx; [done|].
  apply NoDup_app. split_and!; [done| |apply NoDup_singleton].
  intros y Hy Hy'. apply list_elem_of_singleton in Hy' as ->. done.
Qed.

Lemma set_add_elem x s y : y ∈ set_add x s ↔ y = x ∨ y ∈ s.
Proof.
  unfold set_add, set_has. case_bool_decide as Hx.
  - naive_solver.
  - rewrite elem_of_app, list_elem_of_singleton. naive_solver.
Qed.

Lemma set_add_prefix x s : s `prefix_of` set_add x s.
Proof.
  unfold set_add. destruct (set_has x s); [done|]. by apply prefix_app_r.
Qed.

Lemma selectRange_spec rendered start stop sel :
  NoDup sel →
  NoDup (selectRange rendered start stop sel)
  ∧ sel `prefix_of` selectRange rendered start stop sel
  ∧ ∀ p, p ∈ selectRange rendered start stop sel
         ↔ p ∈ sel ∨ ∃ i, start ≤ i ≤ stop ∧ js_index rendered i = Some p.
Proof.
  unfold selectRange. intros Hsel.
  assert (∀ l (acc : list string), NoDup acc →
            let r := foldl (λ sel i, match js_index rendered i with
                                     | Some p => set_add p sel
                                     | None => sel
                                     end) acc l in
            NoDup r ∧ acc `prefix_of` r
            ∧ ∀ p, p ∈ r ↔ p ∈ acc ∨ ∃ i, i ∈ l ∧ js_index rendered i = Some p)
    as Hfold.
  { induction l as [|i l IH]; intros acc Hacc; simpl.
    { split_and!; [done..|]. intros p. split; [by left|].
      intros [?|(i & Hi & _)]; [done|]. by apply elem_of_nil in Hi. }
    destruct (js_index rendered i) as [q|] eqn:Hq.
    - destruct (IH (set_add q acc) (set_add_NoDup q acc Hacc)) as (Hn & Hp & Hm).
      split_and!; [done|by etrans; [apply set_add_prefix|]|].
      intros p. rewrite Hm, set_add_elem. split.
      + intros [[->|?]|(j & Hj & Hjp)]; [right; exists i|by left|right; exists j];
          (split; [set_solver|done]).
      + intros [?|(j & Hj & Hjp)]; [by left; right|].
        apply elem_of_cons in Hj as [->|Hj].
        * left. left. congruence.
        * right. by exists j.
    - destruct (IH acc Hacc) as (Hn & Hp & Hm). split_and!; [done..|].
      intros p. rewrite Hm. split.
      + intros [?|(j & Hj & Hjp)]; [by left|right; exists j].
        split; [set_solver|done].
      + intros [?|(j & Hj & Hjp)]; [by left|].
        apply elem_of_cons in Hj as [->|Hj]; [congruence|].
        right. by exists j. }
  destruct (Hfold (seqZ start (stop - start + 1)) sel Hsel) as (Hn & Hp & Hm).
  split_and!; [done..|]. intros p. rewrite Hm.
  split; (intros [?|(i & Hi & Hip)]; [by left|right; exists i; split; [|done]]).
  - apply elem_of_seqZ in Hi. lia.
  - apply elem_of_seqZ. lia.
Qed.

Lemma findIndex_Some {A} (P : A → Prop) `{!∀ x, Decision (P x)} (arr : list A) x :
  x ∈ arr → P x →
  ∃ y, js_index arr (findIndex P arr) = Some y ∧ P y ∧ 0 ≤ findIndex P arr.
Proof.
  intros Hx HP. unfold findIndex.
  destruct (list_find P arr) as [[i y]|] eqn:Hfind.
  - apply list_find_Some in Hfind as (Hi & Hy & _). exists y.
    unfold js_index. destruct (Z.ltb_spec (Z.of_nat i) 0); [lia|].
    rewrite Nat2Z.id. split_and!; [done..|lia].
  - apply list_find_None in Hfind. rewrite Forall_forall in Hfind.
    by destruct (Hfind x Hx).
Qed.

Lemma findIndex_None {A} (P : A → Prop) `{!∀ x, Decision (P x)} (arr : list A) :
  (∀ x, P x → x ∉ arr) → findIndex P arr = -1.
Proof.
  intros Hnone. unfold findIndex.
  destruct (list_find P arr) as [[i y]|] eqn:Hfind; [|done].
  apply list_find_Some in Hfind as (Hi & Hy & _).
  destruct (Hnone y Hy). by eapply list_elem_of_lookup_2.
Qed.

(** X27.  A click keeps the selection a set.  Without a modifier it selects
    the clicked item alone.  With Ctrl or Meta it flips whether the clicked
    item is selected and leaves the others.  With Shift, and something
    selected, it keeps the selection in its order and adds the rendered
    items from the one selected last to the clicked one, both included,
    and nothing else.  In a save dialog, and for a folder in an open dialog,
    it changes nothing. *)
Theorem click_updates_selection (pickerMode : option string) (e : Click)
    (itemPath : string) (itemIsDirectory : bool) (rendered selectedItems : list string) :
  NoDup selectedItems →
  let selected' := handleItemClick pickerMode e itemPath itemIsDirectory rendered
                     selectedItems in
  NoDup selected'
  ∧ (pickerMode = Some "save" ∨ (pickerMode = Some "open" ∧ itemIsDirectory = true) →
     selected' = selectedItems)
  ∧ (pickerMode ≠ Some "save" →
     ¬ (pickerMode = Some "open" ∧ itemIsDirectory = true) →
     (ctrlKey e = false → metaKey e = false →
      shiftKey e = false ∨ selectedItems = [] →
      selected' = [itemPath])
     ∧ (ctrlKey e = true ∨ metaKey e = true →
        (itemPath ∈ selected' ↔ itemPath ∉ selectedItems)
        ∧ ∀ p, p ≠ itemPath → p ∈ selected' ↔ p ∈ selectedItems)
     ∧ (ctrlKey e = false → metaKey e = false → shiftKey e = true →
        ∀ anchor, last selectedItems = Some anchor →
          let lastIndex := findIndex (λ q, Some q = Some anchor) rendered in
          let currentIndex := findIndex (λ q, q = itemPath) rendered in
          selectedItems `prefix_of` selected'
          ∧ (∀ p, p ∈ selected'
                  ↔ p ∈ selectedItems
                    ∨ ∃ i, Z.min lastIndex currentIndex ≤ i
                           ≤ Z.max lastIndex currentIndex
                           ∧ js_index rendered i = Some p)
          ∧ (anchor ∈ rendered → js_index rendered lastIndex = Some anchor)
          ∧ (anchor ∉ rendered → lastIndex = -1)
          ∧ (itemPath ∈ rendered →
             js_index rendered currentIndex = Some itemPath
             ∧ itemPath ∈ selected')
          ∧ (itemPath ∉ rendered → currentIndex = -1))).
Proof.
  intros Hnodup selected'. subst selected'. unfold handleItemClick.
  split_and!.
  - repeat case_bool_decide; simpl; try done;
      destruct itemIsDirectory; simpl; try done.
    all: destruct (ctrlKey e || metaKey e)%bool;
      [destruct (set_has itemPath selectedItems);
       [by apply NoDup_filter|by apply set_add_NoDup]|].
    all: destruct (shiftKey e && _)%bool;
      [by apply selectRange_spec|apply NoDup_singleton].
  - intros [->|[-> ->]]; simpl; [|done].
    by destruct (bool_decide (Some "save" = Some "open") && itemIsDirectory)%bool.
  - intros Hsave Hopen.
    rewrite (bool_decide_eq_false_2 _ Hsave).
    assert ((bool_decide (pickerMode = Some "open") && itemIsDirectory)%bool = false)
      as ->.
    { case_bool_decide; [|done]. destruct itemIsDirectory; [|done]. by destruct Hopen. }
    split_and!.
    + intros -> -> Hshift. simpl.
      destruct Hshift as [->| ->]; [done|]. simpl. by rewrite andb_false_r.
    + intros Hmod.
      assert ((ctrlKey e || metaKey e)%bool = true) as ->.
      { destruct Hmod as [-> | ->]; [done|by rewrite orb_true_r]. }
      unfold set_has. case_bool_decide as Hin.
      * unfold set_delete. split.
        -- rewrite list_elem_of_filter. naive_solver.
        -- intros p Hp. rewrite list_elem_of_filter. naive_solver.
      * split.
        -- rewrite set_add_elem. naive_solver.
        -- intros p Hp. rewrite set_add_elem. naive_solver.
    + intros -> -> -> anchor Hlast. simpl.
      assert (Nat.ltb 0 (length selectedItems) = true) as ->.
      { apply Nat.ltb_lt. destruct selectedItems; [done|simpl; lia]. }
      rewrite Hlast.
      destruct (selectRange_spec rendered
                  (Z.min (findIndex (λ p, Some p = Some anchor) rendered)
                         (findIndex (λ p, p = itemPath) rendered))
                  (Z.max (findIndex (λ p, Some p = Some anchor) rendered)
                         (findIndex (λ p, p = itemPath) rendered))
                  selectedItems Hnodup) as (_ & Hprefix & Hmem).
      split_and!; [done|exact Hmem|..].
      * intros Hanchor.
        destruct (findIndex_Some (λ q, Some q = Some anchor) rendered anchor
                    Hanchor eq_refl) as (y & Hy & [= ->] & _).
        done.
      * intros Hanchor. apply findIndex_None. by intros x [= ->].
      * intros Hitem.
        destruct (findIndex_Some (λ q, q = itemPath) rendered itemPath Hitem eq_refl)
          as (y & Hy & -> & Hpos).
        split; [done|]. apply Hmem. right.
        exists (findIndex (λ q, q = itemPath) rendered). split; [lia|done].
      * intros Hitem. apply findIndex_None. by intros x ->.
Qed.

Lemma click_updates_selection_witness :
  let rendered := ["/a"; "/b"; "/c"; "/d"] in
  handleItemClick None (mkClick false false true) "/d" false rendered ["/b"]
    = ["/b"; "/c"; "/d"]
  ∧ handleItemClick None (mkClick true false false) "/b" false rendered ["/b"; "/c"]
    = ["/c"]
  ∧ NoDup (handleItemClick None (mkClick false false true) "/d" false rendered ["/b"]).
Proof.
  intros rendered. split; [reflexivity|]. split; [reflexivity|].
  apply (click_updates_selection None (mkClick false false true) "/d" false
           rendered ["/b"]).
  by refine (bool_decide_unpack _ _).
Defined.

(** * Tabs *)

Lemma js_index_of_nat {A} (l : list A) (i : nat) : js_index l (Z.of_nat i) = l !! i.
Proof.
  unfold js_index. destruct (Z.ltb_spec (Z.of_nat i) 0); [lia|].
  by rewrite Nat2Z.id.
Qed.

Lemma tabNav_saved id (n : Nav) sel :
  tabNav (mkTab id (currentPath n) (history n) (historyIndex n) sel) = n.
Proof. by destruct n. Qed.

(** The tab that holds the variables of the window. *)
Lemma activateTab_valid (a i : nat) (w : Window) (current : Tab) :
  activeTabIndex w = Z.of_nat a →
  tabs w !! a = Some current →
  (i < length (tabs w))%nat →
  let saved := <[a := mkTab (tab_id current) (currentPath (nav w)) (history (nav w))
                         (historyIndex (nav w)) (selection w)]> (tabs w) in
  ∃ tab, saved !! i = Some tab
         ∧ activateTab (Z.of_nat i) w
           = mkWindow saved (Z.of_nat i) (tabNav tab) (tab_selectedItems tab).
Proof.
  intros Ha Hcurrent Hi saved. unfold activateTab.
  destruct (Z.ltb_spec (Z.of_nat i) 0); [lia|].
  destruct (Z.leb_spec (Z.of_nat (length (tabs w))) (Z.of_nat i)); [lia|]. simpl.
  rewrite Ha. destruct (Z.eqb_spec (Z.of_nat a) (-1)); [lia|].
  rewrite !js_index_of_nat, Hcurrent, Nat2Z.id. fold saved.
  destruct (saved !! i) as [tab|] eqn:Htab; [by exists tab|].
  apply lookup_ge_None in Htab. unfold saved in Htab.
  rewrite length_insert in Htab. lia.
Qed.

(** X28.  Activating a tab stores the variables of the window in the tab
    that was active and takes those of the activated tab, so that going to
    another tab and back restores path, history and selection; no tab is
    added or lost on the way.  A new tab is appended and activated, starts
    with a history of its one path, and leaves the tab that was active with
    the state the window had. *)
Theorem switching_tabs_restores_state (index : Z) (w : Window) :
  tabs_wf w →
  0 ≤ index < Z.of_nat (length (tabs w)) →
  let away := activateTab index w in
  let back := activateTab (activeTabIndex w) away in
  (tabs_wf away
   ∧ activeTabIndex away = index
   ∧ length (tabs away) = length (tabs w)
   ∧ (index ≠ activeTabIndex w →
      ∀ tab, js_index (tabs w) index = Some tab →
             nav away = tabNav tab ∧ selection away = tab_selectedItems tab))
  ∧ (nav back = nav w
     ∧ selection back = selection w
     ∧ activeTabIndex back = activeTabIndex w
     ∧ length (tabs back) = length (tabs w))
  ∧ ∀ id home path,
      let fresh := createNewTab id home path w in
      let startPath := if String.eqb path "" then home else path in
      tabs_wf fresh
      ∧ length (tabs fresh) = S (length (tabs w))
      ∧ activeTabIndex fresh = Z.of_nat (length (tabs w))
      ∧ nav fresh = mkNav [startPath] 0 startPath
      ∧ selection fresh = []
      ∧ ∃ old, js_index (tabs fresh) (activeTabIndex w) = Some old
               ∧ tabNav old = nav w ∧ tab_selectedItems old = selection w.
Proof.
  intros [Ha0 Ha1] [Hi0 Hi1] away back.
  set (a := Z.to_nat (activeTabIndex w)). set (i := Z.to_nat index).
  assert (activeTabIndex w = Z.of_nat a) as Ha by (unfold a; lia).
  assert (index = Z.of_nat i) as Hi by (unfold i; lia).
  assert (a < length (tabs w))%nat as Hlt by lia.
  destruct (lookup_lt_is_Some_2 _ _ Hlt) as [current Hcurrent].
  destruct (activateTab_valid a i w current Ha Hcurrent ltac:(lia))
    as (tab & Htab & Haway).
  rewrite <- Hi in Haway. fold away in Haway.
  set (saved := <[a := mkTab (tab_id current) (currentPath (nav w))
                          (history (nav w)) (historyIndex (nav w))
                          (selection w)]> (tabs w)) in *.
  assert (length saved = length (tabs w)) as Hlen by apply length_insert.
  assert (∃ tab2,
            <[i := mkTab (tab_id tab) (currentPath (tabNav tab))
                     (history (tabNav tab)) (historyIndex (tabNav tab))
                     (tab_selectedItems tab)]> saved !! a = Some tab2
            ∧ back = mkWindow
                       (<[i := mkTab (tab_id tab) (currentPath (tabNav tab))
                                 (history (tabNav tab))
                                 (historyIndex (tabNav tab))
                                 (tab_selectedItems tab)]> saved)
                       (Z.of_nat a) (tabNav tab2) (tab_selectedItems tab2))
    as (tab2 & Htab2 & Hback).
  { unfold back. rewrite Ha.
    destruct (activateTab_valid i a away tab) as (tab2 & Htab2 & Heq).
    - by rewrite Haway.
    - by rewrite Haway.
    - rewrite Haway. simpl. lia.
    - exists tab2. rewrite Haway in Htab2, Heq |- *. simpl in *. by split. }
  assert (tabNav tab2 = nav w ∧ tab_selectedItems tab2 = selection w) as [Hn Hs].
  { destruct (decide (a = i)) as [Hai|Hai].
    - subst i. rewrite <- Hai in *. unfold saved in Htab.
      rewrite list_lookup_insert_eq in Htab by lia.
      rewrite list_lookup_insert_eq in Htab2 by lia.
      injection Htab as <-. injection Htab2 as <-. simpl.
      split; [|done]. by destruct (nav w).
    - rewrite list_lookup_insert_ne in Htab2 by done.
      unfold saved in Htab2. rewrite list_lookup_insert_eq in Htab2 by lia.
      injection Htab2 as <-. split; [apply tabNav_saved|done]. }
  split_and!.
  - unfold tabs_wf. rewrite Haway. simpl. lia.
  - by rewrite Haway.
  - by rewrite Haway.
  - intros Hne tab' Htab'. rewrite Hi, js_index_of_nat in Htab'.
    assert (tab = tab') as <-.
    { unfold saved in Htab. rewrite list_lookup_insert_ne in Htab by lia.
      congruence. }
    by rewrite Haway.
  - by rewrite Hback.
  - by rewrite Hback.
  - by rewrite Hback.
  - rewrite Hback. simpl. by rewrite length_insert.
  - intros id home path fresh startPath. unfold fresh, createNewTab.
    fold startPath.
    set (pushed := tabs w ++ [mkTab id startPath [startPath] 0 []]).
    set (w0 := mkWindow pushed (activeTabIndex w) (nav w) (selection w)).
    assert (length pushed = S (length (tabs w))) as Hpushed.
    { unfold pushed. rewrite length_app. simpl. lia. }
    replace (Z.of_nat (length pushed) - 1) with (Z.of_nat (length (tabs w))) by lia.
    destruct (activateTab_valid a (length (tabs w)) w0 current) as (new & Hnew & ->).
    + done.
    + simpl. unfold pushed. by rewrite lookup_app_l.
    + simpl. lia.
    + simpl in *.
      rewrite list_lookup_insert_ne in Hnew by lia.
      unfold pushed in Hnew. rewrite list_lookup_middle in Hnew by done.
      injection Hnew as <-.
      unfold tabs_wf. simpl. rewrite length_insert, Hpushed.
      split_and!; [lia|lia|done..|].
      eexists. rewrite Ha, js_index_of_nat, list_lookup_insert_eq by lia.
      split; [done|]. split; [apply tabNav_saved|done].
Qed.

Lemma switching_tabs_restores_state_witness :
  let one := mkTab 1 "/home" ["/"; "/home"] 1 ["/home/a"] in
  let two := mkTab 2 "/tmp" ["/tmp"] 0 [] in
  let w := mkWindow [one; two] 0 (mkNav ["/"; "/home"; "/home/docs"] 2 "/home/docs")
             ["/home/docs/a.txt"] in
  nav (activateTab 1 w) = mkNav ["/tmp"] 0 "/tmp"
  ∧ nav (activateTab (activeTabIndex w) (activateTab 1 w)) = nav w
  ∧ selection (activateTab (activeTabIndex w) (activateTab 1 w)) = selection w.
Proof.
  intros one two w. split; [reflexivity|].
  destruct (switching_tabs_restores_state 1 w) as (_ & (Hnav & Hsel & _) & _).
  - unfold tabs_wf. simpl. lia.
  - simpl. lia.
  - split; [exact Hnav|exact Hsel].
Defined.

Section ClosingTabs.
Variable navigateHome : Window → Window.

(** X29.  Closing one of several tabs removes that tab and no other.
    When it is not the active one, the window keeps its path, history and
    selection, and the active index still points to the same tab.  When it
    is the active one, the tab before it, or the first one, becomes active
    with the state it was left in. *)
Theorem closing_a_tab_keeps_the_others (home : string) (index : Z) (w : Window) :
  tabs_wf w →
  (1 < length (tabs w))%nat →
  0 ≤ index < Z.of_nat (length (tabs w)) →
  let w' := closeTab navigateHome home index w in
  tabs_wf w'
  ∧ tabs w' = delete (Z.to_nat index) (tabs w)
  ∧ (index ≠ activeTabIndex w →
     nav w' = nav w ∧ selection w' = selection w
     ∧ js_index (tabs w') (activeTabIndex w') = js_index (tabs w) (activeTabIndex w))
  ∧ (index = activeTabIndex w →
     activeTabIndex w' = Z.max 0 (index - 1)
     ∧ ∀ tab, js_index (tabs w) (if Z.eqb index 0 then 1 else index - 1) = Some tab →
              nav w' = tabNav tab ∧ selection w' = tab_selectedItems tab).
Proof.
  intros [Ha0 Ha1] Hmany [Hi0 Hi1] w'.
  set (i := Z.to_nat index).
  assert (length (delete i (tabs w)) = (length (tabs w) - 1)%nat) as Hlen.
  { rewrite length_delete; [lia|]. apply lookup_lt_is_Some_2. lia. }
  assert (splice_one index (tabs w) = delete i (tabs w)) as Hsplice.
  { unfold splice_one. by destruct (Z.ltb_spec index 0); [lia|]. }
  assert (index = activeTabIndex w →
          ∃ tab, js_index (tabs w) (if Z.eqb index 0 then 1 else index - 1)
                 = Some tab
                 ∧ w' = mkWindow (delete i (tabs w)) (Z.max 0 (index - 1))
                          (tabNav tab) (tab_selectedItems tab)) as Hactive.
  { intros Heq. unfold w', closeTab.
    destruct (Nat.leb_spec (length (tabs w)) 1); [lia|].
    rewrite Hsplice. destruct (Z.eqb_spec index (activeTabIndex w)); [|done].
    unfold activateTab. simpl.
    destruct (Z.ltb_spec (Z.max 0 (index - 1)) 0); [lia|].
    destruct (Z.leb_spec (Z.of_nat (length (delete i (tabs w))))
                (Z.max 0 (index - 1))); [lia|]. simpl.
    assert (js_index (delete i (tabs w)) (Z.max 0 (index - 1))
            = js_index (tabs w) (if Z.eqb index 0 then 1 else index - 1)) as ->.
    { unfold js_index. destruct (Z.ltb_spec (Z.max 0 (index - 1)) 0); [lia|].
      destruct (Z.eqb_spec index 0) as [Hzero|Hpos].
      - rewrite Hzero. simpl. unfold i. rewrite Hzero. simpl.
        by rewrite list_lookup_delete_ge by lia.
      - replace (Z.max 0 (index - 1)) with (index - 1) by lia.
        destruct (Z.ltb_spec (index - 1) 0); [lia|].
        by rewrite list_lookup_delete_lt by (unfold i; lia). }
    destruct (js_index (tabs w) (if Z.eqb index 0 then 1 else index - 1))
      as [tab|] eqn:Htab; [by exists tab|].
    exfalso. unfold js_index in Htab. destruct (Z.eqb_spec index 0).
    - simpl in Htab. apply lookup_ge_None in Htab. lia.
    - destruct (Z.ltb_spec (index - 1) 0); [lia|].
      apply lookup_ge_None in Htab. lia. }
  assert (index ≠ activeTabIndex w →
          w' = mkWindow (delete i (tabs w))
                 (if Z.ltb index (activeTabIndex w) then activeTabIndex w - 1
                  else activeTabIndex w)
                 (nav w) (selection w)) as Hother.
  { intros Hne. unfold w', closeTab.
    destruct (Nat.leb_spec (length (tabs w)) 1); [lia|].
    rewrite Hsplice. destruct (Z.eqb_spec index (activeTabIndex w)); [done|].
    by destruct (Z.ltb index (activeTabIndex w)). }
  clearbody w'.
  destruct (decide (index = activeTabIndex w)) as [Heq|Hne].
  - destruct (Hactive Heq) as (tab & Htab & ->). unfold tabs_wf. simpl.
    rewrite Hlen. split_and!; [lia|lia|done|done|].
    intros _. split; [done|]. intros tab' Htab'.
    rewrite Htab in Htab'. by injection Htab' as <-.
  - rewrite (Hother Hne). unfold tabs_wf. simpl. rewrite Hlen.
    destruct (Z.ltb_spec index (activeTabIndex w)).
    + split_and!; [lia|lia|done| |done]. intros _. split_and!; [done..|].
      unfold js_index.
      destruct (Z.ltb_spec (activeTabIndex w - 1) 0); [lia|].
      destruct (Z.ltb_spec (activeTabIndex w) 0); [lia|].
      rewrite list_lookup_delete_ge by (unfold i; lia).
      f_equal. lia.
    + split_and!; [lia|lia|done| |done]. intros _. split_and!; [done..|].
      unfold js_index. destruct (Z.ltb_spec (activeTabIndex w) 0); [lia|].
      by rewrite list_lookup_delete_lt by (unfold i; lia).
Qed.
End ClosingTabs.

Lemma closing_a_tab_keeps_the_others_witness :
  let one := mkTab 1 "/home" ["/"; "/home"] 1 ["/home/a"] in
  let two := mkTab 2 "/tmp" ["/tmp"] 0 [] in
  let w := mkWindow [one; two] 1 (mkNav ["/tmp"] 0 "/tmp") [] in
  closeTab (λ w, w) "/home" 0 w = mkWindow [two] 0 (mkNav ["/tmp"] 0 "/tmp") []
  ∧ tabs_wf (closeTab (λ w, w) "/home" 0 w).
Proof.
  intros one two w. split; [reflexivity|].
  apply (closing_a_tab_keeps_the_others (λ w, w) "/home" 0 w).
  - unfold tabs_wf. simpl. lia.
  - simpl. lia.
  - simpl. lia.
Defined.

(** * The order of the rendered items *)

Lemma filter_unless {A} (b : bool) (P : A → Prop) `{!∀ x, Decision (P x)} (l : list A) :
  (if b then l else filter P l) = filter (λ x, b = true ∨ P x) l.
Proof.
  destruct b.
  - symmetry. apply filter_keeps_all. intros x _. by left.
  - apply list_filter_iff. intros x. naive_solver.
Qed.

Lemma filter_when {A} (b : bool) (P : A → Prop) `{!∀ x, Decision (P x)} (l : list A) :
  (if b then filter P l else l) = filter (λ x, b = false ∨ P x) l.
Proof.
  destruct b.
  - apply list_filter_iff. intros x. naive_solver.
  - symmetry. apply filter_keeps_all. intros x _. by left.
Qed.

Lemma sorted_folders_first (R : relation DirItem) (l : list DirItem) :
  (∀ a b, R a b → isDirectory a = false → isDirectory b = false) →
  StronglySorted R l →
  ∃ folders files,
    l = folders ++ files
    ∧ Forall (λ x, isDirectory x = true) folders
    ∧ Forall (λ x, isDirectory x = false) files.
Proof.
  intros HR. induction 1 as [|x l Hl (folders & files & -> & Hd & Hf) Hx].
  { exists [], []. by repeat constructor. }
  destruct (isDirectory x) eqn:Hdir.
  - exists (x :: folders), files. split_and!; [done|by constructor|done].
  - exists [], (x :: folders ++ files). split_and!; [done|constructor|].
    constructor; [done|]. eapply Forall_impl; [exact Hx|].
    intros y Hy. by eapply HR.
Qed.

Section RenderOrderProperties.
Context `{Host} `{HostMore}.

Lemma renderItems_filtered v folderSizeCache currentItems :
  renderItems v folderSizeCache currentItems
  = array_sort (renderCompare v folderSizeCache)
      (filter (λ item, visible v item = true) currentItems).
Proof.
  unfold renderItems. cbv zeta. f_equal.
  rewrite (filter_unless (showHidden v)).
  rewrite (filter_when (bool_decide (pickerMode v = Some "directory"))).
  rewrite (filter_unless (String.eqb (toLowerCase (searchValue v)) "")).
  rewrite !list_filter_filter. apply list_filter_iff. intros item.
  unfold visible.
  destruct (showHidden v), (bool_decide (pickerMode v = Some "directory")),
    (String.eqb (toLowerCase (searchValue v)) ""),
    (String.prefix "." (name item)), (isDirectory item),
    (string_includes _ _); simpl; naive_solver.
Qed.

Lemma renderCompare_folders v folderSizeCache a b :
  renderCompare v folderSizeCache a b ≤ 0 →
  isDirectory a = false → isDirectory b = false.
Proof.
  unfold renderCompare. intros Hle Ha. rewrite Ha in Hle. simpl in Hle.
  destruct (isDirectory b); [lia|done].
Qed.

(** Sorting by size compares consistently, in either direction, the
    items whose size is a number. *)
Lemma size_order_consistent v folderSizeCache :
  sortBy v = "size" →
  let numbered (a : DirItem) := isDirectory a = false → is_Some (size a) in
  (∀ a b, numbered a → numbered b →
          renderCompare v folderSizeCache a b ≤ 0
          ∨ renderCompare v folderSizeCache b a ≤ 0)
  ∧ (∀ a b c, numbered a → numbered b → numbered c →
              renderCompare v folderSizeCache a b ≤ 0 →
              renderCompare v folderSizeCache b c ≤ 0 →
              renderCompare v folderSizeCache a c ≤ 0).
Proof.
  intros Hsize numbered. unfold renderCompare, comparison, sortSize.
  rewrite Hsize. simpl. split.
  - intros a b Ha Hb. unfold numbered in *.
    destruct (isDirectory a) eqn:Hda, (isDirectory b) eqn:Hdb; simpl;
      try (left; lia); try (right; lia).
    + destruct (map_get (path a) folderSizeCache),
        (map_get (path b) folderSizeCache), (sortAscending v); lia.
    + destruct (Ha eq_refl) as [x ->], (Hb eq_refl) as [y ->].
      destruct (sortAscending v); lia.
  - intros a b c Ha Hb Hc. unfold numbered in *.
    destruct (isDirectory a) eqn:Hda, (isDirectory b) eqn:Hdb,
      (isDirectory c) eqn:Hdc; simpl; try lia.
    + destruct (map_get (path a) folderSizeCache),
        (map_get (path b) folderSizeCache),
        (map_get (path c) folderSizeCache), (sortAscending v); lia.
    + destruct (Ha eq_refl) as [x ->], (Hb eq_refl) as [y ->],
        (Hc eq_refl) as [z ->].
      destruct (sortAscending v); lia.
Qed.

(** A size that is not a number compares as equal to every other file,
    so the comparator is not an order on a listing that has one. *)
Lemma size_order_inconsistent v folderSizeCache (a b c : DirItem) x z :
  sortBy v = "size" → sortAscending v = true →
  isDirectory a = false → isDirectory b = false → isDirectory c = false →
  size a = Some x → size b = None → size c = Some z → z < x →
  renderCompare v folderSizeCache a b ≤ 0
  ∧ renderCompare v folderSizeCache b c ≤ 0
  ∧ ¬ renderCompare v folderSizeCache a c ≤ 0.
Proof.
  intros Hsize Hasc Ha Hb Hc Hx Hy Hz Hlt.
  unfold renderCompare, comparison, sortSize.
  rewrite Hsize, Hasc, Ha, Hb, Hc, Hx, Hy, Hz. simpl. lia.
Qed.

Lemma insert_sorted_sorted_on (cmp : DirItem → DirItem → Z) (P : DirItem → Prop)
    x l :
  (∀ a b, P a → P b → cmp a b ≤ 0 ∨ cmp b a ≤ 0) →
  (∀ a b c, P a → P b → P c → cmp a b ≤ 0 → cmp b c ≤ 0 → cmp a c ≤ 0) →
  P x → Forall P l →
  StronglySorted (λ a b, cmp a b ≤ 0) l →
  StronglySorted (λ a b, cmp a b ≤ 0) (insert_sorted cmp x l).
Proof.
  intros Htotal Htrans Hx HP.
  induction 1 as [|y l Hl IH Hy]; simpl.
  - repeat constructor.
  - apply Forall_cons in HP as [HPy HPl].
    destruct (Z.leb_spec (cmp x y) 0) as [Hxy|Hxy].
    + constructor; [by constructor|].
      constructor; [done|].
      apply Forall_forall. intros z Hz.
      rewrite Forall_forall in Hy, HPl.
      apply (Htrans x y z); auto.
    + constructor; [by apply IH|].
      rewrite insert_sorted_perm. constructor; [|done].
      destruct (Htotal x y Hx HPy) as [?|?]; [lia|done].
Qed.

Lemma array_sort_sorted_on (cmp : DirItem → DirItem → Z) (P : DirItem → Prop) l :
  (∀ a b, P a → P b → cmp a b ≤ 0 ∨ cmp b a ≤ 0) →
  (∀ a b c, P a → P b → P c → cmp a b ≤ 0 → cmp b c ≤ 0 → cmp a c ≤ 0) →
  Forall P l →
  StronglySorted (λ a b, cmp a b ≤ 0) (array_sort cmp l).
Proof.
  intros Htotal Htrans. induction 1 as [|x l Hx Hl IH]; simpl; [constructor|].
  apply (insert_sorted_sorted_on cmp P); [done..| |done].
  apply Forall_forall. intros y Hy. rewrite array_sort_perm in Hy.
  rewrite Forall_forall in Hl. by apply Hl.
Qed.

(** X30.  [renderFiles] shows exactly the items that pass its filters,
    each as often as the listing has it, and none whose name starts with
    a dot unless hidden files are shown.  When the comparator of the
    chosen sort key is consistent on the items of the listing, the items
    are in its order and the folders come before all other items,
    whatever the key and the direction.  Sorting by size is consistent
    when the size of every file of the listing is a number; a size that
    is not a number compares as equal to every other. *)
Theorem folders_are_shown_first (v : ViewSettings)
    (folderSizeCache : JsMap CacheEntry) (currentItems : list DirItem) :
  let shown := renderItems v folderSizeCache currentItems in
  let ordered :=
    StronglySorted (λ a b, renderCompare v folderSizeCache a b ≤ 0) shown
    ∧ ∃ folders files,
        shown = folders ++ files
        ∧ Forall (λ x, isDirectory x = true) folders
        ∧ Forall (λ x, isDirectory x = false) files in
  shown ≡ₚ filter (λ item, visible v item = true) currentItems
  ∧ (showHidden v = false →
     Forall (λ item, String.prefix "." (name item) = false) shown)
  ∧ ((∀ a b, a ∈ currentItems → b ∈ currentItems →
             renderCompare v folderSizeCache a b ≤ 0
             ∨ renderCompare v folderSizeCache b a ≤ 0) →
     (∀ a b c, a ∈ currentItems → b ∈ currentItems → c ∈ currentItems →
               renderCompare v folderSizeCache a b ≤ 0 →
               renderCompare v folderSizeCache b c ≤ 0 →
               renderCompare v folderSizeCache a c ≤ 0) →
     ordered)
  ∧ (sortBy v = "size" →
     Forall (λ a, isDirectory a = false → is_Some (size a)) currentItems →
     ordered)
  ∧ (sortBy v = "size" →
     ∀ a b, isDirectory a = false → isDirectory b = false →
            size a = None → renderCompare v folderSizeCache a b = 0).
Proof.
  intros shown ordered.
  assert (shown = array_sort (renderCompare v folderSizeCache)
                    (filter (λ item, visible v item = true) currentItems)) as Hshown
    by apply renderItems_filtered.
  assert (∀ P : DirItem → Prop,
            (∀ a b, P a → P b → renderCompare v folderSizeCache a b ≤ 0
                                ∨ renderCompare v folderSizeCache b a ≤ 0) →
            (∀ a b c, P a → P b → P c →
                      renderCompare v folderSizeCache a b ≤ 0 →
                      renderCompare v folderSizeCache b c ≤ 0 →
                      renderCompare v folderSizeCache a c ≤ 0) →
            Forall P currentItems → ordered) as Hordered.
  { intros P Htotal Htrans HP.
    assert (StronglySorted (λ a b, renderCompare v folderSizeCache a b ≤ 0) shown)
      as Hsorted.
    { rewrite Hshown. apply (array_sort_sorted_on _ P); [done..|].
      apply Forall_forall. intros x Hx.
      apply list_elem_of_filter in Hx as [_ Hx].
      rewrite Forall_forall in HP. by apply HP. }
    split; [exact Hsorted|].
    eapply sorted_folders_first; [|exact Hsorted].
    intros a b. apply renderCompare_folders. }
  split_and!.
  - rewrite Hshown. apply array_sort_perm.
  - intros Hhidden. apply Forall_forall. intros item Hitem.
    rewrite Hshown, array_sort_perm in Hitem.
    apply list_elem_of_filter in Hitem as [Hvisible _].
    unfold visible in Hvisible. rewrite Hhidden in Hvisible. simpl in Hvisible.
    by destruct (String.prefix "." (name item)).
  - intros Htotal Htrans.
    apply (Hordered (λ a, a ∈ currentItems)); [done..|].
    by apply Forall_forall.
  - intros Hsize Hnumbers.
    destruct (size_order_consistent v folderSizeCache Hsize) as [Htotal Htrans].
    by apply (Hordered (λ a, isDirectory a = false → is_Some (size a))).
  - intros Hsize a b Ha Hb Hnan.
    unfold renderCompare, comparison, sortSize.
    by rewrite Hsize, Ha, Hb, Hnan.
Qed.
End RenderOrderProperties.

Lemma folders_are_shown_first_witness :
  let H := Small.host in
  let M := SmallMore.hostMore in
  let file n sz := mkItem n ("/home/" +:+ n) false true false None (Some sz)
                     None None None in
  let docs := mkItem "docs" "/home/docs" true false false None (Some 0)
                None None None in
  let v := mkView false None "" "size" false in
  let items := [file "a.txt" 10; file ".hidden" 5; docs; file "b.txt" 20] in
  renderItems v [] items = [docs; file "b.txt" 20; file "a.txt" 10]
  ∧ StronglySorted (λ a b, renderCompare v [] a b ≤ 0) (renderItems v [] items)
  ∧ Forall (λ item, String.prefix "." (name item) = false) (renderItems v [] items).
Proof.
  intros H M file docs v items. split; [reflexivity|].
  destruct (folders_are_shown_first v [] items) as (_ & Hhidden & _ & Hsize & _).
  split.
  - apply Hsize; [reflexivity|]. repeat constructor; by eexists.
  - by apply Hhidden.
Defined.

(** * The single-item handlers *)

Section TaskLogic.
Context {W : Type}.

Lemma task_bind_eq {A B} (m : Task W A) (k : A → Task W B) s :
  (m ≫= k) s = match m s with
               | (Returned a, s') => k a s'
               | (Thrown e, s') => (Thrown e, s')
               | (Unfinished, s') => (Unfinished, s')
               end.
Proof. reflexivity. Qed.

Lemma perform_eq {A} op (f : W → (JsError + A) * W) s :
  perform op f s
  = match f (disk s) with
    | (inr a, w) => (Returned a, mkMachine w (log s ++ [(op, true)]))
    | (inl e, w) => (Thrown e, mkMachine w (log s ++ [(op, false)]))
    end.
Proof. reflexivity. Qed.

#[local] Instance logged_preorder (P : FsOp * bool → Prop) :
  PreOrder (@logged W P).
Proof.
  split.
  - intros s. exists []. by rewrite app_nil_r.
  - intros s1 s2 s3 (l1 & E1 & F1) (l2 & E2 & F2). exists (l1 ++ l2).
    rewrite E2, E1, app_assoc. split; [done|]. by apply Forall_app.
Qed.

Lemma logged_weaken (P Q : FsOp * bool → Prop) (s s' : Machine W) :
  (∀ e, P e → Q e) → logged P s s' → logged Q s s'.
Proof.
  intros HPQ (l & E & F). exists l. split; [done|].
  eapply Forall_impl; [exact F|done].
Qed.

Lemma keeps_task_ret R `{!Reflexive R} {A} (a : A) : task_keeps R (mret a : Task W A).
Proof. intros s. simpl. reflexivity. Qed.

Lemma keeps_raise R `{!Reflexive R} {A} e : task_keeps R (@raise W A e).
Proof. intros s. simpl. reflexivity. Qed.

Lemma keeps_out_of_depth R `{!Reflexive R} {A} : task_keeps R (@out_of_depth W A).
Proof. intros s. simpl. reflexivity. Qed.

Lemma keeps_task_bind R `{!Transitive R} {A B} (m : Task W A) (k : A → Task W B) :
  task_keeps R m → (∀ a, task_keeps R (k a)) → task_keeps R (m ≫= k).
Proof.
  intros Hm Hk s. rewrite task_bind_eq. specialize (Hm s).
  destruct (m s) as [[a|e|] s']; simpl in *; [|done..].
  etrans; [exact Hm|apply Hk].
Qed.

Lemma keeps_attempt R `{!Transitive R} {A} (m : Task W A) h :
  task_keeps R m → (∀ e, task_keeps R (h e)) → task_keeps R (attempt m h).
Proof.
  intros Hm Hh s. unfold attempt. specialize (Hm s).
  destruct (m s) as [[a|e|] s']; simpl in *; [done| |done].
  etrans; [exact Hm|apply Hh].
Qed.

Lemma keeps_each R `{!PreOrder R} {A} (xs : list A) (body : A → Task W unit) :
  (∀ x, task_keeps R (body x)) → task_keeps R (each xs body).
Proof.
  intros Hbody. induction xs as [|x xs IH]; simpl.
  - apply keeps_task_ret, _.
  - apply keeps_task_bind; [apply _|apply Hbody|done].
Qed.

Lemma keeps_perform (P : FsOp * bool → Prop) {A} op (f : W → (JsError + A) * W) :
  (∀ flag, P (op, flag)) → task_keeps (logged P) (perform op f).
Proof.
  intros HP s. rewrite perform_eq.
  destruct (f (disk s)) as [[e|a] w]; simpl; eexists [_];
    (split; [reflexivity|by apply Forall_singleton]).
Qed.

Lemma stops_ret {A} (a : A) : stops_at_first_failure (mret a : Task W A).
Proof. intros s. simpl. exists []. by rewrite app_nil_r. Qed.

Lemma stops_out_of_depth {A} : stops_at_first_failure (@out_of_depth W A).
Proof. intros s. simpl. exists []. by rewrite app_nil_r. Qed.

Lemma stops_perform {A} op (f : W → (JsError + A) * W) :
  stops_at_first_failure (perform op f).
Proof.
  intros s. rewrite perform_eq. destruct (f (disk s)) as [[e|a] w]; simpl.
  - exists [], op. done.
  - exists [(op, true)]. split; [done|]. by apply Forall_singleton.
Qed.

Lemma stops_bind {A B} (m : Task W A) (k : A → Task W B) :
  stops_at_first_failure m → (∀ a, stops_at_first_failure (k a)) →
  stops_at_first_failure (m ≫= k).
Proof.
  intros Hm Hk s. rewrite task_bind_eq. specialize (Hm s).
  destruct (m s) as [[a|e|] s1]; simpl in *; [|done..].
  destruct Hm as (l1 & E1 & F1). specialize (Hk a s1).
  destruct (k a s1) as [[b|e|] s2]; simpl in *.
  - destruct Hk as (l2 & E2 & F2). exists (l1 ++ l2).
    rewrite E2, E1, app_assoc. split; [done|]. by apply Forall_app.
  - destruct Hk as (l2 & op & E2 & F2). exists (l1 ++ l2), op.
    rewrite E2, E1, !app_assoc. split; [done|]. by apply Forall_app.
  - destruct Hk as (l2 & E2 & F2). exists (l1 ++ l2).
    rewrite E2, E1, app_assoc. split; [done|]. by apply Forall_app.
Qed.

Lemma stops_each {A} (xs : list A) (body : A → Task W unit) :
  (∀ x, stops_at_first_failure (body x)) → stops_at_first_failure (each xs body).
Proof.
  intros Hbody. induction xs as [|x xs IH]; simpl.
  - apply stops_ret.
  - apply stops_bind; [apply Hbody|done].
Qed.
Lemma finishes_ret {A} (a : A) : finishes (mret a : Task W A).
Proof. by intros s. Qed.

Lemma finishes_raise {A} e : finishes (@raise W A e).
Proof. by intros s. Qed.

Lemma finishes_perform {A} op (f : W → (JsError + A) * W) : finishes (perform op f).
Proof. intros s. rewrite perform_eq. by destruct (f (disk s)) as [[e|a] w]. Qed.

Lemma finishes_bind {A B} (m : Task W A) (k : A → Task W B) :
  finishes m → (∀ a, finishes (k a)) → finishes (m ≫= k).
Proof.
  intros Hm Hk s. rewrite task_bind_eq. specialize (Hm s).
  destruct (m s) as [[a|e|] s']; simpl in *; [apply Hk|done..].
Qed.

Lemma finishes_attempt {A} (m : Task W A) h :
  finishes m → (∀ e, finishes (h e)) → finishes (attempt m h).
Proof.
  intros Hm Hh s. unfold attempt. specialize (Hm s).
  destruct (m s) as [[a|e|] s']; simpl in *; [done|apply Hh|done].
Qed.

Lemma never_throws_ret {A} (a : A) : never_throws (mret a : Task W A).
Proof. by intros s e. Qed.

Lemma never_throws_out_of_depth {A} : never_throws (@out_of_depth W A).
Proof. by intros s e. Qed.

Lemma never_throws_bind {A B} (m : Task W A) (k : A → Task W B) :
  never_throws m → (∀ a, never_throws (k a)) → never_throws (m ≫= k).
Proof.
  intros Hm Hk s e. rewrite task_bind_eq. specialize (Hm s).
  destruct (m s) as [[a|e'|] s']; simpl in *; [apply Hk|by destruct (Hm e')|done].
Qed.

Lemma never_throws_attempt {A} (m : Task W A) h :
  (∀ e, never_throws (h e)) → never_throws (attempt m h).
Proof.
  intros Hh s e. unfold attempt.
  destruct (m s) as [[a|e'|] s']; simpl in *; [done|apply Hh|done].
Qed.
End TaskLogic.

Lemma removal_is_last {A} (P : A → Prop) (cs tail pre post : list A) (x : A) :
  Forall (λ c, ¬ P c) cs → P x →
  (tail = [] ∨ ∃ y, tail = [y]) →
  cs ++ tail = pre ++ x :: post →
  post = [] ∧ pre = cs ∧ tail = [x].
Proof.
  intros Hcs Hx Htail Heq.
  assert (x ∉ cs) as Hnotin.
  { intros Hin. rewrite Forall_forall in Hcs. by apply (Hcs x). }
  destruct Htail as [->|[y ->]].
  - exfalso. apply Hnotin. rewrite app_nil_r in Heq. rewrite Heq.
    apply elem_of_app. right. apply list_elem_of_here.
  - destruct (decide (post = [])) as [->|Hpost].
    + apply app_inj_tail in Heq as [-> ->]. done.
    + exfalso. apply Hnotin.
      destruct (exists_last Hpost) as (post' & z & ->).
      rewrite app_comm_cons, app_assoc in Heq.
      apply app_inj_tail in Heq as [-> _].
      apply elem_of_app. right. apply list_elem_of_here.
Qed.

Section HandlerProperties.
Context `{Host} `{HostMore} {W : Type} `{Io W}.
#[local] Existing Instance logged_preorder.

Lemma copies_here src dst op :
  op = OpStat src ∨ op = OpReaddir src ∨ op = OpMkdir true dst
  ∨ op = OpCopyFile src dst →
  copies src dst op.
Proof. intros Hop. by exists []. Qed.

Lemma copies_not_removal src dst op : copies src dst op → ¬ is_removal op.
Proof. intros (names & [->|[->|[->| ->]]]); simpl; tauto. Qed.

Lemma copyDirectory_copies depth src dst names :
  task_keeps (logged (λ e, copies src dst e.1))
    (copyDirectory depth (descend src names) (descend dst names)).
Proof.
  revert names. induction depth as [|depth IH]; intros names; simpl.
  { apply keeps_out_of_depth, _. }
  apply keeps_task_bind; [apply _| |intros _].
  { apply keeps_perform. intros flag. exists names. tauto. }
  apply keeps_task_bind; [apply _| |intros items].
  { apply keeps_perform. intros flag. exists names. tauto. }
  apply keeps_each; [apply _|]. intros item.
  cbv zeta. rewrite !descend_snoc.
  destruct (de_isDirectory item); [apply IH|].
  apply keeps_perform. intros flag. exists (names ++ [de_name item]). tauto.
Qed.

Lemma copyDirectory_stops depth source destination :
  stops_at_first_failure (copyDirectory depth source destination).
Proof.
  revert source destination. induction depth as [|depth IH];
    intros source destination; simpl.
  { apply stops_out_of_depth. }
  apply stops_bind; [apply stops_perform|intros _].
  apply stops_bind; [apply stops_perform|intros items].
  apply stops_each. intros item.
  destruct (de_isDirectory item); [apply IH|apply stops_perform].
Qed.

#[local] Arguments copiedCalls : simpl never.
#[local] Arguments copyDirectory : simpl never.

Lemma copyDirectory_S depth src dst (s : Machine W) :
  copyDirectory (S depth) src dst s
  = match io_mkdir true dst (disk s) with
    | (inl e, w) => (Thrown e, mkMachine w (log s ++ [(OpMkdir true dst, false)]))
    | (inr _, w) =>
        match io_readdir src w with
        | (inl e, w1) =>
            (Thrown e, mkMachine w1 (log s ++ [(OpMkdir true dst, true);
                                               (OpReaddir src, false)]))
        | (inr items, w1) =>
            each items (λ item,
              if de_isDirectory item
              then copyDirectory depth (path_join src (de_name item))
                     (path_join dst (de_name item))
              else perform (OpCopyFile (path_join src (de_name item))
                              (path_join dst (de_name item)))
                     (io_copyFile (path_join src (de_name item))
                        (path_join dst (de_name item))))
              (mkMachine w1 (log s ++ [(OpMkdir true dst, true);
                                       (OpReaddir src, true)]))
        end
    end.
Proof.
  change (copyDirectory (S depth) src dst)
    with (perform (OpMkdir true dst) (io_mkdir true dst);;
          items ← perform (OpReaddir src) (io_readdir src);
          each items (λ item,
            if de_isDirectory item
            then copyDirectory depth (path_join src (de_name item))
                   (path_join dst (de_name item))
            else perform (OpCopyFile (path_join src (de_name item))
                            (path_join dst (de_name item)))
                   (io_copyFile (path_join src (de_name item))
                      (path_join dst (de_name item)))) : Task W unit).
  rewrite task_bind_eq, perform_eq.
  destruct (io_mkdir true dst (disk s)) as [[e|[]] w]; [done|].
  rewrite task_bind_eq, perform_eq. simpl.
  destruct (io_readdir src w) as [[e|items] w1]; simpl; rewrite <- app_assoc; done.
Qed.

Lemma copiedCalls_cons src dst name t entries :
  copiedCalls src dst (CopiedDir ((name, t) :: entries))
  = (OpMkdir true dst, true) :: (OpReaddir src, true)
    :: copiedCalls (path_join src name) (path_join dst name) t
    ++ drop 2 (copiedCalls src dst (CopiedDir entries)).
Proof. reflexivity. Qed.

Lemma copiedCalls_dir src dst entries :
  copiedCalls src dst (CopiedDir entries)
  = (OpMkdir true dst, true) :: (OpReaddir src, true)
    :: drop 2 (copiedCalls src dst (CopiedDir entries)).
Proof. reflexivity. Qed.

(** Enough depth: a copy whose calls all resolve ends, with the calls of
    what was copied. *)
Lemma each_duplicates src dst items entries (w w' : W) :
  duplicates src dst items entries w w' →
  ∀ depth l,
    forallb (λ e, copiedNests depth e.2) entries = true →
    each items (λ item,
      if de_isDirectory item
      then copyDirectory depth (path_join src (de_name item))
             (path_join dst (de_name item))
      else perform (OpCopyFile (path_join src (de_name item))
                      (path_join dst (de_name item)))
             (io_copyFile (path_join src (de_name item))
                (path_join dst (de_name item))))
      (mkMachine w l)
    = (Returned tt,
       mkMachine w' (l ++ drop 2 (copiedCalls src dst (CopiedDir entries)))).
Proof.
  induction 1 as [src dst w
                 |src dst item items entries w w1 w' Hkind Hcopy _ IH
                 |src dst item items below inside entries w w1 w2 w3 w'
                    Hkind Hmk Hlist _ IHinside _ IH];
    intros depth l Hnests.
  - cbn. by rewrite app_nil_r.
  - apply andb_prop in Hnests as [_ Hnests].
    rewrite copiedCalls_cons. cbn [each]. rewrite task_bind_eq, Hkind, perform_eq.
    simpl. rewrite Hcopy. rewrite IH by done. by rewrite <- app_assoc.
  - apply andb_prop in Hnests as [Hdepth Hnests].
    rewrite copiedCalls_cons.
    destruct depth as [|depth]; [done|].
    cbn [each]. rewrite task_bind_eq, Hkind, copyDirectory_S. simpl.
    rewrite Hmk, Hlist. rewrite (IHinside depth) by done.
    rewrite IH by done. simpl. by rewrite <- !app_assoc.
Qed.

Lemma copyDirectory_duplicates depth src dst items entries (s : Machine W) w1 w2 w' :
  io_mkdir true dst (disk s) = (inr tt, w1) →
  io_readdir src w1 = (inr items, w2) →
  duplicates src dst items entries w2 w' →
  copiedNests depth (CopiedDir entries) = true →
  copyDirectory depth src dst s
  = (Returned tt, mkMachine w' (log s ++ copiedCalls src dst (CopiedDir entries))).
Proof.
  intros Hmk Hlist Hdup Hnests. destruct depth as [|depth]; [done|].
  rewrite copyDirectory_S, Hmk, Hlist.
  rewrite (each_duplicates _ _ _ _ _ _ Hdup depth) by done.
  by rewrite <- app_assoc.
Qed.

(** A copy that ends has copied every entry of every listing it read. *)
Lemma copyDirectory_returned depth :
  ∀ src dst (s s' : Machine W),
    copyDirectory depth src dst s = (Returned tt, s') →
    ∃ w1 items w2 entries,
      io_mkdir true dst (disk s) = (inr tt, w1)
      ∧ io_readdir src w1 = (inr items, w2)
      ∧ duplicates src dst items entries w2 (disk s')
      ∧ log s' = log s ++ copiedCalls src dst (CopiedDir entries).
Proof.
  induction depth as [|depth IHdepth]; intros src dst s s'; [done|].
  rewrite copyDirectory_S.
  destruct (io_mkdir true dst (disk s)) as [[e|[]] w1] eqn:Hmkdir; [done|].
  destruct (io_readdir src w1) as [[e|items] w2] eqn:Hreaddir; [done|].
  intros Heach. exists w1, items, w2.
  assert (∀ s1,
            each items (λ item,
              if de_isDirectory item
              then copyDirectory depth (path_join src (de_name item))
                     (path_join dst (de_name item))
              else perform (OpCopyFile (path_join src (de_name item))
                              (path_join dst (de_name item)))
                     (io_copyFile (path_join src (de_name item))
                        (path_join dst (de_name item))))
              s1 = (Returned tt, s') →
            ∃ entries,
              duplicates src dst items entries (disk s1) (disk s')
              ∧ log s' = log s1 ++ drop 2 (copiedCalls src dst (CopiedDir entries)))
    as Hitems.
  { clear Heach Hreaddir. induction items as [|item items IH]; intros s1.
    - intros [= <-]. exists []. split; [constructor|].
      cbn. by rewrite app_nil_r.
    - cbn [each]. rewrite task_bind_eq.
      destruct (de_isDirectory item) eqn:Hkind.
      + destruct (copyDirectory depth _ _ s1) as [[[]|e|] s2] eqn:Hsub; [|done..].
        intros Hrest.
        destruct (IHdepth _ _ _ _ Hsub)
          as (v1 & below & v2 & inside & Hmk & Hlist & Hdup & Hlog).
        destruct (IH s2 Hrest) as (entries & Hdups & Hlogs).
        exists ((de_name item, CopiedDir inside) :: entries). split.
        * by eapply duplicates_dir.
        * rewrite Hlogs, Hlog, copiedCalls_cons. simpl. by rewrite <- !app_assoc.
      + rewrite perform_eq.
        destruct (io_copyFile _ _ (disk s1)) as [[e|[]] v1] eqn:Hcopy; [done|].
        intros Hrest.
        destruct (IH _ Hrest) as (entries & Hdups & Hlogs).
        exists ((de_name item, CopiedFile) :: entries). split.
        * by eapply duplicates_file.
        * rewrite Hlogs, copiedCalls_cons. simpl. by rewrite <- !app_assoc. }
  destruct (Hitems _ Heach) as (entries & Hdup & Hlog).
  exists entries. split; [reflexivity|]. split; [exact Hreaddir|].
  split; [exact Hdup|].
  rewrite Hlog, (copiedCalls_dir src dst entries). simpl.
  by rewrite <- app_assoc.
Qed.

(** The part of [copy-item] inside its [try]. *)
Lemma copy_body depth sourcePath destPath :
  let body : Task W Reply :=
    stats ← perform (OpStat sourcePath) (io_stat sourcePath);
    (if st_isDirectory stats then copyDirectory depth sourcePath destPath
     else perform (OpCopyFile sourcePath destPath)
            (io_copyFile sourcePath destPath));;
    mret Done in
  task_keeps (logged (λ e, copies sourcePath destPath e.1)) body
  ∧ stops_at_first_failure body
  ∧ ∀ s reply, (body s).1 = Returned reply → reply = Done.
Proof.
  intros body. split_and!.
  - apply keeps_task_bind; [apply _| |intros stats].
    { apply keeps_perform. intros flag. apply copies_here. tauto. }
    apply keeps_task_bind; [apply _| |intros; apply keeps_task_ret, _].
    destruct (st_isDirectory stats).
    + apply (copyDirectory_copies depth sourcePath destPath []).
    + apply keeps_perform. intros flag. apply copies_here. tauto.
  - apply stops_bind; [apply stops_perform|intros stats].
    apply stops_bind; [|intros; apply stops_ret].
    destruct (st_isDirectory stats);
      [apply copyDirectory_stops|apply stops_perform].
  - intros s reply. unfold body. rewrite !task_bind_eq.
    destruct (perform _ _ s) as [[stats|e|] s1]; [|done..].
    rewrite task_bind_eq.
    match goal with |- context [(if ?b then ?x else ?y) s1] =>
      destruct ((if b then x else y) s1) as [[[]|e|] s2] end; [|done..].
    by intros [= <-].
Qed.

(** X20.  Every call of [copy-item] reads below the source or writes at
    the same relative path below the destination, so it renames and
    removes nothing.  It stops at the first call that is rejected: success
    is reported only when every call resolved, and a failure when the
    last call made was rejected and all before it resolved.  It never
    throws. *)
Theorem copy_item_stops_at_first_failure (depth : nat)
    (sourcePath destPath : string) (s : Machine W) :
  let r := copyItem depth sourcePath destPath s in
  ∃ entries,
    log r.2 = log s ++ entries
    ∧ Forall (λ e, copies sourcePath destPath e.1 ∧ ¬ is_removal e.1) entries
    ∧ (∀ reply, r.1 = Returned reply →
         match reply with
         | Done => Forall (λ e, e.2 = true) entries
         | Failed _ _ =>
             ∃ pre op, entries = pre ++ [(op, false)]
                       ∧ Forall (λ e, e.2 = true) pre
         | DoneAt _ => False
         end)
    ∧ (∀ e, r.1 ≠ Thrown e).
Proof.
  intros r. subst r. unfold copyItem, attempt.
  destruct (copy_body depth sourcePath destPath) as (Hkeeps & Hstops & Hdone).
  specialize (Hkeeps s). specialize (Hstops s). specialize (Hdone s).
  destruct Hkeeps as (entries & Hlog & Hcopies).
  assert (Forall (λ e, copies sourcePath destPath e.1 ∧ ¬ is_removal e.1) entries)
    as Hboth.
  { eapply Forall_impl; [exact Hcopies|].
    intros e He. split; [done|exact (copies_not_removal _ _ _ He)]. }
  match type of Hlog with log (?body s).2 = _ =>
    destruct (body s) as [[reply|e|] s1] eqn:Hbody end; simpl in *;
    exists entries; (split; [done|]); (split; [done|]); (split; [|done]).
  - intros ? [= <-]. rewrite (Hdone reply eq_refl).
    destruct Hstops as (l & E & F). rewrite Hlog in E.
    by apply app_inv_head in E as ->.
  - intros ? [= <-].
    destruct Hstops as (l & op & E & F). rewrite Hlog in E.
    apply app_inv_head in E as ->. eauto.
  - done.
Qed.

(** The part of [move-item] inside the [try] of its [catch]. *)
Lemma move_fallback depth src dst (s : Machine W) :
  let body : Task W Reply :=
    stats ← perform (OpStat src) (io_stat src);
    (if st_isDirectory stats then
       copyDirectory depth src dst;;
       perform (OpRm true false src) (io_rm true false src)
     else
       perform (OpCopyFile src dst) (io_copyFile src dst);;
       perform (OpUnlink src) (io_unlink src));;
    mret Done in
  ∃ cs tail,
    log (body s).2 = log s ++ cs ++ tail
    ∧ Forall (λ e, copies src dst e.1) cs
    ∧ ((tail = []
        ∧ ((∃ e pre op, (body s).1 = Thrown e ∧ cs = pre ++ [(op, false)]
                        ∧ Forall (λ e, e.2 = true) pre)
           ∨ (body s).1 = Unfinished))
       ∨ (∃ rmop flag,
            tail = [(rmop, flag)]
            ∧ (rmop = OpRm true false src ∨ rmop = OpUnlink src)
            ∧ Forall (λ e, e.2 = true) cs
            ∧ ((flag = true ∧ (body s).1 = Returned Done)
               ∨ (flag = false ∧ ∃ e, (body s).1 = Thrown e)))).
Proof.
  intros body. unfold body. rewrite task_bind_eq, perform_eq.
  destruct (io_stat src (disk s)) as [[e|stats] w].
  { exists [(OpStat src, false)], []. simpl.
    split_and!; [done| |].
    - apply Forall_singleton, copies_here. tauto.
    - left. split; [done|]. left. by exists e, [], (OpStat src). }
  set (s1 := mkMachine w (log s ++ [(OpStat src, true)])).
  assert (copies src dst (OpStat src)) as Hstat by (apply copies_here; tauto).
  rewrite task_bind_eq. destruct (st_isDirectory stats).
  - rewrite task_bind_eq.
    pose proof (copyDirectory_copies depth src dst [] s1) as (l & Hlog & Hcopies).
    pose proof (copyDirectory_stops depth src dst s1) as Hstops.
    change (descend src []) with src in *. change (descend dst []) with dst in *.
    destruct (copyDirectory depth src dst s1) as [[[]|e|] s2]; simpl in *.
    + destruct Hstops as (l' & E & Hresolved). rewrite Hlog in E.
      apply app_inv_head in E as <-.
      rewrite perform_eq.
      destruct (io_rm true false src (disk s2)) as [[e|[]] w2]; simpl.
      * exists ((OpStat src, true) :: l), [(OpRm true false src, false)].
        rewrite Hlog. simpl. rewrite <- !app_assoc. simpl.
        split_and!; [done|by constructor|]. right.
        exists (OpRm true false src), false.
        split_and!; [done|by left|by constructor|]. right. eauto.
      * exists ((OpStat src, true) :: l), [(OpRm true false src, true)].
        rewrite Hlog. simpl. rewrite <- !app_assoc. simpl.
        split_and!; [done|by constructor|]. right.
        exists (OpRm true false src), true.
        split_and!; [done|by left|by constructor|]. by left.
    + destruct Hstops as (l' & op & E & Hresolved). rewrite Hlog in E.
      apply app_inv_head in E as ->.
      exists ((OpStat src, true) :: l' ++ [(op, false)]), [].
      rewrite Hlog. simpl. rewrite app_nil_r, <- !app_assoc. simpl.
      split_and!; [done|by constructor|]. left. split; [done|]. left.
      exists e, ((OpStat src, true) :: l'), op. split_and!; [done..|].
      by constructor.
    + exists ((OpStat src, true) :: l), [].
      rewrite Hlog. simpl. rewrite app_nil_r, <- !app_assoc. simpl.
      split_and!; [done|by constructor|]. left. split; [done|]. by right.
  - assert (copies src dst (OpCopyFile src dst)) as Hcopy
      by (apply copies_here; tauto).
    rewrite task_bind_eq, perform_eq. simpl.
    destruct (io_copyFile src dst w) as [[e|[]] w2]; simpl.
    + exists [(OpStat src, true); (OpCopyFile src dst, false)], [].
      rewrite app_nil_r, <- !app_assoc. simpl.
      split_and!; [done|by repeat constructor|]. left. split; [done|]. left.
      exists e, [(OpStat src, true)], (OpCopyFile src dst).
      split_and!; [done..|]. by repeat constructor.
    + rewrite perform_eq. simpl.
      destruct (io_unlink src w2) as [[e|[]] w3]; simpl.
      * exists [(OpStat src, true); (OpCopyFile src dst, true)],
          [(OpUnlink src, false)].
        rewrite <- !app_assoc. simpl.
        split_and!; [done|by repeat constructor|]. right.
        exists (OpUnlink src), false.
        split_and!; [done|by right|by repeat constructor|]. right. eauto.
      * exists [(OpStat src, true); (OpCopyFile src dst, true)],
          [(OpUnlink src, true)].
        rewrite <- !app_assoc. simpl.
        split_and!; [done|by repeat constructor|]. right.
        exists (OpUnlink src), true.
        split_and!; [done|by right|by repeat constructor|]. by left.
Qed.

Lemma moveItem_eq depth src dst (s : Machine W) :
  moveItem depth src dst s
  = match io_rename src dst (disk s) with
    | (inr _, w) =>
        (Returned Done, mkMachine w (log s ++ [(OpRename src dst, true)]))
    | (inl _, w0) =>
        let l0 := log s ++ [(OpRename src dst, false)] in
        match io_stat src w0 with
        | (inl e, w1) =>
            (Returned (Failed (message e) None),
             mkMachine w1 (l0 ++ [(OpStat src, false)]))
        | (inr stats, w1) =>
            let l1 := l0 ++ [(OpStat src, true)] in
            if st_isDirectory stats then
              match copyDirectory depth src dst (mkMachine w1 l1) with
              | (Returned _, s2) =>
                  match io_rm true false src (disk s2) with
                  | (inr _, w3) =>
                      (Returned Done,
                       mkMachine w3 (log s2 ++ [(OpRm true false src, true)]))
                  | (inl e, w3) =>
                      (Returned (Failed (message e) None),
                       mkMachine w3 (log s2 ++ [(OpRm true false src, false)]))
                  end
              | (Thrown e, s2) => (Returned (Failed (message e) None), s2)
              | (Unfinished, s2) => (Unfinished, s2)
              end
            else
              match io_copyFile src dst w1 with
              | (inl e, w2) =>
                  (Returned (Failed (message e) None),
                   mkMachine w2 (l1 ++ [(OpCopyFile src dst, false)]))
              | (inr _, w2) =>
                  let l2 := l1 ++ [(OpCopyFile src dst, true)] in
                  match io_unlink src w2 with
                  | (inr _, w3) =>
                      (Returned Done, mkMachine w3 (l2 ++ [(OpUnlink src, true)]))
                  | (inl e, w3) =>
                      (Returned (Failed (message e) None),
                       mkMachine w3 (l2 ++ [(OpUnlink src, false)]))
                  end
              end
        end
    end.
Proof.
  unfold moveItem, attempt. rewrite task_bind_eq, perform_eq.
  destruct (io_rename src dst (disk s)) as [[e|[]] w0]; [|done].
  cbv zeta. rewrite task_bind_eq, perform_eq. cbn [disk log].
  destruct (io_stat src w0) as [[e1|stats] w1]; [done|].
  rewrite task_bind_eq. destruct (st_isDirectory stats).
  - rewrite task_bind_eq.
    destruct (copyDirectory depth src dst _) as [[[]|e2|] s2]; [|done..].
    rewrite perform_eq.
    by destruct (io_rm true false src (disk s2)) as [[e3|[]] w3].
  - rewrite task_bind_eq, perform_eq. cbn [disk log].
    destruct (io_copyFile src dst w1) as [[e2|[]] w2]; [done|].
    rewrite perform_eq. cbn [disk log].
    by destruct (io_unlink src w2) as [[e3|[]] w3].
Qed.

Lemma copiedCalls_not_removal depth src dst (s s2 : Machine W) o entries :
  copyDirectory depth src dst s = (o, s2) →
  log s2 = log s ++ entries →
  Forall (λ e, ¬ is_removal e.1) entries.
Proof.
  intros Hrun Hlog.
  pose proof (copyDirectory_copies depth src dst [] s) as (l & Hl & Hcopies).
  change (descend src []) with src in *. change (descend dst []) with dst in *.
  rewrite Hrun in Hl. simpl in Hl. rewrite Hlog in Hl.
  apply app_inv_head in Hl as ->.
  eapply Forall_impl; [exact Hcopies|].
  intros x Hx. exact (copies_not_removal _ _ _ Hx).
Qed.

Lemma no_removal_inside (cs pre post : list (FsOp * bool)) op flag :
  Forall (λ e, ¬ is_removal e.1) cs → is_removal op →
  cs = pre ++ (op, flag) :: post → False.
Proof.
  intros Hnone Hop Heq.
  destruct (removal_is_last (λ e, is_removal e.1) cs [] pre post (op, flag)
              Hnone Hop (or_introl eq_refl)) as (_ & _ & [=]).
  by rewrite app_nil_r.
Qed.

(** When [move-item] made a removal after a rename that was rejected, the
    calls between the two are a [stat] and a complete copy. *)
Lemma removal_follows_copy depth src dst (s : Machine W) pre op flag post :
  log (moveItem depth src dst s).2
    = log s ++ (OpRename src dst, false) :: pre ++ (op, flag) :: post →
  is_removal op →
  ∃ e w0 stats w1,
    io_rename src dst (disk s) = (inl e, w0)
    ∧ io_stat src w0 = (inr stats, w1)
    ∧ if st_isDirectory stats then
        op = OpRm true false src
        ∧ ∃ w2 items w3 entries w4,
            io_mkdir true dst w1 = (inr tt, w2)
            ∧ io_readdir src w2 = (inr items, w3)
            ∧ duplicates src dst items entries w3 w4
            ∧ pre = (OpStat src, true) :: copiedCalls src dst (CopiedDir entries)
      else
        op = OpUnlink src
        ∧ ∃ w2, io_copyFile src dst w1 = (inr tt, w2)
                ∧ pre = [(OpStat src, true); (OpCopyFile src dst, true)].
Proof.
  rewrite moveItem_eq. intros Hlog Hop.
  destruct (io_rename src dst (disk s)) as [[e|[]] w0]; cbv zeta in Hlog.
  2: { simpl in Hlog. apply app_inv_head in Hlog. discriminate. }
  exists e, w0.
  destruct (io_stat src w0) as [[e1|stats] w1].
  { exfalso. simpl in Hlog. rewrite <- app_assoc in Hlog.
    apply app_inv_head in Hlog. simpl in Hlog. injection Hlog as Hlog.
    apply (no_removal_inside [(OpStat src, false)] pre post op flag);
      [repeat constructor; simpl; tauto|done|done]. }
  exists stats, w1. split; [done|]. split; [done|].
  destruct (st_isDirectory stats).
  - destruct (copyDirectory depth src dst _) as [[[]|e2|] s2] eqn:Hcopy.
    + destruct (copyDirectory_returned _ _ _ _ _ Hcopy)
        as (w2 & items & w3 & entries & Hmk & Hlist & Hdup & Hlog2).
      pose proof (copiedCalls_not_removal _ _ _ _ _ _ _ Hcopy Hlog2) as Hnone.
      simpl in Hmk, Hlog2.
      assert (∃ ok, ((OpStat src, true) :: copiedCalls src dst (CopiedDir entries))
                    ++ [(OpRm true false src, ok)]
                    = pre ++ (op, flag) :: post) as [ok Heq].
      { destruct (io_rm true false src (disk s2)) as [[e3|[]] w5];
          [exists false|exists true]; simpl in Hlog; rewrite Hlog2 in Hlog;
          rewrite <- !app_assoc in Hlog; apply app_inv_head in Hlog;
          simpl in Hlog; injection Hlog as Hlog; by rewrite <- Hlog. }
      assert (Forall (λ e : FsOp * bool, ¬ is_removal e.1)
                ((OpStat src, true) :: copiedCalls src dst (CopiedDir entries)))
        as Hnone' by (constructor; [simpl; tauto|done]).
      destruct (removal_is_last (λ e, is_removal e.1) _ _ pre post (op, flag)
                  Hnone' Hop (or_intror (ex_intro _ _ eq_refl)) Heq)
        as (-> & -> & [= -> ->]).
      split; [done|]. exists w2, items, w3, entries, (disk s2). done.
    + exfalso.
      pose proof (copyDirectory_copies depth src dst [] (mkMachine w1
        ((log s ++ [(OpRename src dst, false)]) ++ [(OpStat src, true)])))
        as (l & Hl & _).
      change (descend src []) with src in *. change (descend dst []) with dst in *.
      rewrite Hcopy in Hl. simpl in Hl.
      pose proof (copiedCalls_not_removal _ _ _ _ _ _ _ Hcopy Hl) as Hnone.
      simpl in Hlog. rewrite Hl in Hlog.
      rewrite <- !app_assoc in Hlog. apply app_inv_head in Hlog.
      simpl in Hlog. injection Hlog as Hlog.
      apply (no_removal_inside ((OpStat src, true) :: l) pre post op flag);
        [constructor; [simpl; tauto|done]|done|done].
    + exfalso.
      pose proof (copyDirectory_copies depth src dst [] (mkMachine w1
        ((log s ++ [(OpRename src dst, false)]) ++ [(OpStat src, true)])))
        as (l & Hl & _).
      change (descend src []) with src in *. change (descend dst []) with dst in *.
      rewrite Hcopy in Hl. simpl in Hl.
      pose proof (copiedCalls_not_removal _ _ _ _ _ _ _ Hcopy Hl) as Hnone.
      simpl in Hlog. rewrite Hl in Hlog.
      rewrite <- !app_assoc in Hlog. apply app_inv_head in Hlog.
      simpl in Hlog. injection Hlog as Hlog.
      apply (no_removal_inside ((OpStat src, true) :: l) pre post op flag);
        [constructor; [simpl; tauto|done]|done|done].
  - destruct (io_copyFile src dst w1) as [[e2|[]] w2] eqn:Hcopy.
    { exfalso. simpl in Hlog. rewrite <- !app_assoc in Hlog.
      apply app_inv_head in Hlog. simpl in Hlog. injection Hlog as Hlog.
      apply (no_removal_inside [(OpStat src, true); (OpCopyFile src dst, false)]
               pre post op flag);
        [repeat constructor; simpl; tauto|done|done]. }
    assert (∃ ok, [(OpStat src, true); (OpCopyFile src dst, true)]
                  ++ [(OpUnlink src, ok)]
                  = pre ++ (op, flag) :: post) as [ok Heq].
    { cbv zeta in Hlog.
      destruct (io_unlink src w2) as [[e3|[]] w3];
        [exists false|exists true]; simpl in Hlog;
        rewrite <- !app_assoc in Hlog; apply app_inv_head in Hlog;
        simpl in Hlog; injection Hlog as Hlog; by rewrite <- Hlog. }
    assert (Forall (λ e : FsOp * bool, ¬ is_removal e.1)
              [(OpStat src, true); (OpCopyFile src dst, true)]) as Hnone
      by (repeat constructor; simpl; tauto).
    destruct (removal_is_last (λ e, is_removal e.1) _ _ pre post (op, flag)
                Hnone Hop (or_intror (ex_intro _ _ eq_refl)) Heq)
      as (-> & -> & [= -> ->]).
    split; [done|]. by exists w2.
Qed.

(** With a nesting within the bound, a directory whose copy resolves is
    removed after it, and the reply is that of the removal. *)
Lemma move_directory_copied depth src dst (s : Machine W)
    e w0 stats w1 w2 items w3 entries w4 :
  io_rename src dst (disk s) = (inl e, w0) →
  io_stat src w0 = (inr stats, w1) →
  st_isDirectory stats = true →
  io_mkdir true dst w1 = (inr tt, w2) →
  io_readdir src w2 = (inr items, w3) →
  duplicates src dst items entries w3 w4 →
  copiedNests depth (CopiedDir entries) = true →
  let calls := (OpRename src dst, false) :: (OpStat src, true)
               :: copiedCalls src dst (CopiedDir entries) in
  moveItem depth src dst s
  = match io_rm true false src w4 with
    | (inr _, w5) =>
        (Returned Done,
         mkMachine w5 (log s ++ calls ++ [(OpRm true false src, true)]))
    | (inl e', w5) =>
        (Returned (Failed (message e') None),
         mkMachine w5 (log s ++ calls ++ [(OpRm true false src, false)]))
    end.
Proof.
  intros Hrename Hstat Hdir Hmk Hlist Hdup Hnests calls.
  rewrite moveItem_eq, Hrename. cbv zeta. rewrite Hstat, Hdir.
  rewrite (copyDirectory_duplicates depth src dst items entries _ w2 w3 w4)
    by done.
  cbn [disk log]. subst calls.
  destruct (io_rm true false src w4) as [[e'|[]] w5];
    rewrite <- !app_assoc; reflexivity.
Qed.

(** X21.  [move-item] first renames, and a rename that resolves is all it
    does.  Otherwise it looks at the source and copies it: a directory
    with [copyDirectory], anything else with one [copyFile].  It removes
    the source only as its last call and only after the whole copy
    resolved: for a directory, every entry of every listing read was
    copied before the recursive [rm]; for anything else the [copyFile]
    resolved before the [unlink].  No call before the removal is rejected,
    and none removes anything.  Success is reported only when the last
    call resolved, and with a nesting within the bound a directory whose
    copy resolves is removed and the reply is that of the removal. *)
Theorem move_removes_source_after_copy (depth : nat)
    (sourcePath destPath : string) (s : Machine W) :
  let r := moveItem depth sourcePath destPath s in
  let rename := OpRename sourcePath destPath in
  let stat := OpStat sourcePath in
  (∃ renamed rest,
    log r.2 = log s ++ (rename, renamed) :: rest
    ∧ (renamed = true → rest = [] ∧ r.1 = Returned Done)
    ∧ (∀ pre op flag post,
         rest = pre ++ (op, flag) :: post → is_removal op →
         post = []
         ∧ (op = OpRm true false sourcePath ∨ op = OpUnlink sourcePath)
         ∧ Forall (λ e, e.2 = true ∧ copies sourcePath destPath e.1) pre)
    ∧ (r.1 = Returned Done → Forall (λ e, e.2 = true) rest)
    ∧ (∀ e, r.1 ≠ Thrown e))
  ∧ (∀ pre op flag post,
       log r.2 = log s ++ (rename, false) :: pre ++ (op, flag) :: post →
       is_removal op →
       ∃ e w0 stats w1,
         io_rename sourcePath destPath (disk s) = (inl e, w0)
         ∧ io_stat sourcePath w0 = (inr stats, w1)
         ∧ if st_isDirectory stats then
             op = OpRm true false sourcePath
             ∧ ∃ w2 items w3 entries w4,
                 io_mkdir true destPath w1 = (inr tt, w2)
                 ∧ io_readdir sourcePath w2 = (inr items, w3)
                 ∧ duplicates sourcePath destPath items entries w3 w4
                 ∧ pre = (stat, true)
                         :: copiedCalls sourcePath destPath (CopiedDir entries)
           else
             op = OpUnlink sourcePath
             ∧ ∃ w2, io_copyFile sourcePath destPath w1 = (inr tt, w2)
                     ∧ pre = [(stat, true);
                              (OpCopyFile sourcePath destPath, true)])
  ∧ (∀ e w0 stats w1 w2 items w3 entries w4,
       io_rename sourcePath destPath (disk s) = (inl e, w0) →
       io_stat sourcePath w0 = (inr stats, w1) →
       st_isDirectory stats = true →
       io_mkdir true destPath w1 = (inr tt, w2) →
       io_readdir sourcePath w2 = (inr items, w3) →
       duplicates sourcePath destPath items entries w3 w4 →
       copiedNests depth (CopiedDir entries) = true →
       let calls := (rename, false) :: (stat, true)
                    :: copiedCalls sourcePath destPath (CopiedDir entries) in
       r = match io_rm true false sourcePath w4 with
           | (inr _, w5) =>
               (Returned Done,
                mkMachine w5 (log s ++ calls
                                ++ [(OpRm true false sourcePath, true)]))
           | (inl e', w5) =>
               (Returned (Failed (message e') None),
                mkMachine w5 (log s ++ calls
                                ++ [(OpRm true false sourcePath, false)]))
           end)
  ∧ (∀ e w0 stats w1,
       io_rename sourcePath destPath (disk s) = (inl e, w0) →
       io_stat sourcePath w0 = (inr stats, w1) →
       st_isDirectory stats = false →
       let calls := [(rename, false); (stat, true)] in
       r = match io_copyFile sourcePath destPath w1 with
           | (inl e', w2) =>
               (Returned (Failed (message e') None),
                mkMachine w2 (log s ++ calls
                                ++ [(OpCopyFile sourcePath destPath, false)]))
           | (inr _, w2) =>
               match io_unlink sourcePath w2 with
               | (inr _, w3) =>
                   (Returned Done,
                    mkMachine w3 (log s ++ calls
                                    ++ [(OpCopyFile sourcePath destPath, true);
                                        (OpUnlink sourcePath, true)]))
               | (inl e', w3) =>
                   (Returned (Failed (message e') None),
                    mkMachine w3 (log s ++ calls
                                    ++ [(OpCopyFile sourcePath destPath, true);
                                        (OpUnlink sourcePath, false)]))
               end
           end).
Proof.
  intros r rename stat. subst r rename stat.
  split; [|split; [|split]].
  2: { intros pre op flag post. apply removal_follows_copy. }
  2: { intros e w0 stats w1 w2 items w3 entries w4.
       apply move_directory_copied. }
  2: { intros e w0 stats w1 Hrename Hstat Hdir calls. subst calls.
       rewrite moveItem_eq, Hrename. cbv zeta. rewrite Hstat, Hdir.
       destruct (io_copyFile sourcePath destPath w1) as [[e'|[]] w2];
         [by rewrite <- !app_assoc|].
       destruct (io_unlink sourcePath w2) as [[e'|[]] w3];
         by rewrite <- !app_assoc. }
  assert (moveItem depth sourcePath destPath s
          = match io_rename sourcePath destPath (disk s) with
            | (inr _, w) =>
                (Returned Done,
                 mkMachine w (log s ++ [(OpRename sourcePath destPath, true)]))
            | (inl _, w) =>
                attempt
                  (stats ← perform (OpStat sourcePath) (io_stat sourcePath);
                   (if st_isDirectory stats then
                      copyDirectory depth sourcePath destPath;;
                      perform (OpRm true false sourcePath)
                        (io_rm true false sourcePath)
                    else
                      perform (OpCopyFile sourcePath destPath)
                        (io_copyFile sourcePath destPath);;
                      perform (OpUnlink sourcePath) (io_unlink sourcePath));;
                   mret Done)
                  (λ copyError, mret (Failed (message copyError) None))
                  (mkMachine w
                     (log s ++ [(OpRename sourcePath destPath, false)]))
            end) as ->.
  { unfold moveItem. unfold attempt at 1. rewrite task_bind_eq, perform_eq.
    by destruct (io_rename sourcePath destPath (disk s)) as [[e|[]] w]. }
  destruct (io_rename sourcePath destPath (disk s)) as [[e|[]] w]; simpl.
  2: { exists true, []. split_and!; [done..| |done|done].
       intros pre op flag post Hrest. by destruct pre. }
  set (s1 := mkMachine w (log s ++ [(OpRename sourcePath destPath, false)])).
  pose proof (move_fallback depth sourcePath destPath s1)
    as (cs & tail & Hlog & Hcopies & Hshape).
  unfold attempt.
  match type of Hlog with log (?body s1).2 = _ =>
    destruct (body s1) as [[reply|e'|] s2] eqn:Hbody end; simpl in *;
    exists false, (cs ++ tail); rewrite Hlog, <- !app_assoc; simpl;
    (split; [done|]); (split; [done|]).
  all: assert (Forall (λ e, ¬ is_removal e.1) cs) as Hnone
    by (eapply Forall_impl; [exact Hcopies|];
        intros x Hx; exact (copies_not_removal _ _ _ Hx)).
  all: split; [|split; [|done]].
  all: try (intros pre op flag post Hrest Hop;
    destruct Hshape as [[-> _]|(rmop & fl & -> & Hrm & Hres & _)];
    [ destruct (removal_is_last (λ e, is_removal e.1) cs [] pre post (op, flag)
                  Hnone Hop (or_introl eq_refl) Hrest) as (_ & _ & [=])
    | destruct (removal_is_last (λ e, is_removal e.1) cs [(rmop, fl)] pre post
                  (op, flag) Hnone Hop (or_intror (ex_intro _ _ eq_refl)) Hrest)
        as (-> & -> & [= -> ->]);
      split_and!; [done..|];
      apply Forall_forall; intros x Hx; rewrite Forall_forall in Hres, Hcopies;
      split; [by apply Hres|by apply Hcopies] ]).
  - intros [= ->].
    destruct Hshape as [[-> [(? & ? & ? & [=] & _)|[=]]]
                       |(rmop & fl & -> & _ & Hres & [[-> _]|[_ [? [=]]]])].
    apply Forall_app. split; [done|]. by apply Forall_singleton.
  - intros [=].
  - done.
Qed.

(** X22.  [delete-item] always replies, and its calls are in this order.
    First a [stat].  When the [stat] is rejected, a forced recursive [rm].
    For a directory a forced recursive [rm], and the same once more when
    that is rejected.  For anything else an [unlink]; when the [unlink] is
    rejected for lack of permission, a [chmod] to 0600 and a second
    [unlink]; and when the [unlink], the [chmod] or the second [unlink]
    is rejected otherwise, a forced recursive [rm] as the last resort.
    It reports success exactly when the last call it made resolved, and a
    failure only when the last forced [rm] was rejected. *)
Theorem delete_reports_its_last_call (itemPath : string) (s : Machine W) :
  let r := deleteItem itemPath s in
  let stat := OpStat itemPath in
  let unlink := OpUnlink itemPath in
  let chmod := OpChmod itemPath 384 in
  let rm := OpRm true true itemPath in
  ∃ reply entries,
    r.1 = Returned reply
    ∧ log r.2 = log s ++ entries
    ∧ (reply = Done ↔ ∃ op, last entries = Some (op, true))
    ∧ (∀ error c, reply = Failed error c → last entries = Some (rm, false))
    ∧ match io_stat itemPath (disk s) with
      | (inl _, _) => ∃ ok, entries = [(stat, false); (rm, ok)]
      | (inr stats, w) =>
          if st_isDirectory stats then
            entries = [(stat, true); (rm, true)]
            ∨ ∃ ok, entries = [(stat, true); (rm, false); (rm, ok)]
          else
            match io_unlink itemPath w with
            | (inr _, _) => entries = [(stat, true); (unlink, true)]
            | (inl err, _) =>
                if permission_denied err then
                  entries = [(stat, true); (unlink, false); (chmod, true);
                             (unlink, true)]
                  ∨ (∃ ok, entries = [(stat, true); (unlink, false);
                                      (chmod, false); (rm, ok)])
                  ∨ (∃ ok, entries = [(stat, true); (unlink, false);
                                      (chmod, true); (unlink, false); (rm, ok)])
                else ∃ ok, entries = [(stat, true); (unlink, false); (rm, ok)]
            end
      end.
Proof.
  intros r stat unlink chmod rm. subst r stat unlink chmod rm.
  unfold deleteItem, attempt, forceRemove, raise.
  repeat (rewrite ?task_bind_eq, ?perform_eq; simpl;
          try match goal with
              | |- context [io_stat ?p ?w] =>
                  destruct (io_stat p w) as [[?|stats] ?];
                  [|try destruct (st_isDirectory stats)]
              | |- context [io_unlink ?p ?w] =>
                  let err := fresh "err" in
                  destruct (io_unlink p w) as [[err|[]] ?];
                  [try destruct (permission_denied err)|]
              | |- context [io_chmod ?p ?m ?w] =>
                  destruct (io_chmod p m w) as [[?|[]] ?]
              | |- context [io_rm ?a ?b ?p ?w] =>
                  destruct (io_rm a b p w) as [[?|[]] ?]
              end).
  all: eexists _, _; split; [reflexivity|];
    split; [rewrite <- ?app_assoc; simpl; reflexivity|].
  all: split; [split; [intros ?; simplify_eq; eauto|intros [? ?]; by simplify_eq]|].
  all: split; [intros ? ? ?; by simplify_eq|].
  all: eauto 6.
Qed.

(** ** Names that are free *)

Lemma firstFree_spec desiredPath kind indices (s : Machine W) :
  let r := firstFree desiredPath kind indices s in
  let tried j := (OpAccess (candidatePath desiredPath kind j), true) in
  (∃ taken i rest,
     indices = taken ++ i :: rest
     ∧ r.1 = Returned (candidatePath desiredPath kind i)
     ∧ log r.2 = log s ++ (tried <$> taken)
                   ++ [(OpAccess (candidatePath desiredPath kind i), false)])
  ∨ (r.1 = Thrown (mkError "" "Could not find a unique name")
     ∧ log r.2 = log s ++ (tried <$> indices)).
Proof.
  revert s. induction indices as [|i indices IH]; intros s; simpl.
  { right. by rewrite app_nil_r. }
  rewrite task_bind_eq. unfold attempt. rewrite task_bind_eq, perform_eq.
  destruct (io_access _ (disk s)) as [[e|[]] w]; simpl.
  - left. by exists [], i, indices.
  - match goal with |- context [firstFree _ _ _ ?s1] =>
      destruct (IH s1) as [(taken & j & rest & -> & Hr & Hlog)|[Hr Hlog]] end.
    + left. exists (i :: taken), j, rest. split_and!; [done..|].
      rewrite Hlog. simpl. by rewrite <- !app_assoc.
    + right. split; [done|]. rewrite Hlog. simpl. by rewrite <- !app_assoc.
Qed.

Lemma seq_split a n (taken rest : list nat) i :
  seq a n = taken ++ i :: rest →
  taken = seq a (i - a) ∧ (a ≤ i < a + n)%nat.
Proof.
  intros Hseq.
  assert (seq a n !! length taken = Some i) as Hi.
  { rewrite Hseq. by apply list_lookup_middle. }
  apply lookup_seq in Hi as [-> Hlt].
  split; [|lia].
  replace (a + length taken - a)%nat with (length taken) by lia.
  assert (take (length taken) (seq a n) = taken) as Htake.
  { rewrite Hseq. by rewrite take_app_length. }
  rewrite <- Htake at 1. rewrite take_seq. f_equal. lia.
Qed.

(** X23.  [findUniquePath] tries the names [name (1)], [name (2)], ... in
    this order and returns the first one that [access] rejects: every
    name before it was found to exist, and nothing but [access] is
    called.  Only when all 9999 names exist does it throw. *)
Theorem unique_path_is_first_free (desiredPath kind : string) (s : Machine W) :
  let r := findUniquePath desiredPath kind s in
  let tried j := (OpAccess (candidatePath desiredPath kind j), true) in
  (∃ i, (1 ≤ i ≤ LAST_CANDIDATE)%nat
        ∧ r.1 = Returned (candidatePath desiredPath kind i)
        ∧ log r.2 = log s ++ (tried <$> seq 1 (i - 1))
                      ++ [(OpAccess (candidatePath desiredPath kind i), false)])
  ∨ (r.1 = Thrown (mkError "" "Could not find a unique name")
     ∧ log r.2 = log s ++ (tried <$> seq 1 LAST_CANDIDATE)).
Proof.
  intros r tried. subst r. unfold findUniquePath.
  destruct (firstFree_spec desiredPath kind (seq 1 LAST_CANDIDATE) s)
    as [(taken & i & rest & Hseq & Hr & Hlog)|[Hr Hlog]]; [left|by right].
  apply seq_split in Hseq as [-> Hi].
  exists i. split_and!; [lia|lia|done|done].
Qed.

(** ** Creating folders and files *)

Lemma creates_shift make desiredPath kind (s s1 : Machine W) entries r :
  log s1 = log s ++ entries →
  creates_reply make desiredPath kind s1 r →
  creates_reply make desiredPath kind s r.
Proof.
  intros Hlog Hr p Hp. destruct (Hr p Hp) as (pre & E & Hpath).
  exists (entries ++ pre). rewrite E, Hlog, <- !app_assoc. split; [done|].
  destruct Hpath as [->|(i & pre' & Hi & -> & ->)]; [by left|right].
  exists i, (entries ++ pre'). by rewrite <- !app_assoc.
Qed.

Lemma creates_thrown make desiredPath kind (s s' : Machine W) e :
  creates_reply make desiredPath kind s (Thrown e, s').
Proof. by intros p. Qed.

Lemma creates_attempt make desiredPath kind (body : Task W Reply) f (s : Machine W) :
  creates_reply make desiredPath kind s (body s) →
  creates_reply make desiredPath kind s
    (attempt body (λ error, mret (Failed (f error) None)) s).
Proof.
  unfold attempt. destruct (body s) as [[reply|e|] s']; [done| |done].
  intros _ p. simpl. by intros [=].
Qed.

Lemma firstFree_then_make (make : string → FsOp)
    (io : string → W → (JsError + unit) * W) desiredPath kind indices
    (s : Machine W) p :
  ((uniquePath ← firstFree desiredPath kind indices;
    (perform (make uniquePath) (io uniquePath);; mret (DoneAt uniquePath)
     : Task W Reply)) s).1 = Returned (DoneAt p) →
  ∃ i pre', i ∈ indices ∧ p = candidatePath desiredPath kind i
            ∧ log ((uniquePath ← firstFree desiredPath kind indices;
                    (perform (make uniquePath) (io uniquePath);;
                     mret (DoneAt uniquePath) : Task W Reply)) s).2
              = log s ++ (pre' ++ [(OpAccess p, false)]) ++ [(make p, true)].
Proof.
  rewrite task_bind_eq.
  pose proof (firstFree_spec desiredPath kind indices s) as Hfree.
  destruct (firstFree desiredPath kind indices s) as [[unique|e|] s1];
    simpl in *; [|done..].
  destruct Hfree as [(taken & i & rest & -> & [= ->] & Hlog)|[[=] _]].
  rewrite task_bind_eq, perform_eq.
  destruct (io _ (disk s1)) as [[e|[]] w]; simpl; [done|].
  intros [= <-].
  exists i, ((λ j, (OpAccess (candidatePath desiredPath kind j), true)) <$> taken).
  split; [set_solver|]. split; [done|].
  rewrite Hlog. by rewrite <- !app_assoc.
Qed.

Lemma unique_then_make (make : string → FsOp)
    (io : string → W → (JsError + unit) * W) desiredPath kind (s : Machine W) :
  creates_reply make desiredPath kind s
    ((uniquePath ← findUniquePath desiredPath kind;
      (perform (make uniquePath) (io uniquePath);; mret (DoneAt uniquePath)
       : Task W Reply)) s).
Proof.
  unfold findUniquePath. intros p Hp.
  apply (firstFree_then_make make io) in Hp as (i & pre' & Hi & -> & Hlog).
  apply elem_of_seq in Hi.
  eexists. split; [exact Hlog|]. right. exists i, pre'. split; [lia|done].
Qed.

Lemma creates_step make desiredPath kind {A} op
    (f : W → (JsError + A) * W) (cont : A → Task W Reply) (s : Machine W) :
  (∀ a s1, creates_reply make desiredPath kind s1 (cont a s1)) →
  creates_reply make desiredPath kind s ((perform op f ≫= cont) s).
Proof.
  intros Hcont. rewrite task_bind_eq, perform_eq.
  destruct (f (disk s)) as [[e|a] w]; [apply creates_thrown|].
  apply (creates_shift _ _ _ s (mkMachine w (log s ++ [(op, true)]))
           [(op, true)]); [done|]. apply Hcont.
Qed.

Lemma creates_attempt_make (make : string → FsOp)
    (io : string → W → (JsError + unit) * W) desiredPath kind
    (h : JsError → Task W Reply) (s : Machine W) :
  (∀ e s1, creates_reply make desiredPath kind s1 (h e s1)) →
  creates_reply make desiredPath kind s
    (attempt (perform (make desiredPath) (io desiredPath);;
              mret (DoneAt desiredPath)) h s).
Proof.
  intros Hh. unfold attempt. rewrite task_bind_eq, perform_eq.
  destruct (io desiredPath (disk s)) as [[e|[]] w].
  - apply (creates_shift _ _ _ s
             (mkMachine w (log s ++ [(make desiredPath, false)]))
             [(make desiredPath, false)]); [done|].
    apply Hh.
  - intros p [= <-]. exists []. split; [done|by left].
Qed.

Lemma firstFree_finishes desiredPath kind indices :
  finishes (firstFree (W:=W) desiredPath kind indices).
Proof.
  induction indices as [|i indices IH]; simpl; [apply finishes_raise|].
  apply finishes_bind.
  - apply finishes_attempt; [|intros; apply finishes_ret].
    apply finishes_bind; [apply finishes_perform|intros; apply finishes_ret].
  - intros []; [apply finishes_ret|done].
Qed.

Lemma firstFree_keeps desiredPath kind indices :
  task_keeps (logged (λ e, is_creation e.1))
    (firstFree (W:=W) desiredPath kind indices).
Proof.
  induction indices as [|i indices IH]; simpl; [apply keeps_raise, _|].
  apply keeps_task_bind; [apply _| |].
  - apply keeps_attempt; [apply _| |intros; apply keeps_task_ret, _].
    apply keeps_task_bind; [apply _| |intros; apply keeps_task_ret, _].
    by apply keeps_perform.
  - intros []; [apply keeps_task_ret, _|done].
Qed.

Lemma replies_when_finished {A} (body : Task W A) (h : JsError → A) (s : Machine W) :
  finishes body → ∃ reply, (attempt body (λ e, mret (h e)) s).1 = Returned reply.
Proof.
  intros Hbody. unfold attempt. specialize (Hbody s).
  destruct (body s) as [[reply|e|] s']; simpl in *; eauto. done.
Qed.

Ltac task_finishes :=
  repeat first
    [ apply finishes_ret | apply finishes_raise | apply finishes_perform
    | apply firstFree_finishes
    | apply finishes_bind; [|intros ?]
    | apply finishes_attempt; [|intros ?]
    | match goal with |- finishes (if ?b then _ else _) => destruct b end ].

Ltac task_creates :=
  repeat first
    [ apply keeps_task_ret, _ | apply keeps_raise, _
    | apply keeps_perform; done
    | apply firstFree_keeps
    | apply keeps_task_bind; [apply _| |intros ?]
    | apply keeps_attempt; [apply _| |intros ?]
    | match goal with |- task_keeps _ (if ?b then _ else _) => destruct b end ].

(** X24.  [create-folder] and [create-file] always reply, and they only
    look whether paths exist and create: nothing is renamed, copied over
    or removed.  When the reply names a path, the last call made is the
    one that created it, a [mkdir] that is not recursive or an exclusive
    [open], and the path is the one asked for or a numbered name that
    [access] had just found to be free. *)
Theorem created_path_is_made_by_the_call (parentPath name : string)
    (s : Machine W) :
  let desiredPath := path_join (path_resolve parentPath) name in
  let folder := createFolder parentPath name s in
  let file := createFile parentPath name s in
  (∃ reply, folder.1 = Returned reply)
  ∧ logged (λ e, is_creation e.1) s folder.2
  ∧ creates_reply (OpMkdir false) desiredPath "folder" s folder
  ∧ (∃ reply, file.1 = Returned reply)
  ∧ logged (λ e, is_creation e.1) s file.2
  ∧ creates_reply OpCreate desiredPath "file" s file.
Proof.
  intros desiredPath folder file. subst folder file.
  split_and!.
  - apply replies_when_finished.
    unfold makeFolder, makeUniqueFolder, findUniquePath. task_finishes.
  - unfold createFolder, makeFolder, makeUniqueFolder, findUniquePath.
    assert (task_keeps (logged (λ e, is_creation e.1))
              (createFolder (W:=W) parentPath name)) as Hkeeps; [|apply Hkeeps].
    unfold createFolder, makeFolder, makeUniqueFolder, findUniquePath.
    task_creates.
  - unfold createFolder. apply creates_attempt. fold desiredPath.
    apply (creates_attempt_make (OpMkdir false) (io_mkdir false)).
    intros err s1. destruct (already_exists err).
    { apply (unique_then_make (OpMkdir false) (io_mkdir false)). }
    destruct (String.eqb (code err) "ENOENT"); [|apply creates_thrown].
    apply creates_step. intros [] s2.
    apply (creates_attempt_make (OpMkdir false) (io_mkdir false)).
    intros err2 s3. destruct (already_exists err2); [|apply creates_thrown].
    apply (unique_then_make (OpMkdir false) (io_mkdir false)).
  - apply replies_when_finished.
    unfold makeFile, findUniquePath. task_finishes.
  - assert (task_keeps (logged (λ e, is_creation e.1))
              (createFile (W:=W) parentPath name)) as Hkeeps; [|apply Hkeeps].
    unfold createFile, makeFile, findUniquePath. task_creates.
  - unfold createFile. apply creates_attempt. fold desiredPath.
    apply creates_step. intros [] s1.
    apply (creates_attempt_make OpCreate io_create).
    intros err s2. destruct (String.eqb (code err) "EEXIST");
      [|apply creates_thrown].
    apply (unique_then_make OpCreate io_create).
Qed.

(** ** Sizes *)

Lemma sumEntries_never_throws f dirPath items size :
  never_throws (sumEntries (W:=W) f dirPath items size).
Proof.
  revert size. induction items as [|item items IH]; intros size; simpl.
  { apply never_throws_ret. }
  apply never_throws_bind; [|intros size'; apply IH].
  apply never_throws_attempt. intros _. apply never_throws_ret.
Qed.

Lemma sumEntries_reads f dirPath items size :
  (∀ p, task_keeps (logged (λ e, is_read e.1)) (f p)) →
  task_keeps (logged (λ e, is_read e.1)) (sumEntries (W:=W) f dirPath items size).
Proof.
  intros Hf. revert size. induction items as [|item items IH]; intros size; simpl.
  { apply keeps_task_ret, _. }
  apply keeps_task_bind; [apply _| |intros size'; apply IH].
  apply keeps_attempt; [apply _| |intros; apply keeps_task_ret, _].
  destruct (de_isDirectory item).
  - apply keeps_task_bind; [apply _|apply Hf|intros; apply keeps_task_ret, _].
  - apply keeps_task_bind; [apply _| |intros; apply keeps_task_ret, _].
    by apply keeps_perform.
Qed.

Lemma getDirectorySize_reads depth dirPath :
  task_keeps (logged (λ e, is_read e.1)) (getDirectorySize (W:=W) depth dirPath).
Proof.
  revert dirPath. induction depth as [|depth IH]; intros dirPath; simpl.
  { apply keeps_out_of_depth, _. }
  apply keeps_attempt; [apply _| |intros; apply keeps_task_ret, _].
  apply keeps_task_bind; [apply _|by apply keeps_perform|intros items].
  by apply sumEntries_reads.
Qed.

Lemma getDirectorySize_never_throws depth dirPath :
  never_throws (getDirectorySize (W:=W) depth dirPath).
Proof.
  destruct depth; simpl; [apply never_throws_out_of_depth|].
  apply never_throws_attempt. intros _. apply never_throws_ret.
Qed.

Lemma sumEntries_deeper (f g : string → Task W N) dirPath items size s :
  (∀ p s, (f p s).1 ≠ Unfinished → g p s = f p s) →
  (sumEntries f dirPath items size s).1 ≠ Unfinished →
  sumEntries g dirPath items size s = sumEntries f dirPath items size s.
Proof.
  intros Hfg. revert size s.
  induction items as [|item items IH]; intros size s; simpl; [done|].
  rewrite !task_bind_eq. unfold attempt.
  destruct (de_isDirectory item).
  - rewrite !task_bind_eq. specialize (Hfg (path_join dirPath (de_name item)) s).
    destruct (f (path_join dirPath (de_name item)) s) as [[n|e|] s1] eqn:Hf;
      simpl in *.
    + rewrite Hfg by done. simpl. apply IH.
    + rewrite Hfg by done. simpl. apply IH.
    + done.
  - destruct ((perform _ _ ≫= _) s) as [[n|e|] s1]; simpl; [apply IH..|done].
Qed.

Lemma getDirectorySize_S depth dirPath (s : Machine W) :
  getDirectorySize (S depth) dirPath s
  = match io_readdir dirPath (disk s) with
    | (inl _, w) =>
        (Returned 0%N, mkMachine w (log s ++ [(OpReaddir dirPath, false)]))
    | (inr items, w) =>
        sumEntries (getDirectorySize depth) dirPath items 0%N
          (mkMachine w (log s ++ [(OpReaddir dirPath, true)]))
    end.
Proof.
  change (getDirectorySize (S depth) dirPath)
    with (attempt
            (items ← perform (OpReaddir dirPath) (io_readdir dirPath);
             sumEntries (getDirectorySize depth) dirPath items 0%N)
            (λ _, mret 0%N : Task W N)).
  unfold attempt. rewrite task_bind_eq, perform_eq.
  destruct (io_readdir dirPath (disk s)) as [[e|items] w]; [done|].
  pose proof (sumEntries_never_throws (getDirectorySize depth) dirPath items 0%N
                (mkMachine w (log s ++ [(OpReaddir dirPath, true)]))) as Hthrow.
  destruct (sumEntries _ _ _ _ _) as [[n|e|] s1]; [done| |done].
  by destruct (Hthrow e).
Qed.

Lemma getDirectorySize_deeper depth dirPath (s : Machine W) :
  (getDirectorySize depth dirPath s).1 ≠ Unfinished →
  getDirectorySize (S depth) dirPath s = getDirectorySize depth dirPath s.
Proof.
  revert dirPath s. induction depth as [|depth IH]; intros dirPath s; [done|].
  rewrite !getDirectorySize_S.
  destruct (io_readdir dirPath (disk s)) as [[e|items] w]; [done|].
  apply sumEntries_deeper, IH.
Qed.

Lemma foundSize_cons name t entries :
  foundSize (FoundDir ((name, t) :: entries))
  = (foundSize t + foundSize (FoundDir entries))%N.
Proof. reflexivity. Qed.

Lemma foundCalls_cons dir name t entries :
  foundCalls dir (FoundDir ((name, t) :: entries))
  = (OpReaddir dir, true)
    :: foundCalls (path_join dir name) t
    ++ tail (foundCalls dir (FoundDir entries)).
Proof. reflexivity. Qed.

#[local] Arguments foundSize : simpl never.
#[local] Arguments foundCalls : simpl never.
#[local] Arguments getDirectorySize : simpl never.

Lemma sumEntries_finds dir items entries (w w' : W) :
  finds dir items entries w w' →
  ∀ depth size l,
    forallb (λ e, nests depth e.2) entries = true →
    sumEntries (getDirectorySize depth) dir items size (mkMachine w l)
    = (Returned (size + foundSize (FoundDir entries))%N,
       mkMachine w' (l ++ tail (foundCalls dir (FoundDir entries)))).
Proof.
  induction 1 as [dir w
                 |dir item items stats n entries w w1 w' Hkind Hstat Hsize _ IH
                 |dir item items e entries w w1 w' Hkind Hstat _ IH
                 |dir item items e entries w w1 w' Hkind Hlist _ IH
                 |dir item items below inside entries w w1 w2 w'
                    Hkind Hlist _ IHinside _ IH];
    intros depth size l Hnests.
  - cbn. rewrite N.add_0_r, app_nil_r. reflexivity.
  - apply andb_prop in Hnests as [_ Hnests].
    rewrite foundSize_cons, foundCalls_cons.
    cbn [sumEntries]. rewrite task_bind_eq. unfold attempt.
    rewrite Hkind, task_bind_eq, perform_eq. simpl. rewrite Hstat. simpl.
    rewrite IH by done.
    rewrite Hsize, N.add_assoc, <- app_assoc. reflexivity.
  - apply andb_prop in Hnests as [_ Hnests].
    rewrite foundSize_cons, foundCalls_cons.
    cbn [sumEntries]. rewrite task_bind_eq. unfold attempt.
    rewrite Hkind, task_bind_eq, perform_eq. simpl. rewrite Hstat. simpl.
    rewrite IH by done.
    rewrite <- app_assoc. reflexivity.
  - apply andb_prop in Hnests as [Hdepth Hnests].
    rewrite foundSize_cons, foundCalls_cons.
    destruct depth as [|depth]; [done|].
    cbn [sumEntries]. rewrite task_bind_eq. unfold attempt.
    rewrite Hkind, task_bind_eq, getDirectorySize_S. simpl. rewrite Hlist. simpl.
    rewrite IH by done.
    rewrite N.add_0_r, <- app_assoc. reflexivity.
  - apply andb_prop in Hnests as [Hdepth Hnests].
    rewrite foundSize_cons, foundCalls_cons.
    destruct depth as [|depth]; [done|].
    cbn [sumEntries]. rewrite task_bind_eq. unfold attempt.
    rewrite Hkind, task_bind_eq, getDirectorySize_S. simpl. rewrite Hlist.
    rewrite (IHinside depth) by done. simpl.
    rewrite IH by done.
    rewrite N.add_0_l, N.add_assoc, <- !app_assoc. reflexivity.
Qed.

Lemma getDirectorySize_finds depth dir items entries (s : Machine W) w1 w' :
  io_readdir dir (disk s) = (inr items, w1) →
  finds dir items entries w1 w' →
  nests depth (FoundDir entries) = true →
  getDirectorySize depth dir s
  = (Returned (foundSize (FoundDir entries)),
     mkMachine w' (log s ++ foundCalls dir (FoundDir entries))).
Proof.
  intros Hlist Hfinds Hnests. destruct depth as [|depth]; [done|].
  rewrite getDirectorySize_S, Hlist.
  rewrite (sumEntries_finds _ _ _ _ _ Hfinds depth) by done.
  rewrite N.add_0_l, <- app_assoc. reflexivity.
Qed.

(** X25.  [getDirectorySize] only reads, and it never throws.  A directory
    that cannot be read has size 0.  The size of a directory that can be
    read is the sum of the sizes of what is found below it: an entry whose
    [stat] is rejected and a directory below it whose [readdir] is
    rejected are skipped and count as 0, and the entries after them are
    still counted.  A run that ends within a bound on the nesting ends in
    the same way within any larger bound. *)
Theorem directory_size_skips_errors (depth : nat) (dirPath : string)
    (s : Machine W) :
  let r := getDirectorySize depth dirPath s in
  (∀ e, r.1 ≠ Thrown e)
  ∧ logged (λ e, is_read e.1) s r.2
  ∧ (r.1 ≠ Unfinished → ∀ more, getDirectorySize (depth + more) dirPath s = r)
  ∧ (∀ e w, io_readdir dirPath (disk s) = (inl e, w) → depth ≠ O →
       r = (Returned 0%N, mkMachine w (log s ++ [(OpReaddir dirPath, false)])))
  ∧ (∀ items w1 entries w',
       io_readdir dirPath (disk s) = (inr items, w1) →
       finds dirPath items entries w1 w' →
       nests depth (FoundDir entries) = true →
       r = (Returned (foundSize (FoundDir entries)),
            mkMachine w' (log s ++ foundCalls dirPath (FoundDir entries)))).
Proof.
  intros r. subst r. split_and!.
  - apply getDirectorySize_never_throws.
  - apply getDirectorySize_reads.
  - intros Hfinished more. induction more as [|more IH].
    + by rewrite Nat.add_0_r.
    + rewrite Nat.add_succ_r, getDirectorySize_deeper; [done|].
      by rewrite IH.
  - intros e w Hreaddir Hdepth. destruct depth as [|depth]; [done|].
    by rewrite getDirectorySize_S, Hreaddir.
  - intros items w1 entries w'. apply getDirectorySize_finds.
Qed.

(** X26.  [get-item-info] only reads and never throws.  It reports a
    failure exactly when the [stat] of the item is rejected, with the
    message of that error.  Otherwise the information has the kind and the
    dates of the [stat]; its size is that of the [stat] for what is not a
    directory, after this one call, and for a directory the sum that
    [getDirectorySize] finds below it, 0 when it cannot be read. *)
Theorem item_info_fails_only_with_stat (depth : nat) (itemPath : string)
    (s : Machine W) :
  let r := getItemInfo depth itemPath s in
  let info stats size :=
    InfoOk (mkItemInfo (path_basename itemPath) itemPath size
              (st_birthtime stats) (st_mtime stats)
              (st_isDirectory stats) (st_isFile stats)) in
  (∀ e, r.1 ≠ Thrown e)
  ∧ logged (λ e, is_read e.1) s r.2
  ∧ match io_stat itemPath (disk s) with
    | (inl e, w) =>
        r = (Returned (InfoFailed (message e)),
             mkMachine w (log s ++ [(OpStat itemPath, false)]))
    | (inr stats, w) =>
        if st_isDirectory stats then
          match io_readdir itemPath w with
          | (inl e, w') =>
              depth ≠ O →
              r = (Returned (info stats 0%N),
                   mkMachine w' (log s ++ [(OpStat itemPath, true);
                                           (OpReaddir itemPath, false)]))
          | (inr items, w1) =>
              ∀ entries w',
                finds itemPath items entries w1 w' →
                nests depth (FoundDir entries) = true →
                r = (Returned (info stats (foundSize (FoundDir entries))),
                     mkMachine w' (log s ++ (OpStat itemPath, true)
                                     :: foundCalls itemPath (FoundDir entries)))
          end
        else
          r = (Returned (info stats (st_size stats)),
               mkMachine w (log s ++ [(OpStat itemPath, true)]))
    end.
Proof.
  intros r info. subst r info. split_and!.
  - apply never_throws_attempt. intros error. apply never_throws_ret.
  - assert (task_keeps (logged (λ e, is_read e.1))
              (getItemInfo (W:=W) depth itemPath)) as Hkeeps; [|apply Hkeeps].
    unfold getItemInfo.
    apply keeps_attempt; [apply _| |intros; apply keeps_task_ret, _].
    apply keeps_task_bind; [apply _|by apply keeps_perform|intros stats].
    apply keeps_task_bind; [apply _| |intros; apply keeps_task_ret, _].
    destruct (st_isDirectory stats);
      [apply getDirectorySize_reads|apply keeps_task_ret, _].
  - unfold getItemInfo, attempt. rewrite task_bind_eq, perform_eq.
    destruct (io_stat itemPath (disk s)) as [[e|stats] w]; simpl; [done|].
    rewrite task_bind_eq.
    destruct (st_isDirectory stats) eqn:Hdir; [|done].
    destruct (io_readdir itemPath w) as [[e|items] w1] eqn:Hlist.
    + intros Hdepth. destruct depth as [|depth]; [done|].
      rewrite getDirectorySize_S. simpl. rewrite Hlist. simpl.
      by rewrite <- app_assoc.
    + intros entries w' Hfinds Hnests.
      rewrite (getDirectorySize_finds depth itemPath items entries _ w1 w')
        by done.
      simpl. by rewrite <- app_assoc.
Qed.
End HandlerProperties.

(** ** The handlers on the small disk *)

Lemma copy_item_stops_at_first_failure_witness :
  let r := @copyItem Small.host _ SmallIo.disk_io 5 "/home/docs" "/home/apps/docs"
             (SmallIo.start Small.home) in
  r.1 = Returned Done
  ∧ length (log r.2) = 7%nat
  ∧ ∀ e, r.1 ≠ Thrown e.
Proof.
  intros r. split; [reflexivity|]. split; [reflexivity|].
  destruct (copy_item_stops_at_first_failure (H:=Small.host) (H1:=SmallIo.disk_io) 5 "/home/docs"
              "/home/apps/docs" (SmallIo.start Small.home))
    as (entries & _ & _ & _ & Hthrow).
  exact Hthrow.
Defined.

Lemma move_removes_source_after_copy_witness :
  let r := @moveItem Small.host _ SmallIo.disk_io 5 "/home/docs" "/home/apps/docs"
             (SmallIo.start Small.split_home) in
  let file := @moveItem Small.host _ SmallIo.disk_io 0 "/home/Notes.txt"
                "/home/apps/Notes.txt" (SmallIo.start Small.split_home) in
  (r.1 = Returned Done
   ∧ log r.2 = [(OpRename "/home/docs" "/home/apps/docs", false);
                (OpStat "/home/docs", true);
                (OpMkdir true "/home/apps/docs", true);
                (OpReaddir "/home/docs", true);
                (OpCopyFile "/home/docs/a.txt" "/home/apps/docs/a.txt", true);
                (OpMkdir true "/home/apps/docs/sub", true);
                (OpReaddir "/home/docs/sub", true);
                (OpCopyFile "/home/docs/sub/b.txt" "/home/apps/docs/sub/b.txt", true);
                (OpRm true false "/home/docs", true)])
  ∧ (file.1 = Returned Done
     ∧ log file.2 = [(OpRename "/home/Notes.txt" "/home/apps/Notes.txt", false);
                     (OpStat "/home/Notes.txt", true);
                     (OpCopyFile "/home/Notes.txt" "/home/apps/Notes.txt", true);
                     (OpUnlink "/home/Notes.txt", true)]).
Proof.
  intros r file. split.
  - destruct (move_removes_source_after_copy (H:=Small.host) (H1:=SmallIo.disk_io)
                5 "/home/docs" "/home/apps/docs" (SmallIo.start Small.split_home))
      as (_ & _ & Hdirectory & _).
    fold r in Hdirectory.
    pose proof (λ w4 Hcopied,
                  Hdirectory _ _ _ _ _
                    [mkDirent "a.txt" false true false;
                     mkDirent "sub" true false false]
                    _
                    [("a.txt", CopiedFile);
                     ("sub", CopiedDir [("b.txt", CopiedFile)])]
                    w4 eq_refl eq_refl eq_refl eq_refl eq_refl Hcopied eq_refl)
      as Hrun.
    erewrite Hrun.
    2: { eapply (duplicates_file (H:=Small.host) (H0:=SmallIo.disk_io));
           [reflexivity|reflexivity|].
         eapply (duplicates_dir (H:=Small.host) (H0:=SmallIo.disk_io)
                   "/home/docs" "/home/apps/docs" (mkDirent "sub" true false false) _
                   [mkDirent "b.txt" false true false]);
           [reflexivity|reflexivity|reflexivity| |].
         - eapply (duplicates_file (H:=Small.host) (H0:=SmallIo.disk_io));
             [reflexivity|reflexivity|].
           apply duplicates_end.
         - apply duplicates_end. }
    split; reflexivity.
  - destruct (move_removes_source_after_copy (H:=Small.host) (H1:=SmallIo.disk_io)
                0 "/home/Notes.txt" "/home/apps/Notes.txt"
                (SmallIo.start Small.split_home))
      as (_ & _ & _ & Hfile).
    fold file in Hfile.
    rewrite (Hfile _ _ _ _ eq_refl eq_refl eq_refl).
    split; reflexivity.
Defined.

Lemma delete_reports_its_last_call_witness :
  let r := @deleteItem _ SmallIo.disk_io "/home/Notes.txt" (SmallIo.start Small.home) in
  r.1 = Returned Done
  ∧ Small.nodes (disk r.2) !! "/home/Notes.txt" = None
  ∧ ∃ reply entries,
      r.1 = Returned reply ∧ log r.2 = [] ++ entries
      ∧ entries = [(OpStat "/home/Notes.txt", true); (OpUnlink "/home/Notes.txt", true)].
Proof.
  intros r. split; [reflexivity|]. split; [reflexivity|].
  destruct (delete_reports_its_last_call (H1:=SmallIo.disk_io) "/home/Notes.txt"
              (SmallIo.start Small.home))
    as (reply & entries & Hreply & Hlog & _ & _ & Horder).
  exists reply, entries. split; [exact Hreply|]. split; [exact Hlog|exact Horder].
Defined.

Lemma unique_path_is_first_free_witness :
  let r := @findUniquePath Small.host SmallMore.hostMore _ SmallIo.disk_io
             "/home/Notes.txt" "file" (SmallIo.start Small.home) in
  r.1 = Returned "/home/Notes (1).txt"
  ∧ ∃ i, (1 ≤ i ≤ LAST_CANDIDATE)%nat
         ∧ r.1 = Returned (@candidatePath Small.host SmallMore.hostMore
                             "/home/Notes.txt" "file" i).
Proof.
  intros r. assert (r.1 = Returned "/home/Notes (1).txt") as Hr by (by vm_compute).
  split; [exact Hr|].
  destruct (unique_path_is_first_free (H:=Small.host) (H0:=SmallMore.hostMore)
              (H1:=SmallIo.disk_io) "/home/Notes.txt" "file"
              (SmallIo.start Small.home))
    as [(i & Hi & Hfound & _)|[Hthrown _]].
  - exists i. split; [exact Hi|exact Hfound].
  - fold r in Hthrown. rewrite Hr in Hthrown. discriminate.
Defined.

Lemma created_path_is_made_by_the_call_witness :
  let folder := @createFolder Small.host SmallMore.hostMore _ SmallIo.disk_io
                  "/home" "docs" (SmallIo.start Small.home) in
  folder.1 = Returned (DoneAt "/home/docs (1)")
  ∧ creates_reply (H:=Small.host) (H0:=SmallMore.hostMore) (OpMkdir false)
      "/home/docs" "folder" (SmallIo.start Small.home) folder.
Proof.
  intros folder. split; [by vm_compute|].
  destruct (created_path_is_made_by_the_call (H:=Small.host)
              (H0:=SmallMore.hostMore) (H1:=SmallIo.disk_io) "/home" "docs"
              (SmallIo.start Small.home))
    as (_ & _ & Hmade & _).
  exact Hmade.
Defined.

Lemma directory_size_skips_errors_witness :
  let d := Small.mkDisk
             (list_to_map
                [("/home", Small.DirNode ["gone.txt"; "docs"; "Notes.txt"]);
                 ("/home/docs", Small.DirNode ["a.txt"]);
                 ("/home/docs/a.txt", Small.FileNode 10);
                 ("/home/Notes.txt", Small.FileNode 7)])
             false in
  let found := FoundDir [("gone.txt", FoundNoStat);
                         ("docs", FoundDir [("a.txt", FoundFile 10)]);
                         ("Notes.txt", FoundFile 7)] in
  let r := @getDirectorySize Small.host _ SmallIo.disk_io 5 "/home" (SmallIo.start d) in
  foundSize found = 17%N
  ∧ r = (Returned 17%N,
         mkMachine d [(OpReaddir "/home", true); (OpStat "/home/gone.txt", false);
                      (OpReaddir "/home/docs", true);
                      (OpStat "/home/docs/a.txt", true);
                      (OpStat "/home/Notes.txt", true)]).
Proof.
  intros d found r. split; [reflexivity|].
  destruct (directory_size_skips_errors (H:=Small.host) (H1:=SmallIo.disk_io) 5 "/home"
              (SmallIo.start d)) as (_ & _ & _ & _ & Hfound).
  apply (Hfound [mkDirent "gone.txt" false true false;
                 mkDirent "docs" true false false;
                 mkDirent "Notes.txt" false true false]
           d
           [("gone.txt", FoundNoStat);
            ("docs", FoundDir [("a.txt", FoundFile 10)]);
            ("Notes.txt", FoundFile 7)]
           d).
  - reflexivity.
  - eapply (finds_no_stat (H:=Small.host) (H0:=SmallIo.disk_io));
      [reflexivity|reflexivity|].
    eapply (finds_dir (H:=Small.host) (H0:=SmallIo.disk_io)
              "/home" (mkDirent "docs" true false false) _
              [mkDirent "a.txt" false true false]);
      [reflexivity|reflexivity| |].
    + eapply (finds_file (H:=Small.host) (H0:=SmallIo.disk_io));
        [reflexivity|reflexivity|reflexivity|].
      apply finds_end.
    + eapply (finds_file (H:=Small.host) (H0:=SmallIo.disk_io));
        [reflexivity|reflexivity|reflexivity|].
      apply finds_end.
  - reflexivity.
Defined.

Lemma item_info_fails_only_with_stat_witness :
  let missing := @getItemInfo Small.host _ SmallIo.disk_io 5 "/home/missing"
                   (SmallIo.start Small.home) in
  let notes := @getItemInfo Small.host _ SmallIo.disk_io 0 "/home/Notes.txt"
                 (SmallIo.start Small.home) in
  let apps := @getItemInfo Small.host _ SmallIo.disk_io 1 "/home/apps"
                (SmallIo.start Small.home) in
  missing.1 = Returned (InfoFailed "ENOENT: operation failed")
  ∧ (∀ e, missing.1 ≠ Thrown e)
  ∧ notes = (Returned (InfoOk (mkItemInfo "Notes.txt" "/home/Notes.txt" 7
                                 (Millis 0) (Millis 0) false true)),
             mkMachine Small.home [(OpStat "/home/Notes.txt", true)])
  ∧ apps = (Returned (InfoOk (mkItemInfo "apps" "/home/apps" 0
                                (Millis 0) (Millis 0) true false)),
            mkMachine Small.home [(OpStat "/home/apps", true);
                                  (OpReaddir "/home/apps", true)]).
Proof.
  intros missing notes apps. split; [reflexivity|].
  split.
  - destruct (item_info_fails_only_with_stat (H:=Small.host) (H1:=SmallIo.disk_io)
                5 "/home/missing" (SmallIo.start Small.home)) as (Hthrow & _).
    exact Hthrow.
  - split.
    + destruct (item_info_fails_only_with_stat (H:=Small.host) (H1:=SmallIo.disk_io)
                  0 "/home/Notes.txt" (SmallIo.start Small.home)) as (_ & _ & Hinfo).
      exact Hinfo.
    + destruct (item_info_fails_only_with_stat (H:=Small.host) (H1:=SmallIo.disk_io)
                  1 "/home/apps" (SmallIo.start Small.home)) as (_ & _ & Hinfo).
      apply (Hinfo [] Small.home); [apply finds_end|reflexivity].
Defined.
